(** * Algorithm-Visualizer: trace generators and their properties

    A shallow embedding of the trace generators of the visualizer
    (sorting, searching, pathfinding, linked list) and of the handlers
    that call them.

    Conventions.
    - JavaScript numbers are modelled by [Z] (the inputs the validators
      accept here are integers; precision limits of doubles are ignored).
    - An array is a [list]; an index is a [Z], as in the source it may
      become [-1].  A read out of range yields [None] (JavaScript's
      [undefined]) and every comparison with [undefined] is false.
    - The narrative [text] of an animation is not modelled; an animation
      keeps its [type] and its [indices] (or its [node]).
    - [animations.push(e)] appends [e] at the end of the list. *)

From Stdlib Require Import ZArith Lia Ascii String Wf_nat.
From stdpp Require Import base list strings sorting gmap.

Open Scope Z_scope.

(** ** Arrays indexed by integers *)

Module Arr.

Definition get {A} (arr : list A) (i : Z) : option A :=
  if i <? 0 then None else arr !! Z.to_nat i.

(** [arr[i] = x].  Writes are modelled inside the array only: the
    generators never write outside it (their writes are guarded by the
    loop bounds), so JavaScript's growth of the array does not arise. *)
Definition set {A} (arr : list A) (i : Z) (x : A) : list A :=
  if i <? 0 then arr else <[Z.to_nat i := x]> arr.

(** [[arr[i], arr[j]] = [arr[j], arr[i]]]: both cells are read, then
    [arr[i]] and [arr[j]] are written in that order. *)
Definition swap {A} (arr : list A) (i j : Z) : list A :=
  match get arr i, get arr j with
  | Some a, Some b => set (set arr i b) j a
  | _, _ => arr
  end.

Definition len {A} (arr : list A) : Z := Z.of_nat (length arr).

End Arr.

(** ** Loop combinators *)

(** [for (let j = lo; j < hi; j++) s = body j s] *)
Definition for_range {St} (lo hi : Z) (body : Z → St → St) (s : St) : St :=
  foldl (λ s j, body j s) s (seqZ lo (hi - lo)).

(** The same loop when the body may fail to return. *)
Definition for_rangeM {St} (lo hi : Z) (body : Z → St → option St) (s : St)
  : option St :=
  foldl (λ s j, s ≫= body j) (Some s) (seqZ lo (hi - lo)).

(** [for (let j = hi; j >= lo; j--) s = body j s] *)
Definition for_downM {St} (hi lo : Z) (body : Z → St → option St) (s : St)
  : option St :=
  foldl (λ s j, s ≫= body j) (Some s) (reverse (seqZ lo (hi - lo + 1))).

(** [while (cond s) s = body s], cut off after [fuel] iterations.  A
    generator that has a [while] loop or a recursion returns an [option]:
    [None] stands for "no result in the model" (the fuel ran out, or a
    cell read as [undefined] would have been stored). *)
Fixpoint while_do {St} (fuel : nat) (cond : St → bool) (body : St → option St)
  (s : St) : option St :=
  match fuel with
  | O => None
  | S fuel => if cond s then body s ≫= while_do fuel cond body else Some s
  end.

(** ** Sorting generators (SortingVisualizer.js) *)

Inductive sort_order := ascending | descending.

Inductive anim_type :=
  | compare | swap | reset | final_position | mark_min | mark_min_change
  | mark_key | shift | place | reset_key | mark_pivot | reset_compare
  | overwrite.

Record animation := Anim { type : anim_type; indices : list Z }.

Record sort_result (elem : Type) :=
  SortResult { animations : list animation; finalArray : list elem }.
Arguments SortResult {elem}.
Arguments animations {elem}.
Arguments finalArray {elem}.

#[global] Instance anim_type_eq_dec : EqDecision anim_type.
Proof. solve_decision. Defined.

(** JavaScript [a > b] and [a < b] on array reads. *)
Definition js_gt (a b : option Z) : bool :=
  match a, b with Some x, Some y => x >? y | _, _ => false end.
Definition js_lt (a b : option Z) : bool :=
  match a, b with Some x, Some y => x <? y | _, _ => false end.
Definition js_le (a b : option Z) : bool :=
  match a, b with Some x, Some y => x <=? y | _, _ => false end.
Definition js_ge (a b : option Z) : bool :=
  match a, b with Some x, Some y => x >=? y | _, _ => false end.

(** [sortOrder === 'ascending' ? a > b : a < b], the comparator of
    [shouldSwap], [shouldUpdateMinIndex], [shouldShift] and
    [shouldHeapify]. *)
Definition ord_gt (sortOrder : sort_order) (a b : option Z) : bool :=
  match sortOrder with ascending => js_gt a b | descending => js_lt a b end.

Section Sorting.
(** The generators only compare their elements; [val] gives the number
    an element is compared by.  At [elem := Z] and [val := id] this is
    the source; other instances tag equal numbers to tell them apart. *)
Context {elem : Type} (val : elem → Z).

Definition key (arr : list elem) (i : Z) : option Z := val <$> Arr.get arr i.

Definition isArraySorted (array : list elem) (sortOrder : sort_order) : bool :=
  if Arr.len array <=? 1 then true
  else
    forallb
      (λ i, match sortOrder with
            | ascending => negb (js_gt (key array (i - 1)) (key array i))
            | descending => negb (js_lt (key array (i - 1)) (key array i))
            end)
      (seqZ 1 (Arr.len array - 1)).

Definition bubbleSort (array : list elem) (sortOrder : sort_order)
  : sort_result elem :=
  let n := Arr.len array in
  let shouldSwap := ord_gt sortOrder in
  let '(arr, animations) :=
    for_range 0 (n - 1) (λ i st,
      let '(arr, animations) :=
        for_range 0 (n - i - 1) (λ j '(arr, animations),
          let animations := animations ++ [Anim compare [j; j + 1]] in
          let '(arr, animations) :=
            if shouldSwap (key arr j) (key arr (j + 1))
            then (Arr.swap arr j (j + 1),
                  animations ++ [Anim swap [j; j + 1]])
            else (arr, animations) in
          (arr, animations ++ [Anim reset [j; j + 1]])) st in
      (arr, animations ++ [Anim final_position [n - 1 - i]]))
      (array, []) in
  SortResult (animations ++ [Anim final_position [0]]) arr.

Definition selectionSort (array : list elem) (sortOrder : sort_order)
  : sort_result elem :=
  let n := Arr.len array in
  let shouldUpdateMinIndex := ord_gt sortOrder in
  let '(arr, animations) :=
    for_range 0 n (λ i '(arr, animations),
      let animations := animations ++ [Anim mark_min [i]] in
      let '(minOrMaxIndex, animations) :=
        for_range (i + 1) n (λ j '(minOrMaxIndex, animations),
          let animations :=
            animations ++ [Anim compare [j; minOrMaxIndex]] in
          let '(minOrMaxIndex', animations) :=
            if shouldUpdateMinIndex (key arr minOrMaxIndex) (key arr j)
            then (j, animations ++ [Anim mark_min_change [j; minOrMaxIndex]])
            else (minOrMaxIndex, animations) in
          (minOrMaxIndex', animations ++ [Anim reset [j; minOrMaxIndex']]))
          (i, animations) in
      let '(arr, animations) :=
        if negb (minOrMaxIndex =? i)
        then (Arr.swap arr i minOrMaxIndex,
              animations ++ [Anim swap [i; minOrMaxIndex]])
        else (arr, animations) in
      (arr, animations ++ [Anim final_position [i]]))
      (array, []) in
  SortResult (animations ++ [Anim final_position [n - 1]]) arr.

(** The [while] loop of [insertionSort]; its state is [(arr, animations, j)]. *)
Definition insertionSort_shift (sortOrder : sort_order) (fuel : nat)
  (k : elem) (i : Z) (st : list elem * list animation * Z)
  : option (list elem * list animation * Z) :=
  let shouldShift := ord_gt sortOrder in
  while_do fuel
    (λ '(arr, animations, j), (0 <=? j) && shouldShift (key arr j) (Some (val k)))
    (λ '(arr, animations, j),
      let animations := animations ++ [Anim compare [j; i]] in
      let animations := animations ++ [Anim shift [j; j + 1]] in
      aj ← Arr.get arr j;
      Some (Arr.set arr (j + 1) aj, animations, j - 1))
    st.

Definition insertionSort (array : list elem) (sortOrder : sort_order)
  : option (sort_result elem) :=
  let n := Arr.len array in
  '(arr, animations) ←
    for_rangeM 1 n (λ i '(arr, animations),
      k ← Arr.get arr i;
      let j := i - 1 in
      let animations := animations ++ [Anim mark_key [i]] in
      '(arr, animations, j) ←
        insertionSort_shift sortOrder (S (length array)) k i
          (arr, animations, j);
      let arr := Arr.set arr (j + 1) k in
      let animations := animations ++ [Anim place [j + 1; i]] in
      Some (arr, animations ++ [Anim reset_key [j + 1; i]]))
      (array, []);
  let animations :=
    for_range 0 n (λ i animations,
      animations ++ [Anim final_position [i]]) animations in
  Some (SortResult (animations ++ [Anim final_position [n - 1]]) arr).

(** [shouldPartition(pivot, element)] *)
Definition shouldPartition (sortOrder : sort_order)
  (pivot element : option Z) : bool :=
  match sortOrder with
  | ascending => js_le element pivot
  | descending => js_ge element pivot
  end.

(** [partition] of [quickSort]; returns the state and the pivot index. *)
Definition quickSort_partition (sortOrder : sort_order)
  (st : list elem * list animation) (low high : Z)
  : list elem * list animation * Z :=
  let '(arr, animations) := st in
  let pivot := key arr high in
  let animations := animations ++ [Anim mark_pivot [high]] in
  let i := low - 1 in
  let '(arr, animations, i) :=
    for_range low high (λ j '(arr, animations, i),
      let animations := animations ++ [Anim compare [j; high]] in
      let '(arr, animations, i) :=
        if shouldPartition sortOrder pivot (key arr j)
        then
          let i := i + 1 in
          (Arr.swap arr i j, animations ++ [Anim swap [i; j]], i)
        else (arr, animations, i) in
      (arr, animations ++ [Anim reset_compare [j; high]], i))
      (arr, animations, i) in
  let animations := animations ++ [Anim swap [i + 1; high]] in
  let arr := Arr.swap arr (i + 1) high in
  let animations := animations ++ [Anim final_position [i + 1]] in
  (arr, animations, i + 1).

(** [sort] of [quickSort] *)
Fixpoint quickSort_sort (fuel : nat) (sortOrder : sort_order)
  (st : list elem * list animation) (low high : Z)
  : option (list elem * list animation) :=
  match fuel with
  | O => None
  | S fuel =>
      if low <? high then
        let '(st, pi) := quickSort_partition sortOrder st low high in
        st ← quickSort_sort fuel sortOrder st low (pi - 1);
        quickSort_sort fuel sortOrder st (pi + 1) high
      else Some st
  end.

Definition quickSort (array : list elem) (sortOrder : sort_order)
  : option (sort_result elem) :=
  let n := Arr.len array in
  '(arr, animations) ←
    quickSort_sort (S (length array)) sortOrder (array, []) 0 (n - 1);
  let animations :=
    for_range 0 n (λ i animations,
      animations ++ [Anim final_position [i]]) animations in
  Some (SortResult (animations ++ [Anim final_position [n - 1]]) arr).

(** [merge] of [mergeSort].  [temp[k++] = x] appends to [temp], whose
    length is [k] throughout. *)
Definition mergeSort_merge (fuel : nat) (sortOrder : sort_order)
  (st : list elem * list animation) (l m r : Z)
  : option (list elem * list animation) :=
  let '(arr, animations) := st in
  let shouldSwap := ord_gt sortOrder in
  '(i, j, temp, animations) ←
    while_do fuel
      (λ '(i, j, temp, animations), (i <=? m) && (j <=? r))
      (λ '(i, j, temp, animations),
        let animations := animations ++ [Anim compare [i; j]] in
        '(i, j, temp) ←
          (if shouldSwap (key arr j) (key arr i)
           then x ← Arr.get arr i; Some (i + 1, j, temp ++ [x])
           else x ← Arr.get arr j; Some (i, j + 1, temp ++ [x]));
        Some (i, j, temp,
              animations ++ [Anim reset_compare [i - 1; j - 1]]))
      (l, m + 1, [], animations);
  '(i, temp) ←
    while_do fuel
      (λ '(i, temp), i <=? m)
      (λ '(i, temp), x ← Arr.get arr i; Some (i + 1, temp ++ [x]))
      (i, temp);
  '(j, temp) ←
    while_do fuel
      (λ '(j, temp), j <=? r)
      (λ '(j, temp), x ← Arr.get arr j; Some (j + 1, temp ++ [x]))
      (j, temp);
  for_rangeM l (r + 1) (λ i '(arr, animations),
    let k := i - l in
    x ← Arr.get temp k;
    Some (Arr.set arr i x, animations ++ [Anim overwrite [i; val x]]))
    (arr, animations).

(** [sort] of [mergeSort]; [Math.floor(l + (r - l) / 2)] is
    [l + (r - l) / 2] on integers. *)
Fixpoint mergeSort_sort (fuel : nat) (sortOrder : sort_order)
  (st : list elem * list animation) (l r : Z)
  : option (list elem * list animation) :=
  match fuel with
  | O => None
  | S fuel =>
      if l <? r then
        let m := l + (r - l) / 2 in
        st ← mergeSort_sort fuel sortOrder st l m;
        st ← mergeSort_sort fuel sortOrder st (m + 1) r;
        mergeSort_merge (S (S (length st.1))) sortOrder st l m r
      else Some st
  end.

Definition mergeSort (array : list elem) (sortOrder : sort_order)
  : option (sort_result elem) :=
  let n := Arr.len array in
  '(arr, animations) ←
    mergeSort_sort (S (length array)) sortOrder (array, []) 0 (n - 1);
  let animations :=
    for_range 0 n (λ i animations,
      animations ++ [Anim final_position [i]]) animations in
  Some (SortResult (animations ++ [Anim final_position [n - 1]]) arr).

(** [heapify] of [heapSort] *)
Fixpoint heapSort_heapify (fuel : nat) (sortOrder : sort_order)
  (st : list elem * list animation) (n i : Z)
  : option (list elem * list animation) :=
  match fuel with
  | O => None
  | S fuel =>
      let '(arr, animations) := st in
      let shouldHeapify := ord_gt sortOrder in
      let largest := i in
      let l := 2 * i + 1 in
      let r := 2 * i + 2 in
      let largest :=
        if (l <? n) && shouldHeapify (key arr l) (key arr largest)
        then l else largest in
      let largest :=
        if (r <? n) && shouldHeapify (key arr r) (key arr largest)
        then r else largest in
      if negb (largest =? i) then
        let animations := animations ++ [Anim compare [i; largest]] in
        let animations := animations ++ [Anim swap [i; largest]] in
        let arr := Arr.swap arr i largest in
        heapSort_heapify fuel sortOrder (arr, animations) n largest
      else Some (arr, animations)
  end.

Definition heapSort (array : list elem) (sortOrder : sort_order)
  : option (sort_result elem) :=
  let n := Arr.len array in
  let fuel := S (length array) in
  st ← for_downM (n / 2 - 1) 0 (λ i st,
          heapSort_heapify fuel sortOrder st n i) (array, []);
  '(arr, animations) ←
    for_downM (n - 1) 1 (λ i '(arr, animations),
      let animations := animations ++ [Anim swap [0; i]] in
      let arr := Arr.swap arr 0 i in
      let animations := animations ++ [Anim final_position [i]] in
      heapSort_heapify fuel sortOrder (arr, animations) i 0) st;
  Some (SortResult (animations ++ [Anim final_position [0]]) arr).

End Sorting.

(** The order a comparator of the generators sorts by. *)
Definition leo (sortOrder : sort_order) (a b : Z) : Prop :=
  match sortOrder with ascending => a ≤ b | descending => b ≤ a end.

#[global] Instance leo_dec sortOrder a b : Decision (leo sortOrder a b).
Proof. destruct sortOrder; simpl; apply _. Defined.

(** The canonical sort of a sequence of numbers under an order. *)
Definition canonical_sort (sortOrder : sort_order) (l : list Z) : list Z :=
  merge_sort (leo sortOrder) l.

(** Positions [lo .. hi-1] of [arr] are in order (by their keys). *)
Definition kz {elem} (val : elem → Z) (arr : list elem) (i : Z) : Z :=
  default 0 (val <$> Arr.get arr i).

Definition sorted_range {elem} (val : elem → Z) (sortOrder : sort_order)
  (arr : list elem) (lo hi : Z) : Prop :=
  ∀ i j, lo ≤ i → i ≤ j → j < hi →
    leo sortOrder (kz val arr i) (kz val arr j).

(** A sequence is sorted by key when every element is in order with every
    later one. *)
Definition sorted_by {elem} (val : elem → Z) (sortOrder : sort_order)
  (l : list elem) : Prop :=
  StronglySorted (λ x y, leo sortOrder (val x) (val y)) l.

(** Stability: elements with the same key keep their relative order.  An
    element is tagged with its position in the input, and in the output
    equal keys must come with increasing tags. *)
Definition tag_positions (l : list Z) : list (Z * nat) :=
  zip l (seq 0 (length l)).

Definition stable_output (out : list (Z * nat)) : Prop :=
  ∀ (i j : nat) x y, (i < j)%nat →
    out !! i = Some x → out !! j = Some y → x.1 = y.1 → (x.2 < y.2)%nat.

(** ** Searching generators (SearchingVisualizer.js) *)

Module Searching.

Inductive anim_type := compare | compare_range | found | not_found | adjust_range.

Record animation := Anim { type : anim_type; indices : list Z }.

#[global] Instance anim_type_eq_dec : EqDecision anim_type.
Proof. solve_decision. Defined.

(** [a === b] on numbers, one of which may be [undefined]. *)
Definition js_eq (a b : option Z) : bool :=
  match a, b with Some x, Some y => x =? y | _, _ => false end.

(** The loop of [binarySearch]; [Math.floor((low + high) / 2)] is
    [(low + high) / 2] on integers. *)
Fixpoint binarySearch_loop (fuel : nat) (arr : list Z) (target : Z)
  (low high : Z) (animations : list animation) : option (list animation) :=
  match fuel with
  | O => None
  | S fuel =>
      if low <=? high then
        let mid := (low + high) / 2 in
        let animations := animations ++ [Anim compare_range [low; high]] in
        let animations := animations ++ [Anim compare [mid]] in
        if js_eq (Arr.get arr mid) (Some target) then
          Some (animations ++ [Anim found [mid]])
        else if js_lt (Arr.get arr mid) (Some target) then
          let low := mid + 1 in
          binarySearch_loop fuel arr target low high
            (animations ++ [Anim adjust_range [mid; low]])
        else
          let high := mid - 1 in
          binarySearch_loop fuel arr target low high
            (animations ++ [Anim adjust_range [mid; high]])
      else Some (animations ++ [Anim not_found []])
  end.

Definition binarySearch (array : list Z) (target : Z)
  : option (list animation) :=
  let arr := array in
  binarySearch_loop (S (length arr)) arr target 0 (Arr.len arr - 1) [].

(** The events of a trace that compare or announce a range. *)
Definition is_comparison_or_range (a : animation) : bool :=
  bool_decide (type a = compare ∨ type a = compare_range).

Definition count_type (t : anim_type) (l : list animation) : nat :=
  length (filter (λ a, type a = t) l).

End Searching.

(** ** Priority queue *)

(** Modelled from the spec: the priority queue of the pathfinders is the
    npm package [priorityqueuejs], which is not part of the sources.  The
    spec (4.1) gives its contract: [insert(key, priority)], [extractBest()]
    "removes and returns the entry with the best priority under the
    configured ordering", [isEmpty()]; duplicate keys are allowed.  Both
    use sites order by [(a, b) => b.p - a.p], so the best entry is one of
    least priority.  The queue is kept in insertion order and the first
    entry of least priority is extracted. *)
Module PriorityQueue.

Abbreviation entry := (string * Z)%type (only parsing).
Abbreviation t := (list entry) (only parsing).

Definition empty : t := [].
Definition isEmpty (q : t) : bool := bool_decide (q = []).
Definition enq (e : entry) (q : t) : t := q ++ [e].

Fixpoint best (q : t) : option entry :=
  match q with
  | [] => None
  | e :: q =>
      match best q with
      | Some b => if b.2 <? e.2 then Some b else Some e
      | None => Some e
      end
  end.

Fixpoint remove (e : entry) (q : t) : t :=
  match q with
  | [] => []
  | x :: q => if decide (x = e) then q else x :: remove e q
  end.

Definition deq (q : t) : option (entry * t) :=
  b ← best q; Some (b, remove b q).

End PriorityQueue.

(** ** Graph model and pathfinding generators (GraphVisualizer) *)

Module Graph.

(** A JavaScript [Map] from strings kept in insertion order, as
    [adjList.keys()] is iterated. *)
Module OMap.
Abbreviation t V := (list (string * V)) (only parsing).
Fixpoint get {V} (m : t V) (k : string) : option V :=
  match m with
  | [] => None
  | (k', v) :: m => if decide (k' = k) then Some v else get m k
  end.
Definition has {V} (m : t V) (k : string) : bool :=
  bool_decide (is_Some (get m k)).
Fixpoint set {V} (m : t V) (k : string) (v : V) : t V :=
  match m with
  | [] => [(k, v)]
  | (k', v') :: m => if decide (k' = k) then (k, v) :: m
                     else (k', v') :: set m k v
  end.
Definition keys {V} (m : t V) : list string := fst <$> m.
End OMap.

(** The key [`${u}-${v}`] of the weight map. *)
Definition edge_key (u v : string) : string := u +:+ "-" +:+ v.

Definition buildAdjacencyList (edges : list (string * string))
  (weights : list (string * string * Z))
  : OMap.t (list string) * gmap string Z :=
  let newAdjList :=
    foldl (λ adj '(u, v),
      let adj := if OMap.has adj u then adj else OMap.set adj u [] in
      let adj := if OMap.has adj v then adj else OMap.set adj v [] in
      let adj := OMap.set adj u (default [] (OMap.get adj u) ++ [v]) in
      OMap.set adj v (default [] (OMap.get adj v) ++ [u]))
      [] edges in
  let newEdgeWeights :=
    foldl (λ (ew : gmap string Z) '(u, v, w),
      <[edge_key v u := w]> (<[edge_key u v := w]> ew))
      ∅ weights in
  (newAdjList, newEdgeWeights).

(** Distances are numbers or [Infinity]; a missing map entry reads as
    [undefined], which arithmetic turns into [NaN].  [None] stands for
    both. *)
Inductive num := Fin (z : Z) | Infinity.

Definition num_add (a : option num) (w : option Z) : option num :=
  match a, w with
  | Some (Fin x), Some w => Some (Fin (x + w))
  | Some Infinity, Some _ => Some Infinity
  | _, _ => None
  end.

Definition num_lt (a b : option num) : bool :=
  match a, b with
  | Some (Fin x), Some (Fin y) => x <? y
  | Some (Fin _), Some Infinity => true
  | _, _ => false
  end.

Definition num_gt (a b : option num) : bool := num_lt b a.

Inductive animation :=
  | start_dijkstra (node : string)
  | visit_dijkstra (node : string)
  | update_distance (node : string) (newDistance : Z)
  | start_a_star (node : string)
  | found_path (node : string)
  | visit_a_star (node : string)
  | update_a_star (node : string)
  | final_path (path : list string)
  | complete.

Record result := Result {
  animations : list animation;
  path : list string;
  distances : gmap string num }.

(** How a run ends: it returns, it throws, or the model stops it because
    the fuel ran out. *)
Inductive js_error := TypeError.
Inductive outcome (A : Type) :=
  | Return (a : A) | Throws (e : js_error) | OutOfFuel.
Arguments Return {A}.
Arguments Throws {A}.
Arguments OutOfFuel {A}.

(** [while (current) { path.unshift(current); current = previous.get(current) }];
    the empty string is falsy. *)
Fixpoint reconstruct (fuel : nat) (previous : gmap string string)
  (current : option string) (path : list string) : option (list string) :=
  match fuel with
  | O => None
  | S fuel =>
      match current with
      | Some c =>
          if bool_decide (c = "") then Some path
          else reconstruct fuel previous (previous !! c) (c :: path)
      | None => Some path
      end
  end.

Section Pathfinding.
Context (adjList : OMap.t (list string)) (edgeWeights : gmap string Z).
Context (startNode endNode : string).

Record dijkstra_state := DState {
  d_distances : gmap string num;
  d_previous : gmap string string;
  d_pq : PriorityQueue.t;
  d_animations : list animation }.

(** The body of [for (const v of adjList.get(u))] in [dijkstra].  A
    [newDistance] that is smaller than a distance is a finite number. *)
Definition dijkstra_relax (u : string) (st : dijkstra_state) (v : string)
  : dijkstra_state :=
  let weight := edgeWeights !! edge_key u v in
  let newDistance := num_add (d_distances st !! u) weight in
  if num_lt newDistance (d_distances st !! v) then
    match newDistance with
    | Some (Fin nd) =>
        DState (<[v := Fin nd]> (d_distances st))
               (<[v := u]> (d_previous st))
               (PriorityQueue.enq (v, nd) (d_pq st))
               (d_animations st ++ [update_distance v nd])
    | _ => st
    end
  else st.

(** [while (!pq.isEmpty()) { ... }] of [dijkstra] *)
Fixpoint dijkstra_loop (fuel : nat) (st : dijkstra_state)
  : outcome dijkstra_state :=
  match fuel with
  | O => OutOfFuel
  | S fuel =>
      match PriorityQueue.deq (d_pq st) with
      | None => Return st
      | Some ((u, distance), pq) =>
          let st := DState (d_distances st) (d_previous st) pq
                           (d_animations st) in
          if num_gt (Some (Fin distance)) (d_distances st !! u)
          then dijkstra_loop fuel st
          else
            let st := DState (d_distances st) (d_previous st) (d_pq st)
                             (d_animations st ++ [visit_dijkstra u]) in
            if bool_decide (u = endNode) then Return st
            else
              match OMap.get adjList u with
              | None => Throws TypeError
              | Some neighbours =>
                  dijkstra_loop fuel (foldl (dijkstra_relax u) st neighbours)
              end
      end
  end.

Definition dijkstra (fuel : nat) : outcome result :=
  let distances :=
    foldl (λ (d : gmap string num) node, <[node := Infinity]> d)
          ∅ (OMap.keys adjList) in
  let distances := <[startNode := Fin 0]> distances in
  let pq := PriorityQueue.enq (startNode, 0) PriorityQueue.empty in
  let animations := [start_dijkstra startNode] in
  match dijkstra_loop fuel (DState distances ∅ pq animations) with
  | Return st =>
      match reconstruct fuel (d_previous st) (Some endNode) [] with
      | Some path =>
          let animations := d_animations st ++ [final_path path] in
          let animations := animations ++ [complete] in
          Return (Result animations path (d_distances st))
      | None => OutOfFuel
      end
  | Throws e => Throws e
  | OutOfFuel => OutOfFuel
  end.

(** The heuristic is supplied by the caller. *)
Context (heuristic : string → string → Z).

Record astar_state := AState {
  a_gScores : gmap string num;
  a_fScores : gmap string num;
  a_previous : gmap string string;
  a_pq : PriorityQueue.t;
  a_animations : list animation }.

Definition aStar_relax (u : string) (st : astar_state) (v : string)
  : astar_state :=
  let weight := edgeWeights !! edge_key u v in
  let tentativeGScore := num_add (a_gScores st !! u) weight in
  if num_lt tentativeGScore (a_gScores st !! v) then
    match tentativeGScore with
    | Some (Fin g) =>
        let f := g + heuristic v endNode in
        AState (<[v := Fin g]> (a_gScores st))
               (<[v := Fin f]> (a_fScores st))
               (<[v := u]> (a_previous st))
               (PriorityQueue.enq (v, f) (a_pq st))
               (a_animations st ++ [update_a_star v])
    | _ => st
    end
  else st.

(** [while (!pq.isEmpty()) { ... }] of [aStar]; the loop returns from
    inside when the end node is dequeued, [inl], or runs the queue
    empty, [inr]. *)
Fixpoint aStar_loop (fuel : nat) (st : astar_state)
  : outcome (result + astar_state) :=
  match fuel with
  | O => OutOfFuel
  | S fuel =>
      match PriorityQueue.deq (a_pq st) with
      | None => Return (inr st)
      | Some ((u, _), pq) =>
          let st := AState (a_gScores st) (a_fScores st) (a_previous st) pq
                           (a_animations st) in
          if bool_decide (u = endNode) then
            let animations := a_animations st ++ [found_path u] in
            match reconstruct fuel (a_previous st) (Some endNode) [] with
            | Some path =>
                let animations := animations ++ [final_path path] in
                let animations := animations ++ [complete] in
                Return (inl (Result animations path (a_gScores st)))
            | None => OutOfFuel
            end
          else
            let st := AState (a_gScores st) (a_fScores st) (a_previous st)
                             (a_pq st) (a_animations st ++ [visit_a_star u]) in
            match OMap.get adjList u with
            | None => Throws TypeError
            | Some neighbours =>
                aStar_loop fuel (foldl (aStar_relax u) st neighbours)
            end
      end
  end.

Definition aStar (fuel : nat) : outcome result :=
  let init :=
    foldl (λ '(g, f) node,
             (<[node := Infinity]> g, <[node := Infinity]> f))
          ((∅ : gmap string num), (∅ : gmap string num))
          (OMap.keys adjList) in
  let gScores := <[startNode := Fin 0]> init.1 in
  let h0 := heuristic startNode endNode in
  let fScores := <[startNode := Fin h0]> init.2 in
  let pq := PriorityQueue.enq (startNode, h0) PriorityQueue.empty in
  let animations := [start_a_star startNode] in
  match aStar_loop fuel (AState gScores fScores ∅ pq animations) with
  | Return (inl r) => Return r
  | Return (inr st) =>
      Return (Result (a_animations st ++ [complete]) [] (a_gScores st))
  | Throws e => Throws e
  | OutOfFuel => OutOfFuel
  end.

End Pathfinding.

(** The weight [runAnimationStep] shows for a [final_path] event: the sum
    of [edgeWeights.get(`${path[i]}-${path[i+1]}`)]; adding a missing
    weight gives [NaN], here [None]. *)
Fixpoint totalWeight (edgeWeights : gmap string Z) (finalPath : list string)
  : option Z :=
  match finalPath with
  | u :: (v :: _) as rest =>
      w ← edgeWeights !! edge_key u v;
      t ← totalWeight edgeWeights rest;
      Some (w + t)
  | _ => Some 0
  end.

End Graph.

(** ** Reading numbers from the input fields *)

Module Input.

(** [s.split(',')]: the tokens between commas; the empty string has the
    one token [""]. *)
Fixpoint split_comma (s : string) : list string :=
  match s with
  | EmptyString => [EmptyString]
  | String c s =>
      if Ascii.eqb c ","%char then EmptyString :: split_comma s
      else match split_comma s with
           | t :: ts => String c t :: ts
           | [] => [String c EmptyString]
           end
  end.

Definition is_white_space (c : ascii) : bool :=
  let n := nat_of_ascii c in
  ((9 <=? n) && (n <=? 13))%nat || (n =? 32)%nat.

Fixpoint trim_start (s : string) : string :=
  match s with
  | String c s' => if is_white_space c then trim_start s' else s
  | EmptyString => EmptyString
  end.

Definition trim (s : string) : string :=
  String.rev (trim_start (String.rev (trim_start s))).

Definition digit_of (c : ascii) : option Z :=
  let n := nat_of_ascii c in
  if ((48 <=? n) && (n <=? 57))%nat then Some (Z.of_nat n - 48) else None.

Fixpoint digits (acc : Z) (s : string) : option Z :=
  match s with
  | EmptyString => Some acc
  | String c s => d ← digit_of c; digits (10 * acc + d) s
  end.

Definition unsigned_integer (s : string) : option Z :=
  match s with
  | EmptyString => None
  | _ => digits 0 s
  end.

(** [Number(s)] on strings, [None] being [NaN]: white space is trimmed,
    the empty string is [0], and a decimal integer with an optional sign
    is its value.  The other numeric literals of JavaScript (fractions,
    exponents, radix prefixes, [Infinity]) are outside the modelled
    fragment and read as [NaN] here. *)
Definition Number (s : string) : option Z :=
  match trim s with
  | EmptyString => Some 0
  | String "-"%char t => Z.opp <$> unsigned_integer t
  | String "+"%char t => unsigned_integer t
  | t => unsigned_integer t
  end.

(** [tokens.map(Number)] with [values.some(isNaN)]: [None] when some
    token is not a number. *)
Definition numbers (input : string) : option (list Z) :=
  mapM Number (split_comma input).

End Input.

(** ** Linked lists (LinkedListVisualizer.js) *)

Module LinkedList.

Inductive list_type := singlyLinkedList | doublyLinkedList.

(** Nodes are objects with identity: a store of nodes, a reference being
    an index in it; [new] allocates at the end.  A [SinglyNode] has no
    [prev] field, which reads as empty. *)
Abbreviation ref := nat (only parsing).
Record node := Node { value : Z; prev : option ref; next : option ref }.
Abbreviation store := (list node) (only parsing).

Definition set_next (nx : option ref) (n : node) : node :=
  Node (value n) (prev n) nx.
Definition set_prev (pv : option ref) (n : node) : node :=
  Node (value n) pv (next n).

Inductive anim_type := highlight | found | not_found | delete_head | delete.
Record animation := Anim { type : anim_type; node_value : option Z }.

(** [while (current.next !== null) current = current.next] *)
Fixpoint last_node (fuel : nat) (h : store) (current : ref) : option ref :=
  match fuel with
  | O => None
  | S fuel =>
      n ← h !! current;
      match next n with
      | None => Some current
      | Some nx => last_node fuel h nx
      end
  end.

Definition insert (h : store) (head : option ref) (v : Z)
  (listType : list_type) : option (store * option ref) :=
  let newNode := length h in
  let h := h ++ [Node v None None] in
  match head with
  | None => Some (h, Some newNode)
  | Some hd =>
      current ← last_node (S (length h)) h hd;
      let h :=
        match listType with
        | doublyLinkedList =>
            alter (set_prev (Some current)) newNode
                  (alter (set_next (Some newNode)) current h)
        | singlyLinkedList => alter (set_next (Some newNode)) current h
        end in
      Some (h, head)
  end.

(** The scan of [deleteNode]:
    [while (current.next !== null && current.next.value !== value)] *)
Fixpoint find_before (fuel : nat) (h : store) (v : Z) (current : ref)
  (animations : list animation) : option (ref * list animation) :=
  match fuel with
  | O => None
  | S fuel =>
      n ← h !! current;
      match next n with
      | None => Some (current, animations)
      | Some nx =>
          nn ← h !! nx;
          if negb (value nn =? v) then
            find_before fuel h v nx
              (animations ++ [Anim highlight (Some (value n))])
          else Some (current, animations)
      end
  end.

Definition deleteNode (h : store) (head : option ref) (v : Z)
  (animations : list animation) (listType : list_type)
  : option (store * list animation * option ref) :=
  match head with
  | None => Some (h, animations ++ [Anim not_found None], head)
  | Some hd =>
      n ← h !! hd;
      if value n =? v then
        let animations := animations ++ [Anim delete_head (Some v)] in
        let newHead := next n in
        let h :=
          match listType, newHead with
          | doublyLinkedList, Some nh => alter (set_prev None) nh h
          | _, _ => h
          end in
        Some (h, animations, newHead)
      else
        '(current, animations) ← find_before (S (length h)) h v hd animations;
        c ← h !! current;
        match next c with
        | Some nx =>
            nn ← h !! nx;
            if value nn =? v then
              let animations := animations ++ [Anim delete (Some v)] in
              let h :=
                match listType, next nn with
                | doublyLinkedList, Some nnx =>
                    alter (set_prev (Some current)) nnx h
                | _, _ => h
                end in
              let h := alter (set_next (next nn)) current h in
              Some (h, animations, head)
            else Some (h, animations ++ [Anim not_found None], head)
        | None => Some (h, animations ++ [Anim not_found None], head)
        end
  end.

(** The values met from a node along the [next] links. *)
Fixpoint to_list (fuel : nat) (h : store) (current : option ref) : list Z :=
  match fuel, current with
  | S fuel, Some c =>
      match h !! c with
      | Some n => value n :: to_list fuel h (next n)
      | None => []
      end
  | _, _ => []
  end.

(** The state of the component that the handlers touch. *)
Record state := State {
  isAnimating : bool;
  nodes : store;
  head : option ref;
  explanation : string }.

(** [values.forEach(value => newHead = insert(newHead, value, listType))] *)
Definition insert_all (values : list Z) (listType : list_type)
  : option (store * option ref) :=
  foldl (λ acc v, '(h, newHead) ← acc; insert h newHead v listType)
        (Some ([], None)) values.

(** [buildList]; the nodes of an earlier list are no longer referenced
    and are dropped from the store. *)
Definition buildList (listValues : string) (listType : list_type)
  (st : state) : option state :=
  if isAnimating st then Some st else
  match Input.numbers listValues with
  | None =>
      Some (State (isAnimating st) [] None
              "Invalid input. Please use comma-separated numbers.")
  | Some values =>
      '(h, newHead) ← insert_all values listType;
      Some (State (isAnimating st) h newHead
              "Linked List built successfully.")
  end.

End LinkedList.

(** ** Binary search tree (TreeVisualizer) *)

Module Tree.

Inductive tree := Null | Node (value : Z) (left right : tree).

(** [insert] walks down from the root and hangs a new node on the first
    empty link; written here on the tree value. *)
Fixpoint insert (root : tree) (v : Z) : tree :=
  match root with
  | Null => Node v Null Null
  | Node x l r =>
      if v <? x then Node x (insert l v) r else Node x l (insert r v)
  end.

Fixpoint values (t : tree) : list Z :=
  match t with
  | Null => []
  | Node x l r => values l ++ x :: values r
  end.

Record state := State {
  isAnimating : bool;
  tree_root : tree;
  explanation : string }.

Definition buildTree (treeValues : string) (st : state) : state :=
  if isAnimating st then st else
  match Input.numbers treeValues with
  | None =>
      State (isAnimating st) Null
        "Invalid input. Please use comma-separated numbers."
  | Some vs =>
      State (isAnimating st) (foldl insert Null vs)
        "Tree built successfully. Now you can search!"
  end.

End Tree.

(** ** The sorting component and its playback (SortingVisualizer.js) *)

Module Visualizer.

Inductive algorithm :=
  | bubbleSortAlg | selectionSortAlg | insertionSortAlg
  | quickSortAlg | mergeSortAlg | heapSortAlg.

(** What the explanation box shows: a fixed message or the text of an
    animation. *)
Inductive explanation_text :=
  | Message (s : string)
  | TextOf (a : animation).

(** The state and the refs of the component; [alerts] collects the
    messages of [alert] and [timer] tells that a [setTimeout] of
    [runAnimationStep] is pending.  A [setX(v)] is the assignment of the
    field. *)
Record state := State {
  array : list Z;
  explanation : explanation_text;
  isSorting : bool;
  selectedAlgorithm : algorithm;
  sortOrder : sort_order;
  animationsRef : list animation;
  currentAnimationIndexRef : Z;
  localArrayRef : list Z;
  alerts : list string;
  timer : bool }.

Definition set_explanation (e : explanation_text) (st : state) : state :=
  State (array st) e (isSorting st) (selectedAlgorithm st) (sortOrder st)
    (animationsRef st) (currentAnimationIndexRef st) (localArrayRef st)
    (alerts st) (timer st).

Definition set_isSorting (b : bool) (st : state) : state :=
  State (array st) (explanation st) b (selectedAlgorithm st) (sortOrder st)
    (animationsRef st) (currentAnimationIndexRef st) (localArrayRef st)
    (alerts st) (timer st).

Definition set_local (l : list Z) (st : state) : state :=
  State (array st) (explanation st) (isSorting st) (selectedAlgorithm st)
    (sortOrder st) (animationsRef st) (currentAnimationIndexRef st) l
    (alerts st) (timer st).

(** [localArrayRef.current = l; setArray([...localArrayRef.current])] *)
Definition set_local_and_array (l : list Z) (st : state) : state :=
  State l (explanation st) (isSorting st) (selectedAlgorithm st)
    (sortOrder st) (animationsRef st) (currentAnimationIndexRef st) l
    (alerts st) (timer st).

Definition set_animations (a : list animation) (st : state) : state :=
  State (array st) (explanation st) (isSorting st) (selectedAlgorithm st)
    (sortOrder st) a (currentAnimationIndexRef st) (localArrayRef st)
    (alerts st) (timer st).

Definition set_index (i : Z) (st : state) : state :=
  State (array st) (explanation st) (isSorting st) (selectedAlgorithm st)
    (sortOrder st) (animationsRef st) i (localArrayRef st)
    (alerts st) (timer st).

Definition alert (msg : string) (st : state) : state :=
  State (array st) (explanation st) (isSorting st) (selectedAlgorithm st)
    (sortOrder st) (animationsRef st) (currentAnimationIndexRef st)
    (localArrayRef st) (alerts st ++ [msg]) (timer st).

Definition set_timer (b : bool) (st : state) : state :=
  State (array st) (explanation st) (isSorting st) (selectedAlgorithm st)
    (sortOrder st) (animationsRef st) (currentAnimationIndexRef st)
    (localArrayRef st) (alerts st) b.

(** One call of [runAnimationStep]; the colours of the bars are left
    out.  The array changes of the events are taken inside the array. *)
Definition runAnimationStep (st : state) : state :=
  if Arr.len (animationsRef st) <=? currentAnimationIndexRef st then
    set_explanation (Message "Array is fully sorted!") (set_isSorting false st)
  else
    match Arr.get (animationsRef st) (currentAnimationIndexRef st) with
    | None => st
    | Some animation =>
        let st := set_explanation (TextOf animation) st in
        let st :=
          match type animation, indices animation with
          | swap, index1 :: index2 :: _ =>
              set_local_and_array
                (Arr.swap (localArrayRef st) index1 index2) st
          | shift, from :: to :: _ =>
              let newArray := localArrayRef st in
              match Arr.get newArray from with
              | Some barToMove =>
                  let newArray := delete (Z.to_nat from) newArray in
                  let newArray :=
                    take (Z.to_nat to) newArray ++
                    barToMove :: drop (Z.to_nat to) newArray in
                  set_local_and_array newArray st
              | None => st
              end
          | overwrite, index :: value :: _ =>
              set_local_and_array (Arr.set (localArrayRef st) index value) st
          | _, _ => st
          end in
        let st := set_index (currentAnimationIndexRef st + 1) st in
        set_timer true st
    end.

(** The generator chosen by [selectedAlgorithm]. *)
Definition run_selected (st : state) : option (sort_result Z) :=
  match selectedAlgorithm st with
  | bubbleSortAlg => Some (bubbleSort id (array st) (sortOrder st))
  | selectionSortAlg => Some (selectionSort id (array st) (sortOrder st))
  | insertionSortAlg => insertionSort id (array st) (sortOrder st)
  | quickSortAlg => quickSort id (array st) (sortOrder st)
  | mergeSortAlg => mergeSort id (array st) (sortOrder st)
  | heapSortAlg => heapSort id (array st) (sortOrder st)
  end.

Definition handleSort (st : state) : option state :=
  if Arr.len (array st) =? 0 then
    Some (set_explanation (Message "Please load an array first!") st)
  else if isArraySorted id (array st) (sortOrder st) then
    Some (alert "Array is already sorted!" st)
  else
    let st := set_isSorting true st in
    let st := set_index 0 st in
    let st := set_local (array st) st in
    result ← run_selected st;
    let st := set_animations (animations result) st in
    Some (runAnimationStep st).

End Visualizer.

(** * Specification vocabulary and invariants *)

(** ** Finalized indices in a sorting trace *)

(** An event touches index [i] when it is a comparison or a swap whose
    indices include [i]. *)
Definition touches (i : Z) (a : animation) : Prop :=
  (type a = compare ∨ type a = swap) ∧ i ∈ indices a.

(** Once a [final_position] event names an index, no later event of the
    trace touches that index. *)
Definition finalized_untouched (t : list animation) : Prop :=
  ∀ (p q : nat) a b i, (p < q)%nat →
    t !! p = Some a → t !! q = Some b →
    type a = final_position → i ∈ indices a → ¬ touches i b.

(** Every index finalized so far lies above [top]. *)
Definition finals_above (top : Z) (t : list animation) : Prop :=
  ∀ a i, a ∈ t → type a = final_position → i ∈ indices a → top < i.

(** ** Changes confined to a segment *)

(** Whatever holds of the keys of every cell of [lo .. hi] still holds of
    them afterwards: the segment keeps its keys. *)
Definition seg_pres {elem} (val : elem → Z) (arr arr' : list elem)
  (lo hi : Z) : Prop :=
  ∀ P : Z → Prop,
    (∀ p, lo ≤ p ≤ hi → P (kz val arr p)) →
    ∀ p, lo ≤ p ≤ hi → P (kz val arr' p).

(** [arr'] is [arr] with the cells of [lo .. hi] rearranged. *)
Definition within {elem} (val : elem → Z) (arr arr' : list elem)
  (lo hi : Z) : Prop :=
  Arr.len arr' = Arr.len arr ∧ arr' ≡ₚ arr ∧
  (∀ p, ¬ (lo ≤ p ≤ hi) → Arr.get arr' p = Arr.get arr p) ∧
  seg_pres val arr arr' lo hi.

(** The cells [lo .. hi-1] of an array, as a list. *)
Definition seg {A} (arr : list A) (lo hi : Z) : list A :=
  take (Z.to_nat (hi - lo)) (drop (Z.to_nat lo) arr).

(** ** Invariants of the sorting generators *)

(** Bubble sort: after [i] passes the last [i] cells are sorted and bound
    the rest. *)
Definition bubble_outer_inv {elem} (val : elem → Z) (o : sort_order)
  (array : list elem) (i : Z) (arr : list elem) : Prop :=
  let n := Arr.len array in
  Arr.len arr = n ∧ arr ≡ₚ array ∧
  sorted_range val o arr (n - i) n ∧
  (∀ p q, 0 ≤ p < n - i → n - i ≤ q < n →
     leo o (kz val arr p) (kz val arr q)).

(** Inside a pass, cell [j] bounds the cells before it. *)
Definition bubble_inner_inv {elem} (val : elem → Z) (o : sort_order)
  (array : list elem) (i j : Z) (arr : list elem) : Prop :=
  bubble_outer_inv val o array i arr ∧
  (∀ p, 0 ≤ p ≤ j → leo o (kz val arr p) (kz val arr j)).

(** Selection sort: before pass [i] the first [i] cells are sorted and
    bound the rest. *)
Definition selection_outer_inv {elem} (val : elem → Z) (o : sort_order)
  (array : list elem) (i : Z) (arr : list elem) : Prop :=
  let n := Arr.len array in
  Arr.len arr = n ∧ arr ≡ₚ array ∧
  sorted_range val o arr 0 i ∧
  (∀ p q, 0 ≤ p < i → i ≤ q < n → leo o (kz val arr p) (kz val arr q)).

(** Inside a pass, [m] is a position of a least cell of [i .. j-1]. *)
Definition selection_inner_inv {elem} (val : elem → Z) (o : sort_order)
  (arr : list elem) (i j m : Z) : Prop :=
  i ≤ m < j ∧ ∀ q, i ≤ q < j → leo o (kz val arr m) (kz val arr q).

(** Insertion sort: the first [i] cells are sorted. *)
Definition insertion_outer_inv {elem} (val : elem → Z) (o : sort_order)
  (array : list elem) (i : Z) (arr : list elem) : Prop :=
  Arr.len arr = Arr.len array ∧ arr ≡ₚ array ∧ sorted_range val o arr 0 i.

(** The state of its [while] loop: the hole is at [j + 1]; the cells
    below it and the cells above it up to [i] are sorted, in order with
    each other, and the key is in order with the cells above. *)
Definition insertion_shift_inv {elem} (val : elem → Z) (o : sort_order)
  (array : list elem) (k : elem) (i : Z)
  (st : list elem * list animation * Z) : Prop :=
  let '(arr, _, j) := st in
  Arr.len arr = Arr.len array ∧ -1 ≤ j ≤ i - 1 ∧
  Arr.set arr (j + 1) k ≡ₚ array ∧
  sorted_range val o arr 0 (j + 1) ∧
  sorted_range val o arr (j + 2) (i + 1) ∧
  (∀ p q, 0 ≤ p ≤ j → j + 2 ≤ q ≤ i → leo o (kz val arr p) (kz val arr q)) ∧
  (∀ q, j + 2 ≤ q ≤ i → leo o (val k) (kz val arr q)).

(** Quick sort: the loop of [partition] at [j]; cells [low .. i] are in
    order with the pivot, cells [i+1 .. j-1] are not. *)
Definition partition_inv {elem} (val : elem → Z) (o : sort_order)
  (arr0 : list elem) (low high j : Z)
  (st : list elem * list animation * Z) : Prop :=
  let '(arr, _, i) := st in
  let pv := kz val arr0 high in
  within val arr0 arr low (high - 1) ∧ low - 1 ≤ i < j ∧
  (∀ p, low ≤ p ≤ i → leo o (kz val arr p) pv) ∧
  (∀ p, i < p < j → ¬ leo o (kz val arr p) pv).

(** What [partition] establishes. *)
Definition partitioned {elem} (val : elem → Z) (o : sort_order)
  (arr0 arr : list elem) (low high pi : Z) : Prop :=
  within val arr0 arr low high ∧ low ≤ pi ≤ high ∧
  (∀ p, low ≤ p < pi → leo o (kz val arr p) (kz val arr pi)) ∧
  (∀ p, pi < p ≤ high → leo o (kz val arr pi) (kz val arr p)).

(** What [sort] of quick sort establishes on [low .. high]. *)
Definition sorted_within {elem} (val : elem → Z) (o : sort_order)
  (arr0 arr : list elem) (low high : Z) : Prop :=
  within val arr0 arr low high ∧ sorted_range val o arr low (high + 1).

(** Merge sort: what [sort] and [merge] establish on [l .. r]. *)
Definition msorted {elem} (val : elem → Z) (o : sort_order)
  (arr0 arr : list elem) (l r : Z) : Prop :=
  Arr.len arr = Arr.len arr0 ∧ arr ≡ₚ arr0 ∧
  (∀ p, ¬ (l ≤ p ≤ r) → Arr.get arr p = Arr.get arr0 p) ∧
  sorted_range val o arr l (r + 1).

(** While merging, [temp] holds the cells taken so far, in order, and
    bounds the cells still to take. *)
Definition merge_inv {elem} (val : elem → Z) (o : sort_order)
  (arr : list elem) (l m r : Z) (i j : Z) (temp : list elem) : Prop :=
  l ≤ i ≤ m + 1 ∧ m + 1 ≤ j ≤ r + 1 ∧
  temp ≡ₚ seg arr l i ++ seg arr (m + 1) j ∧
  sorted_by val o temp ∧
  (∀ x p, x ∈ temp → i ≤ p ≤ m ∨ j ≤ p ≤ r →
     leo o (val x) (kz val arr p)).

(** Heap sort: in the heap of the first [m] cells, node [k] is in order
    with its children. *)
Definition heap_at {elem} (val : elem → Z) (o : sort_order)
  (arr : list elem) (m k : Z) : Prop :=
  ∀ c, c = 2 * k + 1 ∨ c = 2 * k + 2 → c < m →
    leo o (kz val arr c) (kz val arr k).

Definition heap_range {elem} (val : elem → Z) (o : sort_order)
  (arr : list elem) (m lo : Z) : Prop :=
  ∀ k, lo ≤ k → heap_at val o arr m k.

(** The state before the extraction at [j]: the first [j + 1] cells are a
    heap, the cells after them are sorted and bounded below by them. *)
Definition extract_inv {elem} (val : elem → Z) (o : sort_order)
  (array : list elem) (j : Z) (arr : list elem) : Prop :=
  let n := Arr.len array in
  Arr.len arr = n ∧ arr ≡ₚ array ∧
  heap_range val o arr (j + 1) 0 ∧
  sorted_range val o arr (j + 1) n ∧
  (∀ p q, 0 ≤ p ≤ j → j < q < n → leo o (kz val arr p) (kz val arr q)).

(** ** Binary search *)

(** The number of iterations a range of [size] cells allows. *)
Definition iterations (size : Z) : Z :=
  if size <=? 0 then 0 else Z.log2 size + 1.

(** ** Example graphs *)

(** The graph [A-B, A-C, B-D, C-E] with weights
    [A-B:5, A-C:2, B-D:4, C-E:8]. *)
Definition example_graph : Graph.OMap.t (list string) * gmap string Z :=
  Graph.buildAdjacencyList
    [("A", "B"); ("A", "C"); ("B", "D"); ("C", "E")]
    [("A", "B", 5); ("A", "C", 2); ("B", "D", 4); ("C", "E", 8)].

(** Two components: [A-B] and [C-D], every weight 1. *)
Definition split_graph : Graph.OMap.t (list string) * gmap string Z :=
  Graph.buildAdjacencyList
    [("A", "B"); ("C", "D")] [("A", "B", 1); ("C", "D", 1)].

(** The triangle [A-B, A-C, C-B] with weights [A-B:5, A-C:1, C-B:1]: the
    entry of [B] at priority 5 is stale once [B] is reached through [C]
    at priority 2. *)
Definition triangle_graph : Graph.OMap.t (list string) * gmap string Z :=
  Graph.buildAdjacencyList
    [("A", "B"); ("A", "C"); ("C", "B")]
    [("A", "B", 5); ("A", "C", 1); ("C", "B", 1)].

(** The heuristic of the component when the end node has no position:
    [if (!posU || !posV) return 0]. *)
Definition no_position_heuristic (u v : string) : Z := 0.

(** ** Reachability in the adjacency mapping *)

Inductive reachable (adjList : Graph.OMap.t (list string)) (s : string)
  : string → Prop :=
  | reachable_start : reachable adjList s s
  | reachable_step u v neighbours :
      reachable adjList s u →
      Graph.OMap.get adjList u = Some neighbours →
      v ∈ neighbours →
      reachable adjList s v.

(** Every neighbour is a node of the graph, as in a mapping built by
    [buildAdjacencyList]. *)
Definition graph_closed (adjList : Graph.OMap.t (list string)) : Prop :=
  Forall (λ kv, Forall (λ v, is_Some (Graph.OMap.get adjList v)) kv.2) adjList.

Definition weights_nonnegative (edgeWeights : gmap string Z) : Prop :=
  map_Forall (λ _ w, 0 ≤ w) edgeWeights.

(** A trace without [found_path] and [final_path] events. *)
Definition no_path_events (t : list Graph.animation) : Prop :=
  Forall (λ e, match e with
               | Graph.found_path _ | Graph.final_path _ => False
               | _ => True
               end) t.

(** ** Measures and invariant of the A* loop *)

Definition msum (f : Graph.num → nat) (g : gmap string Graph.num) : nat :=
  sum_list_with (λ kv, f kv.2) (map_to_list g).

Definition inf_count (v : Graph.num) : nat :=
  match v with Graph.Infinity => 1%nat | Graph.Fin _ => 0%nat end.

Definition fin_size (v : Graph.num) : nat :=
  match v with Graph.Infinity => 0%nat | Graph.Fin z => Z.to_nat z end.

(** The number of infinite scores, then the sum of the finite ones. *)
Definition mu (g : gmap string Graph.num) : nat * nat :=
  (msum inf_count g, msum fin_size g).

Definition lexlt (p q : nat * nat) : Prop :=
  (p.1 < q.1)%nat ∨ (p.1 = q.1 ∧ p.2 < q.2)%nat.

(** What the loop keeps: the queue holds reachable nodes, the finite
    scores are not negative, and the trace reports no path. *)
Definition astar_inv (adjList : Graph.OMap.t (list string))
  (startNode : string) (st : Graph.astar_state) : Prop :=
  (∀ e, e ∈ Graph.a_pq st → reachable adjList startNode e.1) ∧
  (∀ v z, Graph.a_gScores st !! v = Some (Graph.Fin z) → 0 ≤ z) ∧
  no_path_events (Graph.a_animations st).

(** ** Builders *)

(** The number a token stands for ([0] for what is not a number). *)
Definition token_value (tok : string) : Z := default 0 (Input.Number tok).

(** The store holds one list: node [i] is followed by node [i + 1]. *)
Definition chain (h : LinkedList.store) : Prop :=
  ∀ (i : nat) n, h !! i = Some n →
    LinkedList.next n =
      if decide (S i < length h)%nat then Some (S i) else None.

Definition head_of (h : LinkedList.store) : option LinkedList.ref :=
  if decide (0 < length h)%nat then Some 0%nat else None.

(** ** Example state of the sorting component *)

Definition sorted_state_example : Visualizer.state :=
  Visualizer.State [1; 2; 3] (Visualizer.Message "loaded") false
    Visualizer.quickSortAlg ascending [] 0 [] [] false.

(** * Further parts of the code *)

(** ** Playback of a sorting trace (SortingVisualizer.js) *)

(** The change [runAnimationStep] makes to the displayed array for one
    event. *)
Definition display_step (l : list Z) (a : animation) : list Z :=
  match type a, indices a with
  | swap, index1 :: index2 :: _ => Arr.swap l index1 index2
  | shift, from :: to :: _ =>
      match Arr.get l from with
      | Some barToMove =>
          let newArray := delete (Z.to_nat from) l in
          take (Z.to_nat to) newArray ++ barToMove :: drop (Z.to_nat to) newArray
      | None => l
      end
  | overwrite, index :: value :: _ => Arr.set l index value
  | _, _ => l
  end.

(** The displayed array after a whole trace. *)
Definition display (t : list animation) (l : list Z) : list Z :=
  foldl display_step l t.

(** [k] firings of the timer that [runAnimationStep] sets. *)
Fixpoint run_timers (k : nat) (st : Visualizer.state) : Visualizer.state :=
  match k with
  | O => st
  | S k => run_timers k (Visualizer.runAnimationStep st)
  end.

(** A state of the sorting component with an array out of order. *)
Definition unsorted_state_example : Visualizer.state :=
  Visualizer.State [3; 1; 2] (Visualizer.Message "loaded") false
    Visualizer.insertionSortAlg ascending [] 0 [] [] false.

(** ** The searching component (SearchingVisualizer.js) *)

Module SearchingComponent.
Import Searching.

(** [linearSearch]: [k] is the number of iterations the [for] loop has
    left, [i] its counter. *)
Fixpoint linearSearch_loop (k : nat) (arr : list Z) (target : Z) (i : Z)
  (animations : list animation) : list animation :=
  match k with
  | O => animations ++ [Anim not_found []]
  | S k =>
      let animations := animations ++ [Anim compare [i]] in
      if js_eq (Arr.get arr i) (Some target) then
        animations ++ [Anim found [i]]
      else linearSearch_loop k arr target (i + 1) animations
  end.

Definition linearSearch (array : list Z) (target : Z) : list animation :=
  let arr := array in
  linearSearch_loop (length arr) arr target 0 [].

(** [arraysEqual(a, b)] on two arrays of numbers that are different
    objects: the lengths, then the cells in turn. *)
Definition arraysEqual (a b : list Z) : bool :=
  if negb (Arr.len a =? Arr.len b) then false
  else forallb (λ i, js_eq (Arr.get a i) (Arr.get b i)) (seqZ 0 (Arr.len a)).

Inductive algorithm := linearSearchAlg | binarySearchAlg.

Inductive explanation_text :=
  | Message (s : string)
  | TextOf (a : animation).

(** The state and the refs of the component; [targetValue] is the text
    of the target field, [alerts] collects the messages of [alert] and
    [timer] tells that a [setTimeout] of [runAnimationStep] is pending. *)
Record state := State {
  array : list Z;
  targetValue : string;
  explanation : explanation_text;
  isSearching : bool;
  selectedAlgorithm : algorithm;
  animationsRef : list animation;
  currentAnimationIndexRef : Z;
  alerts : list string;
  timer : bool }.

Definition set_array (l : list Z) (st : state) : state :=
  State l (targetValue st) (explanation st) (isSearching st)
    (selectedAlgorithm st) (animationsRef st) (currentAnimationIndexRef st)
    (alerts st) (timer st).

Definition set_explanation (e : explanation_text) (st : state) : state :=
  State (array st) (targetValue st) e (isSearching st)
    (selectedAlgorithm st) (animationsRef st) (currentAnimationIndexRef st)
    (alerts st) (timer st).

Definition set_isSearching (b : bool) (st : state) : state :=
  State (array st) (targetValue st) (explanation st) b
    (selectedAlgorithm st) (animationsRef st) (currentAnimationIndexRef st)
    (alerts st) (timer st).

Definition set_animations (a : list animation) (st : state) : state :=
  State (array st) (targetValue st) (explanation st) (isSearching st)
    (selectedAlgorithm st) a (currentAnimationIndexRef st)
    (alerts st) (timer st).

Definition set_index (i : Z) (st : state) : state :=
  State (array st) (targetValue st) (explanation st) (isSearching st)
    (selectedAlgorithm st) (animationsRef st) i (alerts st) (timer st).

Definition alert (msg : string) (st : state) : state :=
  State (array st) (targetValue st) (explanation st) (isSearching st)
    (selectedAlgorithm st) (animationsRef st) (currentAnimationIndexRef st)
    (alerts st ++ [msg]) (timer st).

Definition set_timer (b : bool) (st : state) : state :=
  State (array st) (targetValue st) (explanation st) (isSearching st)
    (selectedAlgorithm st) (animationsRef st) (currentAnimationIndexRef st)
    (alerts st) b.

(** One call of [runAnimationStep] of [animateSearching]; the colours of
    the bars are left out.  A call consumes the pending timer; only the
    last branch sets a new one. *)
Definition runAnimationStep (st : state) : state :=
  let st := set_timer false st in
  if Arr.len (animationsRef st) <=? currentAnimationIndexRef st then
    set_explanation (Message "Search complete.") (set_isSearching false st)
  else
    match Arr.get (animationsRef st) (currentAnimationIndexRef st) with
    | None => st
    | Some animation =>
        let st := set_explanation (TextOf animation) st in
        match type animation with
        | found | not_found =>
            set_explanation (TextOf animation) (set_isSearching false st)
        | compare | compare_range | adjust_range =>
            let st := set_index (currentAnimationIndexRef st + 1) st in
            set_timer true st
        end
    end.

Definition animateSearching (animations : list animation) (st : state)
  : state :=
  if isSearching st then st
  else
    let st := set_isSearching true st in
    let st := set_index 0 st in
    let st := set_animations animations st in
    runAnimationStep st.

Section Component.
(** [parseInt] on the text of the target field, [None] being [NaN]. *)
Context (parseInt : string → option Z).

(** [handleSearch]; [[...array].sort((a, b) => a - b)] is the ascending
    sort of the numbers.  [None] stands for an exception (out of fuel in
    the model of [binarySearch]). *)
Definition handleSearch (st : state) : option state :=
  if Arr.len (array st) =? 0 then
    Some (set_explanation (Message "Please load an array first!") st)
  else if String.eqb (targetValue st) "" then
    Some (set_explanation
            (Message "Please enter a valid number to search for.") st)
  else
    match parseInt (targetValue st) with
    | None =>
        Some (set_explanation
                (Message "Please enter a valid number to search for.") st)
    | Some target =>
        match selectedAlgorithm st with
        | linearSearchAlg =>
            Some (animateSearching (linearSearch (array st) target) st)
        | binarySearchAlg =>
            let sortedArray := canonical_sort ascending (array st) in
            let st :=
              if negb (arraysEqual (array st) sortedArray) then
                alert "Binary search requires a sorted array. The array has been sorted for you."
                  (set_array sortedArray st)
              else st in
            animations ← binarySearch sortedArray target;
            Some (animateSearching animations st)
        end
    end.

End Component.

(** The pending timer, if there is one, fires and calls
    [runAnimationStep]. *)
Definition timer_fires (st : state) : state :=
  if timer st then runAnimationStep st else st.

Fixpoint run_timers (k : nat) (st : state) : state :=
  match k with
  | O => st
  | S k => run_timers k (timer_fires st)
  end.

(** The events of a trace that end a search. *)
Definition is_final (a : animation) : bool :=
  match type a with found | not_found => true | _ => false end.

End SearchingComponent.

(** A sorted array for the searches. *)
Definition search_example : list Z := [1; 3; 5; 7; 9].

(** A state of the searching component with an unsorted array loaded,
    binary search selected and a target typed in, and a reading of the
    target field. *)
Definition search_state_example : SearchingComponent.state :=
  SearchingComponent.State [9; 1; 7; 3; 5] "7"
    (SearchingComponent.Message "loaded") false
    SearchingComponent.binarySearchAlg [] 0 [] false.

Definition parseInt_example (s : string) : option Z :=
  if String.eqb s "7" then Some 7 else None.

(** ** Searching a linked list (LinkedListVisualizer.js) *)

Module LinkedListSearch.
Import LinkedList.

(** [searchList]: the trace and the result; [None] when the walk along
    the [next] links does not end within the fuel. *)
Fixpoint searchList (fuel : nat) (h : store) (current : option ref) (v : Z)
  (animations : list animation) : option (list animation * bool) :=
  match fuel with
  | O => None
  | S fuel =>
      match current with
      | None => Some (animations ++ [Anim not_found None], false)
      | Some c =>
          n ← h !! c;
          let animations := animations ++ [Anim highlight (Some (value n))] in
          if value n =? v then
            Some (animations ++ [Anim found (Some (value n))], true)
          else searchList fuel h (next n) v animations
      end
  end.

(** Along the list every node's [prev] link is the node before it, and
    the first node has none. *)
Fixpoint prev_linked (fuel : nat) (h : store) (before current : option ref)
  : bool :=
  match fuel, current with
  | S fuel, Some c =>
      match h !! c with
      | Some n =>
          bool_decide (prev n = before) && prev_linked fuel h (Some c) (next n)
      | None => false
      end
  | O, Some _ => false
  | _, None => true
  end.

End LinkedListSearch.

(** In a store that holds one doubly linked list in allocation order,
    the [prev] link of node [i] is node [i - 1]. *)
Definition prev_chain (h : LinkedList.store) : Prop :=
  ∀ (i : nat) n, h !! i = Some n →
    LinkedList.prev n = if decide (0 < i)%nat then Some (pred i) else None.

(** Where a deletion of [v] leaves the values of a list: without the
    first [v]. *)
Definition without_first (v : Z) (values : list Z) : list Z :=
  match list_find (λ x, x = v) values with
  | Some (k, _) => delete k values
  | None => values
  end.

(** The last event of a deletion of [v] from a list of these values. *)
Definition delete_event (v : Z) (values : list Z) : LinkedList.animation :=
  match list_find (λ x, x = v) values with
  | Some (O, _) => LinkedList.Anim LinkedList.delete_head (Some v)
  | Some (S _, _) => LinkedList.Anim LinkedList.delete (Some v)
  | None => LinkedList.Anim LinkedList.not_found None
  end.

(** ** Search and traversals of the tree (TreeVisualizer) *)

Module TreeOps.
Import Tree.

Inductive anim_type := highlight | found | not_found | visit.

(** An event; [pathAdd] is present on the events of the traversals
    only. *)
Record animation := Anim {
  type : anim_type;
  node : option Z;
  pathAdd : option Z }.

(** [search]: the trace and the result. *)
Fixpoint search (current : tree) (value : Z) (animations : list animation)
  : list animation * bool :=
  match current with
  | Null => (animations ++ [Anim not_found None None], false)
  | Node x l r =>
      let animations := animations ++ [Anim highlight (Some x) None] in
      if value =? x then (animations ++ [Anim found (Some x) None], true)
      else if value <? x then search l value animations
      else search r value animations
  end.

Fixpoint inOrderTraversal (root : tree) (animations : list animation)
  : list animation :=
  match root with
  | Null => animations
  | Node x l r =>
      let animations := inOrderTraversal l animations in
      let animations := animations ++ [Anim visit (Some x) (Some x)] in
      inOrderTraversal r animations
  end.

Fixpoint preOrderTraversal (root : tree) (animations : list animation)
  : list animation :=
  match root with
  | Null => animations
  | Node x l r =>
      let animations := animations ++ [Anim visit (Some x) (Some x)] in
      let animations := preOrderTraversal l animations in
      preOrderTraversal r animations
  end.

Fixpoint postOrderTraversal (root : tree) (animations : list animation)
  : list animation :=
  match root with
  | Null => animations
  | Node x l r =>
      let animations := postOrderTraversal l animations in
      let animations := postOrderTraversal r animations in
      animations ++ [Anim visit (Some x) (Some x)]
  end.

Inductive traversal := inOrder | preOrder | postOrder.

Inductive explanation_text :=
  | Message (s : string)
  | TextOf (a : animation).

(** The state and the refs of the component that the traversal and its
    playback touch; [highlightedNodes] is the set of highlighted values
    and [timer] tells that a [setTimeout] of [runAnimationStep] is
    pending. *)
Record state := State {
  tree_root : tree;
  isAnimating : bool;
  explanation : explanation_text;
  highlightedNodes : list Z;
  selectedTraversal : traversal;
  traversalPath : list Z;
  animationsRef : list animation;
  currentAnimationIndexRef : Z;
  timer : bool }.

(** [if (pathAdd) setTraversalPath(prev => [...prev, pathAdd])]: a
    missing [pathAdd] and the number [0] are falsy. *)
Definition add_to_path (pathAdd : option Z) (path : list Z) : list Z :=
  match pathAdd with
  | Some p => if p =? 0 then path else path ++ [p]
  | None => path
  end.

(** One call of [runAnimationStep]. *)
Definition runAnimationStep (st : state) : state :=
  if Arr.len (animationsRef st) <=? currentAnimationIndexRef st then
    State (tree_root st) false (Message "Animation complete.") []
      (selectedTraversal st) (traversalPath st) (animationsRef st)
      (currentAnimationIndexRef st) false
  else
    match Arr.get (animationsRef st) (currentAnimationIndexRef st) with
    | None => st
    | Some animation =>
        let '(highlighted, path) :=
          match type animation with
          | highlight | found | visit =>
              (match node animation with Some n => [n] | None => [] end,
               add_to_path (pathAdd animation) (traversalPath st))
          | not_found => ([], traversalPath st)
          end in
        State (tree_root st) (isAnimating st) (TextOf animation) highlighted
          (selectedTraversal st) path (animationsRef st)
          (currentAnimationIndexRef st + 1) true
    end.

Definition handleTraversal (st : state) : state :=
  if isAnimating st then st
  else match tree_root st with
  | Null => st
  | tree =>
      let animations :=
        match selectedTraversal st with
        | inOrder => inOrderTraversal tree []
        | preOrder => preOrderTraversal tree []
        | postOrder => postOrderTraversal tree []
        end in
      runAnimationStep
        (State (tree_root st) true (explanation st) [] (selectedTraversal st)
           [] animations 0 (timer st))
  end.

(** The pending timer, if there is one, fires and calls
    [runAnimationStep]. *)
Definition timer_fires (st : state) : state :=
  if timer st then runAnimationStep st else st.

Fixpoint run_timers (k : nat) (st : state) : state :=
  match k with
  | O => st
  | S k => run_timers k (timer_fires st)
  end.

(** The values of the nodes that a trace names, in order. *)
Definition visited (animations : list animation) : list Z :=
  omap node animations.

(** The search-tree order: smaller values to the left of a node, the
    others to its right. *)
Fixpoint bst (t : tree) : Prop :=
  match t with
  | Null => True
  | Node x l r =>
      bst l ∧ bst r ∧
      Forall (λ y, y < x) (values l) ∧ Forall (λ y, x ≤ y) (values r)
  end.

End TreeOps.

(** A state of the tree component with the tree of [5, 0, 8] and the
    in-order traversal selected. *)
Definition tree_state_example : TreeOps.state :=
  TreeOps.State (foldl Tree.insert Tree.Null [5; 0; 8]) false
    (TreeOps.Message "built") [] TreeOps.inOrder [] [] 0 false.

(** ** Breadth-first and depth-first traversal (GraphVisualizer) *)

Module GraphTraversal.
Import Graph.

Inductive animation :=
  | visit_start (node : string)
  | visit_node (node : string)
  | queue_node (node : string)
  | stack_node (node : string)
  | complete.

(** The body of [for (const v of adjList.get(u))] in [bfs]. *)
Definition bfs_neighbour
  (st : list string * gset string * list animation) (v : string)
  : list string * gset string * list animation :=
  let '(queue, visited, animations) := st in
  if bool_decide (v ∈ visited) then st
  else (queue ++ [v], {[v]} ∪ visited, animations ++ [queue_node v]).

(** [while (queue.length > 0) { ... }] of [bfs]; [queue.shift()] takes
    the head of the queue. *)
Fixpoint bfs_loop (fuel : nat) (adjList : OMap.t (list string))
  (queue : list string) (visited : gset string)
  (animations : list animation) : option (list animation) :=
  match fuel with
  | O => None
  | S fuel =>
      match queue with
      | [] => Some animations
      | u :: queue =>
          let animations := animations ++ [visit_node u] in
          match OMap.get adjList u with
          | Some neighbours =>
              let '(queue, visited, animations) :=
                foldl bfs_neighbour (queue, visited, animations) neighbours in
              bfs_loop fuel adjList queue visited animations
          | None => bfs_loop fuel adjList queue visited animations
          end
      end
  end.

Definition bfs (adjList : OMap.t (list string)) (startNode : string)
  (fuel : nat) : option (list animation) :=
  let queue := [startNode] in
  let visited : gset string := {[startNode]} in
  let animations := [visit_start startNode] in
  animations ← bfs_loop fuel adjList queue visited animations;
  Some (animations ++ [complete]).

(** The body of the [for] loop over the neighbours in [dfs].  The top of
    the stack is the head of the list: [stack.push(v)] puts [v] in
    front. *)
Definition dfs_neighbour
  (st : list string * gset string * list animation) (v : string)
  : list string * gset string * list animation :=
  let '(stack, visited, animations) := st in
  if bool_decide (v ∈ visited) then st
  else (v :: stack, {[v]} ∪ visited, animations ++ [stack_node v]).

(** [while (stack.length > 0) { ... }] of [dfs]; [stack.pop()] takes
    the top, and the neighbours are read from the last to the first. *)
Fixpoint dfs_loop (fuel : nat) (adjList : OMap.t (list string))
  (stack : list string) (visited : gset string)
  (animations : list animation) : option (list animation) :=
  match fuel with
  | O => None
  | S fuel =>
      match stack with
      | [] => Some animations
      | u :: stack =>
          let animations := animations ++ [visit_node u] in
          match OMap.get adjList u with
          | Some neighbours =>
              let '(stack, visited, animations) :=
                foldl dfs_neighbour (stack, visited, animations)
                      (reverse neighbours) in
              dfs_loop fuel adjList stack visited animations
          | None => dfs_loop fuel adjList stack visited animations
          end
      end
  end.

Definition dfs (adjList : OMap.t (list string)) (startNode : string)
  (fuel : nat) : option (list animation) :=
  let stack := [startNode] in
  let visited : gset string := {[startNode]} in
  let animations := [visit_start startNode] in
  animations ← dfs_loop fuel adjList stack visited animations;
  Some (animations ++ [complete]).

(** The nodes of the [visit_node] events of a trace, in order. *)
Definition visit_nodes (animations : list animation) : list string :=
  omap (λ a, match a with visit_node u => Some u | _ => None end) animations.

(** The common shape of the two loops: a work list whose head is taken
    next, [push] adding a node to it, [order] giving the order in which
    the neighbours are read and [ev] the event of an added node. *)
Definition worklist_neighbour (push : string → list string → list string)
  (ev : string → animation)
  (st : list string * gset string * list animation) (v : string)
  : list string * gset string * list animation :=
  let '(work, visited, animations) := st in
  if bool_decide (v ∈ visited) then st
  else (push v work, {[v]} ∪ visited, animations ++ [ev v]).

Fixpoint worklist_loop (push : string → list string → list string)
  (ev : string → animation) (order : list string → list string)
  (fuel : nat) (adjList : OMap.t (list string))
  (work : list string) (visited : gset string)
  (animations : list animation) : option (list animation) :=
  match fuel with
  | O => None
  | S fuel =>
      match work with
      | [] => Some animations
      | u :: work =>
          let animations := animations ++ [visit_node u] in
          match OMap.get adjList u with
          | Some neighbours =>
              let '(work, visited, animations) :=
                foldl (worklist_neighbour push ev) (work, visited, animations)
                      (order neighbours) in
              worklist_loop push ev order fuel adjList work visited animations
          | None =>
              worklist_loop push ev order fuel adjList work visited animations
          end
      end
  end.

(** Every string that occurs as a neighbour. *)
Definition candidates (adjList : OMap.t (list string)) : gset string :=
  list_to_set (mjoin (snd <$> adjList)).

(** What the loops keep: the work list and the visited nodes hold no
    node twice, [visited] is the set of both, the neighbours of a
    visited node are marked, and every marked node is reachable. *)
Definition worklist_inv (adjList : OMap.t (list string)) (startNode : string)
  (work : list string) (visited : gset string)
  (animations : list animation) : Prop :=
  NoDup (work ++ visit_nodes animations) ∧
  visited = list_to_set (work ++ visit_nodes animations) ∧
  (∀ u neighbours v, u ∈ visit_nodes animations →
     OMap.get adjList u = Some neighbours → v ∈ neighbours → v ∈ visited) ∧
  (∀ v, v ∈ visited → reachable adjList startNode v) ∧
  startNode ∈ visited.

(** The neighbours of a node, none when it is not in the mapping. *)
Definition neighbours_of (adjList : OMap.t (list string)) (u : string)
  : list string :=
  default [] (OMap.get adjList u).

(** The fuel that lets a traversal of the mapping end. *)
Definition enough_fuel (adjList : OMap.t (list string)) : nat :=
  S (S (length (mjoin (snd <$> adjList)))).

End GraphTraversal.

(** The step of [edges.forEach] in [buildAdjacencyList] for the edge
    [[u, v]]. *)
Definition add_edge (adj : Graph.OMap.t (list string)) (u v : string)
  : Graph.OMap.t (list string) :=
  let adj := if Graph.OMap.has adj u then adj else Graph.OMap.set adj u [] in
  let adj := if Graph.OMap.has adj v then adj else Graph.OMap.set adj v [] in
  let adj := Graph.OMap.set adj u (default [] (Graph.OMap.get adj u) ++ [v]) in
  Graph.OMap.set adj v (default [] (Graph.OMap.get adj v) ++ [u]).

(** ** Weighted walks and what the loop of [dijkstra] keeps *)

(** An edge as [dijkstra] reads it: [v] is a neighbour of [u] and the
    weight map has a weight under the key of [u] and [v]. *)
Definition wedge (adjList : Graph.OMap.t (list string))
  (edgeWeights : gmap string Z) (u v : string) (c : Z) : Prop :=
  ∃ neighbours,
    Graph.OMap.get adjList u = Some neighbours ∧ v ∈ neighbours ∧
    edgeWeights !! Graph.edge_key u v = Some c.

(** [walk s v p d]: [p] lists the nodes of a walk from [s] to [v] along
    such edges, of total weight [d]. *)
Inductive walk (adjList : Graph.OMap.t (list string))
  (edgeWeights : gmap string Z) (s : string)
  : string → list string → Z → Prop :=
  | walk_start : walk adjList edgeWeights s s [s] 0
  | walk_step u v c p d :
      walk adjList edgeWeights s u p d →
      wedge adjList edgeWeights u v c →
      walk adjList edgeWeights s v (p ++ [v]) (d + c).

(** The nodes of the [visit_dijkstra] events of a trace, in order. *)
Definition visited_dijkstra (animations : list Graph.animation)
  : list string :=
  omap (λ a, match a with Graph.visit_dijkstra u => Some u | _ => None end)
       animations.

(** The invariant of the loop.  The visited nodes are final: their
    distances are least and lie below every entry of the queue; an
    unvisited node with a finite distance has an entry at that distance;
    the predecessor of a node was visited before it.  [todo] lists the
    neighbours of the node visited last that are still to be relaxed. *)
Record dijkstra_inv (adjList : Graph.OMap.t (list string))
  (edgeWeights : gmap string Z) (startNode : string) (todo : list string)
  (st : Graph.dijkstra_state) : Prop := DijkstraInv {
  inv_nodup : NoDup (visited_dijkstra (Graph.d_animations st));
  inv_start :
    Graph.d_distances st !! startNode = Some (Graph.Fin 0) ∧
    Graph.d_previous st !! startNode = None;
  inv_keys : ∀ v,
    is_Some (Graph.OMap.get adjList v) →
    is_Some (Graph.d_distances st !! v);
  inv_finite : ∀ v d,
    Graph.d_distances st !! v = Some (Graph.Fin d) →
    0 ≤ d ∧ is_Some (Graph.OMap.get adjList v);
  inv_previous : ∀ v d,
    Graph.d_distances st !! v = Some (Graph.Fin d) → v ≠ startNode →
    ∃ u du c S1 S2,
      Graph.d_previous st !! v = Some u ∧
      Graph.d_distances st !! u = Some (Graph.Fin du) ∧
      wedge adjList edgeWeights u v c ∧ d = du + c ∧
      visited_dijkstra (Graph.d_animations st) = S1 ++ S2 ∧
      u ∈ S1 ∧ v ∉ S1;
  inv_previous_finite : ∀ v u,
    Graph.d_previous st !! v = Some u →
    ∃ d, Graph.d_distances st !! v = Some (Graph.Fin d);
  inv_optimal : ∀ u,
    u ∈ visited_dijkstra (Graph.d_animations st) →
    ∃ du, Graph.d_distances st !! u = Some (Graph.Fin du) ∧
          ∀ p c, walk adjList edgeWeights startNode u p c → du ≤ c;
  inv_relaxed : ∀ u v c du,
    u ∈ visited_dijkstra (Graph.d_animations st) →
    ¬ (last (visited_dijkstra (Graph.d_animations st)) = Some u ∧ v ∈ todo) →
    wedge adjList edgeWeights u v c →
    Graph.d_distances st !! u = Some (Graph.Fin du) →
    ∃ dv, Graph.d_distances st !! v = Some (Graph.Fin dv) ∧ dv ≤ du + c;
  inv_queued : ∀ v d,
    Graph.d_distances st !! v = Some (Graph.Fin d) →
    v ∉ visited_dijkstra (Graph.d_animations st) →
    (v, d) ∈ Graph.d_pq st;
  inv_entries : ∀ v d,
    (v, d) ∈ Graph.d_pq st →
    ∃ d', Graph.d_distances st !! v = Some (Graph.Fin d') ∧ d' ≤ d ∧
          (v ∈ visited_dijkstra (Graph.d_animations st) → d' < d);
  inv_below : ∀ u du v d,
    u ∈ visited_dijkstra (Graph.d_animations st) →
    Graph.d_distances st !! u = Some (Graph.Fin du) →
    (v, d) ∈ Graph.d_pq st → du ≤ d;
  inv_queue_nodup : NoDup (Graph.d_pq st);
  inv_last : ∀ x y dx dy,
    x ∈ visited_dijkstra (Graph.d_animations st) →
    last (visited_dijkstra (Graph.d_animations st)) = Some y →
    Graph.d_distances st !! x = Some (Graph.Fin dx) →
    Graph.d_distances st !! y = Some (Graph.Fin dy) →
    dx ≤ dy }.

(** The weight of a shortest walk from [s] to [v]: some walk has it and
    no walk weighs less. *)
Definition shortest (adjList : Graph.OMap.t (list string))
  (edgeWeights : gmap string Z) (s v : string) (d : Z) : Prop :=
  (∃ p, walk adjList edgeWeights s v p d) ∧
  ∀ p c, walk adjList edgeWeights s v p c → d ≤ c.

(** The nodes are listed in the order of the weights of their shortest
    walks. *)
Definition by_shortest (adjList : Graph.OMap.t (list string))
  (edgeWeights : gmap string Z) (s : string) (nodes : list string) : Prop :=
  ∃ ds, Forall2 (shortest adjList edgeWeights s) nodes ds ∧
        StronglySorted Z.le ds.

(** ** What the loop of [aStar] keeps towards an end node in reach *)

(** [previous_walk previous s v p d]: the [previous] links lead from [v]
    back to [s] along edges of the graph; [p] lists the nodes from [s] to
    [v] and [d] is the weight of these edges. *)
Inductive previous_walk (adjList : Graph.OMap.t (list string))
  (edgeWeights : gmap string Z) (previous : gmap string string) (s : string)
  : string → list string → Z → Prop :=
  | previous_walk_start :
      previous !! s = None →
      previous_walk adjList edgeWeights previous s s [s] 0
  | previous_walk_step u v c p d :
      previous !! v = Some u →
      wedge adjList edgeWeights u v c →
      previous_walk adjList edgeWeights previous s u p d →
      previous_walk adjList edgeWeights previous s v (p ++ [v]) (d + c).

(** The invariant of the loop.  The scores are kept for the nodes of the
    graph; a link was set along an edge and the score of its source has
    not grown since; the links of a node with a finite score lead back to
    the start node; such a node has an entry in the queue, or it is not
    the end node and its neighbours have finite scores.  [todo] lists the
    neighbours of the node [cur] under expansion that the inner loop has
    still to read. *)
Record astar_reach_inv (adjList : Graph.OMap.t (list string))
  (edgeWeights : gmap string Z) (startNode endNode : string)
  (cur : string) (todo : list string) (st : Graph.astar_state) : Prop :=
  AStarReachInv {
  ar_start : Graph.a_gScores st !! startNode = Some (Graph.Fin 0);
  ar_keys : ∀ v,
    is_Some (Graph.OMap.get adjList v) ↔ is_Some (Graph.a_gScores st !! v);
  ar_nonneg : ∀ v z, Graph.a_gScores st !! v = Some (Graph.Fin z) → 0 ≤ z;
  ar_edge : ∀ v u,
    Graph.a_previous st !! v = Some u →
    ∃ zu zv c,
      Graph.a_gScores st !! u = Some (Graph.Fin zu) ∧
      Graph.a_gScores st !! v = Some (Graph.Fin zv) ∧
      wedge adjList edgeWeights u v c ∧ zu + c ≤ zv;
  ar_walk : ∀ v z,
    Graph.a_gScores st !! v = Some (Graph.Fin z) →
    ∃ p d,
      previous_walk adjList edgeWeights (Graph.a_previous st) startNode v p d;
  ar_entries : ∀ e,
    e ∈ Graph.a_pq st → ∃ z, Graph.a_gScores st !! e.1 = Some (Graph.Fin z);
  ar_queue : ∀ x z,
    Graph.a_gScores st !! x = Some (Graph.Fin z) →
    (∃ f, (x, f) ∈ Graph.a_pq st) ∨
    (x ≠ endNode ∧
     ∀ v c, wedge adjList edgeWeights x v c → ¬ (x = cur ∧ v ∈ todo) →
            ∃ zv, Graph.a_gScores st !! v = Some (Graph.Fin zv)) }.

(** A heuristic far above the weights, as the distance in pixels between
    two nodes of the layout is. *)
Definition pixel_heuristic_example (u v : string) : Z :=
  if decide (u = v) then 0 else 300 + Z.of_nat (String.length u).

(** ** The graph component: running an algorithm and playing its trace
    (GraphVisualizer) *)

Module GraphComponent.
Import Graph.

(** [selectedAlgorithm]: ['bfs'], ['dfs'], ['dijkstra'] or ['aStar']. *)
Inductive algorithm := bfsAlg | dfsAlg | dijkstraAlg | aStarAlg.

(** An event of a trace, of a traversal or of a pathfinder. *)
Inductive event :=
  | Traversal (a : GraphTraversal.animation)
  | Pathfinding (a : Graph.animation).

(** The text of the explanation panel: a fixed message, the message
    that the traversal is complete, or the [text] of an event. *)
Inductive explanation_text :=
  | Message (s : string)
  | TraversalComplete
  | TextOf (e : event).

(** The state and the refs of the component that a run and its playback
    touch.  [totalWeight] is a number or [NaN], here [None]; [timer]
    tells that a [setTimeout] of [runAnimationStep] is pending. *)
Record state := State {
  adjList : OMap.t (list string);
  edgeWeights : gmap string Z;
  startNode : string;
  endNode : string;
  selectedAlgorithm : algorithm;
  explanation : explanation_text;
  isTraversing : bool;
  visitedNodes : gset string;
  queuedNodes : gset string;
  traversalPath : list string;
  finalPathNodes : gset string;
  totalWeight : option Z;
  animationsRef : list event;
  currentAnimationIndexRef : Z;
  timer : bool }.

Definition set_explanation (e : explanation_text) (st : state) : state :=
  State (adjList st) (edgeWeights st) (startNode st) (endNode st)
    (selectedAlgorithm st) e (isTraversing st) (visitedNodes st)
    (queuedNodes st) (traversalPath st) (finalPathNodes st) (totalWeight st)
    (animationsRef st) (currentAnimationIndexRef st) (timer st).

Definition set_isTraversing (b : bool) (st : state) : state :=
  State (adjList st) (edgeWeights st) (startNode st) (endNode st)
    (selectedAlgorithm st) (explanation st) b (visitedNodes st)
    (queuedNodes st) (traversalPath st) (finalPathNodes st) (totalWeight st)
    (animationsRef st) (currentAnimationIndexRef st) (timer st).

Definition set_visitedNodes (s : gset string) (st : state) : state :=
  State (adjList st) (edgeWeights st) (startNode st) (endNode st)
    (selectedAlgorithm st) (explanation st) (isTraversing st) s
    (queuedNodes st) (traversalPath st) (finalPathNodes st) (totalWeight st)
    (animationsRef st) (currentAnimationIndexRef st) (timer st).

Definition set_queuedNodes (s : gset string) (st : state) : state :=
  State (adjList st) (edgeWeights st) (startNode st) (endNode st)
    (selectedAlgorithm st) (explanation st) (isTraversing st)
    (visitedNodes st) s (traversalPath st) (finalPathNodes st)
    (totalWeight st) (animationsRef st) (currentAnimationIndexRef st)
    (timer st).

Definition set_traversalPath (p : list string) (st : state) : state :=
  State (adjList st) (edgeWeights st) (startNode st) (endNode st)
    (selectedAlgorithm st) (explanation st) (isTraversing st)
    (visitedNodes st) (queuedNodes st) p (finalPathNodes st)
    (totalWeight st) (animationsRef st) (currentAnimationIndexRef st)
    (timer st).

Definition set_finalPathNodes (s : gset string) (st : state) : state :=
  State (adjList st) (edgeWeights st) (startNode st) (endNode st)
    (selectedAlgorithm st) (explanation st) (isTraversing st)
    (visitedNodes st) (queuedNodes st) (traversalPath st) s (totalWeight st)
    (animationsRef st) (currentAnimationIndexRef st) (timer st).

Definition set_totalWeight (w : option Z) (st : state) : state :=
  State (adjList st) (edgeWeights st) (startNode st) (endNode st)
    (selectedAlgorithm st) (explanation st) (isTraversing st)
    (visitedNodes st) (queuedNodes st) (traversalPath st)
    (finalPathNodes st) w (animationsRef st) (currentAnimationIndexRef st)
    (timer st).

Definition set_animations (a : list event) (st : state) : state :=
  State (adjList st) (edgeWeights st) (startNode st) (endNode st)
    (selectedAlgorithm st) (explanation st) (isTraversing st)
    (visitedNodes st) (queuedNodes st) (traversalPath st)
    (finalPathNodes st) (totalWeight st) a (currentAnimationIndexRef st)
    (timer st).

Definition set_index (i : Z) (st : state) : state :=
  State (adjList st) (edgeWeights st) (startNode st) (endNode st)
    (selectedAlgorithm st) (explanation st) (isTraversing st)
    (visitedNodes st) (queuedNodes st) (traversalPath st)
    (finalPathNodes st) (totalWeight st) (animationsRef st) i (timer st).

Definition set_timer (b : bool) (st : state) : state :=
  State (adjList st) (edgeWeights st) (startNode st) (endNode st)
    (selectedAlgorithm st) (explanation st) (isTraversing st)
    (visitedNodes st) (queuedNodes st) (traversalPath st)
    (finalPathNodes st) (totalWeight st) (animationsRef st)
    (currentAnimationIndexRef st) b.

(** The [pathAdd] field of an event: the events [visit_start] and
    [visit_node] of [bfs] and [dfs] carry their node, the others have
    none. *)
Definition pathAdd (animation : event) : option string :=
  match animation with
  | Traversal (GraphTraversal.visit_start node)
  | Traversal (GraphTraversal.visit_node node) => Some node
  | _ => None
  end.

(** [if (pathAdd) setTraversalPath(prev => prev.includes(pathAdd) ? prev
    : [...prev, pathAdd])]: a missing [pathAdd] and the empty string are
    falsy. *)
Definition add_to_path (pathAdd : option string) (prev : list string)
  : list string :=
  match pathAdd with
  | Some p =>
      if bool_decide (p = "") then prev
      else if bool_decide (p ∈ prev) then prev else prev ++ [p]
  | None => prev
  end.

(** The branches of [runAnimationStep] on the [type] of the event. *)
Definition show_event (animation : event) (st : state) : state :=
  match animation with
  | Traversal (GraphTraversal.visit_start node)
  | Traversal (GraphTraversal.visit_node node)
  | Pathfinding (start_dijkstra node)
  | Pathfinding (visit_dijkstra node)
  | Pathfinding (visit_a_star node) =>
      let st := set_visitedNodes ({[node]} ∪ visitedNodes st) st in
      let st := set_queuedNodes (queuedNodes st ∖ {[node]}) st in
      set_traversalPath (add_to_path (pathAdd animation) (traversalPath st)) st
  | Traversal (GraphTraversal.queue_node node)
  | Traversal (GraphTraversal.stack_node node)
  | Pathfinding (update_distance node _)
  | Pathfinding (update_a_star node) =>
      set_queuedNodes ({[node]} ∪ queuedNodes st) st
  | Pathfinding (final_path finalPath) =>
      let st := set_finalPathNodes (list_to_set finalPath) st in
      set_totalWeight (Graph.totalWeight (edgeWeights st) finalPath) st
  | _ => st
  end.

(** One call of [runAnimationStep]. *)
Definition runAnimationStep (st : state) : state :=
  if Arr.len (animationsRef st) <=? currentAnimationIndexRef st then
    set_timer false
      (set_explanation TraversalComplete (set_isTraversing false st))
  else
    match Arr.get (animationsRef st) (currentAnimationIndexRef st) with
    | None => st
    | Some animation =>
        let st := set_explanation (TextOf animation) st in
        let st := show_event animation st in
        set_timer true (set_index (currentAnimationIndexRef st + 1) st)
    end.

(** The resets at the start of [handleRunAlgorithm]. *)
Definition reset_display (st : state) : state :=
  let st := set_isTraversing true st in
  let st := set_visitedNodes ∅ st in
  let st := set_queuedNodes ∅ st in
  let st := set_traversalPath [] st in
  let st := set_finalPathNodes ∅ st in
  set_totalWeight (Some 0) st.

(** [animationsRef.current = result.animations;
    currentAnimationIndexRef.current = 0; runAnimationStep()] *)
Definition start_playback (animations : list event) (st : state) : state :=
  runAnimationStep (set_index 0 (set_animations animations st)).

Section Component.
(** The heuristic of [handleRunAlgorithm] is the distance between the
    positions of two nodes in the layout; it is a parameter here, as
    is the fuel of the run. *)
Context (heuristic : string → string → Z) (fuel : nat).

(** [handleRunAlgorithm], from a state without a pending timer. *)
Definition handleRunAlgorithm (st : state) : outcome state :=
  if bool_decide (adjList st = []) then
    Return (set_explanation (Message "Please load a graph first!") st)
  else
    let st := reset_display st in
    match selectedAlgorithm st with
    | bfsAlg =>
        match GraphTraversal.bfs (adjList st) (startNode st) fuel with
        | Some animations =>
            Return (start_playback (Traversal <$> animations) st)
        | None => OutOfFuel
        end
    | dfsAlg =>
        match GraphTraversal.dfs (adjList st) (startNode st) fuel with
        | Some animations =>
            Return (start_playback (Traversal <$> animations) st)
        | None => OutOfFuel
        end
    | dijkstraAlg =>
        if bool_decide (endNode st = "") then
          Return (set_isTraversing false
                    (set_explanation
                       (Message "Please enter a target node for Dijkstra's.")
                       st))
        else
          match dijkstra (adjList st) (edgeWeights st) (startNode st)
                  (endNode st) fuel with
          | Return result =>
              Return (start_playback (Pathfinding <$> animations result) st)
          | Throws e => Throws e
          | OutOfFuel => OutOfFuel
          end
    | aStarAlg =>
        if bool_decide (endNode st = "") then
          Return (set_isTraversing false
                    (set_explanation
                       (Message "Please enter a target node for A*.") st))
        else
          match aStar (adjList st) (edgeWeights st) (startNode st)
                  (endNode st) heuristic fuel with
          | Return result =>
              Return (start_playback (Pathfinding <$> animations result) st)
          | Throws e => Throws e
          | OutOfFuel => OutOfFuel
          end
    end.
End Component.

(** The pending timer, if there is one, fires and calls
    [runAnimationStep]. *)
Definition timer_fires (st : state) : state :=
  if timer st then runAnimationStep st else st.

Fixpoint run_timers (k : nat) (st : state) : state :=
  match k with
  | O => st
  | S k => run_timers k (timer_fires st)
  end.

(** The display after the events of a trace, shown in order. *)
Definition play (st : state) (events : list event) : state :=
  foldl (λ st e, show_event e st) st events.

(** The state while the playback runs: [n] events are shown, the
    explanation is [e] and a timer is pending. *)
Definition playing (s0 : state) (n : nat) (e : explanation_text) : state :=
  set_timer true
    (set_index (Z.of_nat n)
       (set_explanation e (play s0 (take n (animationsRef s0))))).

(** What the loops of [bfs] and [dfs] keep of the display, shown from
    the state [s0] with an empty display: the nodes of the work list are
    the queued ones, apart from the start node, the visited ones are
    those of the [visit_node] events, and the path lists these without
    the empty name. *)
Definition traversal_shown (s0 : state) (start : string)
  (work : list string) (visited : gset string)
  (animations : list GraphTraversal.animation) : Prop :=
  let nodes := GraphTraversal.visit_nodes animations in
  let s := play s0 (Traversal <$> animations) in
  NoDup (work ++ nodes) ∧
  (∀ x, x ∈ work ++ nodes → x ∈ visited) ∧
  start ∈ visited ∧
  head (nodes ++ work) = Some start ∧
  (nodes = [] → work = [start]) ∧
  visitedNodes s = {[start]} ∪ list_to_set nodes ∧
  queuedNodes s = list_to_set work ∖ {[start]} ∧
  traversalPath s
  = filter (λ v, v ≠ "") (match nodes with [] => [start] | _ => nodes end).

End GraphComponent.

(** A state of the graph component with the graph [A-B, A-C, B-D, C-E]
    loaded, before a run. *)
Definition graph_state_example (alg : GraphComponent.algorithm)
  : GraphComponent.state :=
  GraphComponent.State example_graph.1 example_graph.2 "A" "D" alg
    (GraphComponent.Message "Graph loaded successfully.") false ∅ ∅ [] ∅
    (Some 0) [] 0 false.

(** ** Searching the tree from the component (TreeVisualizer) *)

Module TreeSearch.
Import Tree TreeOps.

Section Component.
(** [parseInt] on the text of the search field, [None] being [NaN]. *)
Context (parseInt : string → option Z).

(** [handleSearch]; [searchValue] is the text of the search field. *)
Definition handleSearch (searchValue : string) (st : state) : state :=
  if isAnimating st then st
  else match tree_root st with
  | Null => st
  | tree =>
      match parseInt searchValue with
      | None =>
          State (tree_root st) (isAnimating st)
            (Message "Please enter a valid number to search for.")
            (highlightedNodes st) (selectedTraversal st) (traversalPath st)
            (animationsRef st) (currentAnimationIndexRef st) (timer st)
      | Some value =>
          let animations := (search tree value []).1 in
          runAnimationStep
            (State (tree_root st) true (explanation st) []
               (selectedTraversal st) [] animations 0 (timer st))
      end
  end.
End Component.

(** The highlight that [runAnimationStep] sets for an event. *)
Definition highlight_of (a : animation) : list Z :=
  match type a with
  | highlight | found | visit =>
      match node a with Some n => [n] | None => [] end
  | not_found => []
  end.

End TreeSearch.

(** ** The linked-list component: search, deletion and their playback
    (LinkedListVisualizer.js) *)

Module ListComponent.

Inductive explanation_text :=
  | Message (s : string)
  | TextOf (a : LinkedList.animation).

(** The state and the refs of the component that the handlers touch;
    [nodes] is the store that holds the list of [head], and [timer]
    tells that a [setTimeout] of [runAnimationStep] is pending. *)
Record state := State {
  nodes : LinkedList.store;
  head : option LinkedList.ref;
  listType : LinkedList.list_type;
  isAnimating : bool;
  explanation : explanation_text;
  highlightedNode : option Z;
  animationsRef : list LinkedList.animation;
  currentAnimationIndexRef : Z;
  timer : bool }.

(** The highlight that [runAnimationStep] sets for an event:
    [setHighlightedNode(node)] for [highlight] and [found], [null] for
    the others. *)
Definition highlight_of (a : LinkedList.animation) : option Z :=
  match LinkedList.type a with
  | LinkedList.highlight | LinkedList.found => LinkedList.node_value a
  | _ => None
  end.

(** One call of [runAnimationStep]. *)
Definition runAnimationStep (st : state) : state :=
  if Arr.len (animationsRef st) <=? currentAnimationIndexRef st then
    State (nodes st) (head st) (listType st) false
      (Message "Animation complete.") None (animationsRef st)
      (currentAnimationIndexRef st) false
  else
    match Arr.get (animationsRef st) (currentAnimationIndexRef st) with
    | None => st
    | Some animation =>
        State (nodes st) (head st) (listType st) (isAnimating st)
          (TextOf animation) (highlight_of animation) (animationsRef st)
          (currentAnimationIndexRef st + 1) true
    end.

Section Component.
(** [parseInt] on the text of a field, [None] being [NaN]. *)
Context (parseInt : string → option Z).

(** [handleSearch]; [searchValue] is the text of the search field.
    [None] when the walk of [searchList] does not end within the
    fuel. *)
Definition handleSearch (searchValue : string) (st : state)
  : option state :=
  if isAnimating st then Some st
  else match head st with
  | None => Some st
  | Some _ =>
      match parseInt searchValue with
      | None =>
          Some (State (nodes st) (head st) (listType st) (isAnimating st)
                  (Message "Please enter a valid number to search for.")
                  (highlightedNode st) (animationsRef st)
                  (currentAnimationIndexRef st) (timer st))
      | Some value =>
          '(animations, _) ←
            LinkedListSearch.searchList (S (length (nodes st))) (nodes st)
              (head st) value [];
          Some (runAnimationStep
                  (State (nodes st) (head st) (listType st) true
                     (explanation st) None animations 0 (timer st)))
      end
  end.

(** [handleDelete]; [deleteValue] is the text of the delete field.
    [setHead(newHead)] comes before the first call of
    [runAnimationStep]. *)
Definition handleDelete (deleteValue : string) (st : state)
  : option state :=
  if isAnimating st then Some st
  else match head st with
  | None => Some st
  | Some _ =>
      match parseInt deleteValue with
      | None =>
          Some (State (nodes st) (head st) (listType st) (isAnimating st)
                  (Message "Please enter a valid number to delete.")
                  (highlightedNode st) (animationsRef st)
                  (currentAnimationIndexRef st) (timer st))
      | Some value =>
          '(h, animations, newHead) ←
            LinkedList.deleteNode (nodes st) (head st) value []
              (listType st);
          Some (runAnimationStep
                  (State h newHead (listType st) true (explanation st)
                     None animations 0 (timer st)))
      end
  end.
End Component.

(** The pending timer, if there is one, fires and calls
    [runAnimationStep]. *)
Definition timer_fires (st : state) : state :=
  if timer st then runAnimationStep st else st.

Fixpoint run_timers (k : nat) (st : state) : state :=
  match k with
  | O => st
  | S k => run_timers k (timer_fires st)
  end.

(** The values of the list that the component shows. *)
Definition shown_values (st : state) : list Z :=
  LinkedList.to_list (length (nodes st)) (nodes st) (head st).

End ListComponent.

(** A state of the linked-list component for the list built from
    [values]. *)
Definition list_state_of (values : list Z) (listType : LinkedList.list_type)
  : option ListComponent.state :=
  '(h, hd) ← LinkedList.insert_all values listType;
  Some (ListComponent.State h hd listType false
          (ListComponent.Message "Linked List built successfully.") None []
          0 false).

(** The component with the doubly linked list built from [10, 20, 30]. *)
Definition list_state_example : ListComponent.state :=
  Eval vm_compute in
    default
      (ListComponent.State [] None LinkedList.doublyLinkedList false
         (ListComponent.Message "") None [] 0 false)
      (list_state_of [10; 20; 30] LinkedList.doublyLinkedList).

Definition parseInt_list_example (s : string) : option Z :=
  if String.eqb s "20" then Some 20 else None.

(** ** Distances in the adjacency mapping, and what the loop of [bfs]
    keeps of them *)

(** [hops adjList s v n]: [n] neighbour links lead from [s] to [v]. *)
Inductive hops (adjList : Graph.OMap.t (list string)) (s : string)
  : string → nat → Prop :=
  | hops_start : hops adjList s s 0
  | hops_step u v n neighbours :
      hops adjList s u n →
      Graph.OMap.get adjList u = Some neighbours →
      v ∈ neighbours →
      hops adjList s v (S n).

(** The distance of a node from [s]: the least number of links that
    lead to it. *)
Definition distance (adjList : Graph.OMap.t (list string)) (s : string)
  (v : string) (n : nat) : Prop :=
  hops adjList s v n ∧ ∀ m, hops adjList s v m → (n ≤ m)%nat.

(** The invariant of the loop of [bfs] at the distance [lu] of the node
    taken from the queue last: the nodes taken from the queue and the
    nodes of the queue come in the order of their distances, those of
    the queue are at distance [lu] or [lu + 1], every node within [lu]
    links of the start node is marked, and so are the neighbours of the
    nodes [done] with. *)
Definition bfs_levels (adjList : Graph.OMap.t (list string)) (s : string)
  (lu : nat) (done popped queue : list string) (visited : gset string)
  : Prop :=
  ∃ lp lq : list nat,
    Forall2 (distance adjList s) popped lp ∧
    Forall2 (distance adjList s) queue lq ∧
    StronglySorted le lp ∧ StronglySorted le lq ∧
    (∀ a, a ∈ lp → (a ≤ lu)%nat) ∧
    (∀ b, b ∈ lq → (lu ≤ b ≤ S lu)%nat) ∧
    (∀ x, x ∈ visited ↔ x ∈ popped ∨ x ∈ queue) ∧
    (∀ v m, hops adjList s v m → (m ≤ lu)%nat → v ∈ visited) ∧
    (∀ w neighbours v, w ∈ done →
       Graph.OMap.get adjList w = Some neighbours → v ∈ neighbours →
       v ∈ visited).

(** ** Counting the events of a sorting trace *)

(** The number of events of the type [t] in a trace. *)
Definition count_events (t : anim_type) (l : list animation) : nat :=
  length (filter (λ a, type a = t) l).

(** * Properties *)

(** ** Arrays *)

Section ArrayFacts.
Context {A : Type}.
Implicit Types (arr : list A) (i j k : Z) (x : A).

Lemma get_lookup arr i : 0 ≤ i → Arr.get arr i = arr !! Z.to_nat i.
Proof. intros Hi. unfold Arr.get. destruct (Z.ltb_spec i 0); [lia | done]. Qed.

Lemma get_neg arr i : i < 0 → Arr.get arr i = None.
Proof. intros Hi. unfold Arr.get. destruct (Z.ltb_spec i 0); [done | lia]. Qed.

Lemma get_Some_range arr i x : Arr.get arr i = Some x → 0 ≤ i < Arr.len arr.
Proof.
  unfold Arr.get, Arr.len. destruct (Z.ltb_spec i 0); [done |].
  intros Hx%lookup_lt_Some. lia.
Qed.

Lemma get_in_range arr i : 0 ≤ i < Arr.len arr → is_Some (Arr.get arr i).
Proof.
  unfold Arr.len. intros Hi. rewrite get_lookup by lia.
  apply lookup_lt_is_Some. lia.
Qed.

Lemma get_out_of_range arr i : Arr.len arr ≤ i → Arr.get arr i = None.
Proof.
  unfold Arr.len. intros Hi. rewrite get_lookup by lia.
  apply lookup_ge_None. lia.
Qed.

Lemma set_len arr i x : Arr.len (Arr.set arr i x) = Arr.len arr.
Proof.
  unfold Arr.set, Arr.len. destruct (i <? 0); [done |].
  by rewrite length_insert.
Qed.

Lemma swap_len arr i j : Arr.len (Arr.swap arr i j) = Arr.len arr.
Proof.
  unfold Arr.swap. destruct (Arr.get arr i), (Arr.get arr j); try done.
  by rewrite !set_len.
Qed.

Lemma set_length arr i x : length (Arr.set arr i x) = length arr.
Proof. pose proof (set_len arr i x). unfold Arr.len in *. lia. Qed.

Lemma swap_length arr i j : length (Arr.swap arr i j) = length arr.
Proof. pose proof (swap_len arr i j). unfold Arr.len in *. lia. Qed.

Lemma get_set arr i x k :
  0 ≤ i < Arr.len arr →
  Arr.get (Arr.set arr i x) k = if decide (k = i) then Some x else Arr.get arr k.
Proof.
  unfold Arr.len. intros Hi. unfold Arr.set.
  destruct (Z.ltb_spec i 0); [lia |].
  case_decide as Hk.
  - subst k. rewrite get_lookup by lia.
    apply list_lookup_insert_eq. lia.
  - destruct (Z.ltb_spec k 0) as [Hneg | Hpos].
    + by rewrite !get_neg.
    + rewrite !get_lookup by lia. apply list_lookup_insert_ne. lia.
Qed.

Lemma get_swap arr i j k :
  0 ≤ i < Arr.len arr → 0 ≤ j < Arr.len arr →
  Arr.get (Arr.swap arr i j) k =
    if decide (k = j) then Arr.get arr i
    else if decide (k = i) then Arr.get arr j
    else Arr.get arr k.
Proof.
  intros Hi Hj. unfold Arr.swap.
  destruct (get_in_range arr i Hi) as [a Ha].
  destruct (get_in_range arr j Hj) as [b Hb].
  rewrite Ha, Hb.
  rewrite get_set by (rewrite set_len; lia).
  rewrite get_set by lia.
  repeat case_decide; congruence.
Qed.

Lemma swap_perm arr i j : Arr.swap arr i j ≡ₚ arr.
Proof.
  unfold Arr.swap.
  destruct (Arr.get arr i) as [a|] eqn:Ha; [| done].
  destruct (Arr.get arr j) as [b|] eqn:Hb; [| done].
  pose proof (get_Some_range _ _ _ Ha). pose proof (get_Some_range _ _ _ Hb).
  rewrite get_lookup in Ha, Hb by lia.
  unfold Arr.set.
  destruct (Z.ltb_spec i 0); [lia |]. destruct (Z.ltb_spec j 0); [lia |].
  by apply Permutation_insert_swap.
Qed.

End ArrayFacts.

(** ** Loops *)

Lemma for_range_unfold {St} lo hi (body : Z → St → St) s :
  lo < hi → for_range lo hi body s = for_range (lo + 1) hi body (body lo s).
Proof.
  intros Hlt. unfold for_range. rewrite (seqZ_cons lo) by lia. simpl.
  do 2 f_equal; lia.
Qed.

Lemma for_range_done {St} lo hi (body : Z → St → St) s :
  hi ≤ lo → for_range lo hi body s = s.
Proof. intros Hle. unfold for_range. by rewrite seqZ_nil by lia. Qed.

Lemma for_range_last {St} lo hi (body : Z → St → St) s :
  lo ≤ hi → for_range lo (hi + 1) body s = body hi (for_range lo hi body s).
Proof.
  intros Hle. unfold for_range.
  replace (hi + 1 - lo) with ((hi - lo) + 1) by lia.
  rewrite seqZ_app by lia. rewrite foldl_app.
  replace (lo + (hi - lo)) with hi by lia. done.
Qed.

(** The invariant rule of a [for] loop. *)
Lemma for_range_ind {St} (I : Z → St → Prop) lo hi (body : Z → St → St) s :
  lo ≤ hi →
  I lo s →
  (∀ j s, lo ≤ j < hi → I j s → I (j + 1) (body j s)) →
  I hi (for_range lo hi body s).
Proof.
  intros Hle H0 Hstep.
  assert (∀ n : nat, lo + Z.of_nat n ≤ hi →
            I (lo + Z.of_nat n) (for_range lo (lo + Z.of_nat n) body s)) as Hn.
  { induction n as [|n IH]; intros Hb.
    - rewrite for_range_done by lia. by replace (lo + Z.of_nat 0) with lo by lia.
    - replace (lo + Z.of_nat (S n)) with (lo + Z.of_nat n + 1) by lia.
      rewrite for_range_last by lia. apply Hstep; [lia |]. apply IH. lia. }
  specialize (Hn (Z.to_nat (hi - lo))).
  replace (lo + Z.of_nat (Z.to_nat (hi - lo))) with hi in Hn by lia. apply Hn. lia.
Qed.

Lemma for_rangeM_done {St} lo hi (body : Z → St → option St) s :
  hi ≤ lo → for_rangeM lo hi body s = Some s.
Proof. intros Hle. unfold for_rangeM. by rewrite seqZ_nil by lia. Qed.

Lemma for_rangeM_last {St} lo hi (body : Z → St → option St) s :
  lo ≤ hi → for_rangeM lo (hi + 1) body s = for_rangeM lo hi body s ≫= body hi.
Proof.
  intros Hle. unfold for_rangeM.
  replace (hi + 1 - lo) with ((hi - lo) + 1) by lia.
  rewrite seqZ_app by lia. rewrite foldl_app.
  replace (lo + (hi - lo)) with hi by lia. done.
Qed.

(** The invariant rule of a [for] loop whose body may fail: if the body
    returns under the invariant, so does the loop. *)
Lemma for_rangeM_ind {St} (I : Z → St → Prop) lo hi (body : Z → St → option St) s :
  lo ≤ hi →
  I lo s →
  (∀ j s, lo ≤ j < hi → I j s → ∃ s', body j s = Some s' ∧ I (j + 1) s') →
  ∃ s', for_rangeM lo hi body s = Some s' ∧ I hi s'.
Proof.
  intros Hle H0 Hstep.
  assert (∀ n : nat, lo + Z.of_nat n ≤ hi →
            ∃ s', for_rangeM lo (lo + Z.of_nat n) body s = Some s' ∧
                  I (lo + Z.of_nat n) s') as Hn.
  { induction n as [|n IH]; intros Hb.
    - rewrite for_rangeM_done by lia. exists s.
      by replace (lo + Z.of_nat 0) with lo by lia.
    - replace (lo + Z.of_nat (S n)) with (lo + Z.of_nat n + 1) by lia.
      rewrite for_rangeM_last by lia.
      destruct IH as (s1 & -> & H1); [lia |]. simpl.
      apply Hstep; [lia | done]. }
  specialize (Hn (Z.to_nat (hi - lo))).
  replace (lo + Z.of_nat (Z.to_nat (hi - lo))) with hi in Hn by lia. apply Hn. lia.
Qed.

Lemma for_downM_done {St} hi lo (body : Z → St → option St) s :
  hi < lo → for_downM hi lo body s = Some s.
Proof. intros Hle. unfold for_downM. by rewrite seqZ_nil by lia. Qed.

Lemma foldl_bind_None {St} (body : Z → St → option St) l :
  foldl (λ s j, s ≫= body j) None l = None.
Proof. induction l as [|x l IH]; simpl; done. Qed.

Lemma for_downM_unfold {St} hi lo (body : Z → St → option St) s :
  lo ≤ hi → for_downM hi lo body s = body hi s ≫= for_downM (hi - 1) lo body.
Proof.
  intros Hle. unfold for_downM.
  replace (hi - lo + 1) with ((hi - lo) + 1) by lia.
  rewrite seqZ_app by lia. rewrite reverse_app.
  replace (lo + (hi - lo)) with hi by lia.
  replace (hi - 1 - lo + 1) with (hi - lo) by lia.
  rewrite (seqZ_cons hi 1) by lia. rewrite seqZ_nil by lia.
  change (reverse [hi]) with [hi]. simpl.
  destruct (body hi s) as [s1|]; simpl; [done |].
  apply foldl_bind_None.
Qed.

(** The invariant rule of a descending [for] loop: [I j] holds before the
    iteration at [j], and [I (lo - 1)] at the exit. *)
Lemma for_downM_ind {St} (I : Z → St → Prop) hi lo (body : Z → St → option St) s :
  lo - 1 ≤ hi →
  I hi s →
  (∀ j s, lo ≤ j ≤ hi → I j s → ∃ s', body j s = Some s' ∧ I (j - 1) s') →
  ∃ s', for_downM hi lo body s = Some s' ∧ I (lo - 1) s'.
Proof.
  intros Hle H0 Hstep.
  assert (∀ (n : nat) hi' s, Z.of_nat n = hi' - lo + 1 → hi' ≤ hi → I hi' s →
            ∃ s', for_downM hi' lo body s = Some s' ∧ I (lo - 1) s') as Hn.
  { induction n as [|n IH]; intros hi' s0 Hn Hb Hs.
    - rewrite for_downM_done by lia. exists s0.
      by replace (lo - 1) with hi' by lia.
    - rewrite for_downM_unfold by lia.
      destruct (Hstep hi' s0) as (s1 & -> & H1); [lia | done |]. simpl.
      apply IH; [lia | lia | done]. }
  apply (Hn (Z.to_nat (hi - lo + 1))); [lia | lia | done].
Qed.

(** The rule of a [while] loop: under an invariant that the body keeps
    while it decreases a measure, enough fuel gives a final state. *)
Lemma while_do_ind {St} (I : St → Prop) (measure : St → nat)
    (cond : St → bool) (body : St → option St) :
  (∀ s, I s → cond s = true →
     ∃ s', body s = Some s' ∧ I s' ∧ (measure s' < measure s)%nat) →
  ∀ fuel s, I s → (measure s < fuel)%nat →
    ∃ s', while_do fuel cond body s = Some s' ∧ I s' ∧ cond s' = false.
Proof.
  intros Hstep. induction fuel as [|fuel IH]; intros s Hs Hm; [lia |].
  simpl. destruct (cond s) eqn:Hc.
  - destruct (Hstep s Hs Hc) as (s1 & -> & H1 & Hlt). simpl.
    apply IH; [done | lia].
  - by exists s.
Qed.

(** ** Orders *)

Lemma leo_refl o a : leo o a a.
Proof. destruct o; simpl; lia. Qed.

Lemma leo_trans o a b c : leo o a b → leo o b c → leo o a c.
Proof. destruct o; simpl; lia. Qed.

Lemma leo_total o a b : leo o a b ∨ leo o b a.
Proof. destruct o; simpl; lia. Qed.

Lemma leo_antisym o a b : leo o a b → leo o b a → a = b.
Proof. destruct o; simpl; lia. Qed.

Lemma ord_gt_true o a b : ord_gt o (Some a) (Some b) = true ↔ ¬ leo o a b.
Proof. destruct o; simpl; lia. Qed.

Lemma ord_gt_false o a b : ord_gt o (Some a) (Some b) = false ↔ leo o a b.
Proof. destruct o; simpl; lia. Qed.

Lemma shouldPartition_true o p e :
  shouldPartition o (Some p) (Some e) = true ↔ leo o e p.
Proof. destruct o; simpl; lia. Qed.

Lemma shouldPartition_false o p e :
  shouldPartition o (Some p) (Some e) = false ↔ ¬ leo o e p.
Proof. destruct o; simpl; lia. Qed.

#[global] Instance leo_val_trans {elem} (val : elem → Z) o :
  Transitive (λ x y, leo o (val x) (val y)).
Proof. intros x y z. apply leo_trans. Qed.

#[global] Instance leo_total_inst o : Total (leo o).
Proof. intros x y. apply leo_total. Qed.

#[global] Instance leo_trans_inst o : Transitive (leo o).
Proof. intros x y z. apply leo_trans. Qed.

#[global] Instance leo_antisym_inst o : AntiSymm (=) (leo o).
Proof. intros x y. apply leo_antisym. Qed.

(** ** Keys of array cells *)

Section KeyFacts.
Context {elem : Type} (val : elem → Z).
Implicit Types (arr : list elem) (i j k : Z).

Lemma key_kz arr i : 0 ≤ i < Arr.len arr → key val arr i = Some (kz val arr i).
Proof.
  intros Hi. unfold key, kz.
  destruct (get_in_range arr i Hi) as [x ->]. done.
Qed.

Lemma get_kz arr i x : Arr.get arr i = Some x → kz val arr i = val x.
Proof. intros H. unfold kz. by rewrite H. Qed.

Lemma kz_swap arr i j k :
  0 ≤ i < Arr.len arr → 0 ≤ j < Arr.len arr →
  kz val (Arr.swap arr i j) k =
    if decide (k = j) then kz val arr i
    else if decide (k = i) then kz val arr j
    else kz val arr k.
Proof.
  intros Hi Hj. unfold kz. rewrite get_swap by done.
  repeat case_decide; done.
Qed.

Lemma kz_set arr i x k :
  0 ≤ i < Arr.len arr →
  kz val (Arr.set arr i x) k = if decide (k = i) then val x else kz val arr k.
Proof.
  intros Hi. unfold kz. rewrite get_set by done. case_decide; done.
Qed.

(** From indices to the list: a range that covers the array. *)
Lemma sorted_range_sorted_by o arr :
  sorted_range val o arr 0 (Arr.len arr) → sorted_by val o arr.
Proof.
  unfold sorted_by. induction arr as [|x arr IH]; intros Hs.
  - constructor.
  - constructor.
    + apply IH. intros i j Hi Hij Hj.
      specialize (Hs (i + 1) (j + 1)).
      unfold kz in *. rewrite !get_lookup in * by lia.
      replace (Z.to_nat (i + 1)) with (S (Z.to_nat i)) in Hs by lia.
      replace (Z.to_nat (j + 1)) with (S (Z.to_nat j)) in Hs by lia.
      simpl in Hs. apply Hs; unfold Arr.len in *; simpl length in *; lia.
    + apply Forall_lookup. intros k y Hk.
      pose proof (lookup_lt_Some _ _ _ Hk) as Hlt.
      specialize (Hs 0 (Z.of_nat k + 1)).
      unfold kz in Hs. rewrite !get_lookup in Hs by lia.
      replace (Z.to_nat (Z.of_nat k + 1)) with (S k) in Hs by lia.
      simpl in Hs. rewrite Hk in Hs. simpl in Hs.
      apply Hs; unfold Arr.len; simpl length; lia.
Qed.

End KeyFacts.

(** A sorted permutation of numbers is their canonical sort. *)
Lemma sorted_perm_canonical o (l l' : list Z) :
  sorted_by id o l' → l' ≡ₚ l → l' = canonical_sort o l.
Proof.
  intros Hs Hp. unfold canonical_sort, sorted_by in *. simpl in Hs.
  eapply (StronglySorted_unique (leo o)); [done | | ].
  - apply StronglySorted_merge_sort; apply _.
  - by rewrite merge_sort_Permutation.
Qed.

Section Within.
Context {elem : Type} (val : elem → Z).
Implicit Types (arr : list elem) (lo hi : Z).

Lemma within_refl arr lo hi : within val arr arr lo hi.
Proof. repeat split; try done. intros P HP. done. Qed.

Lemma within_trans a b c lo hi :
  within val a b lo hi → within val b c lo hi → within val a c lo hi.
Proof.
  intros (Hl1 & Hp1 & Hf1 & Hs1) (Hl2 & Hp2 & Hf2 & Hs2).
  repeat split.
  - congruence.
  - by rewrite Hp2.
  - intros p Hp. rewrite Hf2, Hf1 by done. done.
  - intros P HP. apply Hs2. by apply Hs1.
Qed.

Lemma within_kz_frame a b lo hi p :
  within val a b lo hi → ¬ (lo ≤ p ≤ hi) → kz val b p = kz val a p.
Proof. intros (_ & _ & Hf & _) Hp. unfold kz. by rewrite Hf. Qed.

Lemma within_widen a b lo hi lo' hi' :
  lo' ≤ lo → hi ≤ hi' → within val a b lo hi → within val a b lo' hi'.
Proof.
  intros Hlo Hhi Hw. pose proof Hw as (Hl & Hp & Hf & Hs).
  repeat split; try done.
  - intros p Hp'. apply Hf. lia.
  - intros P HP p Hp'.
    destruct (decide (lo ≤ p ≤ hi)) as [Hin | Hout].
    + apply (Hs P); [| done]. intros q Hq. apply HP. lia.
    + rewrite (within_kz_frame a b lo hi p Hw Hout). apply HP. lia.
Qed.

Lemma within_swap arr lo hi i j :
  0 ≤ lo → hi < Arr.len arr → lo ≤ i ≤ hi → lo ≤ j ≤ hi →
  within val arr (Arr.swap arr i j) lo hi.
Proof.
  intros Hlo Hhi Hi Hj. repeat split.
  - apply swap_len.
  - apply swap_perm.
  - intros p Hp. rewrite get_swap by lia.
    repeat case_decide; try lia. done.
  - intros P HP p Hp. rewrite kz_swap by lia.
    repeat case_decide; apply HP; lia.
Qed.

Lemma within_len a b lo hi : within val a b lo hi → Arr.len b = Arr.len a.
Proof. by intros (? & _). Qed.

Lemma within_perm a b lo hi : within val a b lo hi → b ≡ₚ a.
Proof. by intros (_ & ? & _). Qed.

Lemma within_pres a b lo hi (P : Z → Prop) :
  within val a b lo hi →
  (∀ p, lo ≤ p ≤ hi → P (kz val a p)) →
  ∀ p, lo ≤ p ≤ hi → P (kz val b p).
Proof. intros (_ & _ & _ & Hs). apply Hs. Qed.

(** A sorted range outside the segment stays sorted. *)
Lemma within_sorted_frame o a b lo hi l h :
  within val a b lo hi → (h ≤ lo ∨ hi < l) →
  sorted_range val o a l h → sorted_range val o b l h.
Proof.
  intros Hw Hdisj Hs i j Hi Hij Hj.
  rewrite !(within_kz_frame a b lo hi) by (done || lia).
  by apply Hs.
Qed.

End Within.

(** ** Bubble sort *)

Section Bubble.
Context {elem : Type} (val : elem → Z) (o : sort_order) (array : list elem).

Lemma bubble_inner_step i j arr :
  0 ≤ i → 0 ≤ j < (Arr.len array) - i - 1 →
  bubble_inner_inv val o array i j arr →
  bubble_inner_inv val o array i (j + 1)
    (if ord_gt o (key val arr j) (key val arr (j + 1))
     then Arr.swap arr j (j + 1) else arr).
Proof.
  intros Hi Hj ((Hlen & Hperm & Hsuf & Hbound) & Hmax).
  rewrite !key_kz by lia.
  destruct (ord_gt o _ _) eqn:Hcmp.
  - apply ord_gt_true in Hcmp.
    assert (leo o (kz val arr (j + 1)) (kz val arr j)) as Hle
      by (destruct (leo_total o (kz val arr j) (kz val arr (j + 1))); done).
    repeat split.
    + by rewrite swap_len.
    + by rewrite swap_perm.
    + intros p q Hp Hpq Hq. rewrite !kz_swap by lia.
      repeat case_decide; try lia. by apply Hsuf.
    + intros p q Hp Hq. rewrite !kz_swap by lia.
      repeat case_decide; try lia; apply Hbound; lia.
    + intros p Hp. rewrite !kz_swap by lia.
      repeat case_decide; try lia.
      * apply leo_refl.
      * done.
      * apply Hmax. lia.
  - apply ord_gt_false in Hcmp. repeat split; try done.
    intros p Hp. destruct (decide (p = j + 1)) as [-> | Hne].
    + apply leo_refl.
    + eapply leo_trans; [apply Hmax; lia | done].
Qed.

Lemma bubble_pass_end i arr :
  0 ≤ i < (Arr.len array) - 1 →
  bubble_inner_inv val o array i ((Arr.len array) - i - 1) arr → bubble_outer_inv val o array (i + 1) arr.
Proof.
  intros Hi ((Hlen & Hperm & Hsuf & Hbound) & Hmax).
  repeat split; try done.
  - intros p q Hp Hpq Hq.
    destruct (decide (p = (Arr.len array) - i - 1)) as [-> | Hne].
    + destruct (decide (q = (Arr.len array) - i - 1)) as [-> | Hne'].
      * apply leo_refl.
      * apply Hbound; lia.
    + apply Hsuf; lia.
  - intros p q Hp Hq.
    destruct (decide (q = (Arr.len array) - i - 1)) as [-> | Hne].
    + apply Hmax. lia.
    + apply Hbound; lia.
Qed.

Lemma bubbleSort_outer_inv :
  let r := bubbleSort val array o in
  bubble_outer_inv val o array (Z.max 0 ((Arr.len array) - 1)) (finalArray r).
Proof.
  unfold bubbleSort. 
  destruct (for_range 0 ((Arr.len array) - 1) _ _) as [arr anims] eqn:Hloop. simpl.
  destruct (Z.le_gt_cases ((Arr.len array) - 1) 0) as [Hsmall | Hbig].
  - rewrite for_range_done in Hloop by lia. injection Hloop as <- <-.
    replace (Z.max 0 ((Arr.len array) - 1)) with 0 by lia.
    repeat split; try done; unfold sorted_range; intros; lia.
  - replace (Z.max 0 ((Arr.len array) - 1)) with ((Arr.len array) - 1) by lia.
    change arr with (arr, anims).1. rewrite <- Hloop. clear Hloop.
    apply (for_range_ind (λ i st, bubble_outer_inv val o array i st.1)); [lia | |].
    + repeat split; try done; unfold sorted_range; intros; lia.
    + intros i [a t] Hi Hinv. simpl in Hinv.
      destruct (for_range 0 ((Arr.len array) - i - 1) _ _) as [a' t'] eqn:Hin. simpl.
      change a' with (a', t').1. rewrite <- Hin. clear Hin.
      apply bubble_pass_end; [lia |].
      apply (for_range_ind (λ j st, bubble_inner_inv val o array i j st.1)); [lia | |].
      * split; [done |]. intros p Hp. replace p with 0 by lia. apply leo_refl.
      * intros j [a1 t1] Hj Hinv1. simpl in Hinv1.
        pose proof (bubble_inner_step i j a1 ltac:(lia) ltac:(lia) Hinv1) as Hs.
        destruct (ord_gt o _ _); simpl; exact Hs.
Qed.

Lemma bubbleSort_sorted_perm :
  let r := bubbleSort val array o in
  sorted_by val o (finalArray r) ∧ finalArray r ≡ₚ array.
Proof.
  pose proof bubbleSort_outer_inv as (Hlen & Hperm & Hsuf & Hbound).
  simpl. split; [| done].
  apply sorted_range_sorted_by. rewrite Hlen.
  intros i j Hi Hij Hj.
  destruct (decide (i = 0)) as [-> | Hne].
  - destruct (decide (j = 0)) as [-> | Hne'].
    + apply leo_refl.
    + apply Hbound; lia.
  - apply Hsuf; lia.
Qed.

End Bubble.

Lemma finalized_untouched_nil : finalized_untouched [].
Proof. intros p q a b i _ Hp. by rewrite lookup_nil in Hp. Qed.

Lemma finals_above_nil top : finals_above top [].
Proof. intros a i Ha. by apply elem_of_nil in Ha. Qed.

Lemma finals_above_mono top top' t :
  top' ≤ top → finals_above top t → finals_above top' t.
Proof. intros Hle H a i Ha Ht Hi. specialize (H a i Ha Ht Hi). lia. Qed.

Lemma finals_above_snoc top t e :
  finals_above top t →
  (type e = final_position → ∀ i, i ∈ indices e → top < i) →
  finals_above top (t ++ [e]).
Proof.
  intros H He a i Ha Ht Hi. apply elem_of_app in Ha as [Ha | Ha].
  - by apply (H a).
  - apply list_elem_of_singleton in Ha as ->. by apply He.
Qed.

(** An event that is neither a comparison nor a swap can follow any trace. *)
Lemma finalized_untouched_snoc_other t e :
  finalized_untouched t → type e ≠ compare → type e ≠ swap →
  finalized_untouched (t ++ [e]).
Proof.
  intros H Hc Hs p q a b i Hpq Hp Hq Ha Hi [Hty Hin].
  destruct (decide (q < length t)%nat) as [Hlt | Hge].
  - rewrite lookup_app_l in Hp, Hq by lia.
    by apply (H p q a b i).
  - rewrite lookup_app_r in Hq by lia.
    apply list_lookup_singleton_Some in Hq as [_ <-].
    destruct Hty; done.
Qed.

(** An event on indices up to [top] can follow a trace whose finalized
    indices lie above [top]. *)
Lemma finalized_untouched_snoc_low top t e :
  finalized_untouched t → finals_above top t →
  (∀ i, i ∈ indices e → i ≤ top) →
  finalized_untouched (t ++ [e]).
Proof.
  intros H Hfa He p q a b i Hpq Hp Hq Ha Hi [Hty Hin].
  destruct (decide (q < length t)%nat) as [Hlt | Hge].
  - rewrite lookup_app_l in Hp, Hq by lia.
    by apply (H p q a b i).
  - rewrite lookup_app_r in Hq by lia.
    apply list_lookup_singleton_Some in Hq as [Hq <-].
    rewrite lookup_app_l in Hp by lia.
    assert (a ∈ t) as Hat by (apply list_elem_of_lookup; eauto).
    specialize (Hfa a i Hat Ha Hi). specialize (He i Hin). lia.
Qed.

Section BubbleTrace.
Context {elem : Type} (val : elem → Z) (o : sort_order) (array : list elem).

Lemma bubble_trace_step top j arr t :
  j + 1 ≤ top →
  finalized_untouched t ∧ finals_above top t →
  let t' := t ++ [Anim compare [j; j + 1]] in
  let st :=
    if ord_gt o (key val arr j) (key val arr (j + 1))
    then (Arr.swap arr j (j + 1), t' ++ [Anim swap [j; j + 1]])
    else (arr, t') in
  finalized_untouched (st.2 ++ [Anim reset [j; j + 1]]) ∧
  finals_above top (st.2 ++ [Anim reset [j; j + 1]]).
Proof.
  intros Hj [Hfu Hfa]. simpl.
  assert (∀ i, i ∈ [j; j + 1] → i ≤ top) as Hlow.
  { intros i Hi. set_unfold. lia. }
  assert (finalized_untouched (t ++ [Anim compare [j; j + 1]]) ∧
          finals_above top (t ++ [Anim compare [j; j + 1]])) as [Hfu1 Hfa1].
  { split.
    - by apply (finalized_untouched_snoc_low top).
    - by apply finals_above_snoc. }
  destruct (ord_gt o _ _); simpl.
  - assert (finalized_untouched
              ((t ++ [Anim compare [j; j + 1]]) ++ [Anim swap [j; j + 1]]) ∧
            finals_above top
              ((t ++ [Anim compare [j; j + 1]]) ++ [Anim swap [j; j + 1]]))
      as [Hfu2 Hfa2].
    { split.
      - by apply (finalized_untouched_snoc_low top).
      - by apply finals_above_snoc. }
    split.
    + by apply finalized_untouched_snoc_other.
    + by apply finals_above_snoc.
  - split.
    + by apply finalized_untouched_snoc_other.
    + by apply finals_above_snoc.
Qed.

Lemma bubbleSort_trace_inv :
  finalized_untouched (animations (bubbleSort val array o)).
Proof.
  unfold bubbleSort. 
  destruct (for_range 0 ((Arr.len array) - 1) _ _) as [arr anims] eqn:Hloop. simpl.
  apply finalized_untouched_snoc_other; [| done | done].
  change anims with (arr, anims).2. rewrite <- Hloop. clear Hloop.
  destruct (Z.le_gt_cases ((Arr.len array) - 1) 0) as [Hsmall | Hbig].
  { rewrite for_range_done by lia. apply finalized_untouched_nil. }
  eapply proj1.
  apply (for_range_ind
           (λ i st, finalized_untouched st.2 ∧ finals_above ((Arr.len array) - i - 1) st.2));
    [lia | |].
  - split; [apply finalized_untouched_nil | apply finals_above_nil].
  - intros i [a t] Hi Hinv. simpl in Hinv.
    destruct (for_range 0 ((Arr.len array) - i - 1) _ _) as [a' t'] eqn:Hin. simpl.
    assert (finalized_untouched t' ∧ finals_above ((Arr.len array) - i - 1) t') as [Hfu Hfa].
    { change t' with (a', t').2. rewrite <- Hin. clear Hin.
      apply (for_range_ind
               (λ j st, finalized_untouched st.2 ∧
                        finals_above ((Arr.len array) - i - 1) st.2)); [lia | done |].
      intros j [a1 t1] Hj Hinv1. simpl in Hinv1.
      pose proof (bubble_trace_step ((Arr.len array) - i - 1) j a1 t1 ltac:(lia) Hinv1) as Hs.
      simpl in Hs. destruct (ord_gt o _ _); simpl in *; exact Hs. }
    split.
    + by apply finalized_untouched_snoc_other.
    + apply finals_above_snoc.
      * eapply finals_above_mono; [| done]. lia.
      * intros _ k Hk. set_unfold. simpl in Hk. lia.
Qed.

End BubbleTrace.

(** C6. In the trace of bubble sort, for every input sequence and order
    flag, once a [final_position] event names index [i], no later event of
    the trace is a comparison or a swap whose indices include [i]. *)
Theorem bubbleSort_finalized_never_touched (array : list Z) (sortOrder : sort_order) :
  ∀ (p q : nat) (a b : animation) (i : Z),
    (p < q)%nat →
    animations (bubbleSort id array sortOrder) !! p = Some a →
    animations (bubbleSort id array sortOrder) !! q = Some b →
    type a = final_position → i ∈ indices a →
    ¬ ((type b = compare ∨ type b = swap) ∧ i ∈ indices b).
Proof. apply (bubbleSort_trace_inv id sortOrder array). Qed.

(** ** Selection sort *)

Section Selection.
Context {elem : Type} (val : elem → Z) (o : sort_order) (array : list elem).

Lemma selection_inner_step arr i j m :
  Arr.len arr = (Arr.len array) → 0 ≤ i → i + 1 ≤ j < (Arr.len array) →
  selection_inner_inv val o arr i j m →
  selection_inner_inv val o arr i (j + 1)
    (if ord_gt o (key val arr m) (key val arr j) then j else m).
Proof.
  intros Hlen Hi Hj [Hm Hmin].
  rewrite !key_kz by lia.
  destruct (ord_gt o _ _) eqn:Hcmp.
  - apply ord_gt_true in Hcmp.
    assert (leo o (kz val arr j) (kz val arr m)) as Hle
      by (destruct (leo_total o (kz val arr m) (kz val arr j)); done).
    split; [lia |]. intros q Hq.
    destruct (decide (q = j)) as [-> | Hne]; [apply leo_refl |].
    eapply leo_trans; [done | apply Hmin; lia].
  - apply ord_gt_false in Hcmp.
    split; [lia |]. intros q Hq.
    destruct (decide (q = j)) as [-> | Hne]; [done | apply Hmin; lia].
Qed.

Lemma selection_pass_end arr i m :
  0 ≤ i < (Arr.len array) →
  selection_outer_inv val o array i arr → selection_inner_inv val o arr i (Arr.len array) m →
  selection_outer_inv val o array (i + 1)
    (if negb (m =? i) then Arr.swap arr i m else arr).
Proof.
  intros Hi (Hlen & Hperm & Hpre & Hbound) [Hm Hmin].
  assert (selection_outer_inv val o array (i + 1) (Arr.swap arr i m)) as Hswap.
  { repeat split.
    - by rewrite swap_len.
    - by rewrite swap_perm.
    - intros p q Hp Hpq Hq. rewrite !kz_swap by lia.
      repeat case_decide; try lia;
        first [apply leo_refl | apply Hbound; lia | apply Hpre; lia].
    - intros p q Hp Hq. rewrite !kz_swap by lia.
      repeat case_decide; try lia;
        first [apply Hmin; lia | apply Hbound; lia
              | assert (m = i) as -> by lia; apply Hmin; lia]. }
  destruct (Z.eqb_spec m i) as [-> | Hne]; simpl; [| done].
  destruct Hswap as (_ & _ & Hpre' & Hbound').
  repeat split; try done.
  - intros p q Hp Hpq Hq. specialize (Hpre' p q Hp Hpq Hq).
    rewrite !kz_swap in Hpre' by lia.
    repeat case_decide; subst; done.
  - intros p q Hp Hq. specialize (Hbound' p q Hp Hq).
    rewrite !kz_swap in Hbound' by lia.
    repeat case_decide; subst; done.
Qed.

Lemma selectionSort_sorted_perm :
  let r := selectionSort val array o in
  sorted_by val o (finalArray r) ∧ finalArray r ≡ₚ array.
Proof.
  unfold selectionSort. 
  destruct (for_range 0 (Arr.len array) _ _) as [arr anims] eqn:Hloop. simpl.
  assert (selection_outer_inv val o array (Arr.len array) arr) as (Hlen & Hperm & Hpre & _).
  { change arr with (arr, anims).1. rewrite <- Hloop. clear Hloop.
    apply (for_range_ind (λ i st, selection_outer_inv val o array i st.1));
      [unfold Arr.len; lia | |].
    - repeat split; try done; unfold sorted_range; intros; lia.
    - intros i [a t] Hi Hinv. simpl in Hinv.
      destruct (for_range (i + 1) (Arr.len array) _ _) as [m t'] eqn:Hin.
      assert (selection_inner_inv val o a i (Arr.len array) m) as Hm.
      { change m with (m, t').1. rewrite <- Hin. clear Hin.
        apply (for_range_ind (λ j st, selection_inner_inv val o a i j st.1));
          [lia | |].
        - split; [simpl; lia |]. simpl. intros q Hq.
          replace q with i by lia. apply leo_refl.
        - intros j [m1 t1] Hj Hinv1. simpl in Hinv1.
          pose proof (selection_inner_step a i j m1
                        ltac:(apply Hinv) ltac:(lia) ltac:(lia) Hinv1) as Hs.
          destruct (ord_gt o _ _); simpl; exact Hs. }
      pose proof (selection_pass_end a i m Hi Hinv Hm) as Hs.
      destruct (negb (m =? i)); simpl; exact Hs. }
  split; [| done].
  apply sorted_range_sorted_by. by rewrite Hlen.
Qed.

End Selection.

(** ** Insertion sort *)

Lemma set_same {A} (arr : list A) i x : Arr.get arr i = Some x → Arr.set arr i x = arr.
Proof.
  intros H. pose proof (get_Some_range _ _ _ H).
  rewrite get_lookup in H by lia. unfold Arr.set.
  destruct (Z.ltb_spec i 0); [done |]. by apply list_insert_id.
Qed.

(** Moving the hole one cell down: the cell above it takes the value
    below, which the key then overwrites. *)
Lemma set_shift_perm {A} (arr : list A) j a k :
  Arr.get arr j = Some a → 0 ≤ j → j + 1 < Arr.len arr →
  Arr.set (Arr.set arr (j + 1) a) j k ≡ₚ Arr.set arr (j + 1) k.
Proof.
  intros Ha Hj Hlen. unfold Arr.set, Arr.len in *.
  destruct (Z.ltb_spec (j + 1) 0); [lia |]. destruct (Z.ltb_spec j 0); [lia |].
  rewrite get_lookup in Ha by lia.
  replace (Z.to_nat (j + 1)) with (S (Z.to_nat j)) by lia.
  set (jn := Z.to_nat j) in *.
  assert (S jn < length arr)%nat as Hlt by lia.
  rewrite <- (list_insert_insert_eq arr (S jn) a k).
  apply Permutation_insert_swap.
  - apply list_lookup_insert_eq. lia.
  - rewrite list_lookup_insert_ne by lia. done.
Qed.

Section Insertion.
Context {elem : Type} (val : elem → Z) (o : sort_order) (array : list elem).

Lemma insertion_shift_step k i arr t j :
  1 ≤ i < (Arr.len array) →
  insertion_shift_inv val o array k i (arr, t, j) →
  (0 <=? j) && ord_gt o (key val arr j) (Some (val k)) = true →
  ∃ a, Arr.get arr j = Some a ∧
    ∀ t', insertion_shift_inv val o array k i (Arr.set arr (j + 1) a, t', j - 1).
Proof.
  intros Hi (Hlen & Hj & Hperm & Hlo & Hhi & Hcross & Hk) Hcond.
  apply andb_true_iff in Hcond as [Hj0%Z.leb_le Hgt].
  destruct (get_in_range arr j ltac:(lia)) as [a Ha].
  rewrite key_kz in Hgt by lia. apply ord_gt_true in Hgt.
  assert (leo o (val k) (kz val arr j)) as Hka
    by (destruct (leo_total o (kz val arr j) (val k)); done).
  rewrite (get_kz val arr j a Ha) in Hka.
  exists a. split; [done |]. intros t'.
  unfold insertion_shift_inv.
  replace (j - 1 + 1) with j by lia. replace (j - 1 + 2) with (j + 1) by lia.
  pose proof (get_kz val arr j a Ha) as Hkza.
  repeat split.
  - by rewrite set_len.
  - lia.
  - lia.
  - rewrite set_shift_perm by (done || lia). done.
  - intros p q Hp Hpq Hq. rewrite !kz_set by lia.
    repeat case_decide; try lia. apply Hlo; lia.
  - intros p q Hp Hpq Hq. rewrite !kz_set by lia.
    repeat case_decide; try lia.
    + apply leo_refl.
    + rewrite <- Hkza. apply Hcross; lia.
    + apply Hhi; lia.
  - intros p q Hp Hq. rewrite !kz_set by lia.
    repeat case_decide; try lia.
    + rewrite <- Hkza. apply Hlo; lia.
    + apply Hcross; lia.
  - intros q Hq. rewrite !kz_set by lia.
    case_decide; [done |]. apply Hk. lia.
Qed.

Lemma insertion_shift_exit k i arr t j :
  1 ≤ i < (Arr.len array) →
  insertion_shift_inv val o array k i (arr, t, j) →
  (0 <=? j) && ord_gt o (key val arr j) (Some (val k)) = false →
  insertion_outer_inv val o array (i + 1) (Arr.set arr (j + 1) k).
Proof.
  intros Hi (Hlen & Hj & Hperm & Hlo & Hhi & Hcross & Hk) Hcond.
  assert (∀ p, 0 ≤ p ≤ j → leo o (kz val arr p) (val k)) as Hbelow.
  { intros p Hp. apply andb_false_iff in Hcond as [Hneg | Hle].
    - apply Z.leb_gt in Hneg. lia.
    - rewrite key_kz in Hle by lia. apply ord_gt_false in Hle.
      eapply leo_trans; [| done]. apply Hlo; lia. }
  repeat split.
  - by rewrite set_len.
  - done.
  - intros p q Hp Hpq Hq. rewrite !kz_set by lia.
    repeat case_decide; try lia.
    + apply leo_refl.
    + apply Hk. lia.
    + apply Hbelow. lia.
    + destruct (decide (q ≤ j)).
      * apply Hlo; lia.
      * destruct (decide (p ≤ j)).
        -- apply Hcross; lia.
        -- apply Hhi; lia.
Qed.

Lemma insertion_shift_returns k i arr t :
  1 ≤ i < (Arr.len array) → insertion_outer_inv val o array i arr → Arr.get arr i = Some k →
  ∃ arr' t' j,
    insertionSort_shift val o (S (length array)) k i (arr, t, i - 1)
      = Some (arr', t', j) ∧
    insertion_outer_inv val o array (i + 1) (Arr.set arr' (j + 1) k).
Proof.
  intros Hi (Hlen & Hperm & Hsorted) Hk.
  assert (∃ st, insertionSort_shift val o (S (length array)) k i (arr, t, i - 1)
                  = Some st ∧ insertion_shift_inv val o array k i st ∧
                (let '(a, _, j) := st in
                 (0 <=? j) && ord_gt o (key val a j) (Some (val k))) = false)
    as ([[arr' t'] j] & Hrun & Hinv & Hexit).
  { unfold insertionSort_shift.
    apply (while_do_ind (insertion_shift_inv val o array k i)
             (λ st, Z.to_nat (st.2 + 1))).
    - intros [[a1 t1] j1] Hinv Hcond.
      destruct (insertion_shift_step k i a1 t1 j1 Hi Hinv Hcond)
        as (a & Ha & Hnext).
      eexists. rewrite Ha. simpl. split; [done |]. split; [apply Hnext |].
      apply andb_true_iff in Hcond as [Hj0%Z.leb_le _]. simpl. lia.
    - unfold insertion_shift_inv. replace (i - 1 + 1) with i by lia.
      repeat split; try done; try lia; try (by rewrite set_same);
        unfold sorted_range; intros; lia.
    - simpl. unfold Arr.len in Hi. lia. }
  exists arr', t', j. split; [exact Hrun |].
  by eapply insertion_shift_exit.
Qed.

Lemma insertionSort_sorted_perm :
  ∃ r, insertionSort val array o = Some r ∧
       sorted_by val o (finalArray r) ∧ finalArray r ≡ₚ array.
Proof.
  unfold insertionSort. 
  match goal with
  | |- context [for_rangeM 1 (Arr.len array) ?body ?s] =>
      assert (∃ st, for_rangeM 1 (Arr.len array) body s = Some st ∧
                    insertion_outer_inv val o array (Z.max 1 (Arr.len array)) st.1)
        as ([arr anims] & -> & Hinv)
  end.
  { destruct (Z.le_gt_cases (Arr.len array) 1) as [Hsmall | Hbig].
    - rewrite for_rangeM_done by lia. eexists. split; [done |]. simpl.
      repeat split; try done. intros p q Hp Hpq Hq.
      replace q with p by lia. apply leo_refl.
    - replace (Z.max 1 (Arr.len array)) with (Arr.len array) by lia.
      apply (for_rangeM_ind (λ i st, insertion_outer_inv val o array i st.1)); [lia | |].
      + repeat split; try done. intros p q Hp Hpq Hq.
        replace q with p by lia. apply leo_refl.
      + intros i [a t] Hi Hinv. simpl in Hinv.
        destruct (get_in_range a i) as [k Hk].
        { destruct Hinv as (-> & _). lia. }
        rewrite Hk. simpl.
        destruct (insertion_shift_returns k i a (t ++ [Anim mark_key [i]])
                    ltac:(lia) Hinv Hk) as (arr' & t' & j & -> & Hnext).
        simpl. eexists. split; [done |]. exact Hnext. }
  simpl. eexists. split; [done |]. simpl.
  destruct Hinv as (Hlen & Hperm & Hsorted). simpl in *. split; [| done].
  apply sorted_range_sorted_by. rewrite Hlen.
  intros p q Hp Hpq Hq. apply Hsorted; lia.
Qed.

End Insertion.

(** ** Quick sort *)

Section Quick.
Context {elem : Type} (val : elem → Z) (o : sort_order).

Lemma partition_step arr0 low high j arr t i :
  0 ≤ low → low ≤ j < high → high < Arr.len arr0 →
  partition_inv val o arr0 low high j (arr, t, i) →
  ∀ t1 t2,
  partition_inv val o arr0 low high (j + 1)
    (if shouldPartition o (key val arr0 high) (key val arr j)
     then (Arr.swap arr (i + 1) j, t1, i + 1)
     else (arr, t2, i)).
Proof.
  intros Hlow Hj Hhigh (Hw & Hi & Hle & Hgt) t1 t2.
  pose proof (within_len val _ _ _ _ Hw) as Hlen.
  rewrite !key_kz by lia.
  destruct (shouldPartition o _ _) eqn:Hcmp.
  - apply shouldPartition_true in Hcmp. unfold partition_inv. split_and!.
    + eapply within_trans; [done |]. apply within_swap; lia.
    + lia.
    + lia.
    + intros p Hp. rewrite kz_swap by lia.
      repeat case_decide; try lia; [| done | apply Hle; lia].
      replace (i + 1) with j by lia. done.
    + intros p Hp. rewrite kz_swap by lia.
      repeat case_decide; try lia; apply Hgt; lia.
  - apply shouldPartition_false in Hcmp.
    unfold partition_inv. split_and!; try done; try lia.
    intros p Hp. destruct (decide (p = j)) as [-> | Hne]; [done |].
    apply Hgt. lia.
Qed.

Lemma partition_spec arr0 t0 low high :
  0 ≤ low → low < high → high < Arr.len arr0 →
  ∃ arr t pi,
    quickSort_partition val o (arr0, t0) low high = (arr, t, pi) ∧
    partitioned val o arr0 arr low high pi.
Proof.
  intros Hlow Hlt Hhigh. unfold quickSort_partition.
  match goal with
  | |- context [for_range low high ?body ?s] =>
      assert (partition_inv val o arr0 low high high (for_range low high body s))
        as Hinv
  end.
  { apply (for_range_ind (partition_inv val o arr0 low high)); [lia | |].
    - unfold partition_inv.
      split_and!; try lia; try apply within_refl; intros; lia.
    - intros j [[a t] i] Hj Hinv.
      pose proof (partition_step arr0 low high j a t i Hlow Hj Hhigh Hinv) as Hs.
      destruct (shouldPartition o _ _); [apply (Hs _ []) | apply (Hs [])]. }
  destruct (for_range low high _ _) as [[arr t] i].
  destruct Hinv as (Hw & Hi & Hle & Hgt).
  pose proof (within_len val _ _ _ _ Hw) as Hlen.
  eexists _, _, _. split; [done |].
  assert (kz val arr high = kz val arr0 high) as Hpv
    by (apply (within_kz_frame val _ _ low (high - 1)); [done | lia]).
  unfold partitioned. split_and!.
  - eapply within_trans.
    + eapply within_widen; [| | exact Hw]; lia.
    + apply within_swap; lia.
  - lia.
  - lia.
  - intros p Hp. rewrite !kz_swap by lia.
    repeat case_decide; try lia;
      try (replace (i + 1) with high by lia); rewrite ?Hpv; apply Hle; lia.
  - intros p Hp. rewrite !kz_swap by lia.
    assert (∀ q, i < q < high → leo o (kz val arr0 high) (kz val arr q)) as Hgt'.
    { intros q Hq. specialize (Hgt q Hq).
      destruct (leo_total o (kz val arr q) (kz val arr0 high)); done. }
    repeat case_decide; try lia;
      try (replace (i + 1) with high by lia); rewrite ?Hpv;
      first [apply leo_refl | apply Hgt'; lia].
Qed.

Lemma quickSort_sort_unfold fuel st low high :
  quickSort_sort val (S fuel) o st low high =
    if low <? high then
      let '(st, pi) := quickSort_partition val o st low high in
      st ← quickSort_sort val fuel o st low (pi - 1);
      quickSort_sort val fuel o st (pi + 1) high
    else Some st.
Proof. reflexivity. Qed.

Lemma quickSort_sort_spec fuel :
  ∀ arr0 t0 low high,
    0 ≤ low → high < Arr.len arr0 → (Z.to_nat (high - low) < fuel)%nat →
    ∃ arr t, quickSort_sort val fuel o (arr0, t0) low high = Some (arr, t) ∧
             sorted_within val o arr0 arr low high.
Proof.
  induction fuel as [|fuel IH]; intros arr0 t0 low high Hlow Hhigh Hfuel;
    [lia |].
  rewrite quickSort_sort_unfold.
  destruct (Z.ltb_spec low high) as [Hlt | Hge].
  - destruct (partition_spec arr0 t0 low high Hlow Hlt Hhigh)
      as (arr1 & t1 & pi & -> & Hw1 & Hpi & Hle & Hge).
    pose proof (within_len val _ _ _ _ Hw1) as Hlen1.
    destruct (IH arr1 t1 low (pi - 1)) as (arr2 & t2 & -> & Hw2 & Hs2);
      [lia | lia | lia |].
    pose proof (within_len val _ _ _ _ Hw2) as Hlen2.
    simpl.
    destruct (IH arr2 t2 (pi + 1) high) as (arr3 & t3 & -> & Hw3 & Hs3);
      [lia | lia | lia |].
    eexists _, _. split; [done |].
    assert (kz val arr3 pi = kz val arr1 pi) as Hpiv.
    { rewrite (within_kz_frame val arr2 arr3 (pi + 1) high) by (done || lia).
      rewrite (within_kz_frame val arr1 arr2 low (pi - 1)) by (done || lia).
      done. }
    assert (∀ p, low ≤ p < pi → leo o (kz val arr3 p) (kz val arr1 pi)) as Hlo3.
    { intros p Hp.
      rewrite (within_kz_frame val arr2 arr3 (pi + 1) high) by (done || lia).
      apply (within_pres val arr1 arr2 low (pi - 1)
               (λ x, leo o x (kz val arr1 pi))); [done | | lia].
      intros q Hq. apply Hle. lia. }
    assert (∀ p, pi < p ≤ high → leo o (kz val arr1 pi) (kz val arr3 p)) as Hhi3.
    { intros p Hp.
      apply (within_pres val arr2 arr3 (pi + 1) high
               (λ x, leo o (kz val arr1 pi) x)); [done | | lia].
      intros q Hq.
      rewrite (within_kz_frame val arr1 arr2 low (pi - 1)) by (done || lia).
      apply Hge. lia. }
    split.
    + eapply within_trans; [exact Hw1 |].
      eapply within_trans.
      * eapply within_widen; [| | exact Hw2]; lia.
      * eapply within_widen; [| | exact Hw3]; lia.
    + intros p q Hp Hpq Hq.
      destruct (Z.lt_trichotomy p pi) as [Hp1 | [-> | Hp1]];
        destruct (Z.lt_trichotomy q pi) as [Hq1 | [-> | Hq1]]; try lia.
      * rewrite !(within_kz_frame val arr2 arr3 (pi + 1) high) by (done || lia).
        apply Hs2; lia.
      * rewrite Hpiv. by apply Hlo3.
      * eapply leo_trans; [apply Hlo3; lia | apply Hhi3; lia].
      * apply leo_refl.
      * rewrite Hpiv. apply Hhi3. lia.
      * apply Hs3; lia.
  - eexists _, _. split; [done |]. split; [apply within_refl |].
    intros p q Hp Hpq Hq. replace q with p by lia. apply leo_refl.
Qed.

Lemma quickSort_sorted_perm (array : list elem) :
  ∃ r, quickSort val array o = Some r ∧
       sorted_by val o (finalArray r) ∧ finalArray r ≡ₚ array.
Proof.
  unfold quickSort.
  destruct (quickSort_sort_spec (S (length array)) array [] 0
              (Arr.len array - 1)) as (arr & t & -> & Hw & Hs);
    [lia | lia | unfold Arr.len; lia |].
  simpl. eexists. split; [done |]. simpl.
  split; [| by eapply within_perm].
  apply sorted_range_sorted_by.
  rewrite (within_len val _ _ _ _ Hw).
  by replace (Arr.len array - 1 + 1) with (Arr.len array) in Hs by lia.
Qed.

End Quick.

(** ** Heap sort *)

Section Heap.
Context {elem : Type} (val : elem → Z) (o : sort_order).

Lemma heapify_unfold fuel arr animations n i :
  heapSort_heapify val (S fuel) o (arr, animations) n i =
    let largest := i in
    let l := 2 * i + 1 in
    let r := 2 * i + 2 in
    let largest :=
      if (l <? n) && ord_gt o (key val arr l) (key val arr largest)
      then l else largest in
    let largest :=
      if (r <? n) && ord_gt o (key val arr r) (key val arr largest)
      then r else largest in
    if negb (largest =? i) then
      let animations := animations ++ [Anim compare [i; largest]] in
      let animations := animations ++ [Anim swap [i; largest]] in
      let arr := Arr.swap arr i largest in
      heapSort_heapify val fuel o (arr, animations) n largest
    else Some (arr, animations).
Proof. reflexivity. Qed.

(** The choice of [largest] among a node and its children. *)
Lemma largest_spec arr m i :
  0 ≤ i < m → m ≤ Arr.len arr →
  let l := 2 * i + 1 in
  let r := 2 * i + 2 in
  let largest1 :=
    if (l <? m) && ord_gt o (key val arr l) (key val arr i) then l else i in
  let largest :=
    if (r <? m) && ord_gt o (key val arr r) (key val arr largest1)
    then r else largest1 in
  (largest = i ∨ ((largest = l ∨ largest = r) ∧ largest < m ∧
                  ¬ leo o (kz val arr largest) (kz val arr i))) ∧
  leo o (kz val arr i) (kz val arr largest) ∧
  (l < m → leo o (kz val arr l) (kz val arr largest)) ∧
  (r < m → leo o (kz val arr r) (kz val arr largest)).
Proof.
  intros Hi Hm. simpl.
  destruct (Z.ltb_spec (2 * i + 1) m) as [Hl | Hl]; simpl.
  - rewrite (key_kz val arr (2 * i + 1)) by lia.
    rewrite (key_kz val arr i) by lia.
    destruct (ord_gt o (Some (kz val arr (2 * i + 1))) _) eqn:Hc1.
    + apply ord_gt_true in Hc1.
      assert (leo o (kz val arr i) (kz val arr (2 * i + 1))) as Hil
        by (destruct (leo_total o (kz val arr i) (kz val arr (2 * i + 1)));
            done).
      destruct (Z.ltb_spec (2 * i + 2) m) as [Hr | Hr]; simpl.
      * rewrite (key_kz val arr (2 * i + 2)) by lia.
        rewrite (key_kz val arr (2 * i + 1)) by lia.
        destruct (ord_gt o (Some (kz val arr (2 * i + 2))) _) eqn:Hc2.
        -- apply ord_gt_true in Hc2.
           assert (leo o (kz val arr (2 * i + 1)) (kz val arr (2 * i + 2)))
             as Hlr by (destruct (leo_total o (kz val arr (2 * i + 1))
                                    (kz val arr (2 * i + 2))); done).
           split_and!.
           ++ right. split_and!; [by right | lia |].
              intros Hx. apply Hc2. eapply leo_trans; done.
           ++ eapply leo_trans; done.
           ++ done.
           ++ intros _. apply leo_refl.
        -- apply ord_gt_false in Hc2. split_and!.
           ++ right. split_and!; [by left | lia | done].
           ++ done.
           ++ intros _. apply leo_refl.
           ++ done.
      * split_and!.
        -- right. split_and!; [by left | lia | done].
        -- done.
        -- intros _. apply leo_refl.
        -- lia.
    + apply ord_gt_false in Hc1.
      destruct (Z.ltb_spec (2 * i + 2) m) as [Hr | Hr]; simpl.
      * rewrite (key_kz val arr (2 * i + 2)) by lia.
        rewrite (key_kz val arr i) by lia.
        destruct (ord_gt o (Some (kz val arr (2 * i + 2))) _) eqn:Hc2.
        -- apply ord_gt_true in Hc2.
           assert (leo o (kz val arr i) (kz val arr (2 * i + 2)))
             as Hir by (destruct (leo_total o (kz val arr i)
                                    (kz val arr (2 * i + 2))); done).
           split_and!.
           ++ right. split_and!; [by right | lia | done].
           ++ done.
           ++ intros _. eapply leo_trans; done.
           ++ intros _. apply leo_refl.
        -- apply ord_gt_false in Hc2. split_and!.
           ++ by left.
           ++ apply leo_refl.
           ++ done.
           ++ done.
      * split_and!; [by left | apply leo_refl | done | lia].
  - destruct (Z.ltb_spec (2 * i + 2) m) as [Hr | Hr]; [lia |]. simpl.
    split_and!; [by left | apply leo_refl | lia | lia].
Qed.

(** Sifting node [i] down restores the heap on the nodes from [lo] on,
    when only [i] may be out of order with its children and the parent
    of [i] bounds the children of [i]. *)
Lemma heapify_spec fuel :
  ∀ arr t m i lo,
    0 ≤ lo ≤ i → i < m → m ≤ Arr.len arr →
    (Z.to_nat (m - i) < fuel)%nat →
    (∀ k, lo ≤ k → k ≠ i → heap_at val o arr m k) →
    (∀ k c, lo ≤ k → i = 2 * k + 1 ∨ i = 2 * k + 2 →
            c = 2 * i + 1 ∨ c = 2 * i + 2 → c < m →
            leo o (kz val arr c) (kz val arr k)) →
    ∃ arr' t',
      heapSort_heapify val fuel o (arr, t) m i = Some (arr', t') ∧
      within val arr arr' i (m - 1) ∧ heap_range val o arr' m lo.
Proof.
  induction fuel as [|fuel IH]; intros arr t m i lo Hlo Hi Hm Hfuel Hheap Hpar;
    [lia |].
  rewrite heapify_unfold.
  pose proof (largest_spec arr m i ltac:(lia) Hm) as Hlg.
  cbv zeta in *.
  set (largest :=
         if (2 * i + 2 <? m) &&
            ord_gt o (key val arr (2 * i + 2))
              (key val arr (if (2 * i + 1 <? m) &&
                               ord_gt o (key val arr (2 * i + 1)) (key val arr i)
                            then 2 * i + 1 else i))
         then 2 * i + 2
         else if (2 * i + 1 <? m) &&
                 ord_gt o (key val arr (2 * i + 1)) (key val arr i)
              then 2 * i + 1 else i) in *.
  destruct Hlg as (Hcase & Hil & Hll & Hrl). clearbody largest.
  destruct (Z.eqb_spec largest i) as [Heq | Hne]; simpl.
  - eexists _, _. split; [done |]. split; [apply within_refl |].
    intros k Hk. destruct (decide (k = i)) as [-> | Hki]; [| by apply Hheap].
    intros c Hc Hcm. rewrite Heq in Hll, Hrl.
    destruct Hc as [-> | ->]; [apply Hll | apply Hrl]; lia.
  - destruct Hcase as [? | (Hwhich & Hlm & Hstrict)]; [done |].
    assert (i < largest) as Hgt by lia.
    destruct (IH (Arr.swap arr i largest)
                ((t ++ [Anim compare [i; largest]]) ++ [Anim swap [i; largest]])
                m largest lo) as (arr' & t' & Hrun & Hw & Hh).
    + lia.
    + lia.
    + by rewrite swap_len.
    + lia.
    + intros k Hk Hkl c Hc Hcm. rewrite !kz_swap by lia.
      destruct (decide (k = i)) as [-> | Hki].
      * repeat case_decide; try lia;
          first [exact Hil
                | destruct Hc as [-> | ->]; [apply Hll | apply Hrl]; lia].
      * repeat case_decide; try lia.
        -- subst c. eapply Hpar; [exact Hk | lia | exact Hwhich | lia].
        -- by apply Hheap.
    + intros k c Hk Hkp Hc Hcm. rewrite !kz_swap by lia.
      assert (k = i) as -> by lia.
      repeat case_decide; try lia.
      apply (Hheap largest); [lia | lia | done | done].
    + eexists _, _. split; [exact Hrun |]. split; [| done].
      eapply within_trans.
      * apply (within_swap val arr i (m - 1) i largest); lia.
      * eapply within_widen; [| | exact Hw]; lia.
Qed.

(** The root of a heap bounds every cell of it. *)
Lemma heap_root_bound arr m :
  heap_range val o arr m 0 → ∀ p, 0 ≤ p < m → leo o (kz val arr p) (kz val arr 0).
Proof.
  intros Hh p Hp.
  assert (∀ b : nat, ∀ p, 0 ≤ p < m → p ≤ Z.of_nat b →
            leo o (kz val arr p) (kz val arr 0)) as Hall.
  { induction b as [|b IH]; intros q Hq Hb.
    - replace q with 0 by lia. apply leo_refl.
    - destruct (decide (q = 0)) as [-> | Hq0]; [apply leo_refl |].
      eapply leo_trans.
      + apply (Hh ((q - 1) / 2)); [apply Z.div_pos; lia | | lia].
        pose proof (Z.div_mod (q - 1) 2 ltac:(lia)).
        pose proof (Z.mod_pos_bound (q - 1) 2 ltac:(lia)). lia.
      + apply IH.
        * pose proof (Z.div_mod (q - 1) 2 ltac:(lia)).
          pose proof (Z.mod_pos_bound (q - 1) 2 ltac:(lia)). lia.
        * pose proof (Z.div_mod (q - 1) 2 ltac:(lia)).
          pose proof (Z.mod_pos_bound (q - 1) 2 ltac:(lia)). lia. }
  apply (Hall (Z.to_nat p)); lia.
Qed.

Lemma extract_step array j arr t :
  1 ≤ j < Arr.len array →
  extract_inv val o array j arr →
  ∃ arr' t',
    heapSort_heapify val (S (length array)) o (Arr.swap arr 0 j, t) j 0
      = Some (arr', t') ∧
    extract_inv val o array (j - 1) arr'.
Proof.
  intros Hj (Hlen & Hperm & Hheap & Hsorted & Hcross).
  set (arr1 := Arr.swap arr 0 j).
  assert (∀ p, kz val arr1 p =
               if decide (p = j) then kz val arr 0
               else if decide (p = 0) then kz val arr j
               else kz val arr p) as Hkz1
    by (intros p; unfold arr1; apply kz_swap; lia).
  pose proof (heap_root_bound arr (j + 1) Hheap) as Hroot.
  destruct (heapify_spec (S (length array)) arr1 t j 0 0)
    as (arr2 & t2 & Hrun & Hw & Hh).
  - lia.
  - lia.
  - unfold arr1. rewrite swap_len. lia.
  - unfold Arr.len in *. lia.
  - intros k Hk Hk0 c Hc Hcj. rewrite !Hkz1.
    repeat case_decide; try lia. apply (Hheap k); [lia | done | lia].
  - intros k c Hk Hpar. lia.
  - exists arr2, t2. split; [exact Hrun |].
    assert (∀ p, j ≤ p → kz val arr2 p = kz val arr1 p) as Hframe.
    { intros p Hp. apply (within_kz_frame val arr1 arr2 0 (j - 1)); [done | lia]. }
    unfold extract_inv. replace (j - 1 + 1) with j by lia. split_and!.
    + rewrite (within_len val _ _ _ _ Hw). unfold arr1. by rewrite swap_len.
    + rewrite (within_perm val _ _ _ _ Hw). unfold arr1. by rewrite swap_perm.
    + done.
    + intros p q Hp Hpq Hq. rewrite !Hframe, !Hkz1 by lia.
      repeat case_decide; try lia.
      * apply leo_refl.
      * apply Hcross; lia.
      * apply Hsorted; lia.
    + intros p q Hp Hq. rewrite (Hframe q) by lia.
      apply (within_pres val arr1 arr2 0 (j - 1)
               (λ x, leo o x (kz val arr1 q))); [done | | lia].
      intros p' Hp'. rewrite !Hkz1.
      repeat case_decide; try lia;
        first [apply Hroot; lia | apply Hcross; lia].
Qed.

Lemma heapSort_sorted_perm (array : list elem) :
  ∃ r, heapSort val array o = Some r ∧
       sorted_by val o (finalArray r) ∧ finalArray r ≡ₚ array.
Proof.
  unfold heapSort. set (n := Arr.len array).
  assert (0 ≤ n) as Hn0 by (unfold n, Arr.len; lia).
  (* the heap is built bottom-up *)
  match goal with
  | |- context [for_downM (n / 2 - 1) 0 ?body ?s] =>
      assert (∃ st, for_downM (n / 2 - 1) 0 body s = Some st ∧
                    within val array st.1 0 (n - 1) ∧
                    heap_range val o st.1 n (-1 + 1))
        as ([arr1 t1] & -> & Hw1 & Hh1)
  end.
  { apply (for_downM_ind
             (λ j st, within val array st.1 0 (n - 1) ∧
                      heap_range val o st.1 n (j + 1))).
    - pose proof (Z.div_pos n 2 ltac:(lia) ltac:(lia)). lia.
    - split; [apply within_refl |]. simpl.
      intros k Hk c Hc Hcn.
      pose proof (Z.div_mod n 2 ltac:(lia)).
      pose proof (Z.mod_pos_bound n 2 ltac:(lia)). lia.
    - intros j [a t] Hj [Hw Hh]. simpl in Hw, Hh.
      pose proof (Z.div_mod n 2 ltac:(lia)).
      pose proof (Z.mod_pos_bound n 2 ltac:(lia)).
      pose proof (within_len val _ _ _ _ Hw) as Hlen.
      destruct (heapify_spec (S (length array)) a t n j j)
        as (a' & t' & Hrun & Hw' & Hh').
      + lia.
      + lia.
      + fold n in Hlen. lia.
      + unfold n, Arr.len in *. lia.
      + intros k Hk Hkj. apply Hh. lia.
      + intros k c Hk Hpar. lia.
      + exists (a', t'). split; [exact Hrun |]. simpl. split.
        * eapply within_trans; [exact Hw |].
          eapply within_widen; [| | exact Hw']; lia.
        * by replace (j - 1 + 1) with j by lia. }
  simpl in Hw1, Hh1. simpl.
  (* the root is extracted again and again *)
  match goal with
  | |- context [for_downM (n - 1) 1 ?body ?s] =>
      assert (∃ st, for_downM (n - 1) 1 body s = Some st ∧
                    extract_inv val o array (Z.min 0 (n - 1)) st.1)
        as ([arr2 t2] & -> & Hinv)
  end.
  { assert (extract_inv val o array (n - 1) arr1) as Hinit.
    { unfold extract_inv. fold n. replace (n - 1 + 1) with n by lia.
      split_and!.
      - apply (within_len val _ _ _ _ Hw1).
      - apply (within_perm val _ _ _ _ Hw1).
      - done.
      - intros p q Hp Hpq Hq. lia.
      - intros p q Hp Hq. lia. }
    destruct (decide (n = 0)) as [Hz | Hnz].
    - rewrite for_downM_done by lia. eexists. split; [done |]. simpl.
      by replace (Z.min 0 (n - 1)) with (n - 1) by lia.
    - replace (Z.min 0 (n - 1)) with (1 - 1) by lia.
      apply (for_downM_ind (λ j st, extract_inv val o array j st.1)); [lia | done |].
      intros j [a t] Hj Hinv. simpl in Hinv.
      destruct (extract_step array j a
                  ((t ++ [Anim swap [0; j]]) ++ [Anim final_position [j]])
                  ltac:(fold n; lia) Hinv) as (a' & t' & Hrun & Hinv').
      exists (a', t'). split; [exact Hrun | exact Hinv']. }
  simpl. eexists. split; [done |]. simpl.
  destruct Hinv as (Hlen & Hperm & Hheap & Hsorted & Hcross).
  simpl in *. fold n in Hlen, Hsorted, Hcross.
  split; [| done].
  apply sorted_range_sorted_by. rewrite Hlen.
  intros p q Hp Hpq Hq.
  destruct (decide (n = 0)) as [Hz | Hnz]; [lia |].
  replace (Z.min 0 (n - 1)) with 0 in * by lia.
  destruct (decide (p = 0)) as [-> | Hp0].
  - destruct (decide (q = 0)) as [-> | Hq0]; [apply leo_refl |].
    apply Hcross; lia.
  - apply Hsorted; lia.
Qed.

End Heap.

Section Segments.
Context {A : Type}.
Implicit Types (arr : list A) (lo hi : Z).

Lemma seg_nil arr lo hi : hi ≤ lo → seg arr lo hi = [].
Proof. intros H. unfold seg. by replace (Z.to_nat (hi - lo)) with 0%nat by lia. Qed.

Lemma seg_snoc arr lo hi x :
  0 ≤ lo ≤ hi → Arr.get arr hi = Some x →
  seg arr lo (hi + 1) = seg arr lo hi ++ [x].
Proof.
  intros Hlo Hx. unfold seg. rewrite get_lookup in Hx by lia.
  replace (Z.to_nat (hi + 1 - lo)) with (S (Z.to_nat (hi - lo))) by lia.
  apply take_S_r. rewrite lookup_drop.
  by replace (Z.to_nat lo + Z.to_nat (hi - lo))%nat with (Z.to_nat hi) by lia.
Qed.

Lemma seg_app arr lo mid hi :
  0 ≤ lo ≤ mid → mid ≤ hi → seg arr lo hi = seg arr lo mid ++ seg arr mid hi.
Proof.
  intros Hlo Hhi. unfold seg.
  replace (Z.to_nat (hi - lo))
    with (Z.to_nat (mid - lo) + Z.to_nat (hi - mid))%nat by lia.
  rewrite <- take_take_drop. rewrite drop_drop.
  by replace (Z.to_nat lo + Z.to_nat (mid - lo))%nat with (Z.to_nat mid) by lia.
Qed.

Lemma seg_full arr : seg arr 0 (Arr.len arr) = arr.
Proof.
  unfold seg, Arr.len. simpl. rewrite drop_0.
  apply take_ge. lia.
Qed.

Lemma seg_split arr lo hi :
  0 ≤ lo ≤ hi → hi ≤ Arr.len arr →
  arr = seg arr 0 lo ++ seg arr lo hi ++ seg arr hi (Arr.len arr).
Proof.
  intros Hlo Hhi. rewrite <- (seg_app arr lo hi) by lia.
  rewrite <- (seg_app arr 0 lo) by lia. by rewrite seg_full.
Qed.

Lemma seg_length arr lo hi :
  0 ≤ lo ≤ hi → hi ≤ Arr.len arr → length (seg arr lo hi) = Z.to_nat (hi - lo).
Proof.
  intros Hlo Hhi. unfold seg, Arr.len in *.
  rewrite length_take, length_drop. lia.
Qed.

(** An array that reads as [temp] on [l .. r] and as [arr] elsewhere. *)
Lemma overwritten_segment arr arr' (temp : list A) l r :
  0 ≤ l → l ≤ r + 1 → r < Arr.len arr →
  Arr.len arr' = Arr.len arr →
  Z.of_nat (length temp) = r - l + 1 →
  (∀ p, Arr.get arr' p =
        if decide (l ≤ p ≤ r) then Arr.get temp (p - l) else Arr.get arr p) →
  arr' = seg arr 0 l ++ temp ++ seg arr (r + 1) (Arr.len arr).
Proof.
  intros Hl Hlr Hr Hlen Htemp Hget. apply list_eq. intros k.
  specialize (Hget (Z.of_nat k)). rewrite get_lookup in Hget by lia.
  rewrite Nat2Z.id in Hget. rewrite Hget. clear Hget.
  assert (length (seg arr 0 l) = Z.to_nat l) as Hl1.
  { rewrite seg_length by lia. f_equal. lia. }
  case_decide as Hk.
  - rewrite lookup_app_r by lia. rewrite lookup_app_l by lia.
    rewrite get_lookup by lia. f_equal. lia.
  - destruct (decide (Z.of_nat k < l)) as [Hlt | Hge].
    + rewrite lookup_app_l by lia. unfold seg. rewrite drop_0.
      rewrite lookup_take_lt by lia. rewrite get_lookup by lia.
      by rewrite Nat2Z.id.
    + rewrite lookup_app_r by lia. rewrite lookup_app_r by lia.
      rewrite Hl1. unfold seg. rewrite get_lookup by lia. rewrite Nat2Z.id.
      destruct (decide (Z.of_nat k < Arr.len arr)) as [Hin | Hout].
      * rewrite lookup_take_lt by lia. rewrite lookup_drop. f_equal. lia.
      * rewrite lookup_take_ge by lia.
        apply lookup_ge_None. unfold Arr.len in *. lia.
Qed.

End Segments.

(** Sortedness of a list, by positions. *)
Lemma sorted_by_range {elem} (val : elem → Z) o (l : list elem) :
  sorted_by val o l → sorted_range val o l 0 (Arr.len l).
Proof.
  unfold sorted_by. intros Hs i j Hi Hij Hj.
  destruct (decide (i = j)) as [-> | Hne]; [apply leo_refl |].
  destruct (get_in_range l i ltac:(lia)) as [x Hx].
  destruct (get_in_range l j ltac:(lia)) as [y Hy].
  rewrite (get_kz val l i x Hx), (get_kz val l j y Hy).
  rewrite get_lookup in Hx, Hy by lia.
  rewrite <- (take_drop_middle l (Z.to_nat j) y Hy) in Hs.
  apply StronglySorted_app in Hs as (Hcross & _ & _).
  apply Hcross.
  - apply list_elem_of_lookup. exists (Z.to_nat i).
    rewrite lookup_take_lt by lia. done.
  - apply list_elem_of_here.
Qed.

Lemma sorted_by_snoc {elem} (val : elem → Z) o (l : list elem) y :
  sorted_by val o l → (∀ x, x ∈ l → leo o (val x) (val y)) →
  sorted_by val o (l ++ [y]).
Proof.
  unfold sorted_by. intros Hs Hle. apply StronglySorted_app_2; [| done |].
  - intros x1 x2 H1 H2. apply list_elem_of_singleton in H2 as ->. by apply Hle.
  - repeat constructor.
Qed.

(** ** Merge sort *)

Section Merge.
Context {elem : Type} (val : elem → Z) (o : sort_order).

Section MergeStep.
Context (arr : list elem) (l m r : Z).
Context (Hl : 0 ≤ l) (Hlm : l ≤ m) (Hmr : m < r) (Hr : r < Arr.len arr).
Context (Hleft : sorted_range val o arr l (m + 1)).
Context (Hright : sorted_range val o arr (m + 1) (r + 1)).

Lemma merge_take_left i j temp x :
  merge_inv val o arr l m r i j temp → i ≤ m →
  (j ≤ r → leo o (kz val arr i) (kz val arr j)) →
  Arr.get arr i = Some x →
  merge_inv val o arr l m r (i + 1) j (temp ++ [x]).
Proof.
  intros (Hi & Hj & Hperm & Hsorted & Hbound) Him Hij Hx.
  pose proof (get_kz val arr i x Hx) as Hkx.
  unfold merge_inv. split_and!; try lia.
  - rewrite Hperm. rewrite (seg_snoc arr l i x) by (done || lia).
    rewrite <- !app_assoc. apply Permutation_app_head.
    apply Permutation_app_comm.
  - apply sorted_by_snoc; [done |]. intros y Hy.
    rewrite <- Hkx. apply Hbound; [done | lia].
  - intros y p Hy Hp. apply elem_of_app in Hy as [Hy | Hy].
    + apply Hbound; [done | lia].
    + apply list_elem_of_singleton in Hy as ->. rewrite <- Hkx.
      destruct Hp as [Hp | Hp].
      * apply Hleft; lia.
      * eapply leo_trans; [apply Hij; lia |]. apply Hright; lia.
Qed.

Lemma merge_take_right i j temp x :
  merge_inv val o arr l m r i j temp → j ≤ r →
  (i ≤ m → leo o (kz val arr j) (kz val arr i)) →
  Arr.get arr j = Some x →
  merge_inv val o arr l m r i (j + 1) (temp ++ [x]).
Proof.
  intros (Hi & Hj & Hperm & Hsorted & Hbound) Hjr Hji Hx.
  pose proof (get_kz val arr j x Hx) as Hkx.
  unfold merge_inv. split_and!; try lia.
  - rewrite Hperm. rewrite (seg_snoc arr (m + 1) j x) by (done || lia).
    by rewrite <- !app_assoc.
  - apply sorted_by_snoc; [done |]. intros y Hy.
    rewrite <- Hkx. apply Hbound; [done | lia].
  - intros y p Hy Hp. apply elem_of_app in Hy as [Hy | Hy].
    + apply Hbound; [done | lia].
    + apply list_elem_of_singleton in Hy as ->. rewrite <- Hkx.
      destruct Hp as [Hp | Hp].
      * eapply leo_trans; [apply Hji; lia |]. apply Hleft; lia.
      * apply Hright; lia.
Qed.

Lemma merge_inv_length i j temp :
  merge_inv val o arr l m r i j temp → Z.of_nat (length temp) = (i - l) + (j - (m + 1)).
Proof.
  intros (Hi & Hj & Hperm & _). rewrite Hperm, length_app.
  rewrite !seg_length by lia. lia.
Qed.

Lemma merge_spec fuel t :
  (Z.to_nat (r - l + 2) < fuel)%nat →
  ∃ arr' t', mergeSort_merge val fuel o (arr, t) l m r = Some (arr', t') ∧
             msorted val o arr arr' l r.
Proof.
  intros Hfuel. unfold mergeSort_merge.
  (* the two runs are merged *)
  match goal with
  | |- context [while_do fuel ?cond ?body (l, m + 1, @nil elem, t)] =>
      destruct (while_do_ind
                  (λ '(i, j, temp, _), merge_inv val o arr l m r i j temp)
                  (λ '(i, j, _, _),
                     (Z.to_nat (m + 1 - i) + Z.to_nat (r + 1 - j))%nat)
                  cond body) with (fuel := fuel) (s := (l, m + 1, @nil elem, t))
        as ([[[i1 j1] temp1] t1] & -> & Hinv1 & Hexit1)
  end.
  { intros [[[i j] temp] a] Hinv Hcond.
    apply andb_true_iff in Hcond as [Hi%Z.leb_le Hj%Z.leb_le].
    pose proof Hinv as (Hi' & Hj' & _).
    destruct (get_in_range arr i ltac:(lia)) as [x Hx].
    destruct (get_in_range arr j ltac:(lia)) as [y Hy].
    rewrite !key_kz by lia.
    destruct (ord_gt o _ _) eqn:Hcmp.
    - apply ord_gt_true in Hcmp. rewrite Hx. simpl.
      eexists. split; [done |]. split.
      + apply merge_take_left; [done | lia | | done].
        intros _. destruct (leo_total o (kz val arr i) (kz val arr j)); done.
      + lia.
    - apply ord_gt_false in Hcmp. rewrite Hy. simpl.
      eexists. split; [done |]. split.
      + apply merge_take_right; [done | lia | done | done].
      + lia. }
  { unfold merge_inv. split_and!; try lia.
    - rewrite !seg_nil by lia. done.
    - constructor.
    - intros x p Hx. by apply elem_of_nil in Hx. }
  { lia. }
  apply andb_false_iff in Hexit1. simpl.
  (* the rest of the left run *)
  match goal with
  | |- context [while_do fuel ?cond ?body (i1, temp1)] =>
      destruct (while_do_ind
                  (λ '(i, temp), merge_inv val o arr l m r i j1 temp ∧ (i ≤ m → r < j1))
                  (λ '(i, _), Z.to_nat (m + 1 - i))
                  cond body) with (fuel := fuel) (s := (i1, temp1))
        as ([i2 temp2] & -> & [Hinv2 _] & Hexit2)
  end.
  { intros [i temp] [Hinv Hdone] Hi%Z.leb_le.
    pose proof Hinv as (Hi' & Hj' & _).
    destruct (get_in_range arr i ltac:(lia)) as [x Hx].
    rewrite Hx. simpl. eexists. split; [done |]. split; [split |].
    - apply merge_take_left; [done | lia | lia | done].
    - lia.
    - lia. }
  { split; [done |]. intros Hi.
    destruct Hexit1 as [H%Z.leb_gt | H%Z.leb_gt]; lia. }
  { destruct Hinv1 as (? & ? & _). lia. }
  apply Z.leb_gt in Hexit2. simpl.
  (* the rest of the right run *)
  match goal with
  | |- context [while_do fuel ?cond ?body (j1, temp2)] =>
      destruct (while_do_ind
                  (λ '(j, temp), merge_inv val o arr l m r i2 j temp)
                  (λ '(j, _), Z.to_nat (r + 1 - j))
                  cond body) with (fuel := fuel) (s := (j1, temp2))
        as ([j3 temp3] & -> & Hinv3 & Hexit3)
  end.
  { intros [j temp] Hinv Hj%Z.leb_le.
    pose proof Hinv as (Hi' & Hj' & _).
    destruct (get_in_range arr j ltac:(lia)) as [x Hx].
    rewrite Hx. simpl. eexists. split; [done |]. split.
    - apply merge_take_right; [done | lia | lia | done].
    - lia. }
  { done. }
  { destruct Hinv2 as (? & ? & _). lia. }
  apply Z.leb_gt in Hexit3. simpl.
  pose proof (merge_inv_length _ _ _ Hinv3) as Hlen3.
  destruct Hinv3 as (Hi3 & Hj3 & Hperm3 & Hsorted3 & _).
  assert (i2 = m + 1) as -> by lia. assert (j3 = r + 1) as -> by lia.
  rewrite <- (seg_app arr l (m + 1) (r + 1)) in Hperm3 by lia.
  (* the merged run is written back *)
  match goal with
  | |- context [for_rangeM l (r + 1) ?body ?s] =>
      destruct (for_rangeM_ind
                  (λ i '(a, _),
                     Arr.len a = Arr.len arr ∧
                     ∀ p, Arr.get a p =
                          if decide (l ≤ p < i) then Arr.get temp3 (p - l)
                          else Arr.get arr p)
                  l (r + 1) body s)
        as ([arr4 t4] & -> & Hlen4 & Hget4)
  end.
  { lia. }
  { split; [done |]. intros p. case_decide; [lia | done]. }
  { intros i [a t'] Hi [Hlen Hget].
    destruct (get_in_range temp3 (i - l)) as [x Hx];
      [unfold Arr.len; lia |].
    rewrite Hx. simpl. eexists. split; [done |]. simpl. split.
    - by rewrite set_len.
    - intros p. rewrite get_set by lia. rewrite Hget.
      repeat case_decide; try lia; [by subst | done | done]. }
  eexists _, _. split; [done |].
  assert (∀ p, Arr.get arr4 p =
               if decide (l ≤ p ≤ r) then Arr.get temp3 (p - l)
               else Arr.get arr p) as Hget.
  { intros p. rewrite Hget4. repeat case_decide; try lia; done. }
  unfold msorted. split_and!.
  - done.
  - rewrite (overwritten_segment arr arr4 temp3 l r) by (done || lia).
    rewrite (seg_split arr l (r + 1)) at 4 by lia.
    by rewrite Hperm3.
  - intros p Hp. rewrite Hget. case_decide; [lia | done].
  - intros p q Hp Hpq Hq. unfold kz. rewrite !Hget.
    repeat case_decide; try lia.
    apply (sorted_by_range val o temp3 Hsorted3); unfold Arr.len; lia.
Qed.

End MergeStep.

Lemma mergeSort_sort_unfold fuel st l r :
  mergeSort_sort val (S fuel) o st l r =
    if l <? r then
      let m := l + (r - l) / 2 in
      st ← mergeSort_sort val fuel o st l m;
      st ← mergeSort_sort val fuel o st (m + 1) r;
      mergeSort_merge val (S (S (length st.1))) o st l m r
    else Some st.
Proof. reflexivity. Qed.

Lemma mergeSort_sort_spec fuel :
  ∀ arr0 t0 l r,
    0 ≤ l → r < Arr.len arr0 → (Z.to_nat (r - l) < fuel)%nat →
    ∃ arr t, mergeSort_sort val fuel o (arr0, t0) l r = Some (arr, t) ∧
             msorted val o arr0 arr l r.
Proof.
  induction fuel as [|fuel IH]; intros arr0 t0 l r Hl Hr Hfuel; [lia |].
  rewrite mergeSort_sort_unfold.
  destruct (Z.ltb_spec l r) as [Hlt | Hge].
  - cbv zeta.
    pose proof (Z.div_mod (r - l) 2 ltac:(lia)).
    pose proof (Z.mod_pos_bound (r - l) 2 ltac:(lia)).
    set (m := l + (r - l) / 2) in *.
    assert (l ≤ m < r) as Hm by (unfold m; lia). clearbody m.
    destruct (IH arr0 t0 l m) as (arr1 & t1 & -> & Hlen1 & Hperm1 & Hfr1 & Hs1);
      [lia | lia | lia |].
    simpl.
    destruct (IH arr1 t1 (m + 1) r) as (arr2 & t2 & -> & Hlen2 & Hperm2 & Hfr2 & Hs2);
      [lia | lia | lia |].
    cbn [mbind option_bind fst].
    destruct (merge_spec arr2 l m r ltac:(lia) ltac:(lia) ltac:(lia) ltac:(lia))
      with (fuel := S (S (length arr2))) (t := t2)
      as (arr3 & t3 & -> & Hlen3 & Hperm3 & Hfr3 & Hs3).
    + intros p q Hp Hpq Hq. unfold kz. rewrite !Hfr2 by lia. by apply Hs1.
    + done.
    + unfold Arr.len in *. lia.
    + eexists _, _. split; [done |]. unfold msorted. split_and!.
      * congruence.
      * by rewrite Hperm3, Hperm2.
      * intros p Hp. rewrite Hfr3, Hfr2, Hfr1 by lia. done.
      * done.
  - eexists _, _. split; [done |]. unfold msorted. split_and!; try done.
    intros p q Hp Hpq Hq. replace q with p by lia. apply leo_refl.
Qed.

Lemma mergeSort_sorted_perm (array : list elem) :
  ∃ r, mergeSort val array o = Some r ∧
       sorted_by val o (finalArray r) ∧ finalArray r ≡ₚ array.
Proof.
  unfold mergeSort.
  destruct (mergeSort_sort_spec (S (length array)) array [] 0
              (Arr.len array - 1)) as (arr & t & -> & Hlen & Hperm & _ & Hs);
    [lia | lia | unfold Arr.len; lia |].
  simpl. eexists. split; [done |]. simpl. split; [| done].
  apply sorted_range_sorted_by. rewrite Hlen.
  by replace (Arr.len array - 1 + 1) with (Arr.len array) in Hs by lia.
Qed.

End Merge.

(** ** Binary search *)

Module SearchingFacts.
Import Searching.

Lemma iterations_half size size' :
  1 ≤ size → size' ≤ size / 2 → iterations size' + 1 ≤ iterations size.
Proof.
  intros Hs Hh. unfold iterations.
  destruct (Z.leb_spec size 0); [lia |].
  destruct (Z.leb_spec size' 0).
  - pose proof (Z.log2_nonneg size). lia.
  - assert (Z.log2 size' ≤ Z.log2 (size / 2)) by (apply Z.log2_le_mono; lia).
    assert (Z.log2 (size / 2) = Z.log2 size - 1).
    { replace (size / 2) with (Z.shiftr size 1)
        by (rewrite Z.shiftr_div_pow2 by lia; done).
      rewrite Z.log2_shiftr by lia.
      assert (1 ≤ Z.log2 size); [| lia].
      change 1 with (Z.log2 2). apply Z.log2_le_mono.
      assert (1 ≤ size / 2) by lia.
      pose proof (Z.div_mod size 2 ltac:(lia)).
      pose proof (Z.mod_pos_bound size 2 ltac:(lia)). lia. }
    lia.
Qed.

Lemma iterations_mono a b : a ≤ b → iterations a ≤ iterations b.
Proof.
  intros H. unfold iterations.
  destruct (Z.leb_spec a 0), (Z.leb_spec b 0); try lia.
  - pose proof (Z.log2_nonneg b). lia.
  - pose proof (Z.log2_le_mono a b). lia.
Qed.

Lemma count_type_app t l1 l2 :
  count_type t (l1 ++ l2) = (count_type t l1 + count_type t l2)%nat.
Proof. unfold count_type. by rewrite filter_app, length_app. Qed.

Lemma count_type_nil t : count_type t [] = 0%nat.
Proof. done. Qed.

Lemma count_type_cons t a l :
  count_type t (a :: l) =
    ((if decide (type a = t) then 1 else 0) + count_type t l)%nat.
Proof.
  unfold count_type. rewrite filter_cons. case_decide; simpl; lia.
Qed.

(** The loop returns, and what it adds to the trace is bounded by the
    iterations the range allows: one range announcement and one
    comparison per iteration, and at most three events per iteration
    before the final one. *)
Lemma binarySearch_loop_spec fuel :
  ∀ arr target low high animations,
    (Z.to_nat (high - low + 1) < fuel)%nat →
    ∃ t, binarySearch_loop fuel arr target low high animations
           = Some (animations ++ t) ∧
         Z.of_nat (count_type compare t) ≤ iterations (high - low + 1) ∧
         Z.of_nat (count_type compare_range t) ≤ iterations (high - low + 1) ∧
         Z.of_nat (length t) ≤ 3 * iterations (high - low + 1) + 1.
Proof.
  induction fuel as [|fuel IH]; intros arr target low high anims Hfuel; [lia |].
  simpl. destruct (Z.leb_spec low high) as [Hle | Hgt].
  - set (mid := (low + high) / 2).
    assert (low ≤ mid ≤ high) as Hmid.
    { unfold mid. pose proof (Z.div_mod (low + high) 2 ltac:(lia)).
      pose proof (Z.mod_pos_bound (low + high) 2 ltac:(lia)). lia. }
    assert (high - mid ≤ (high - low + 1) / 2 ∧
            mid - low ≤ (high - low + 1) / 2) as [Hr Hl].
    { unfold mid. pose proof (Z.div_mod (low + high) 2 ltac:(lia)).
      pose proof (Z.mod_pos_bound (low + high) 2 ltac:(lia)).
      pose proof (Z.div_mod (high - low + 1) 2 ltac:(lia)).
      pose proof (Z.mod_pos_bound (high - low + 1) 2 ltac:(lia)). lia. }
    clearbody mid.
    assert (1 ≤ iterations (high - low + 1)) as Hone.
    { unfold iterations. destruct (Z.leb_spec (high - low + 1) 0); [lia |].
      pose proof (Z.log2_nonneg (high - low + 1)). lia. }
    destruct (js_eq _ _).
    + exists [Anim compare_range [low; high]; Anim compare [mid];
              Anim found [mid]].
      split; [by rewrite <- !app_assoc |].
      rewrite !count_type_cons, !count_type_nil. simpl.
      repeat case_decide; try done; lia.
    + destruct (js_lt _ _).
      * destruct (IH arr target (mid + 1) high
                    (((anims ++ [Anim compare_range [low; high]]) ++
                      [Anim compare [mid]]) ++
                     [Anim adjust_range [mid; mid + 1]]))
          as (t & -> & Hc & Hcr & Hlen); [lia |].
        pose proof (iterations_half (high - low + 1) (high - (mid + 1) + 1)
                      ltac:(lia) ltac:(lia)) as Hit.
        exists ([Anim compare_range [low; high]; Anim compare [mid];
                 Anim adjust_range [mid; mid + 1]] ++ t).
        split; [by rewrite <- !app_assoc |].
        rewrite !count_type_app, !count_type_cons, !count_type_nil, length_app.
        simpl. repeat case_decide; try done; lia.
      * destruct (IH arr target low (mid - 1)
                    (((anims ++ [Anim compare_range [low; high]]) ++
                      [Anim compare [mid]]) ++
                     [Anim adjust_range [mid; mid - 1]]))
          as (t & -> & Hc & Hcr & Hlen); [lia |].
        pose proof (iterations_half (high - low + 1) (mid - 1 - low + 1)
                      ltac:(lia) ltac:(lia)) as Hit.
        exists ([Anim compare_range [low; high]; Anim compare [mid];
                 Anim adjust_range [mid; mid - 1]] ++ t).
        split; [by rewrite <- !app_assoc |].
        rewrite !count_type_app, !count_type_cons, !count_type_nil, length_app.
        simpl. repeat case_decide; try done; lia.
  - exists [Anim not_found []]. split; [done |].
    assert (iterations (high - low + 1) = 0) as ->.
    { unfold iterations. destruct (Z.leb_spec (high - low + 1) 0); lia. }
    rewrite !count_type_cons, !count_type_nil. simpl.
    repeat case_decide; try done; lia.
Qed.

End SearchingFacts.

(** C5, as the code has it.  On every sequence of length [n] (sorted or
    not) and every target, binary search returns a trace with at most
    [⌊log2 n⌋ + 1] midpoint comparisons and as many range announcements,
    each of them within [⌈log2 n⌉ + 2]; the comparison and range
    announcement events together are at most [2 (⌊log2 n⌋ + 1)], and the
    whole trace has at most [3 (⌊log2 n⌋ + 1) + 1] events. *)
Theorem binarySearch_event_bound (array : list Z) (target : Z) :
  ∃ t, Searching.binarySearch array target = Some t ∧
    let n := Arr.len array in
    Z.of_nat (Searching.count_type Searching.compare t) ≤ Z.log2 n + 1 ∧
    Z.of_nat (Searching.count_type Searching.compare_range t) ≤ Z.log2 n + 1 ∧
    Z.log2 n + 1 ≤ Z.log2_up n + 2 ∧
    Z.of_nat (length (filter (λ a, Searching.is_comparison_or_range a = true) t))
      ≤ 2 * (Z.log2 n + 1) ∧
    Z.of_nat (length t) ≤ 3 * (Z.log2 n + 1) + 1.
Proof.
  unfold Searching.binarySearch.
  destruct (SearchingFacts.binarySearch_loop_spec (S (length array)) array
              target 0 (Arr.len array - 1) [])
    as (t & Hrun & Hc & Hcr & Hlen); [unfold Arr.len; lia |].
  exists t. split; [exact Hrun |]. cbv zeta.
  replace (Arr.len array - 1 - 0 + 1) with (Arr.len array) in * by lia.
  assert (iterations (Arr.len array) ≤ Z.log2 (Arr.len array) + 1)
    as Hit.
  { unfold iterations.
    destruct (Z.leb_spec (Arr.len array) 0); [| lia].
    pose proof (Z.log2_nonneg (Arr.len array)). lia. }
  assert (Z.of_nat (length (filter
            (λ a, Searching.is_comparison_or_range a = true) t)) =
          Z.of_nat (Searching.count_type Searching.compare t) +
          Z.of_nat (Searching.count_type Searching.compare_range t)) as Hboth.
  { clear. induction t as [|a t IH]; [done |].
    rewrite !SearchingFacts.count_type_cons, filter_cons.
    unfold Searching.is_comparison_or_range at 1.
    destruct a as [ty idx]. cbn [Searching.type].
    destruct ty; (case_decide as Hd; [| exfalso; apply Hd; vm_compute; done])
                 || (case_decide as Hd; [vm_compute in Hd; done |]);
      repeat case_decide; try done; simpl length; lia. }
  pose proof (Z.le_log2_log2_up (Arr.len array)).
  split_and!; lia.
Qed.

(** C5 as stated fails: on the sorted sequence [1; 2] and target [3] the
    trace holds four comparison and range-announcement events, more than
    [⌈log2 2⌉ + 2 = 3]. *)
Lemma binarySearch_event_bound_counterexample :
  ¬ (∀ (array : list Z) (target : Z) t,
       isArraySorted id array ascending = true →
       Searching.binarySearch array target = Some t →
       Z.of_nat (length (filter
          (λ a, Searching.is_comparison_or_range a = true) t))
         ≤ Z.log2_up (Arr.len array) + 2).
Proof.
  intros H.
  specialize (H [1; 2] 3 _ eq_refl eq_refl).
  vm_compute in H. by apply H.
Qed.

Module GraphFacts.
Import Graph.

(** More fuel does not change a run that ended. *)
Lemma reconstruct_mono fuel fuel' previous current path p :
  (fuel ≤ fuel')%nat →
  reconstruct fuel previous current path = Some p →
  reconstruct fuel' previous current path = Some p.
Proof.
  revert fuel' current path. induction fuel as [|fuel IH];
    intros fuel' current path Hle Hrun; [done |].
  destruct fuel' as [|fuel']; [lia |]. simpl in *.
  destruct current as [c|]; [| done].
  case_bool_decide; [done |]. apply IH; [lia | done].
Qed.

Section Mono.
Context (adjList : OMap.t (list string)) (edgeWeights : gmap string Z).
Context (startNode endNode : string).

Lemma dijkstra_loop_mono fuel fuel' st st' :
  (fuel ≤ fuel')%nat →
  dijkstra_loop adjList edgeWeights endNode fuel st = Return st' →
  dijkstra_loop adjList edgeWeights endNode fuel' st = Return st'.
Proof.
  revert fuel' st. induction fuel as [|fuel IH]; intros fuel' st Hle Hrun;
    [done |].
  destruct fuel' as [|fuel']; [lia |]. simpl in *.
  destruct (PriorityQueue.deq (d_pq st)) as [[[u d] pq]|]; [| done].
  destruct (num_gt _ _).
  - apply IH; [lia | done].
  - case_bool_decide; [done |].
    destruct (OMap.get adjList u); [| done].
    apply IH; [lia | done].
Qed.

Lemma dijkstra_mono fuel fuel' r :
  (fuel ≤ fuel')%nat →
  dijkstra adjList edgeWeights startNode endNode fuel = Return r →
  dijkstra adjList edgeWeights startNode endNode fuel' = Return r.
Proof.
  intros Hle. unfold dijkstra.
  destruct (dijkstra_loop _ _ _ fuel _) as [st| |] eqn:Hloop; [| done | done].
  rewrite (dijkstra_loop_mono fuel fuel' _ st Hle Hloop).
  destruct (reconstruct fuel _ _ _) as [p|] eqn:Hrec; [| done].
  by rewrite (reconstruct_mono fuel fuel' _ _ _ p Hle Hrec).
Qed.

Context (heuristic : string → string → Z).

Lemma aStar_loop_mono fuel fuel' st r :
  (fuel ≤ fuel')%nat →
  aStar_loop adjList edgeWeights endNode heuristic fuel st = Return r →
  aStar_loop adjList edgeWeights endNode heuristic fuel' st = Return r.
Proof.
  revert fuel' st. induction fuel as [|fuel IH]; intros fuel' st Hle Hrun;
    [done |].
  destruct fuel' as [|fuel']; [lia |]. simpl in *.
  destruct (PriorityQueue.deq (a_pq st)) as [[[u d] pq]|]; [| done].
  case_bool_decide.
  - destruct (reconstruct fuel _ _ _) as [p|] eqn:Hrec; [| done].
    by rewrite (reconstruct_mono fuel fuel' _ _ _ p ltac:(lia) Hrec).
  - destruct (OMap.get adjList u); [| done].
    apply IH; [lia | done].
Qed.

Lemma aStar_mono fuel fuel' r :
  (fuel ≤ fuel')%nat →
  aStar adjList edgeWeights startNode endNode heuristic fuel = Return r →
  aStar adjList edgeWeights startNode endNode heuristic fuel' = Return r.
Proof.
  intros Hle. unfold aStar.
  destruct (aStar_loop _ _ _ _ fuel _) as [x| |] eqn:Hloop; [| done | done].
  by rewrite (aStar_loop_mono fuel fuel' _ x Hle Hloop).
Qed.

End Mono.

End GraphFacts.


(** C2 as stated fails: with the end node [D] unreachable from [A],
    neither pathfinder raises an error.  Dijkstra returns the path [D]
    and announces it in a [final_path] event; A* returns the empty path. *)
Lemma unreachable_end_counterexample :
  (∃ r, Graph.dijkstra split_graph.1 split_graph.2 "A" "D" 10
          = Graph.Return r ∧
        Graph.path r = ["D"] ∧
        Graph.final_path ["D"] ∈ Graph.animations r) ∧
  (∃ r, Graph.aStar split_graph.1 split_graph.2 "A" "D"
          no_position_heuristic 10 = Graph.Return r ∧
        Graph.path r = []).
Proof.
  split.
  - destruct (Graph.dijkstra split_graph.1 split_graph.2 "A" "D" 10)
      as [r| |] eqn:Hrun; try (vm_compute in Hrun; discriminate).
    exists r. split; [done |].
    vm_compute in Hrun. injection Hrun as <-.
    split; [done |]. cbn [Graph.animations]. set_solver.
  - destruct (Graph.aStar split_graph.1 split_graph.2 "A" "D"
                no_position_heuristic 10)
      as [r| |] eqn:Hrun; try (vm_compute in Hrun; discriminate).
    exists r. split; [done |].
    vm_compute in Hrun. by injection Hrun as <-.
Qed.

(** C3 at the failing input.  On the triangle graph from [A], with an end
    node that has no position, A* extracts the stale entry of [B]
    (priority 5, after [B] was processed at priority 2) and processes it
    again: the trace holds two [visit_a_star] events for [B].  Dijkstra,
    which compares the extracted distance with the known one, visits [B]
    once on the same input. *)
Theorem aStar_processes_stale_entry :
  (∃ r, Graph.aStar triangle_graph.1 triangle_graph.2 "A" "Z"
          no_position_heuristic 10 = Graph.Return r ∧
        Graph.animations r =
          [Graph.start_a_star "A"; Graph.visit_a_star "A";
           Graph.update_a_star "B"; Graph.update_a_star "C";
           Graph.visit_a_star "C"; Graph.update_a_star "B";
           Graph.visit_a_star "B"; Graph.visit_a_star "B";
           Graph.complete]) ∧
  (∃ r, Graph.dijkstra triangle_graph.1 triangle_graph.2 "A" "Z" 10
          = Graph.Return r ∧
        Graph.animations r =
          [Graph.start_dijkstra "A"; Graph.visit_dijkstra "A";
           Graph.update_distance "B" 5; Graph.update_distance "C" 1;
           Graph.visit_dijkstra "C"; Graph.update_distance "B" 2;
           Graph.visit_dijkstra "B"; Graph.final_path ["Z"];
           Graph.complete]).
Proof.
  split.
  - destruct (Graph.aStar triangle_graph.1 triangle_graph.2 "A" "Z"
                no_position_heuristic 10)
      as [r| |] eqn:Hrun; try (vm_compute in Hrun; discriminate).
    exists r. split; [done |].
    vm_compute in Hrun. by injection Hrun as <-.
  - destruct (Graph.dijkstra triangle_graph.1 triangle_graph.2 "A" "Z" 10)
      as [r| |] eqn:Hrun; try (vm_compute in Hrun; discriminate).
    exists r. split; [done |].
    vm_compute in Hrun. by injection Hrun as <-.
Qed.

Module AStarFacts.
Import Graph.

(** *** The priority queue *)

Lemma best_elem q b : PriorityQueue.best q = Some b → b ∈ q.
Proof.
  revert b. induction q as [|e q IH]; intros b; simpl; [done |].
  destruct (PriorityQueue.best q) as [b0|].
  - destruct (b0.2 <? e.2); intros [= <-].
    + right. by apply IH.
    + left.
  - intros [= <-]. left.
Qed.

Lemma remove_length e q :
  e ∈ q → S (length (PriorityQueue.remove e q)) = length q.
Proof.
  induction q as [|x q IH]; intros Hin; [by apply elem_of_nil in Hin |].
  simpl. case_decide as Hx; [done |].
  apply elem_of_cons in Hin as [-> | Hin]; [done |].
  simpl. by rewrite IH.
Qed.

Lemma remove_subseteq e q x : x ∈ PriorityQueue.remove e q → x ∈ q.
Proof.
  induction q as [|y q IH]; simpl; [done |].
  case_decide.
  - intros Hx. by right.
  - intros [-> | Hx]%elem_of_cons; [left | right; by apply IH].
Qed.

Lemma deq_spec q e q' :
  PriorityQueue.deq q = Some (e, q') →
  e ∈ q ∧ S (length q') = length q ∧ ∀ x, x ∈ q' → x ∈ q.
Proof.
  unfold PriorityQueue.deq.
  destruct (PriorityQueue.best q) as [b|] eqn:Hb; [| done].
  simpl. intros [= <- <-]. pose proof (best_elem q b Hb) as Hin.
  split_and!; [done | by apply remove_length | apply remove_subseteq].
Qed.

(** *** Measures on the score map *)

Lemma msum_insert f (g : gmap string num) k x y :
  g !! k = Some x →
  (msum f (<[k := y]> g) + f x = msum f g + f y)%nat.
Proof.
  intros Hk. unfold msum.
  rewrite <- (insert_delete_eq g k y).
  rewrite map_to_list_insert by apply lookup_delete_eq.
  rewrite <- (map_to_list_delete g k x Hk). simpl. lia.
Qed.

Lemma lexlt_trans p q r : lexlt p q → lexlt q r → lexlt p r.
Proof. unfold lexlt. lia. Qed.

(** A score that improves makes the measure smaller. *)
Lemma mu_improve (g : gmap string num) v t :
  0 ≤ t →
  (∀ z, g !! v = Some (Fin z) → 0 ≤ z) →
  num_lt (Some (Fin t)) (g !! v) = true →
  lexlt (mu (<[v := Fin t]> g)) (mu g).
Proof.
  intros Ht Hnn Hlt. destruct (g !! v) as [x|] eqn:Hv; [| done].
  pose proof (msum_insert inf_count g v x (Fin t) Hv) as H1.
  pose proof (msum_insert fin_size g v x (Fin t) Hv) as H2.
  unfold lexlt, mu. simpl in *.
  destruct x as [z|]; simpl in *.
  - apply Z.ltb_lt in Hlt. specialize (Hnn z eq_refl). right. lia.
  - left. lia.
Qed.

Lemma get_elem {V} (m : OMap.t V) u (x : V) :
  OMap.get m u = Some x → (u, x) ∈ m.
Proof.
  induction m as [|[k v] m IH]; simpl; [done |].
  case_decide as Hk.
  - intros [= ->]. subst k. apply list_elem_of_here.
  - intros H. apply list_elem_of_further. by apply IH.
Qed.

Section AStar.
Context (adjList : OMap.t (list string)) (edgeWeights : gmap string Z).
Context (startNode endNode : string) (heuristic : string → string → Z).
Context (Hclosed : graph_closed adjList).
Context (Hstart : is_Some (OMap.get adjList startNode)).
Context (Hweights : weights_nonnegative edgeWeights).
Context (Hunreachable : ¬ reachable adjList startNode endNode).

Lemma reachable_in_graph u :
  reachable adjList startNode u → is_Some (OMap.get adjList u).
Proof.
  intros Hr. destruct Hr as [|u v nbrs _ Hu Hv]; [done |].
  unfold graph_closed in Hclosed. rewrite Forall_forall in Hclosed.
  specialize (Hclosed (u, nbrs) (get_elem adjList u nbrs Hu)). simpl in Hclosed.
  rewrite Forall_forall in Hclosed. by apply Hclosed.
Qed.

Lemma aStar_relax_spec u nbrs st v :
  reachable adjList startNode u → OMap.get adjList u = Some nbrs →
  v ∈ nbrs → astar_inv adjList startNode st →
  let st' := aStar_relax edgeWeights endNode heuristic u st v in
  astar_inv adjList startNode st' ∧
  (st' = st ∨ lexlt (mu (a_gScores st')) (mu (a_gScores st))).
Proof.
  intros Hu Hnb Hv (Hq & Hnn & Hev). unfold aStar_relax. cbv zeta.
  destruct (num_lt _ _) eqn:Hlt; [| by split; [| left]].
  destruct (num_add _ _) as [[t|]|] eqn:Hadd; [| by split; [| left] ..].
  assert (0 ≤ t) as Ht.
  { unfold num_add in Hadd.
    destruct (a_gScores st !! u) as [[g|]|] eqn:Hg;
      destruct (edgeWeights !! edge_key u v) as [w|] eqn:Hw; try done.
    injection Hadd as <-. specialize (Hnn u g Hg).
    pose proof (Hweights _ _ Hw). simpl in *. lia. }
  split; [split_and! |].
  - simpl. intros e [He | ->%list_elem_of_singleton]%elem_of_app.
    + by apply Hq.
    + simpl. by eapply reachable_step.
  - simpl. intros v' z. rewrite lookup_insert. case_decide.
    + by intros [= <-].
    + apply Hnn.
  - simpl. unfold no_path_events. rewrite Forall_app. split; [done |].
    by repeat constructor.
  - right. simpl. apply mu_improve; [done | apply Hnn | done].
Qed.

Lemma aStar_relax_fold u nbrs all st :
  reachable adjList startNode u → OMap.get adjList u = Some all →
  (∀ v, v ∈ nbrs → v ∈ all) → astar_inv adjList startNode st →
  let st' := foldl (aStar_relax edgeWeights endNode heuristic u) st nbrs in
  astar_inv adjList startNode st' ∧
  (st' = st ∨ lexlt (mu (a_gScores st')) (mu (a_gScores st))).
Proof.
  intros Hu Hall. revert st. induction nbrs as [|v nbrs IH];
    intros st Hsub Hinv; simpl; [by split; [| left] |].
  destruct (aStar_relax_spec u all st v Hu Hall) as [Hinv1 Hm1];
    [apply Hsub, list_elem_of_here | done |].
  destruct (IH (aStar_relax edgeWeights endNode heuristic u st v))
    as [Hinv2 Hm2];
    [intros x Hx; by apply Hsub, list_elem_of_further | done |].
  split; [done |].
  set (st1 := aStar_relax edgeWeights endNode heuristic u st v) in *.
  clearbody st1.
  destruct Hm1 as [Heq1 | Hm1], Hm2 as [Heq2 | Hm2].
  - left. congruence.
  - right. by rewrite <- Heq1.
  - right. by rewrite Heq2.
  - right. by eapply lexlt_trans.
Qed.

(** The loop runs the queue empty. *)
Lemma aStar_loop_returns :
  ∀ (a b c : nat) st,
    astar_inv adjList startNode st →
    (mu (a_gScores st)).1 = a → (mu (a_gScores st)).2 = b →
    length (a_pq st) = c →
    ∃ fuel st',
      aStar_loop adjList edgeWeights endNode heuristic fuel st
        = Return (inr st') ∧
      no_path_events (a_animations st').
Proof.
  induction a as [a IHa] using lt_wf_ind.
  induction b as [b IHb] using lt_wf_ind.
  induction c as [c IHc] using lt_wf_ind.
  intros st Hinv Ha Hb Hc.
  destruct (PriorityQueue.deq (a_pq st)) as [[[u p] pq]|] eqn:Hdeq.
  - destruct (deq_spec _ _ _ Hdeq) as (Hin & Hlen & Hsub).
    pose proof Hinv as (Hq & Hnn & Hev).
    pose proof (Hq _ Hin) as Hu. simpl in Hu.
    assert (u ≠ endNode) as Hne by (intros ->; done).
    destruct (reachable_in_graph u Hu) as [nbrs Hnb].
    set (st0 := AState (a_gScores st) (a_fScores st) (a_previous st) pq
                       (a_animations st ++ [visit_a_star u])).
    assert (astar_inv adjList startNode st0) as Hinv0.
    { split_and!; simpl.
      - intros e He. apply Hq. by apply Hsub.
      - done.
      - unfold no_path_events. rewrite Forall_app. split; [done |].
        by repeat constructor. }
    destruct (aStar_relax_fold u nbrs nbrs st0 Hu Hnb ltac:(done) Hinv0)
      as [Hinv1 Hm].
    set (st1 := foldl (aStar_relax edgeWeights endNode heuristic u) st0 nbrs)
      in *.
    assert (∃ fuel st',
              aStar_loop adjList edgeWeights endNode heuristic fuel st1
                = Return (inr st') ∧
              no_path_events (a_animations st')) as (fuel & st' & Hrun & Hclean).
    { destruct Hm as [Heq | [Hlt | [Heq Hlt]]].
      - apply (IHc (length pq)); [lia | done | | |].
        + by rewrite Heq.
        + by rewrite Heq.
        + by rewrite Heq.
      - simpl in Hlt. eapply (IHa _ ltac:(rewrite <- Ha; exact Hlt)); done.
      - simpl in Heq, Hlt.
        eapply (IHb _ ltac:(rewrite <- Hb; exact Hlt)); [done | | done | done].
        simpl. rewrite Heq. exact Ha. }
    exists (S fuel), st'. split; [| done].
    simpl. rewrite Hdeq. rewrite bool_decide_eq_false_2 by done.
    rewrite Hnb. exact Hrun.
  - exists 1%nat, st. split; [| apply Hinv].
    simpl. by rewrite Hdeq.
Qed.

Lemma aStar_returns_no_path :
  ∃ fuel r,
    aStar adjList edgeWeights startNode endNode heuristic fuel = Return r ∧
    path r = [] ∧
    last (animations r) = Some complete ∧
    no_path_events (animations r).
Proof.
  unfold aStar.
  set (init := foldl _ _ _).
  set (st := AState _ _ _ _ _).
  assert (∀ (l : list string) (g f : gmap string num) v z,
            (foldl (λ '(g, f) node,
               (<[node := Infinity]> g, <[node := Infinity]> f)) (g, f) l).1
              !! v = Some (Fin z) → g !! v = Some (Fin z)) as Hinit.
  { induction l as [|x l IH]; intros g f v z; simpl; [done |].
    intros Hx%IH. rewrite lookup_insert in Hx. by case_decide. }
  assert (astar_inv adjList startNode st) as Hinv.
  { split_and!; simpl.
    - intros e ->%list_elem_of_singleton. simpl. constructor.
    - intros v z. rewrite lookup_insert. case_decide.
      + by intros [= <-].
      + intros Hx%Hinit. by rewrite lookup_empty in Hx.
    - by repeat constructor. }
  destruct (aStar_loop_returns _ _ _ st Hinv eq_refl eq_refl eq_refl)
    as (fuel & st' & Hrun & Hclean).
  exists fuel. eexists. rewrite Hrun. split; [done |]. simpl.
  split_and!; [done | by rewrite last_snoc |].
  unfold no_path_events. rewrite Forall_app. split; [done |].
  by repeat constructor.
Qed.

End AStar.

End AStarFacts.

(** ** Linked list: deleting the head *)

(** C8. Deleting the head value 10 of the doubly linked list built from
    [10, 20, 30] returns as new head the node of value 20, whose [prev]
    link is empty; its [next] link still leads to the node of value 30,
    whose links are as before, the list reads [20, 30], and no node other
    than the new head was changed. *)
Theorem delete_head_of_doubly_list :
  ∃ h head h' animations newHead second,
    LinkedList.insert_all [10; 20; 30] LinkedList.doublyLinkedList
      = Some (h, head) ∧
    LinkedList.deleteNode h head 10 [] LinkedList.doublyLinkedList
      = Some (h', animations, Some newHead) ∧
    animations = [LinkedList.Anim LinkedList.delete_head (Some 10)] ∧
    h' !! newHead = Some (LinkedList.Node 20 None (Some second)) ∧
    h !! newHead = Some (LinkedList.Node 20 head (Some second)) ∧
    h' !! second = Some (LinkedList.Node 30 (Some newHead) None) ∧
    LinkedList.to_list (length h') h' (Some newHead) = [20; 30] ∧
    (∀ r, r ≠ newHead → h' !! r = h !! r).
Proof.
  eexists _, _, _, _, _, _.
  split; [vm_compute; reflexivity |].
  split; [vm_compute; reflexivity |].
  split; [reflexivity |].
  split; [reflexivity |].
  split; [reflexivity |].
  split; [reflexivity |].
  split; [reflexivity |].
  intros [|[|[|r]]] Hr; try done.
Qed.

(** ** The Sort handler on a sorted array *)

(** C10. When an array is loaded and already sorted under the selected
    order, Sort only notifies the user: it returns with the array, the
    animation index, the [isSorting] flag and every other field of the
    state unchanged, and no trace is generated. *)
Theorem handleSort_already_sorted (st : Visualizer.state) :
  Visualizer.array st ≠ [] →
  isArraySorted id (Visualizer.array st) (Visualizer.sortOrder st) = true →
  ∃ st', Visualizer.handleSort st = Some st' ∧
    Visualizer.alerts st' = Visualizer.alerts st ++ ["Array is already sorted!"] ∧
    Visualizer.array st' = Visualizer.array st ∧
    Visualizer.currentAnimationIndexRef st' = Visualizer.currentAnimationIndexRef st ∧
    Visualizer.isSorting st' = Visualizer.isSorting st ∧
    Visualizer.animationsRef st' = Visualizer.animationsRef st ∧
    Visualizer.localArrayRef st' = Visualizer.localArrayRef st ∧
    Visualizer.explanation st' = Visualizer.explanation st ∧
    Visualizer.selectedAlgorithm st' = Visualizer.selectedAlgorithm st ∧
    Visualizer.sortOrder st' = Visualizer.sortOrder st ∧
    Visualizer.timer st' = Visualizer.timer st.
Proof.
  intros Hne Hsorted. unfold Visualizer.handleSort.
  destruct (Z.eqb_spec (Arr.len (Visualizer.array st)) 0) as [Hz | _].
  { unfold Arr.len in Hz. destruct (Visualizer.array st); [done | simpl in Hz; lia]. }
  rewrite Hsorted. eexists. split; [done |]. by destruct st.
Qed.

Lemma handleSort_already_sorted_witness :
  ∃ st', Visualizer.handleSort sorted_state_example = Some st' ∧
    Visualizer.alerts st' = ["Array is already sorted!"] ∧
    Visualizer.array st' = [1; 2; 3] ∧
    Visualizer.isSorting st' = false ∧
    Visualizer.animationsRef st' = [].
Proof.
  destruct (handleSort_already_sorted sorted_state_example)
    as (st' & Hrun & Ha & Harr & _ & Hs & Han & _);
    [discriminate | reflexivity |].
  exists st'. split_and!; done.
Defined.

Module BuildFacts.

(** *** Tail-append keeps the nodes chained in allocation order *)

Import LinkedList.

Lemma last_node_S fuel h c :
  last_node (S fuel) h c =
    (n ← h !! c;
     match next n with
     | None => Some c
     | Some nx => last_node fuel h nx
     end).
Proof. reflexivity. Qed.

Lemma to_list_S fuel h c :
  to_list (S fuel) h (Some c) =
    match h !! c with
    | Some n => value n :: to_list fuel h (next n)
    | None => []
    end.
Proof. reflexivity. Qed.

Lemma to_list_None fuel h : to_list fuel h None = [].
Proof. by destruct fuel. Qed.

Lemma last_node_chain h : chain h →
  ∀ fuel c, (c < length h)%nat → (length h - c ≤ fuel)%nat →
    last_node fuel h c = Some (length h - 1)%nat.
Proof.
  intros Hc. induction fuel as [|fuel IH]; intros c Hlt Hfuel; [lia |].
  rewrite last_node_S. destruct (lookup_lt_is_Some_2 h c Hlt) as [n Hn].
  rewrite Hn. simpl. rewrite (Hc c n Hn). case_decide.
  - apply IH; lia.
  - f_equal. lia.
Qed.

Lemma to_list_chain h : chain h →
  ∀ fuel c, (length h - c ≤ fuel)%nat →
    to_list fuel h (if decide (c < length h)%nat then Some c else None)
      = drop c (value <$> h).
Proof.
  intros Hc. induction fuel as [|fuel IH]; intros c Hfuel.
  - case_decide; [lia |]. simpl. rewrite drop_ge; [done |].
    rewrite length_fmap. lia.
  - case_decide as Hlt.
    + rewrite to_list_S. destruct (lookup_lt_is_Some_2 h c Hlt) as [n Hn].
      rewrite Hn. rewrite (Hc c n Hn).
      rewrite (IH (S c)) by lia.
      rewrite (drop_S (value <$> h) (value n) c); [done |].
      by rewrite list_lookup_fmap, Hn.
    + rewrite to_list_None. rewrite drop_ge; [done |]. rewrite length_fmap. lia.
Qed.

(** Appending a node to a chain and linking the last node to it. *)
Lemma chain_snoc h v p (f : node → node) :
  chain h → (0 < length h)%nat →
  (∀ n, value (f n) = value n ∧ next (f n) = next n) →
  chain (alter f (length h)
           (alter (set_next (Some (length h))) (length h - 1)%nat
              (h ++ [Node v p None]))).
Proof.
  intros Hc Hlen Hf i n.
  rewrite !length_alter, length_app. simpl.
  intros Hn.
  destruct (decide (i = length h)) as [-> | Hi].
  - rewrite list_lookup_alter_eq in Hn.
    rewrite list_lookup_alter_ne in Hn by lia.
    rewrite lookup_app_r in Hn by lia.
    replace (length h - length h)%nat with 0%nat in Hn by lia. simpl in Hn.
    injection Hn as <-. rewrite (proj2 (Hf _)). simpl.
    case_decide; [lia | done].
  - rewrite list_lookup_alter_ne in Hn by lia.
    destruct (decide (i = (length h - 1)%nat)) as [-> | Hi'].
    + rewrite list_lookup_alter_eq in Hn.
      rewrite lookup_app_l in Hn by lia.
      destruct (h !! (length h - 1)%nat) as [n0|] eqn:Hn0; [| done].
      simpl in Hn. injection Hn as <-. simpl.
      case_decide; [f_equal; lia | lia].
    + rewrite list_lookup_alter_ne in Hn by lia.
      assert (i < length h)%nat as Hlt.
      { apply lookup_lt_Some in Hn. rewrite length_app in Hn. simpl in Hn. lia. }
      rewrite lookup_app_l in Hn by lia.
      rewrite (Hc i n Hn). repeat case_decide; try lia; done.
Qed.

Lemma values_snoc h v p (f : node → node) :
  (0 < length h)%nat →
  (∀ n, value (f n) = value n ∧ next (f n) = next n) →
  value <$> alter f (length h)
              (alter (set_next (Some (length h))) (length h - 1)%nat
                 (h ++ [Node v p None]))
    = (value <$> h) ++ [v].
Proof.
  intros Hlen Hf. apply list_eq. intros i.
  rewrite list_lookup_fmap.
  destruct (decide (i = length h)) as [-> | Hi].
  - rewrite list_lookup_alter_eq, list_lookup_alter_ne by lia.
    rewrite lookup_app_r by lia.
    rewrite lookup_app_r by (rewrite length_fmap; lia).
    rewrite length_fmap.
    replace (length h - length h)%nat with 0%nat by lia. simpl.
    by rewrite (proj1 (Hf _)).
  - rewrite list_lookup_alter_ne by lia.
    destruct (decide (i = (length h - 1)%nat)) as [-> | Hi'].
    + rewrite list_lookup_alter_eq.
      rewrite lookup_app_l by lia.
      rewrite lookup_app_l by (rewrite length_fmap; lia).
      rewrite list_lookup_fmap.
      by destruct (h !! (length h - 1)%nat).
    + rewrite list_lookup_alter_ne by lia.
      destruct (decide (i < length h)%nat).
      * rewrite lookup_app_l by lia.
        rewrite lookup_app_l by (rewrite length_fmap; lia).
        by rewrite list_lookup_fmap.
      * rewrite !lookup_ge_None_2; [done | |].
        -- rewrite length_app, length_fmap. simpl. lia.
        -- rewrite length_app. simpl. lia.
Qed.

Lemma insert_chain h v listType :
  chain h →
  ∃ h', insert h (head_of h) v listType = Some (h', head_of h') ∧
        chain h' ∧ value <$> h' = (value <$> h) ++ [v].
Proof.
  intros Hc. unfold insert, head_of.
  case_decide as Hlen.
  - assert (last_node (S (length (h ++ [Node v None None])))
              (h ++ [Node v None None]) 0 = Some (length h - 1)%nat) as ->.
    { clear -Hc Hlen.
      assert (∀ fuel c, (c < length h)%nat → (length h - c ≤ fuel)%nat →
                last_node fuel (h ++ [Node v None None]) c
                  = Some (length h - 1)%nat) as Hgo.
      { induction fuel as [|fuel IH]; intros c Hlt Hfuel; [lia |].
        rewrite last_node_S. rewrite lookup_app_l by lia.
        destruct (lookup_lt_is_Some_2 h c Hlt) as [n Hn].
        rewrite Hn. simpl. rewrite (Hc c n Hn). case_decide.
        - apply IH; lia.
        - f_equal. lia. }
      apply Hgo; [lia |]. rewrite length_app. simpl. lia. }
    simpl.
    destruct listType.
    + exists (alter id (length h)
                (alter (set_next (Some (length h))) (length h - 1)%nat
                   (h ++ [Node v None None]))).
      assert (∀ l : store, alter id (length h) l = l) as Hid.
      { intros l. apply list_eq. intros i.
        destruct (decide (i = length h)) as [-> | Hi].
        - rewrite list_lookup_alter_eq. by destruct (l !! length h).
        - by rewrite list_lookup_alter_ne. }
      split_and!.
      * rewrite Hid. rewrite length_alter, length_app. simpl.
        case_decide; [done | lia].
      * apply chain_snoc; [done | done |]. by intros n.
      * apply values_snoc; [done |]. by intros n.
    + exists (alter (set_prev (Some (length h - 1)%nat)) (length h)
                (alter (set_next (Some (length h))) (length h - 1)%nat
                   (h ++ [Node v None None]))).
      split_and!.
      * rewrite !length_alter, length_app. simpl.
        case_decide; [done | lia].
      * apply chain_snoc; [done | done |]. by intros [? ? ?].
      * apply values_snoc; [done |]. by intros [? ? ?].
  - assert (h = []) as -> by (destruct h; [done | simpl in Hlen; lia]).
    exists [Node v None None]. split; [done |]. split; [| done].
    intros [|i] n Hn; [| done]. simpl in Hn. injection Hn as <-. done.
Qed.

Lemma insert_all_spec values listType :
  ∃ h, insert_all values listType = Some (h, head_of h) ∧
       chain h ∧ value <$> h = values.
Proof.
  unfold insert_all.
  induction values as [|v values IH] using rev_ind.
  - exists []. split_and!; done.
  - rewrite foldl_app. simpl.
    destruct IH as (h & -> & Hc & Hv). simpl.
    destruct (insert_chain h v listType Hc) as (h' & -> & Hc' & Hv').
    exists h'. split_and!; try done. by rewrite Hv', Hv.
Qed.

(** *** The tree holds the values it was given *)

Lemma tree_insert_values t v : Tree.values (Tree.insert t v) ≡ₚ v :: Tree.values t.
Proof.
  induction t as [|x l IHl r IHr]; simpl; [done |].
  destruct (v <? x); simpl.
  - rewrite IHl. done.
  - rewrite IHr. rewrite <- !Permutation_middle. apply perm_swap.
Qed.

Lemma tree_build_values vs t :
  Tree.values (foldl Tree.insert t vs) ≡ₚ Tree.values t ++ vs.
Proof.
  revert t. induction vs as [|v vs IH]; intros t; simpl.
  - by rewrite app_nil_r.
  - rewrite IH, tree_insert_values. by rewrite <- Permutation_middle.
Qed.

(** *** Tokens *)

Lemma numbers_spec input :
  Forall (λ tok, is_Some (Input.Number tok)) (Input.split_comma input) →
  Input.numbers input = Some (token_value <$> Input.split_comma input).
Proof.
  unfold Input.numbers. generalize (Input.split_comma input). intros toks H.
  apply mapM_Some. induction H as [|tok toks [z Hz] _ IH]; constructor; [| done].
  unfold token_value. by rewrite Hz.
Qed.

End BuildFacts.




(** ** The sorting generators and the canonical sort *)

(** C1. For every sequence of numbers (of any length, so also of 2 to 50
    elements) and both order flags, each of the six sorting generators
    returns, and its final artifact is the canonical sort of the input
    under that order. *)
Theorem sorting_generators_final_artifact (array : list Z) (sortOrder : sort_order) :
  finalArray (bubbleSort id array sortOrder) = canonical_sort sortOrder array ∧
  finalArray (selectionSort id array sortOrder) = canonical_sort sortOrder array ∧
  (∃ r, insertionSort id array sortOrder = Some r ∧
        finalArray r = canonical_sort sortOrder array) ∧
  (∃ r, quickSort id array sortOrder = Some r ∧
        finalArray r = canonical_sort sortOrder array) ∧
  (∃ r, mergeSort id array sortOrder = Some r ∧
        finalArray r = canonical_sort sortOrder array) ∧
  (∃ r, heapSort id array sortOrder = Some r ∧
        finalArray r = canonical_sort sortOrder array).
Proof.
  split_and!.
  - destruct (bubbleSort_sorted_perm id sortOrder array) as [Hs Hp].
    by apply sorted_perm_canonical.
  - destruct (selectionSort_sorted_perm id sortOrder array) as [Hs Hp].
    by apply sorted_perm_canonical.
  - destruct (insertionSort_sorted_perm id sortOrder array) as (r & Hr & Hs & Hp).
    exists r. split; [done |]. by apply sorted_perm_canonical.
  - destruct (quickSort_sorted_perm id sortOrder array) as (r & Hr & Hs & Hp).
    exists r. split; [done |]. by apply sorted_perm_canonical.
  - destruct (mergeSort_sorted_perm id sortOrder array) as (r & Hr & Hs & Hp).
    exists r. split; [done |]. by apply sorted_perm_canonical.
  - destruct (heapSort_sorted_perm id sortOrder array) as (r & Hr & Hs & Hp).
    exists r. split; [done |]. by apply sorted_perm_canonical.
Qed.

(** C4 at the failing input.  The two equal numbers of [1, 1], tagged
    with their positions, leave merge sort in the order [1 (second),
    1 (first)]: on a tie [merge] takes the element of the right run, so
    the output is not stable.  Insertion sort keeps them in order. *)
Theorem mergeSort_swaps_equal_elements :
  (∃ r, mergeSort fst (tag_positions [1; 1]) ascending = Some r ∧
        finalArray r = [(1, 1%nat); (1, 0%nat)] ∧
        ¬ stable_output (finalArray r)) ∧
  (∃ r, insertionSort fst (tag_positions [1; 1]) ascending = Some r ∧
        finalArray r = [(1, 0%nat); (1, 1%nat)]).
Proof.
  split.
  - eexists. split; [vm_compute; reflexivity |]. split; [reflexivity |].
    intros Hst. specialize (Hst 0%nat 1%nat (1, 1%nat) (1, 0%nat)).
    simpl in Hst. specialize (Hst ltac:(lia) eq_refl eq_refl eq_refl). lia.
  - eexists. split; [vm_compute; reflexivity |]. reflexivity.
Qed.

Lemma bubbleSort_finalized_never_touched_witness :
  ¬ ((type (Anim compare [0; 1]) = compare ∨ type (Anim compare [0; 1]) = swap) ∧
     2 ∈ indices (Anim compare [0; 1])).
Proof.
  apply (bubbleSort_finalized_never_touched [3; 2; 1] ascending 6 7
           (Anim final_position [2]) (Anim compare [0; 1]) 2).
  - lia.
  - reflexivity.
  - reflexivity.
  - reflexivity.
  - simpl. apply list_elem_of_here.
Defined.

(** ** A* and an unreachable end node *)

(** C2, as the code has it.  In a graph whose neighbours are all nodes,
    with weights that are not negative and a start node of the graph,
    A* run with an end node that is unreachable from the start raises no
    error: given enough fuel it returns, with the empty path, a trace
    that ends with [complete] and holds neither a [found_path] nor a
    [final_path] event. *)
Theorem aStar_unreachable_end_returns_empty_path
    (adjList : Graph.OMap.t (list string)) (edgeWeights : gmap string Z)
    (startNode endNode : string) (heuristic : string → string → Z) :
  graph_closed adjList →
  is_Some (Graph.OMap.get adjList startNode) →
  weights_nonnegative edgeWeights →
  ¬ reachable adjList startNode endNode →
  ∃ fuel r,
    (∀ fuel', (fuel ≤ fuel')%nat →
       Graph.aStar adjList edgeWeights startNode endNode heuristic fuel'
         = Graph.Return r) ∧
    Graph.path r = [] ∧
    last (Graph.animations r) = Some Graph.complete ∧
    no_path_events (Graph.animations r).
Proof.
  intros Hclosed Hstart Hw Hun.
  destruct (AStarFacts.aStar_returns_no_path adjList edgeWeights startNode
              endNode heuristic Hclosed Hstart Hw Hun)
    as (fuel & r & Hrun & Hpath & Hlast & Hclean).
  exists fuel, r. split_and!; try done.
  intros fuel' Hle. by apply (GraphFacts.aStar_mono _ _ _ _ _ fuel).
Qed.

Lemma split_graph_reachable u :
  reachable split_graph.1 "A" u → u = "A" ∨ u = "B".
Proof.
  induction 1 as [|u v nbrs _ IH Hget Hin]; [by left |].
  destruct IH as [-> | ->]; vm_compute in Hget; injection Hget as <-;
    apply list_elem_of_singleton in Hin as ->; auto.
Qed.

Lemma aStar_unreachable_end_returns_empty_path_witness :
  ∃ fuel r,
    (∀ fuel', (fuel ≤ fuel')%nat →
       Graph.aStar split_graph.1 split_graph.2 "A" "D" no_position_heuristic
         fuel' = Graph.Return r) ∧
    Graph.path r = [] ∧
    last (Graph.animations r) = Some Graph.complete ∧
    no_path_events (Graph.animations r).
Proof.
  apply aStar_unreachable_end_returns_empty_path.
  - unfold graph_closed. vm_compute. repeat constructor; by eexists.
  - by eexists.
  - unfold weights_nonnegative. intros k w Hk.
    assert (w = 1) as ->; [| lia].
    unfold split_graph in Hk. simpl in Hk.
    rewrite !lookup_insert in Hk.
    repeat case_decide; try by injection Hk.
    by rewrite lookup_empty in Hk.
  - intros [H | H]%split_graph_reachable; discriminate.
Defined.

(** ** Loops that keep a property *)

Lemma for_range_pres {St} (P : St → Prop) lo hi (body : Z → St → St) s :
  (∀ j s, lo ≤ j < hi → P s → P (body j s)) → P s → P (for_range lo hi body s).
Proof.
  intros Hstep Hs. destruct (Z.le_gt_cases lo hi).
  - by apply (for_range_ind (λ _ s, P s)).
  - by rewrite for_range_done by lia.
Qed.

Lemma for_rangeM_pres {St} (P : St → Prop) lo hi (body : Z → St → option St) s s' :
  for_rangeM lo hi body s = Some s' →
  (∀ j s s', lo ≤ j < hi → body j s = Some s' → P s → P s') →
  P s → P s'.
Proof.
  intros Hrun0 Hstep. revert Hrun0. unfold for_rangeM.
  assert (∀ l o, (∀ j, j ∈ l → lo ≤ j < hi) →
            foldl (λ s j, s ≫= body j) o l = Some s' →
            (∀ s0, o = Some s0 → P s0) → P s') as Hgo.
  { induction l as [|j l IH]; intros o Hl Hrun Ho; simpl in Hrun.
    - by apply Ho.
    - apply (IH (o ≫= body j)); [| done |].
      + intros j' Hj'. apply Hl. by right.
      + intros s0 Hs0. destruct o as [s1|]; [| done]. simpl in Hs0.
        eapply Hstep; [apply Hl; left | done | by apply Ho]. }
  intros Hrun Hs. eapply Hgo; [| exact Hrun |].
  - intros j Hj. apply elem_of_seqZ in Hj. lia.
  - by intros s0 [= <-].
Qed.

Lemma for_downM_pres {St} (P : St → Prop) hi lo (body : Z → St → option St) s s' :
  for_downM hi lo body s = Some s' →
  (∀ j s s', lo ≤ j ≤ hi → body j s = Some s' → P s → P s') →
  P s → P s'.
Proof.
  intros Hrun0 Hstep. revert Hrun0. unfold for_downM.
  assert (∀ l o, (∀ j, j ∈ l → lo ≤ j ≤ hi) →
            foldl (λ s j, s ≫= body j) o l = Some s' →
            (∀ s0, o = Some s0 → P s0) → P s') as Hgo.
  { induction l as [|j l IH]; intros o Hl Hrun Ho; simpl in Hrun.
    - by apply Ho.
    - apply (IH (o ≫= body j)); [| done |].
      + intros j' Hj'. apply Hl. by right.
      + intros s0 Hs0. destruct o as [s1|]; [| done]. simpl in Hs0.
        eapply Hstep; [apply Hl; left | done | by apply Ho]. }
  intros Hrun Hs. eapply Hgo; [| exact Hrun |].
  - intros j Hj. apply elem_of_reverse, elem_of_seqZ in Hj. lia.
  - by intros s0 [= <-].
Qed.

Lemma while_do_pres {St} (P : St → Prop) (cond : St → bool)
    (body : St → option St) fuel s s' :
  while_do fuel cond body s = Some s' →
  (∀ s s', cond s = true → body s = Some s' → P s → P s') →
  P s → P s' ∧ cond s' = false.
Proof.
  intros Hrun0 Hstep. revert s Hrun0. induction fuel as [|fuel IH]; intros s Hrun Hs;
    [done |].
  simpl in Hrun. destruct (cond s) eqn:Hc.
  - destruct (body s) as [s1|] eqn:Hb; [| done]. simpl in Hrun.
    apply (IH s1); [done |]. by eapply Hstep.
  - by injection Hrun as <-.
Qed.

(** ** Replaying a sorting trace *)

Lemma display_snoc t a l : display (t ++ [a]) l = display_step (display t l) a.
Proof. unfold display. by rewrite foldl_app. Qed.

Lemma arr_ext {A} (a b : list A) :
  Arr.len a = Arr.len b → (∀ i, Arr.get a i = Arr.get b i) → a = b.
Proof.
  intros Hlen Hget. apply list_eq. intros i.
  specialize (Hget (Z.of_nat i)). rewrite !get_lookup in Hget by lia.
  by rewrite Nat2Z.id in Hget.
Qed.

(** Moving the bar at [j] behind its right neighbour exchanges the two. *)
Lemma shift_is_swap (l : list Z) j x :
  0 ≤ j → j + 1 < Arr.len l → Arr.get l j = Some x →
  take (Z.to_nat (j + 1)) (delete (Z.to_nat j) l) ++
    x :: drop (Z.to_nat (j + 1)) (delete (Z.to_nat j) l)
  = Arr.swap l j (j + 1).
Proof.
  intros Hj Hlen Hx.
  destruct (get_in_range l (j + 1) ltac:(lia)) as [y Hy].
  unfold Arr.len in Hlen.
  assert (length (delete (Z.to_nat j) l) = (length l - 1)%nat) as Hdl
    by (rewrite length_delete; [lia |]; rewrite get_lookup in Hx by lia; eauto).
  apply arr_ext.
  - rewrite swap_len. unfold Arr.len.
    rewrite length_app, length_take. simpl. rewrite length_drop. lia.
  - intros i. rewrite get_swap by (unfold Arr.len; lia).
    destruct (Z.ltb_spec i 0) as [Hneg | Hpos].
    { rewrite !(get_neg _ i) by lia. repeat case_decide; try lia; done. }
    rewrite (get_lookup _ i) by lia.
    destruct (decide (Z.to_nat i < Z.to_nat (j + 1))%nat) as [Hlt | Hge].
    + rewrite lookup_app_l by (rewrite length_take; lia).
      rewrite lookup_take_lt by lia.
      destruct (decide (Z.to_nat i < Z.to_nat j)%nat).
      * rewrite list_lookup_delete_lt by lia.
        repeat case_decide; try lia. by rewrite get_lookup by lia.
      * rewrite list_lookup_delete_ge by lia.
        repeat case_decide; try lia.
        rewrite get_lookup by lia. f_equal. lia.
    + rewrite lookup_app_r by (rewrite length_take; lia).
      rewrite length_take.
      replace (Z.to_nat (j + 1) `min` length (delete (Z.to_nat j) l))%nat
        with (Z.to_nat (j + 1)) by lia.
      destruct (decide (Z.to_nat i = Z.to_nat (j + 1))) as [Heq | Hne].
      * replace (Z.to_nat i - Z.to_nat (j + 1))%nat with 0%nat by lia. simpl.
        repeat case_decide; try lia; done.
      * destruct (Z.to_nat i - Z.to_nat (j + 1))%nat as [|d] eqn:Hd; [lia |].
        simpl. rewrite lookup_drop. rewrite list_lookup_delete_ge by lia.
        repeat case_decide; try lia.
        rewrite get_lookup by lia. f_equal. lia.
Qed.

Lemma set_set_swap (arr : list Z) j a k :
  0 ≤ j → j + 1 < Arr.len arr → Arr.get arr j = Some a →
  Arr.swap (Arr.set arr (j + 1) k) j (j + 1) = Arr.set (Arr.set arr (j + 1) a) j k.
Proof.
  intros Hj Hlen Ha. apply arr_ext.
  - by rewrite swap_len, !set_len.
  - intros i. rewrite get_swap by (rewrite set_len; lia).
    rewrite !get_set by (rewrite ?set_len; lia).
    repeat case_decide; try lia; done.
Qed.

Section Replay.
Context (array : list Z) (o : sort_order).

(** The displayed array follows the array of the generator. *)
Local Abbreviation follows st := (display st.2 array = st.1).

Lemma bubbleSort_replay :
  display (animations (bubbleSort id array o)) array
    = finalArray (bubbleSort id array o).
Proof.
  unfold bubbleSort.
  destruct (for_range 0 (Arr.len array - 1) _ _) as [arr anims] eqn:Hloop.
  simpl. rewrite display_snoc. simpl.
  change (follows (arr, anims)). rewrite <- Hloop. clear Hloop.
  apply (for_range_pres (λ st, follows st)); [| done].
  intros i [a t] _ Hst. simpl in Hst.
  destruct (for_range 0 _ _ _) as [a' t'] eqn:Hin. simpl.
  rewrite display_snoc. simpl.
  change (follows (a', t')). rewrite <- Hin. clear Hin.
  apply (for_range_pres (λ st, follows st)); [| done].
  intros j [a1 t1] _ Hst1. simpl in Hst1.
  destruct (ord_gt o _ _); simpl; rewrite !display_snoc; simpl; by rewrite Hst1.
Qed.

Lemma selectionSort_replay :
  display (animations (selectionSort id array o)) array
    = finalArray (selectionSort id array o).
Proof.
  unfold selectionSort.
  destruct (for_range 0 (Arr.len array) _ _) as [arr anims] eqn:Hloop.
  simpl. rewrite display_snoc. simpl.
  change (follows (arr, anims)). rewrite <- Hloop. clear Hloop.
  apply (for_range_pres (λ st, follows st)); [| done].
  intros i [a t] _ Hst. simpl in Hst.
  destruct (for_range (i + 1) _ _ _) as [m t'] eqn:Hin.
  assert (display t' array = a) as Ht'.
  { change t' with (m, t').2. rewrite <- Hin. clear Hin.
    apply (for_range_pres (λ st : Z * list animation, display st.2 array = a)).
    - intros j [m1 t1] _ Hst1. simpl in Hst1.
      destruct (ord_gt o _ _); simpl; rewrite !display_snoc; simpl; done.
    - simpl. rewrite display_snoc. done. }
  destruct (negb (m =? i)); simpl; rewrite !display_snoc; simpl;
    by rewrite Ht'.
Qed.

Lemma final_positions_replay (arr : list Z) t lo hi :
  display t array = arr →
  display (for_range lo hi (λ i animations,
             animations ++ [Anim final_position [i]]) t) array = arr.
Proof.
  intros Ht.
  apply (for_range_pres (λ t, display t array = arr)); [| done].
  intros j t1 _ Ht1. by rewrite display_snoc.
Qed.

Lemma insertionSort_replay r :
  insertionSort id array o = Some r →
  display (animations r) array = finalArray r.
Proof.
  unfold insertionSort.
  destruct (for_rangeM 1 (Arr.len array) _ _) as [[arr anims]|] eqn:Hloop;
    [| done].
  simpl. intros [= <-]. simpl. rewrite display_snoc. simpl.
  apply final_positions_replay.
  apply (for_rangeM_pres (λ st, Arr.len st.1 = Arr.len array ∧ follows st))
    in Hloop; [by destruct Hloop | | done].
  intros i [a t] [a' t'] Hi Hbody [Hlen Hst]. simpl in Hlen, Hst.
  destruct (Arr.get a i) as [k|] eqn:Hk; [| done]. simpl in Hbody.
  destruct (insertionSort_shift id o _ k i _) as [[[a1 t1] j1]|] eqn:Hsh;
    [| done].
  simpl in Hbody. injection Hbody as <- <-. simpl.
  unfold insertionSort_shift in Hsh.
  apply (while_do_pres
           (λ '(a2, t2, j2), Arr.len a2 = Arr.len array ∧ j2 + 1 ≤ i ∧
                             display t2 array = Arr.set a2 (j2 + 1) k)) in Hsh.
  - simpl in Hsh. destruct Hsh as [(Hlen1 & Hj1 & Hd1) _].
    split; [by rewrite set_len |]. by rewrite !display_snoc.
  - intros [[a2 t2] j2] [[a3 t3] j3] Hcond Hstep (Hlen2 & Hj2 & Hd2).
    apply andb_true_iff in Hcond as [Hj0%Z.leb_le _].
    destruct (Arr.get a2 j2) as [aj|] eqn:Haj; [| done].
    simpl in Hstep. injection Hstep as <- <- <-.
    split; [by rewrite set_len |]. split; [lia |].
    rewrite !display_snoc. unfold display_step. simpl. rewrite Hd2.
    replace (j2 - 1 + 1) with j2 by lia.
    rewrite get_set by lia. case_decide; [lia |]. rewrite Haj.
    rewrite shift_is_swap.
    + apply set_set_swap; [lia | lia | done].
    + lia.
    + rewrite set_len. lia.
    + rewrite get_set by lia. case_decide; [lia | done].
  - split; [done |]. split; [lia |]. rewrite display_snoc. simpl.
    replace (i - 1 + 1) with i by lia. by rewrite set_same.
Qed.

Lemma partition_replay st low high :
  follows st →
  follows (quickSort_partition id o st low high).1.
Proof.
  intros Hst. destruct st as [arr t]. unfold quickSort_partition.
  destruct (for_range low high _ _) as [[a1 t1] i1] eqn:Hloop. simpl.
  rewrite !display_snoc. simpl.
  unfold display_step. simpl.
  assert (display t1 array = a1) as ->; [| done].
  change (follows (a1, t1, i1).1). rewrite <- Hloop. clear Hloop.
  apply (for_range_pres (λ st : list Z * list animation * Z, follows st.1)).
  - intros j [[a2 t2] i2] _ Hst2. simpl in Hst2.
    destruct (shouldPartition o _ _); simpl; rewrite !display_snoc; simpl;
      by rewrite Hst2.
  - simpl. by rewrite display_snoc.
Qed.

Lemma quickSort_sort_replay fuel :
  ∀ st low high st',
    quickSort_sort id fuel o st low high = Some st' → follows st → follows st'.
Proof.
  induction fuel as [|fuel IH]; intros st low high st' Hrun Hst; [done |].
  simpl in Hrun. destruct (low <? high); [| by injection Hrun as <-].
  pose proof (partition_replay st low high Hst) as Hp.
  destruct (quickSort_partition id o st low high) as [st1 pi].
  destruct (quickSort_sort id fuel o st1 low (pi - 1)) as [st2|] eqn:H2;
    [| done].
  simpl in Hrun. eapply IH; [exact Hrun |]. eapply IH; [exact H2 | exact Hp].
Qed.

Lemma quickSort_replay r :
  quickSort id array o = Some r → display (animations r) array = finalArray r.
Proof.
  unfold quickSort.
  destruct (quickSort_sort id _ o _ _ _) as [[arr anims]|] eqn:Hs; [| done].
  simpl. intros [= <-]. simpl. rewrite display_snoc. simpl.
  apply final_positions_replay.
  by apply (quickSort_sort_replay _ _ _ _ _ Hs).
Qed.

Lemma merge_replay fuel st l m r st' :
  mergeSort_merge id fuel o st l m r = Some st' → follows st → follows st'.
Proof.
  destruct st as [arr t]. unfold mergeSort_merge. intros Hrun Hst.
  destruct (while_do fuel _ _ (l, m + 1, [], t)) as [[[[i1 j1] temp1] t1]|]
    eqn:H1; [| done].
  simpl in Hrun.
  apply (while_do_pres (λ '(_, _, _, t2), display t2 array = arr)) in H1;
    [| | done].
  2:{ intros [[[i2 j2] temp2] t2] [[[i3 j3] temp3] t3] _ Hstep Hd.
      destruct (ord_gt o _ _);
        [destruct (Arr.get arr i2) | destruct (Arr.get arr j2)];
        simpl in Hstep; try done; injection Hstep as <- <- <- <-;
        by rewrite !display_snoc. }
  destruct H1 as [Hd1 _].
  destruct (while_do fuel _ _ (i1, temp1)) as [[i2 temp2]|]; [| done].
  simpl in Hrun.
  destruct (while_do fuel _ _ (j1, temp2)) as [[j3 temp3]|]; [| done].
  simpl in Hrun.
  apply (for_rangeM_pres (λ st, follows st)) in Hrun; [done | | done].
  intros i [a2 t2] [a3 t3] _ Hstep Hd. simpl in Hd.
  destruct (Arr.get temp3 (i - l)) as [x|]; [| done].
  simpl in Hstep. injection Hstep as <- <-. simpl.
  rewrite display_snoc. simpl. by rewrite Hd.
Qed.

Lemma mergeSort_sort_replay fuel :
  ∀ st l r st',
    mergeSort_sort id fuel o st l r = Some st' → follows st → follows st'.
Proof.
  induction fuel as [|fuel IH]; intros st l r st' Hrun Hst; [done |].
  simpl in Hrun. destruct (l <? r); [| by injection Hrun as <-].
  destruct (mergeSort_sort id fuel o st l _) as [st1|] eqn:H1; [| done].
  simpl in Hrun.
  destruct (mergeSort_sort id fuel o st1 _ r) as [st2|] eqn:H2; [| done].
  simpl in Hrun.
  eapply merge_replay; [exact Hrun |].
  eapply IH; [exact H2 |]. eapply IH; [exact H1 | exact Hst].
Qed.

Lemma mergeSort_replay r :
  mergeSort id array o = Some r → display (animations r) array = finalArray r.
Proof.
  unfold mergeSort.
  destruct (mergeSort_sort id _ o _ _ _) as [[arr anims]|] eqn:Hs; [| done].
  simpl. intros [= <-]. simpl. rewrite display_snoc. simpl.
  apply final_positions_replay.
  by apply (mergeSort_sort_replay _ _ _ _ _ Hs).
Qed.

Lemma heapify_replay fuel :
  ∀ st n i st',
    heapSort_heapify id fuel o st n i = Some st' → follows st → follows st'.
Proof.
  induction fuel as [|fuel IH]; intros [arr t] n i st' Hrun Hst; [done |].
  simpl in Hrun.
  match type of Hrun with
  | (if negb (?lg =? i) then _ else _) = _ => set (largest := lg) in *
  end.
  destruct (negb (largest =? i)); [| by injection Hrun as <-].
  eapply IH; [exact Hrun |]. simpl. rewrite !display_snoc. simpl.
  simpl in Hst. by rewrite Hst.
Qed.

Lemma heapSort_replay r :
  heapSort id array o = Some r → display (animations r) array = finalArray r.
Proof.
  unfold heapSort.
  destruct (for_downM (Arr.len array / 2 - 1) 0 _ _) as [st1|] eqn:H1; [| done].
  simpl.
  destruct (for_downM (Arr.len array - 1) 1 _ st1) as [[arr anims]|] eqn:H2;
    [| done].
  simpl. intros [= <-]. simpl. rewrite display_snoc. simpl.
  assert (follows st1) as Hst1.
  { apply (for_downM_pres (λ st, follows st)) in H1; [done | | done].
    intros j s s' _ Hstep Hs. by eapply heapify_replay. }
  apply (for_downM_pres (λ st, follows st)) in H2; [done | | done].
  intros j [a t] s' _ Hstep Hs. simpl in Hs.
  apply (heapify_replay (S (length array))
           (Arr.swap a 0 j,
            (t ++ [Anim swap [0; j]]) ++ [Anim final_position [j]]) j 0 s');
    [exact Hstep |].
  simpl. rewrite !display_snoc. simpl. by rewrite Hs.
Qed.

End Replay.

Lemma generators_replay (array : list Z) (o : sort_order) :
  (finalArray (bubbleSort id array o) = canonical_sort o array ∧
   display (animations (bubbleSort id array o)) array = canonical_sort o array) ∧
  (finalArray (selectionSort id array o) = canonical_sort o array ∧
   display (animations (selectionSort id array o)) array = canonical_sort o array) ∧
  (∃ r, insertionSort id array o = Some r ∧
        finalArray r = canonical_sort o array ∧
        display (animations r) array = canonical_sort o array) ∧
  (∃ r, quickSort id array o = Some r ∧
        finalArray r = canonical_sort o array ∧
        display (animations r) array = canonical_sort o array) ∧
  (∃ r, mergeSort id array o = Some r ∧
        finalArray r = canonical_sort o array ∧
        display (animations r) array = canonical_sort o array) ∧
  (∃ r, heapSort id array o = Some r ∧
        finalArray r = canonical_sort o array ∧
        display (animations r) array = canonical_sort o array).
Proof.
  split_and!.
  - destruct (bubbleSort_sorted_perm id o array) as [Hs Hp].
    by apply sorted_perm_canonical.
  - rewrite bubbleSort_replay.
    destruct (bubbleSort_sorted_perm id o array) as [Hs Hp].
    by apply sorted_perm_canonical.
  - destruct (selectionSort_sorted_perm id o array) as [Hs Hp].
    by apply sorted_perm_canonical.
  - rewrite selectionSort_replay.
    destruct (selectionSort_sorted_perm id o array) as [Hs Hp].
    by apply sorted_perm_canonical.
  - destruct (insertionSort_sorted_perm id o array) as (r & Hr & Hs & Hp).
    exists r. rewrite (insertionSort_replay _ _ _ Hr).
    split_and!; [done | |]; by apply sorted_perm_canonical.
  - destruct (quickSort_sorted_perm id o array) as (r & Hr & Hs & Hp).
    exists r. rewrite (quickSort_replay _ _ _ Hr).
    split_and!; [done | |]; by apply sorted_perm_canonical.
  - destruct (mergeSort_sorted_perm id o array) as (r & Hr & Hs & Hp).
    exists r. rewrite (mergeSort_replay _ _ _ Hr).
    split_and!; [done | |]; by apply sorted_perm_canonical.
  - destruct (heapSort_sorted_perm id o array) as (r & Hr & Hs & Hp).
    exists r. rewrite (heapSort_replay _ _ _ Hr).
    split_and!; [done | |]; by apply sorted_perm_canonical.
Qed.

(** X1. Replaying the trace of any of the six sorting generators on the
    displayed array, with the array changes that the playback makes for
    [swap], [shift] and [overwrite] events, ends with the canonical sort
    of the input: the bars on screen end up sorted, whichever generator
    produced the events. *)
Theorem sorting_trace_replays_to_sorted_array (array : list Z) (sortOrder : sort_order) :
  display (animations (bubbleSort id array sortOrder)) array
    = canonical_sort sortOrder array ∧
  display (animations (selectionSort id array sortOrder)) array
    = canonical_sort sortOrder array ∧
  (∃ r, insertionSort id array sortOrder = Some r ∧
        display (animations r) array = canonical_sort sortOrder array) ∧
  (∃ r, quickSort id array sortOrder = Some r ∧
        display (animations r) array = canonical_sort sortOrder array) ∧
  (∃ r, mergeSort id array sortOrder = Some r ∧
        display (animations r) array = canonical_sort sortOrder array) ∧
  (∃ r, heapSort id array sortOrder = Some r ∧
        display (animations r) array = canonical_sort sortOrder array).
Proof.
  destruct (generators_replay array sortOrder)
    as ([_ Hb] & [_ Hs] & (ri & Hi & _ & Hi') & (rq & Hq & _ & Hq') &
        (rm & Hm & _ & Hm') & (rh & Hh & _ & Hh')).
  split_and!; eauto.
Qed.

(** ** The playback of the sorting component *)

Lemma run_timers_S_r k st :
  run_timers (S k) st = Visualizer.runAnimationStep (run_timers k st).
Proof.
  revert st. induction k as [|k IH]; intros st; [done |].
  change (run_timers (S (S k)) st)
    with (run_timers (S k) (Visualizer.runAnimationStep st)).
  by rewrite IH.
Qed.

(** A call of [runAnimationStep] on a pending event shows the event's
    change of the array and moves to the next event. *)
Lemma runAnimationStep_event st a :
  0 ≤ Visualizer.currentAnimationIndexRef st →
  Visualizer.animationsRef st !! Z.to_nat (Visualizer.currentAnimationIndexRef st)
    = Some a →
  Visualizer.array st = Visualizer.localArrayRef st →
  let st' := Visualizer.runAnimationStep st in
  Visualizer.localArrayRef st' = display_step (Visualizer.localArrayRef st) a ∧
  Visualizer.array st' = Visualizer.localArrayRef st' ∧
  Visualizer.currentAnimationIndexRef st'
    = Visualizer.currentAnimationIndexRef st + 1 ∧
  Visualizer.animationsRef st' = Visualizer.animationsRef st ∧
  Visualizer.isSorting st' = Visualizer.isSorting st ∧
  Visualizer.explanation st' = Visualizer.TextOf a.
Proof.
  intros Hi Ha Harr. pose proof (lookup_lt_Some _ _ _ Ha) as Hlt.
  unfold Visualizer.runAnimationStep.
  destruct (Z.leb_spec (Arr.len (Visualizer.animationsRef st))
              (Visualizer.currentAnimationIndexRef st)) as [Hge | _];
    [unfold Arr.len in Hge; lia |].
  rewrite get_lookup by lia. rewrite Ha. unfold display_step.
  destruct st as [arr e s alg o t i l al tm]. simpl in *. subst arr.
  destruct a as [ty idx].
  destruct ty; simpl; try done;
    destruct idx as [|i1 [|i2 idx]]; simpl; try done.
  destruct (Arr.get l i1); done.
Qed.

Lemma run_timers_events k : ∀ st,
  0 ≤ Visualizer.currentAnimationIndexRef st →
  (Z.to_nat (Visualizer.currentAnimationIndexRef st) + k
     ≤ length (Visualizer.animationsRef st))%nat →
  Visualizer.array st = Visualizer.localArrayRef st →
  let st' := run_timers k st in
  Visualizer.localArrayRef st' =
    display (take k (drop (Z.to_nat (Visualizer.currentAnimationIndexRef st))
                       (Visualizer.animationsRef st)))
      (Visualizer.localArrayRef st) ∧
  Visualizer.array st' = Visualizer.localArrayRef st' ∧
  Visualizer.currentAnimationIndexRef st'
    = Visualizer.currentAnimationIndexRef st + Z.of_nat k ∧
  Visualizer.animationsRef st' = Visualizer.animationsRef st ∧
  Visualizer.isSorting st' = Visualizer.isSorting st.
Proof.
  induction k as [|k IH]; intros st Hi Hk Harr.
  - simpl. split_and!; try done. lia.
  - destruct (lookup_lt_is_Some_2 (Visualizer.animationsRef st)
                (Z.to_nat (Visualizer.currentAnimationIndexRef st)))
      as [a Ha]; [lia |].
    destruct (runAnimationStep_event st a Hi Ha Harr)
      as (Hl & Harr' & Hidx & Ht & Hs & _).
    cbn zeta in IH.
    destruct (IH (Visualizer.runAnimationStep st)) as (Hl2 & Ha2 & Hi2 & Ht2 & Hs2).
    { lia. }
    { rewrite Hidx, Ht. lia. }
    { done. }
    change (run_timers (S k) st)
      with (run_timers k (Visualizer.runAnimationStep st)).
    cbn zeta. split_and!; try congruence; [| lia].
    rewrite Hl2, Hl, Ht, Hidx.
    rewrite (drop_S _ a _ Ha). simpl.
    replace (Z.to_nat (Visualizer.currentAnimationIndexRef st + 1))
      with (S (Z.to_nat (Visualizer.currentAnimationIndexRef st))) by lia.
    done.
Qed.

Lemma run_selected_replay st :
  ∃ r, Visualizer.run_selected st = Some r ∧
       display (animations r) (Visualizer.array st)
         = canonical_sort (Visualizer.sortOrder st) (Visualizer.array st).
Proof.
  destruct (generators_replay (Visualizer.array st) (Visualizer.sortOrder st))
    as ([_ Hb] & [_ Hs] & (ri & Hi & _ & Hi') & (rq & Hq & _ & Hq') &
        (rm & Hm & _ & Hm') & (rh & Hh & _ & Hh')).
  unfold Visualizer.run_selected.
  destruct (Visualizer.selectedAlgorithm st); eauto.
Qed.

(** X2. Pressing Sort on a loaded array that is not yet in order starts
    the playback, and when the timer has fired once for every event of
    the trace the displayed array is the canonical sort of the loaded
    one, the sorting flag is off again and the explanation box says that
    the array is fully sorted; until then the sorting flag stays on.
    This holds for each of the six algorithms and both orders. *)
Theorem handleSort_playback_ends_sorted (st : Visualizer.state) :
  Visualizer.array st ≠ [] →
  isArraySorted id (Visualizer.array st) (Visualizer.sortOrder st) = false →
  ∃ st1, Visualizer.handleSort st = Some st1 ∧
    (∀ k, (k < length (Visualizer.animationsRef st1))%nat →
          Visualizer.isSorting (run_timers k st1) = true) ∧
    let st2 := run_timers (length (Visualizer.animationsRef st1)) st1 in
    Visualizer.array st2
      = canonical_sort (Visualizer.sortOrder st) (Visualizer.array st) ∧
    Visualizer.isSorting st2 = false ∧
    Visualizer.explanation st2 = Visualizer.Message "Array is fully sorted!".
Proof.
  intros Hne Hns. unfold Visualizer.handleSort.
  destruct (Z.eqb_spec (Arr.len (Visualizer.array st)) 0) as [H0 | _].
  { unfold Arr.len in H0. destruct (Visualizer.array st); [done | simpl in H0; lia]. }
  rewrite Hns.
  set (st0 := Visualizer.set_local _ _).
  destruct (run_selected_replay st0) as (r & Hr & Hd). rewrite Hr. simpl.
  set (sta := Visualizer.set_animations (animations r) st0).
  assert (Visualizer.array sta = Visualizer.array st) as Harr by done.
  assert (Visualizer.localArrayRef sta = Visualizer.array st) as Hloc by done.
  assert (Visualizer.animationsRef sta = animations r) as Hanim by done.
  assert (Visualizer.currentAnimationIndexRef sta = 0) as Hidx by done.
  assert (Visualizer.isSorting sta = true) as Hsort by done.
  assert (Visualizer.sortOrder st0 = Visualizer.sortOrder st) as Ho by done.
  assert (Visualizer.array st0 = Visualizer.array st) as Harr0 by done.
  rewrite Ho, Harr0 in Hd. clearbody sta. clear Hr.
  assert (∀ k, (k ≤ length (animations r))%nat →
            let st' := run_timers k sta in
            Visualizer.localArrayRef st'
              = display (take k (animations r)) (Visualizer.array st) ∧
            Visualizer.array st' = Visualizer.localArrayRef st' ∧
            Visualizer.currentAnimationIndexRef st' = Z.of_nat k ∧
            Visualizer.animationsRef st' = animations r ∧
            Visualizer.isSorting st' = true) as Hrun.
  { intros k Hk.
    destruct (run_timers_events k sta) as (H1 & H2 & H3 & H4 & H5).
    - lia.
    - rewrite Hidx, Hanim. simpl. lia.
    - congruence.
    - cbn zeta. rewrite H1, H2, H3, H4, H5, Hidx, Hanim, Hloc, Hsort. simpl.
      rewrite drop_0. split_and!; try done. by rewrite H1, Hidx, Hanim, Hloc. }
  exists (Visualizer.runAnimationStep sta). split; [done |].
  assert (Visualizer.animationsRef (Visualizer.runAnimationStep sta)
          = animations r) as Hanim1.
  { change (Visualizer.runAnimationStep sta) with (run_timers 1 sta).
    destruct (Z.le_gt_cases 1 (Z.of_nat (length (animations r)))) as [Hge | Hlt].
    - by destruct (Hrun 1%nat ltac:(lia)) as (_ & _ & _ & ? & _).
    - simpl. unfold Visualizer.runAnimationStep.
      destruct (Z.leb_spec (Arr.len (Visualizer.animationsRef sta))
                  (Visualizer.currentAnimationIndexRef sta)) as [_ | Hc];
        [done |].
      rewrite Hanim, Hidx in Hc. unfold Arr.len in Hc. lia. }
  rewrite Hanim1. split.
  - intros k Hk.
    change (run_timers k (Visualizer.runAnimationStep sta))
      with (run_timers (S k) sta).
    by destruct (Hrun (S k) ltac:(lia)) as (_ & _ & _ & _ & ?).
  - cbn zeta.
    change (run_timers (length (animations r)) (Visualizer.runAnimationStep sta))
      with (run_timers (S (length (animations r))) sta).
    rewrite run_timers_S_r.
    destruct (Hrun (length (animations r)) ltac:(lia)) as (H1 & H2 & H3 & H4 & H5).
    rewrite firstn_all in H1. rewrite Hd in H1.
    unfold Visualizer.runAnimationStep.
    destruct (Z.leb_spec
                (Arr.len (Visualizer.animationsRef
                            (run_timers (length (animations r)) sta)))
                (Visualizer.currentAnimationIndexRef
                   (run_timers (length (animations r)) sta))) as [_ | Hc].
    + simpl. split_and!; try done. congruence.
    + rewrite H3, H4 in Hc. unfold Arr.len in Hc. lia.
Qed.

(** The loaded array of the example state is out of order. *)
Lemma handleSort_playback_ends_sorted_witness :
  ∃ st1, Visualizer.handleSort unsorted_state_example = Some st1 ∧
    (∀ k, (k < length (Visualizer.animationsRef st1))%nat →
          Visualizer.isSorting (run_timers k st1) = true) ∧
    let st2 := run_timers (length (Visualizer.animationsRef st1)) st1 in
    Visualizer.array st2
      = canonical_sort (Visualizer.sortOrder unsorted_state_example)
          (Visualizer.array unsorted_state_example) ∧
    Visualizer.isSorting st2 = false ∧
    Visualizer.explanation st2 = Visualizer.Message "Array is fully sorted!".
Proof.
  apply (handleSort_playback_ends_sorted unsorted_state_example);
    [discriminate | reflexivity].
Defined.

(** ** The sortedness test *)

Lemma isArraySorted_adjacent o (a : list Z) :
  isArraySorted id a o = true ↔
  ∀ i, 1 ≤ i < Arr.len a → leo o (kz id a (i - 1)) (kz id a i).
Proof.
  unfold isArraySorted.
  destruct (Z.leb_spec (Arr.len a) 1) as [Hle | Hgt].
  - split; [intros _ i Hi; lia | done].
  - rewrite forallb_forall. split.
    + intros H i Hi. specialize (H i).
      rewrite <- list_elem_of_In, elem_of_seqZ in H.
      specialize (H ltac:(lia)).
      rewrite !key_kz in H by lia.
      destruct o; simpl in *; lia.
    + intros H i Hi. rewrite <- list_elem_of_In, elem_of_seqZ in Hi.
      specialize (H i ltac:(lia)).
      rewrite !key_kz by lia.
      destruct o; simpl in *; lia.
Qed.

Lemma adjacent_sorted_range o (a : list Z) :
  (∀ i, 1 ≤ i < Arr.len a → leo o (kz id a (i - 1)) (kz id a i)) →
  sorted_range id o a 0 (Arr.len a).
Proof.
  intros Hadj i j Hi Hij Hj.
  assert (∀ d : nat, i + Z.of_nat d < Arr.len a →
            leo o (kz id a i) (kz id a (i + Z.of_nat d))) as Hd.
  { induction d as [|d IH]; intros Hlt.
    - replace (i + Z.of_nat 0) with i by lia. apply leo_refl.
    - eapply leo_trans; [apply IH; lia |].
      specialize (Hadj (i + Z.of_nat (S d)) ltac:(lia)).
      by replace (i + Z.of_nat (S d) - 1) with (i + Z.of_nat d) in Hadj by lia. }
  specialize (Hd (Z.to_nat (j - i))).
  replace (i + Z.of_nat (Z.to_nat (j - i))) with j in Hd by lia.
  apply Hd. lia.
Qed.

(** X3. [isArraySorted] accepts an array exactly when it is its own
    canonical sort under the order asked for; in particular it accepts
    the empty array and every array of one element. *)
Theorem isArraySorted_iff_canonical (array : list Z) (sortOrder : sort_order) :
  isArraySorted id array sortOrder = true ↔
  array = canonical_sort sortOrder array.
Proof.
  rewrite isArraySorted_adjacent. split.
  - intros Hadj. apply sorted_perm_canonical; [| done].
    by apply sorted_range_sorted_by, adjacent_sorted_range.
  - intros Heq i Hi.
    assert (sorted_by id sortOrder array) as Hs.
    { rewrite Heq. unfold sorted_by, canonical_sort. simpl.
      apply StronglySorted_merge_sort; apply _. }
    apply (sorted_by_range id _ _ Hs); lia.
Qed.

(** ** Linear and binary search *)

Module SearchFacts.
Import Searching SearchingComponent.

Lemma js_eq_spec x y : js_eq (Some x) (Some y) = bool_decide (x = y).
Proof.
  simpl. destruct (Z.eqb_spec x y);
    [rewrite bool_decide_true | rewrite bool_decide_false]; done.
Qed.

Lemma get_app_middle (pre l : list Z) x :
  Arr.get (pre ++ x :: l) (Z.of_nat (length pre)) = Some x.
Proof.
  rewrite get_lookup by lia. rewrite Nat2Z.id.
  by rewrite list_lookup_middle.
Qed.

Lemma linearSearch_loop_spec target (l : list Z) :
  ∀ pre animations,
    linearSearch_loop (length l) (pre ++ l) target (Z.of_nat (length pre))
      animations
    = animations ++
      match list_find (λ x, x = target) l with
      | Some (d, _) =>
          ((λ i, Anim compare [i]) <$>
             seqZ (Z.of_nat (length pre)) (Z.of_nat d + 1)) ++
          [Anim found [Z.of_nat (length pre) + Z.of_nat d]]
      | None =>
          ((λ i, Anim compare [i]) <$>
             seqZ (Z.of_nat (length pre)) (Z.of_nat (length l))) ++
          [Anim not_found []]
      end.
Proof.
  induction l as [|x l IH]; intros pre anims.
  - done.
  - cbn [length linearSearch_loop]. rewrite get_app_middle, js_eq_spec.
    cbn [list_find]. case_decide as Hx.
    + rewrite bool_decide_true by done. simpl.
      rewrite Z.add_0_r. by rewrite <- app_assoc.
    + rewrite bool_decide_false by done.
      specialize (IH (pre ++ [x]) (anims ++ [Anim compare [Z.of_nat (length pre)]])).
      rewrite <- app_assoc in IH. simpl in IH.
      rewrite length_app in IH. simpl in IH.
      replace (Z.of_nat (length pre + 1)) with (Z.of_nat (length pre) + 1)
        in IH by lia.
      rewrite IH. rewrite <- app_assoc. f_equal.
      destruct (list_find _ l) as [[d y]|]; simpl.
      * rewrite (seqZ_cons _ (Z.of_nat (S d) + 1)) by lia. simpl.
        do 3 f_equal; [f_equal; lia | do 2 f_equal; lia].
      * rewrite (seqZ_cons _ (Z.of_nat (S (length l)))) by lia. simpl.
        do 3 f_equal. f_equal; lia.
Qed.

Lemma arr_ext_Z (a b : list Z) :
  Arr.len a = Arr.len b → (∀ i, Arr.get a i = Arr.get b i) → a = b.
Proof.
  intros Hlen Hget. apply list_eq. intros i.
  specialize (Hget (Z.of_nat i)). rewrite !get_lookup in Hget by lia.
  by rewrite Nat2Z.id in Hget.
Qed.

Lemma mid_bounds low high :
  low ≤ high → low ≤ (low + high) / 2 ≤ high.
Proof.
  intros H. pose proof (Z.div_mod (low + high) 2 ltac:(lia)).
  pose proof (Z.mod_pos_bound (low + high) 2 ltac:(lia)). lia.
Qed.

(** On an array in ascending order the loop of [binarySearch] keeps
    every occurrence of the target inside [low .. high]. *)
Lemma binarySearch_loop_correct (arr : list Z) target :
  sorted_range id ascending arr 0 (Arr.len arr) →
  ∀ fuel low high animations,
    (Z.to_nat (high - low + 1) < fuel)%nat →
    0 ≤ low → high < Arr.len arr →
    (∀ i, Arr.get arr i = Some target → low ≤ i ≤ high) →
    ∃ body fin,
      binarySearch_loop fuel arr target low high animations
        = Some (animations ++ body ++ [fin]) ∧
      forallb (λ a, negb (is_final a)) body = true ∧
      ((∃ m, fin = Anim found [m] ∧ Arr.get arr m = Some target) ∨
       (fin = Anim not_found [] ∧ target ∉ arr)).
Proof.
  intros Hsorted.
  induction fuel as [|fuel IH]; intros low high anims Hfuel Hlow Hhigh Hinv;
    [lia |].
  simpl. destruct (Z.leb_spec low high) as [Hle | Hgt].
  - pose proof (mid_bounds low high Hle) as Hmid.
    set (mid := (low + high) / 2) in *. clearbody mid.
    destruct (get_in_range arr mid ltac:(lia)) as [x Hx]. rewrite Hx.
    rewrite js_eq_spec. case_bool_decide as Heq.
    + subst x. exists [Anim compare_range [low; high]; Anim compare [mid]].
      exists (Anim found [mid]). split; [by rewrite <- !app_assoc |].
      split; [done |]. left. eauto.
    + simpl. destruct (Z.ltb_spec x target) as [Hlt | Hge].
      * destruct (IH (mid + 1) high
                    (((anims ++ [Anim compare_range [low; high]]) ++
                      [Anim compare [mid]]) ++
                     [Anim adjust_range [mid; mid + 1]]))
          as (body & fin & Hrun & Hbody & Hfin); [lia | lia | lia | |].
        { intros i Hi. specialize (Hinv i Hi).
          destruct (Z.le_gt_cases i mid) as [Him | ?]; [| lia].
          pose proof (Hsorted i mid ltac:(lia) Him ltac:(lia)) as Hord.
          rewrite (get_kz id _ _ _ Hi), (get_kz id _ _ _ Hx) in Hord.
          simpl in Hord. unfold id in Hord. lia. }
        exists ([Anim compare_range [low; high]; Anim compare [mid];
                 Anim adjust_range [mid; mid + 1]] ++ body), fin.
        split; [rewrite Hrun; by rewrite <- !app_assoc |].
        split; [done | done].
      * destruct (IH low (mid - 1)
                    (((anims ++ [Anim compare_range [low; high]]) ++
                      [Anim compare [mid]]) ++
                     [Anim adjust_range [mid; mid - 1]]))
          as (body & fin & Hrun & Hbody & Hfin); [lia | lia | lia | |].
        { intros i Hi. specialize (Hinv i Hi).
          destruct (Z.le_gt_cases mid i) as [Him | ?]; [| lia].
          pose proof (Hsorted mid i ltac:(lia) Him ltac:(lia)) as Hord.
          rewrite (get_kz id _ _ _ Hi), (get_kz id _ _ _ Hx) in Hord.
          simpl in Hord. unfold id in Hord. lia. }
        exists ([Anim compare_range [low; high]; Anim compare [mid];
                 Anim adjust_range [mid; mid - 1]] ++ body), fin.
        split; [rewrite Hrun; by rewrite <- !app_assoc |].
        split; [done | done].
  - exists [], (Anim not_found []). split; [done |]. split; [done |].
    right. split; [done |]. intros [i Hi]%list_elem_of_lookup.
    specialize (Hinv (Z.of_nat i)). rewrite get_lookup, Nat2Z.id in Hinv by lia.
    specialize (Hinv Hi). lia.
Qed.

Lemma isArraySorted_sorted_range (a : list Z) :
  isArraySorted id a ascending = true →
  sorted_range id ascending a 0 (Arr.len a).
Proof.
  intros H. by apply adjacent_sorted_range, isArraySorted_adjacent.
Qed.

Lemma binarySearch_correct (array : list Z) target :
  sorted_range id ascending array 0 (Arr.len array) →
  ∃ body fin,
    binarySearch array target = Some (body ++ [fin]) ∧
    forallb (λ a, negb (is_final a)) body = true ∧
    ((∃ m, fin = Anim found [m] ∧ Arr.get array m = Some target) ∨
     (fin = Anim not_found [] ∧ target ∉ array)).
Proof.
  intros Hs. unfold binarySearch.
  destruct (binarySearch_loop_correct array target Hs (S (length array)) 0
              (Arr.len array - 1) [])
    as (body & fin & Hrun & Hbody & Hfin).
  - unfold Arr.len. lia.
  - lia.
  - lia.
  - intros i Hi%get_Some_range. lia.
  - exists body, fin. by rewrite Hrun.
Qed.

Lemma arraysEqual_spec (a b : list Z) : arraysEqual a b = true ↔ a = b.
Proof.
  unfold arraysEqual. destruct (Z.eqb_spec (Arr.len a) (Arr.len b)) as [Hl | Hl];
    simpl.
  - rewrite forallb_forall. split.
    + intros H. apply arr_ext_Z; [done |]. intros i.
      destruct (Z.ltb_spec i 0) as [? | Hi0]; [by rewrite !get_neg by lia |].
      destruct (Z.ltb_spec i (Arr.len a)) as [Hi | ?];
        [| by rewrite !get_out_of_range by lia].
      specialize (H i). rewrite <- list_elem_of_In, elem_of_seqZ in H.
      specialize (H ltac:(lia)).
      destruct (Arr.get a i), (Arr.get b i); simpl in H; try done.
      f_equal. lia.
    + intros <- i Hi. rewrite <- list_elem_of_In, elem_of_seqZ in Hi.
      destruct (get_in_range a i ltac:(lia)) as [x ->]. simpl. lia.
  - split; [done |]. intros <-. done.
Qed.

End SearchFacts.

(** X4. Linear search compares the cells from the left up to the first
    cell that holds the target and announces it found there; when no
    cell holds the target it compares every cell once and announces that
    the target was not found. *)
Theorem linearSearch_stops_at_first_occurrence (array : list Z) (target : Z) :
  SearchingComponent.linearSearch array target =
    match list_find (λ x, x = target) array with
    | Some (k, _) =>
        ((λ i, Searching.Anim Searching.compare [i]) <$>
           seqZ 0 (Z.of_nat k + 1)) ++
        [Searching.Anim Searching.found [Z.of_nat k]]
    | None =>
        ((λ i, Searching.Anim Searching.compare [i]) <$>
           seqZ 0 (Arr.len array)) ++
        [Searching.Anim Searching.not_found []]
    end.
Proof.
  unfold SearchingComponent.linearSearch.
  pose proof (SearchFacts.linearSearch_loop_spec target array [] []) as H.
  change ([] ++ array) with array in H.
  change (Z.of_nat (length [])) with 0 in H.
  rewrite H. cbn [app]. destruct (list_find _ array) as [[d y]|]; [| done].
  by rewrite Z.add_0_l.
Qed.

(** X5. On an array in ascending order binary search returns, and its
    trace ends with the one final event: [found] at a cell that holds
    the target, or [not_found] when no cell of the array holds it. *)
Theorem binarySearch_finds_iff_present (array : list Z) (target : Z) :
  isArraySorted id array ascending = true →
  ∃ body fin,
    Searching.binarySearch array target = Some (body ++ [fin]) ∧
    forallb (λ a, negb (SearchingComponent.is_final a)) body = true ∧
    ((∃ m, fin = Searching.Anim Searching.found [m] ∧
           Arr.get array m = Some target) ∨
     (fin = Searching.Anim Searching.not_found [] ∧ target ∉ array)).
Proof.
  intros Hs. apply SearchFacts.binarySearch_correct.
  by apply SearchFacts.isArraySorted_sorted_range.
Qed.

Lemma binarySearch_finds_iff_present_witness :
  ∃ body fin,
    Searching.binarySearch search_example 7 = Some (body ++ [fin]) ∧
    forallb (λ a, negb (SearchingComponent.is_final a)) body = true ∧
    ((∃ m, fin = Searching.Anim Searching.found [m] ∧
           Arr.get search_example m = Some 7) ∨
     (fin = Searching.Anim Searching.not_found [] ∧ 7 ∉ search_example)).
Proof.
  apply (binarySearch_finds_iff_present search_example 7). reflexivity.
Defined.

(** ** The playback of a search *)

Module SearchPlayback.
Import Searching SearchingComponent SearchFacts.

Section Playback.
Context (body : list animation) (fin : animation).
Context (Hbody : forallb (λ a, negb (is_final a)) body = true).
Context (Hfin : is_final fin = true).

(** The playback is at event [i] and still running. *)
Local Abbreviation running i s :=
  (animationsRef s = body ++ [fin] ∧
   currentAnimationIndexRef s = Z.of_nat i ∧ isSearching s = true).

(** The playback has stopped at the final event. *)
Local Abbreviation stopped s :=
  (isSearching s = false ∧ timer s = false ∧ explanation s = TextOf fin).

Lemma runAnimationStep_running i s :
  running i s → (i ≤ length body)%nat →
  let s' := runAnimationStep s in
  ((i < length body)%nat →
     running (S i) s' ∧ timer s' = true ∧ ∃ a, explanation s' = TextOf a) ∧
  (i = length body → stopped s').
Proof.
  intros (Ht & Hi & Hs) Hle. unfold runAnimationStep.
  destruct s as [arr tv e sg alg t idx al tm]. simpl in *. subst t idx.
  destruct (Z.leb_spec (Arr.len (body ++ [fin])) (Z.of_nat i)) as [Hge | _].
  { unfold Arr.len in Hge. rewrite length_app in Hge. simpl in Hge. lia. }
  rewrite get_lookup, Nat2Z.id by lia.
  split.
  - intros Hlt. destruct (lookup_lt_is_Some_2 body i Hlt) as [a Ha].
    rewrite lookup_app_l, Ha by done.
    assert (is_final a = false) as Hna.
    { rewrite forallb_forall in Hbody. specialize (Hbody a).
      rewrite <- list_elem_of_In in Hbody.
      apply negb_true_iff, Hbody. by eapply list_elem_of_lookup_2. }
    unfold is_final in Hna. destruct (type a); try done; simpl;
      (split_and!; [done | lia | done | done | by eexists]).
  - intros ->. rewrite lookup_app_r, Nat.sub_diag by done. simpl.
    unfold is_final in Hfin. by destruct (type fin).
Qed.

Lemma run_timers_stopped k s : stopped s → run_timers k s = s.
Proof.
  intros (_ & Htm & _). induction k as [|k IH]; [done |].
  simpl. unfold timer_fires. by rewrite Htm.
Qed.

Lemma run_timers_running k : ∀ i s,
  running i s → timer s = true → (i ≤ length body)%nat →
  (∃ a, explanation s = TextOf a) →
  let s' := run_timers k s in
  (∃ a, explanation s' = TextOf a) ∧
  ((i + k ≤ length body)%nat → isSearching s' = true) ∧
  ((length body < i + k)%nat → stopped s').
Proof.
  induction k as [|k IH]; intros i s Hrun Htm Hle Hex.
  - simpl. split; [done |]. split; [by intros _; destruct Hrun as (_ & _ & ?) | lia].
  - cbn [run_timers]. unfold timer_fires. rewrite Htm.
    destruct (runAnimationStep_running i s Hrun Hle) as [Hlt Heq].
    destruct (decide (i < length body)%nat) as [Hi | Hi].
    + destruct (Hlt Hi) as (Hrun' & Htm' & Hex').
      destruct (IH (S i) _ Hrun' Htm' ltac:(lia) Hex') as (H1 & H2 & H3).
      cbn zeta. split; [done |]. split; intros ?; [apply H2 | apply H3]; lia.
    + destruct (Heq ltac:(lia)) as (Hs & Ht & He).
      rewrite run_timers_stopped by done.
      cbn zeta. split; [by eexists |]. split; [lia | done].
Qed.

(** Starting the playback of a trace that ends with its only final
    event. *)
Lemma animateSearching_playback st :
  isSearching st = false →
  let st1 := animateSearching (body ++ [fin]) st in
  array st1 = array st ∧
  animationsRef st1 = body ++ [fin] ∧
  ∀ k, let s := run_timers k st1 in
    explanation s ≠ Message "Search complete." ∧
    ((k < length body)%nat → isSearching s = true) ∧
    ((length body ≤ k)%nat →
       isSearching s = false ∧ timer s = false ∧ explanation s = TextOf fin).
Proof.
  intros Hs. unfold animateSearching. rewrite Hs.
  set (s0 := set_animations _ _).
  assert (running 0%nat s0) as Hrun0 by done.
  assert (array (runAnimationStep s0) = array st ∧
          animationsRef (runAnimationStep s0) = body ++ [fin]) as [Ha Ht].
  { unfold runAnimationStep.
    destruct (_ <=? _); [done |]. destruct (Arr.get _ _) as [a|]; [| done].
    by destruct (type a). }
  cbn zeta. split; [done |]. split; [done |]. intros k.
  destruct (runAnimationStep_running 0%nat s0 Hrun0 ltac:(lia)) as [Hlt Heq].
  destruct (decide (0 < length body)%nat) as [Hb | Hb].
  - destruct (Hlt Hb) as (Hrun' & Htm' & Hex').
    destruct (run_timers_running k 1%nat _ Hrun' Htm' ltac:(lia) Hex')
      as ([a Ha'] & H2 & H3).
    split; [by rewrite Ha' |]. split; intros ?; [apply H2 | apply H3]; lia.
  - destruct (Heq ltac:(lia)) as (Hs' & Ht' & He').
    rewrite run_timers_stopped by done.
    split; [by rewrite He' |]. split; [lia | done].
Qed.

End Playback.

Lemma canonical_sort_sorted_range (l : list Z) :
  sorted_range id ascending (canonical_sort ascending l) 0
    (Arr.len (canonical_sort ascending l)).
Proof.
  apply sorted_by_range. unfold sorted_by, canonical_sort.
  apply StronglySorted_merge_sort; apply _.
Qed.

Lemma elem_of_canonical_sort o (l : list Z) x :
  x ∈ canonical_sort o l ↔ x ∈ l.
Proof. unfold canonical_sort. by rewrite merge_sort_Permutation. Qed.

Lemma linearSearch_correct (array : list Z) target :
  ∃ body fin,
    linearSearch array target = body ++ [fin] ∧
    forallb (λ a, negb (is_final a)) body = true ∧
    ((∃ m, fin = Anim found [m] ∧ Arr.get array m = Some target) ∨
     (fin = Anim not_found [] ∧ target ∉ array)).
Proof.
  unfold linearSearch.
  pose proof (linearSearch_loop_spec target array [] []) as H.
  change ([] ++ array) with array in H.
  change (Z.of_nat (length [])) with 0 in H.
  rewrite H. clear H. cbn [app].
  assert (∀ l, forallb (λ a, negb (is_final a))
                 ((λ i, Anim compare [i]) <$> l) = true) as Hall
    by (induction l; [done | simpl; done]).
  destruct (list_find _ array) as [[d y]|] eqn:Hfind.
  - apply list_find_Some in Hfind as (Hd & -> & _).
    eexists _, _. split; [done |]. split; [done |]. left.
    eexists. split; [done |]. rewrite get_lookup by lia.
    by replace (Z.to_nat (0 + Z.of_nat d)) with d by lia.
  - eexists _, _. split; [done |]. split; [done |]. right. split; [done |].
    intros Hin. apply list_find_None in Hfind.
    rewrite Forall_forall in Hfind. by apply (Hfind target).
Qed.

End SearchPlayback.

(** X6. A search started with a loaded array and a number in the target
    field, by either algorithm, returns; the displayed array holds the
    numbers that were loaded (in ascending order when binary search is
    selected); the playback runs through the trace and stops at its
    last event, which announces the target found at a cell of the
    displayed array that holds it, or not found when the loaded array
    does not hold it.  The explanation "Search complete." is never
    shown. *)
Theorem handleSearch_ends_at_final_event
    (parseInt : string → option Z) (st : SearchingComponent.state) (target : Z) :
  SearchingComponent.array st ≠ [] →
  SearchingComponent.targetValue st ≠ EmptyString →
  parseInt (SearchingComponent.targetValue st) = Some target →
  SearchingComponent.isSearching st = false →
  ∃ st1 body fin,
    SearchingComponent.handleSearch parseInt st = Some st1 ∧
    SearchingComponent.animationsRef st1 = body ++ [fin] ∧
    SearchingComponent.array st1 =
      match SearchingComponent.selectedAlgorithm st with
      | SearchingComponent.linearSearchAlg => SearchingComponent.array st
      | SearchingComponent.binarySearchAlg =>
          canonical_sort ascending (SearchingComponent.array st)
      end ∧
    ((∃ m, fin = Searching.Anim Searching.found [m] ∧
           Arr.get (SearchingComponent.array st1) m = Some target) ∨
     (fin = Searching.Anim Searching.not_found [] ∧
      target ∉ SearchingComponent.array st)) ∧
    ∀ k, let s := SearchingComponent.run_timers k st1 in
      SearchingComponent.explanation s
        ≠ SearchingComponent.Message "Search complete." ∧
      ((k < length body)%nat → SearchingComponent.isSearching s = true) ∧
      ((length body ≤ k)%nat →
         SearchingComponent.isSearching s = false ∧
         SearchingComponent.timer s = false ∧
         SearchingComponent.explanation s = SearchingComponent.TextOf fin).
Proof.
  intros Hne Htv Hparse Hs. unfold SearchingComponent.handleSearch.
  destruct (Z.eqb_spec (Arr.len (SearchingComponent.array st)) 0) as [H0 | _].
  { unfold Arr.len in H0.
    destruct (SearchingComponent.array st); [done | simpl in H0; lia]. }
  destruct (String.eqb_spec (SearchingComponent.targetValue st) "") as [? | _];
    [done |].
  rewrite Hparse.
  destruct (SearchingComponent.selectedAlgorithm st).
  - destruct (SearchPlayback.linearSearch_correct
                (SearchingComponent.array st) target)
      as (body & fin & -> & Hbody & Hfin).
    assert (SearchingComponent.is_final fin = true) as Hf
      by (by destruct Hfin as [(m & -> & _) | [-> _]]).
    destruct (SearchPlayback.animateSearching_playback body fin Hbody Hf st Hs)
      as (Harr & Hanim & Hrun).
    eexists _, body, fin. split; [done |]. split; [done |]. split; [done |].
    split; [by rewrite Harr | done].
  - set (sorted := canonical_sort ascending (SearchingComponent.array st)).
    set (st' := if negb _ then _ else st).
    assert (SearchingComponent.array st' = sorted ∧
            SearchingComponent.isSearching st' = false) as [Harr' Hs'].
    { unfold st'.
      destruct (SearchingComponent.arraysEqual _ _) eqn:Heq; simpl; [| done].
      apply SearchFacts.arraysEqual_spec in Heq. done. }
    clearbody st'.
    destruct (SearchFacts.binarySearch_correct sorted target
                (SearchPlayback.canonical_sort_sorted_range _))
      as (body & fin & -> & Hbody & Hfin).
    assert (SearchingComponent.is_final fin = true) as Hf
      by (by destruct Hfin as [(m & -> & _) | [-> _]]).
    destruct (SearchPlayback.animateSearching_playback body fin Hbody Hf st' Hs')
      as (Harr & Hanim & Hrun).
    simpl. eexists _, body, fin. split; [done |]. split; [done |].
    split; [by rewrite Harr |]. split; [| done].
    rewrite Harr, Harr'. destruct Hfin as [? | [-> Hnot]]; [by left | right].
    split; [done |]. by rewrite <- (SearchPlayback.elem_of_canonical_sort ascending).
Qed.

Lemma handleSearch_ends_at_final_event_witness :
  ∃ st1 body fin,
    SearchingComponent.handleSearch parseInt_example search_state_example
      = Some st1 ∧
    SearchingComponent.animationsRef st1 = body ++ [fin] ∧
    SearchingComponent.array st1 =
      match SearchingComponent.selectedAlgorithm search_state_example with
      | SearchingComponent.linearSearchAlg =>
          SearchingComponent.array search_state_example
      | SearchingComponent.binarySearchAlg =>
          canonical_sort ascending (SearchingComponent.array search_state_example)
      end ∧
    ((∃ m, fin = Searching.Anim Searching.found [m] ∧
           Arr.get (SearchingComponent.array st1) m = Some 7) ∨
     (fin = Searching.Anim Searching.not_found [] ∧
      7 ∉ SearchingComponent.array search_state_example)) ∧
    ∀ k, let s := SearchingComponent.run_timers k st1 in
      SearchingComponent.explanation s
        ≠ SearchingComponent.Message "Search complete." ∧
      ((k < length body)%nat → SearchingComponent.isSearching s = true) ∧
      ((length body ≤ k)%nat →
         SearchingComponent.isSearching s = false ∧
         SearchingComponent.timer s = false ∧
         SearchingComponent.explanation s = SearchingComponent.TextOf fin).
Proof.
  apply (handleSearch_ends_at_final_event parseInt_example search_state_example 7);
    [discriminate | discriminate | reflexivity | reflexivity].
Defined.

(** ** Linked lists: search and deletion *)

Module ListFacts.
Import LinkedList LinkedListSearch BuildFacts.

(** Settles the tests on positions that arithmetic decides. *)
Ltac decide_lia :=
  repeat match goal with
    | |- context [decide ?P] =>
        first [ rewrite (decide_True (P := P)) by (done || lia)
              | rewrite (decide_False (P := P)) by (done || lia) ]
    end.

Lemma searchList_S fuel h current v animations :
  searchList (S fuel) h current v animations =
    match current with
    | None => Some (animations ++ [Anim not_found None], false)
    | Some c =>
        n ← h !! c;
        if value n =? v then
          Some ((animations ++ [Anim highlight (Some (value n))]) ++
                [Anim found (Some (value n))], true)
        else searchList fuel h (next n) v
               (animations ++ [Anim highlight (Some (value n))])
    end.
Proof. reflexivity. Qed.

Lemma searchList_chain h v : chain h →
  ∀ fuel c animations, (length h - c < fuel)%nat →
    searchList fuel h (if decide (c < length h)%nat then Some c else None)
      v animations
    = Some
        match list_find (λ x, x = v) (drop c (value <$> h)) with
        | Some (d, _) =>
            (animations ++
             ((λ x, Anim highlight (Some x)) <$>
                take (S d) (drop c (value <$> h))) ++
             [Anim found (Some v)], true)
        | None =>
            (animations ++
             ((λ x, Anim highlight (Some x)) <$> drop c (value <$> h)) ++
             [Anim not_found None], false)
        end.
Proof.
  intros Hc. induction fuel as [|fuel IH]; intros c anims Hfuel; [lia |].
  rewrite searchList_S. case_decide as Hlt.
  - destruct (lookup_lt_is_Some_2 h c Hlt) as [n Hn]. rewrite Hn. simpl.
    rewrite (drop_S (value <$> h) (value n) c)
      by (by rewrite list_lookup_fmap, Hn).
    cbn [list_find]. rewrite (Hc c n Hn).
    destruct (Z.eqb_spec (value n) v) as [Hv | Hv].
    + rewrite (decide_True (P := value n = v)) by done. simpl.
      rewrite <- app_assoc. simpl. by rewrite Hv.
    + rewrite (decide_False (P := value n = v)) by done.
      rewrite (IH (S c)) by lia. f_equal.
      destruct (list_find _ (drop (S c) _)) as [[d y]|]; simpl;
        by rewrite <- app_assoc.
  - rewrite drop_ge by (rewrite length_fmap; lia). done.
Qed.

(** The scan of [deleteNode] stops at the node before the first later
    node that holds the value, or at the last node. *)
Lemma find_before_chain h v : chain h →
  ∀ fuel c animations, (c < length h)%nat → (length h - c ≤ fuel)%nat →
    find_before fuel h v c animations
    = Some
        (let d := match list_find (λ x, x = v) (drop (S c) (value <$> h)) with
                  | Some (d, _) => d
                  | None => (length h - 1 - c)%nat
                  end in
         ((c + d)%nat,
          animations ++ ((λ x, Anim highlight (Some x)) <$>
                           take d (drop c (value <$> h))))).
Proof.
  intros Hc. induction fuel as [|fuel IH]; intros c anims Hlt Hfuel; [lia |].
  cbn [find_before]. destruct (lookup_lt_is_Some_2 h c Hlt) as [n Hn].
  rewrite Hn. simpl. rewrite (Hc c n Hn). case_decide as Hnext.
  - destruct (lookup_lt_is_Some_2 h (S c) Hnext) as [nn Hnn]. rewrite Hnn. simpl.
    rewrite (drop_S (value <$> h) (value nn) (S c))
      by (by rewrite list_lookup_fmap, Hnn).
    cbn [list_find].
    destruct (Z.eqb_spec (value nn) v) as [Hv | Hv]; simpl.
    + rewrite (decide_True (P := value nn = v)) by done. simpl.
      rewrite Nat.add_0_r, app_nil_r. done.
    + rewrite (decide_False (P := value nn = v)) by done.
      rewrite (IH (S c)) by lia. cbn zeta. f_equal.
      rewrite (drop_S (value <$> h) (value n) c)
        by (by rewrite list_lookup_fmap, Hn).
      rewrite (drop_S (value <$> h) (value nn) (S c))
        by (by rewrite list_lookup_fmap, Hnn).
      destruct (list_find _ (drop (S (S c)) _)) as [[d y]|]; simpl.
      * f_equal; [lia |]. by rewrite <- app_assoc.
      * replace (length h - 1 - c)%nat with (S (length h - 1 - S c)) by lia.
        simpl. f_equal; [lia |]. by rewrite <- app_assoc.
  - rewrite drop_ge by (rewrite length_fmap; lia). simpl.
    replace (length h - 1 - c)%nat with 0%nat by lia.
    rewrite Nat.add_0_r, app_nil_r. done.
Qed.

(** A store whose nodes are linked in allocation order except that node
    [k] is skipped: the list without its [k]-th value. *)
Lemma to_list_skip (h : store) k :
  (0 < k < length h)%nat →
  (∀ i n, h !! i = Some n →
     next n = if decide (S i = k)
              then (if decide (S k < length h)%nat then Some (S k) else None)
              else (if decide (S i < length h)%nat then Some (S i) else None)) →
  ∀ fuel i, (length h - i ≤ fuel)%nat →
    to_list fuel h (if decide (i < length h)%nat then Some i else None)
    = if decide (i < k)%nat
      then take (k - i) (drop i (value <$> h)) ++ drop (S k) (value <$> h)
      else drop i (value <$> h).
Proof.
  intros Hk Hnext. induction fuel as [|fuel IH]; intros i Hfuel.
  - destruct (decide (i < length h)%nat); [lia |]. simpl.
    destruct (decide (i < k)%nat); [lia |].
    rewrite drop_ge; [done |]. rewrite length_fmap. lia.
  - destruct (decide (i < length h)%nat) as [Hlt | Hlt].
    + rewrite to_list_S. destruct (lookup_lt_is_Some_2 h i Hlt) as [n Hn].
      rewrite Hn. rewrite (Hnext i n Hn).
      rewrite (drop_S (value <$> h) (value n) i)
        by (by rewrite list_lookup_fmap, Hn).
      destruct (decide (S i = k)) as [Hik | Hik].
      * rewrite (IH (S k)) by lia.
        rewrite (decide_False (P := (S k < k)%nat)) by lia.
        rewrite (decide_True (P := (i < k)%nat)) by lia.
        replace (k - i)%nat with 1%nat by lia. simpl. done.
      * rewrite (IH (S i)) by lia.
        destruct (decide (i < k)%nat).
        -- rewrite (decide_True (P := (S i < k)%nat)) by lia.
           replace (k - i)%nat with (S (k - S i)) by lia. done.
        -- rewrite (decide_False (P := (S i < k)%nat)) by lia. done.
    + rewrite to_list_None. destruct (decide (i < k)%nat); [lia |].
      rewrite drop_ge; [done |]. rewrite length_fmap. lia.
Qed.

Lemma delete_take_drop {A} (l : list A) k :
  take k l ++ drop (S k) l = base.delete k l.
Proof.
  revert k. induction l as [|x l IH]; intros [|k]; simpl; try done.
  by rewrite IH.
Qed.

Lemma prev_linked_S fuel h before c :
  prev_linked (S fuel) h before (Some c) =
    match h !! c with
    | Some n =>
        bool_decide (prev n = before) && prev_linked fuel h (Some c) (next n)
    | None => false
    end.
Proof. reflexivity. Qed.

Lemma prev_linked_None fuel h before : prev_linked fuel h before None = true.
Proof. by destruct fuel. Qed.

(** The [prev] links of a doubly linked store in which node [k] may be
    skipped ([k] beyond the store: no node is skipped). *)
Lemma prev_linked_skip (h : store) k :
  (∀ i n, h !! i = Some n →
     next n = if decide (S i = k)
              then (if decide (S k < length h)%nat then Some (S k) else None)
              else (if decide (S i < length h)%nat then Some (S i) else None)) →
  (∀ i n, h !! i = Some n → i ≠ k →
     prev n = if decide (i = S k) then (if decide (0 < k)%nat then Some (pred k) else None)
              else if decide (0 < i)%nat then Some (pred i) else None) →
  ∀ fuel i n, (length h - i ≤ fuel)%nat → i ≠ k → h !! i = Some n →
    prev_linked fuel h (prev n) (Some i) = true.
Proof.
  intros Hnext Hprev. induction fuel as [|fuel IH]; intros i n Hfuel Hik Hn.
  - apply lookup_lt_Some in Hn. lia.
  - pose proof (lookup_lt_Some _ _ _ Hn) as Hlt.
    rewrite prev_linked_S, Hn. rewrite bool_decide_true by done. simpl.
    rewrite (Hnext i n Hn).
    destruct (decide (S i = k)) as [Hk | Hk].
    + destruct (decide (S k < length h)%nat) as [Hsk | Hsk];
        [| apply prev_linked_None].
      destruct (lookup_lt_is_Some_2 h (S k) Hsk) as [m Hm].
      assert (prev m = Some i) as <-.
      { rewrite (Hprev (S k) m Hm) by lia.
        rewrite (decide_True (P := S k = S k)) by done.
        rewrite (decide_True (P := (0 < k)%nat)) by lia. f_equal. lia. }
      apply IH; [lia | lia | done].
    + destruct (decide (S i < length h)%nat) as [Hsi | Hsi];
        [| apply prev_linked_None].
      destruct (lookup_lt_is_Some_2 h (S i) Hsi) as [m Hm].
      assert (prev m = Some i) as <-.
      { rewrite (Hprev (S i) m Hm) by lia.
        rewrite (decide_False (P := S i = S k)) by lia.
        rewrite (decide_True (P := (0 < S i)%nat)) by lia. done. }
      apply IH; [lia | lia | done].
Qed.

(** *** Building a doubly linked list sets the [prev] links *)

Lemma last_node_snoc h nd : chain h →
  ∀ fuel c, (c < length h)%nat → (length h - c ≤ fuel)%nat →
    last_node fuel (h ++ [nd]) c = Some (length h - 1)%nat.
Proof.
  intros Hc. induction fuel as [|fuel IH]; intros c Hlt Hfuel; [lia |].
  rewrite last_node_S. rewrite lookup_app_l by lia.
  destruct (lookup_lt_is_Some_2 h c Hlt) as [n Hn].
  rewrite Hn. simpl. rewrite (Hc c n Hn). case_decide.
  - apply IH; lia.
  - f_equal. lia.
Qed.

Lemma insert_prev_chain h v h' hd' :
  chain h → prev_chain h →
  insert h (head_of h) v doublyLinkedList = Some (h', hd') →
  prev_chain h'.
Proof.
  intros Hc Hp. unfold insert, head_of. case_decide as Hlen.
  - rewrite (last_node_snoc h _ Hc)
      by (rewrite ?length_app; simpl; lia).
    simpl. intros [= <- <-]. intros i n Hn.
    destruct (decide (i = length h)) as [-> | Hi].
    + rewrite list_lookup_alter_eq in Hn.
      rewrite list_lookup_alter_ne in Hn by lia.
      rewrite lookup_app_r in Hn by lia.
      replace (length h - length h)%nat with 0%nat in Hn by lia. simpl in Hn.
      injection Hn as <-. simpl. rewrite decide_True by lia. f_equal. lia.
    + rewrite list_lookup_alter_ne in Hn by lia.
      assert (i < length h)%nat as Hlt.
      { apply lookup_lt_Some in Hn.
        rewrite length_alter, length_app in Hn. simpl in Hn. lia. }
      destruct (decide (i = (length h - 1)%nat)) as [-> | Hi'].
      * rewrite list_lookup_alter_eq in Hn.
        rewrite lookup_app_l in Hn by lia.
        destruct (h !! (length h - 1)%nat) as [n0|] eqn:Hn0; [| done].
        simpl in Hn. injection Hn as <-. simpl. by apply Hp.
      * rewrite list_lookup_alter_ne in Hn by lia.
        rewrite lookup_app_l in Hn by lia. by apply Hp.
  - assert (h = []) as -> by (destruct h; [done | simpl in Hlen; lia]).
    intros [= <- <-]. intros [|i] n Hn; [| done].
    simpl in Hn. injection Hn as <-. done.
Qed.

Lemma insert_all_doubly values :
  ∃ h, insert_all values doublyLinkedList = Some (h, head_of h) ∧
       chain h ∧ prev_chain h ∧ value <$> h = values.
Proof.
  unfold insert_all.
  induction values as [|v values IH] using rev_ind.
  - exists []. split_and!; done.
  - rewrite foldl_app. simpl.
    destruct IH as (h & -> & Hc & Hp & Hv). simpl.
    destruct (insert_chain h v doublyLinkedList Hc) as (h' & Hins & Hc' & Hv').
    rewrite Hins. exists h'. split_and!; try done.
    + exact (insert_prev_chain h v h' (head_of h') Hc Hp Hins).
    + by rewrite Hv', Hv.
Qed.

(** *** Deleting from a list in allocation order *)

Lemma list_find_head (v x : Z) l :
  x ≠ v →
  list_find (λ y, y = v) (x :: l)
  = prod_map S id <$> list_find (λ y, y = v) l.
Proof. intros Hx. cbn [list_find]. by rewrite (decide_False (P := x = v)). Qed.

(** The outcome of [deleteNode] on a chain: the store, in which at most
    one [next] link and one [prev] link have changed, the trace and the
    head. *)
Lemma deleteNode_chain h v listType :
  chain h →
  ∃ h' animations hd',
    deleteNode h (head_of h) v [] listType = Some (h', animations, hd') ∧
    last animations = Some (delete_event v (value <$> h)) ∧
    length h' = length h ∧
    value <$> h' = value <$> h ∧
    match list_find (λ x, x = v) (value <$> h) with
    | None => h' = h ∧ hd' = head_of h
    | Some (O, _) =>
        hd' = (if decide (1 < length h)%nat then Some 1%nat else None) ∧
        (∀ i n, h' !! i = Some n →
           next n = if decide (S i < length h)%nat then Some (S i) else None) ∧
        (listType = doublyLinkedList → prev_chain h →
         ∀ i n, h' !! i = Some n → i ≠ 0%nat →
           prev n = if decide (i = 1%nat) then None
                    else if decide (0 < i)%nat then Some (pred i) else None)
    | Some (S k, _) =>
        hd' = Some 0%nat ∧ (S k < length h)%nat ∧
        (∀ i n, h' !! i = Some n →
           next n = if decide (S i = S k)
                    then (if decide (S (S k) < length h)%nat
                          then Some (S (S k)) else None)
                    else (if decide (S i < length h)%nat
                          then Some (S i) else None)) ∧
        (listType = doublyLinkedList → prev_chain h →
         ∀ i n, h' !! i = Some n → i ≠ S k →
           prev n = if decide (i = S (S k)) then Some k
                    else if decide (0 < i)%nat then Some (pred i) else None)
    end.
Proof.
  intros Hc. unfold deleteNode, head_of, delete_event.
  case_decide as Hlen.
  2:{ assert (h = []) as -> by (destruct h; [done | simpl in Hlen; lia]).
      simpl. eexists _, _, _. split; [done |]. split_and!; try done. }
  destruct (lookup_lt_is_Some_2 h 0 Hlen) as [n0 Hn0]. rewrite Hn0.
  cbn [mbind option_bind].
  assert (value <$> h = value n0 :: drop 1 (value <$> h)) as Hvs.
  { rewrite <- (drop_S (value <$> h) (value n0) 0)
      by (by rewrite list_lookup_fmap, Hn0). done. }
  destruct (Z.eqb_spec (value n0) v) as [Hv | Hv].
  - (* the head holds the value *)
    rewrite Hvs. cbn [list_find].
    rewrite (decide_True (P := value n0 = v)) by done. simpl.
    rewrite <- Hvs. rewrite (Hc 0%nat n0 Hn0).
    eexists _, _, _. split; [done |].
    split; [done |].
    assert (∀ f : node → node, (∀ n, next (f n) = next n) →
              ∀ j i n, alter f j h !! i = Some n →
                next n = if decide (S i < length h)%nat then Some (S i) else None)
      as Halter.
    { intros f Hf j i n Hn.
      destruct (decide (j = i)) as [-> | Hji].
      - rewrite list_lookup_alter_eq in Hn.
        destruct (h !! i) as [m|] eqn:Hm; [| done].
        simpl in Hn. injection Hn as <-. rewrite Hf. by apply Hc.
      - rewrite list_lookup_alter_ne in Hn by done. by apply Hc. }
    destruct listType;
      [| destruct (decide (1 < length h)%nat) as [H1 | H1]]; simpl.
    + split_and!; first [done | intros i n Hn; by apply Hc].
    + rewrite length_alter. split; [done |].
      split.
      { apply list_eq. intros i. rewrite !list_lookup_fmap.
        destruct (decide (1%nat = i)) as [<- | Hi].
        - rewrite list_lookup_alter_eq. by destruct (h !! 1%nat).
        - by rewrite list_lookup_alter_ne. }
      split; [done |]. split.
      * apply (Halter (set_prev None)). by intros [].
      * intros _ Hp i n Hn Hi0.
        destruct (decide (1%nat = i)) as [<- | Hi].
        -- rewrite list_lookup_alter_eq in Hn.
           destruct (h !! 1%nat) as [m|]; [| done].
           simpl in Hn. injection Hn as <-. done.
        -- rewrite list_lookup_alter_ne in Hn by done.
           rewrite decide_False by done. by apply Hp.
    + split_and!;
        first [done | intros _ Hp i n Hn Hi0; apply lookup_lt_Some in Hn; lia].
  - (* the scan from the head *)
    rewrite (find_before_chain h v Hc) by lia. cbn zeta. simpl.
    assert (list_find (λ x, x = v) (value <$> h)
            = prod_map S id <$> list_find (λ x, x = v) (drop 1 (value <$> h)))
      as Hfh by (rewrite Hvs at 1; by apply list_find_head).
    rewrite !Hfh.
    destruct (list_find (λ x, x = v) (drop 1 (value <$> h))) as [[d y]|] eqn:Hfind;
      simpl.
    + apply list_find_Some in Hfind as (Hd & -> & _).
      rewrite lookup_drop, list_lookup_fmap in Hd.
      destruct (h !! (1 + d)%nat) as [nn|] eqn:Hnn; [| done].
      simpl in Hd. injection Hd as Hval.
      pose proof (lookup_lt_Some _ _ _ Hnn) as Hlt.
      destruct (lookup_lt_is_Some_2 h d ltac:(lia)) as [c Hcn]. rewrite Hcn. simpl.
      rewrite (Hc d c Hcn). rewrite decide_True by lia.
      change (S d) with (1 + d)%nat. rewrite Hnn. simpl.
      rewrite Hval, Z.eqb_refl. rewrite (Hc _ nn Hnn).
      eexists _, _, _. split; [done |].
      split; [by rewrite last_snoc |].
      assert (∀ (g : store) , length g = length h →
                (∀ i n, g !! i = Some n → ∃ m, h !! i = Some m ∧
                   value n = value m ∧ next n = next m) →
                length (alter (set_next
                  (if decide (S (1 + d) < length h)%nat
                   then Some (S (1 + d)) else None)) d g) = length h ∧
                value <$> alter (set_next
                  (if decide (S (1 + d) < length h)%nat
                   then Some (S (1 + d)) else None)) d g = value <$> h ∧
                ∀ i n, alter (set_next
                  (if decide (S (1 + d) < length h)%nat
                   then Some (S (1 + d)) else None)) d g !! i = Some n →
                  next n = if decide (S i = S d)
                           then (if decide (S (S d) < length h)%nat
                                 then Some (S (S d)) else None)
                           else (if decide (S i < length h)%nat
                                 then Some (S i) else None)) as Hstore.
      { intros g Hgl Hg. split; [by rewrite length_alter |]. split.
        - apply list_eq. intros i. rewrite !list_lookup_fmap.
          destruct (decide (d = i)) as [<- | Hi].
          + rewrite list_lookup_alter_eq.
            destruct (g !! d) as [m|] eqn:Hm.
            * destruct (Hg d m Hm) as (m' & Hm' & Hvm & _).
              rewrite Hm'. simpl. by rewrite Hvm.
            * apply lookup_ge_None in Hm. lia.
          + rewrite list_lookup_alter_ne by done.
            destruct (g !! i) as [m|] eqn:Hm.
            * destruct (Hg i m Hm) as (m' & Hm' & Hvm & _).
              rewrite Hm'. simpl. by rewrite Hvm.
            * apply lookup_ge_None in Hm.
              rewrite lookup_ge_None_2 by lia. done.
        - intros i n Hn.
          destruct (decide (d = i)) as [<- | Hi].
          + rewrite list_lookup_alter_eq in Hn.
            destruct (g !! d) as [m|]; [| done].
            simpl in Hn. injection Hn as <-. simpl.
            by decide_lia.
          + rewrite list_lookup_alter_ne in Hn by done.
            destruct (Hg i n Hn) as (m' & Hm' & _ & ->).
            rewrite (decide_False (P := S i = S d)) by lia. by apply Hc. }
      destruct listType.
      * destruct (Hstore h eq_refl) as (H1 & H2 & H3); [by eauto |].
        split_and!; first [done | lia].
      * case_decide as Hnx.
        -- destruct (Hstore (alter (set_prev (Some d)) (S (1 + d)) h)) as (H1 & H2 & H3).
           { by rewrite length_alter. }
           { intros i n Hn. destruct (decide (S (1 + d) = i)) as [<- | Hi].
             - rewrite list_lookup_alter_eq in Hn.
               destruct (h !! S (1 + d)) as [m|]; [| done].
               simpl in Hn. injection Hn as <-. eauto.
             - rewrite list_lookup_alter_ne in Hn by done. eauto. }
           split_and!; try done; try lia.
           intros _ Hp i n Hn Hik.
           assert (∃ m, alter (set_prev (Some d)) (S (1 + d)) h !! i = Some m ∧
                        prev n = prev m) as (m & Hm & ->).
           { destruct (decide (d = i)) as [<- | Hdi].
             - rewrite list_lookup_alter_eq in Hn.
               rewrite list_lookup_alter_ne in Hn |- * by lia.
               rewrite Hcn in Hn. simpl in Hn. injection Hn as <-. eauto.
             - rewrite list_lookup_alter_ne in Hn by done. eauto. }
           destruct (decide (S (1 + d) = i)) as [<- | Hi].
           ++ rewrite list_lookup_alter_eq in Hm.
              destruct (h !! S (1 + d)) as [m'|]; [| done].
              simpl in Hm. injection Hm as <-. simpl.
              by decide_lia.
           ++ rewrite list_lookup_alter_ne in Hm by done.
              rewrite (decide_False (P := i = S (S d))) by lia. by apply Hp.
        -- destruct (Hstore h eq_refl) as (H1 & H2 & H3); [by eauto |].
           split_and!; try done; try lia.
           intros _ Hp i n Hn Hik.
           assert (∃ m, h !! i = Some m ∧ prev n = prev m) as (m & Hm & ->).
           { destruct (decide (d = i)) as [<- | Hdi].
             - rewrite list_lookup_alter_eq in Hn.
               rewrite Hcn in Hn. simpl in Hn. injection Hn as <-. eauto.
             - rewrite list_lookup_alter_ne in Hn by done. eauto. }
           rewrite (decide_False (P := i = S (S d)))
             by (apply lookup_lt_Some in Hm; lia).
           by apply Hp.
    + (* the value is not in the list *)
      replace (length h - 1 - 0)%nat with (length h - 1)%nat by lia.
      destruct (lookup_lt_is_Some_2 h (length h - 1) ltac:(lia)) as [c Hcn].
      rewrite Hcn. simpl. rewrite (Hc _ c Hcn).
      rewrite (decide_False (P := (S (length h - 1) < length h)%nat)) by lia.
      eexists _, _, _. split; [done |].
      split; [by rewrite last_snoc |]. split_and!; done.
Qed.

(** What the list reads after [deleteNode]. *)
Lemma deleteNode_chain_to_list h v listType :
  chain h →
  ∃ h' animations hd',
    deleteNode h (head_of h) v [] listType = Some (h', animations, hd') ∧
    last animations = Some (delete_event v (value <$> h)) ∧
    to_list (length h') h' hd' = without_first v (value <$> h) ∧
    (listType = doublyLinkedList → prev_chain h →
     prev_linked (length h') h' None hd' = true).
Proof.
  intros Hc.
  destruct (deleteNode_chain h v listType Hc)
    as (h' & anims & hd' & Hrun & Hlast & Hlen & Hval & Hcase).
  exists h', anims, hd'. split; [done |]. split; [done |].
  unfold without_first.
  destruct (list_find _ (value <$> h)) as [[[|k] y]|] eqn:Hfind.
  - destruct Hcase as (-> & Hnext & Hprev).
    assert (chain h') as Hc'.
    { intros i n Hn. rewrite Hlen. by apply Hnext. }
    split.
    + rewrite <- Hlen.
      rewrite (to_list_chain h' Hc' (length h') 1) by lia.
      rewrite Hval. by destruct (value <$> h).
    + intros Hdl Hp.
      destruct (decide (1 < length h)%nat) as [H1 | H1];
        [| apply prev_linked_None].
      destruct (lookup_lt_is_Some_2 h' 1) as [n Hn]; [lia |].
      assert (prev n = None) as <-.
      { rewrite (Hprev Hdl Hp 1%nat n Hn) by lia. by rewrite decide_True. }
      apply (prev_linked_skip h' 0); [| | lia | lia | done].
      * intros i m Hm. rewrite decide_False by lia. by apply Hc'.
      * intros i m Hm Hi. rewrite (Hprev Hdl Hp i m Hm Hi).
        repeat case_decide; try lia; done.
  - destruct Hcase as (-> & Hk & Hnext & Hprev).
    split.
    + pose proof (to_list_skip h' (S k) ltac:(lia)) as Hskip.
      rewrite Hlen in Hskip. specialize (Hskip Hnext (length h') 0%nat ltac:(lia)).
      rewrite Hlen in Hskip. rewrite decide_True in Hskip by lia.
      rewrite Hlen, Hskip. rewrite decide_True by lia.
      rewrite Hval, drop_0, Nat.sub_0_r. apply delete_take_drop.
    + intros Hdl Hp.
      destruct (lookup_lt_is_Some_2 h' 0) as [n Hn]; [lia |].
      assert (prev n = None) as <-.
      { rewrite (Hprev Hdl Hp 0%nat n Hn) by lia.
        rewrite decide_False by lia. by rewrite decide_False by lia. }
      apply (prev_linked_skip h' (S k)); [| | lia | lia | done].
      * rewrite Hlen. done.
      * intros i m Hm Hi. rewrite (Hprev Hdl Hp i m Hm Hi).
        repeat case_decide; try lia; done.
  - destruct Hcase as [-> ->]. split.
    + unfold head_of.
      rewrite (to_list_chain h Hc (length h) 0) by lia. by rewrite drop_0.
    + intros _ Hp. unfold head_of. case_decide as H0; [| apply prev_linked_None].
      destruct (lookup_lt_is_Some_2 h 0 H0) as [n Hn].
      assert (prev n = None) as <-.
      { rewrite (Hp 0%nat n Hn). by rewrite decide_False by lia. }
      apply (prev_linked_skip h (S (length h))); [| | lia | | done].
      * intros i m Hm. pose proof (lookup_lt_Some _ _ _ Hm).
        rewrite decide_False by lia. by apply Hc.
      * intros i m Hm Hi. pose proof (lookup_lt_Some _ _ _ Hm).
        rewrite decide_False by lia. by apply Hp.
      * lia.
Qed.

End ListFacts.

(** X7. Searching a list built from a sequence of numbers highlights
    the nodes from the head up to the first node that holds the value
    and announces it found, returning [true]; when no node holds the
    value every node is highlighted, [not_found] is announced and the
    result is [false]. *)
Theorem searchList_on_built_list
    (values : list Z) (listType : LinkedList.list_type) (v : Z) :
  ∃ h hd,
    LinkedList.insert_all values listType = Some (h, hd) ∧
    LinkedListSearch.searchList (S (length h)) h hd v [] =
      Some
        match list_find (λ x, x = v) values with
        | Some (k, _) =>
            (((λ x, LinkedList.Anim LinkedList.highlight (Some x)) <$>
                take (S k) values) ++
             [LinkedList.Anim LinkedList.found (Some v)], true)
        | None =>
            (((λ x, LinkedList.Anim LinkedList.highlight (Some x)) <$> values) ++
             [LinkedList.Anim LinkedList.not_found None], false)
        end.
Proof.
  destruct (BuildFacts.insert_all_spec values listType) as (h & Hb & Hc & Hv).
  exists h, (head_of h). split; [done |].
  pose proof (ListFacts.searchList_chain h v Hc (S (length h)) 0 [] ltac:(lia))
    as Hs.
  unfold head_of. rewrite Hs. rewrite drop_0, Hv.
  by destruct (list_find _ values) as [[k y]|].
Qed.

(** X8. Deleting a value from a list built from a sequence of numbers
    returns, and afterwards the list reads as the sequence without the
    first occurrence of the value (the same sequence when the value
    does not occur); the trace ends with [delete_head], [delete] or
    [not_found] accordingly.  This holds for singly and doubly linked
    lists, and for the empty list. *)
Theorem deleteNode_removes_first_occurrence
    (values : list Z) (listType : LinkedList.list_type) (v : Z) :
  ∃ h hd h' animations hd',
    LinkedList.insert_all values listType = Some (h, hd) ∧
    LinkedList.deleteNode h hd v [] listType = Some (h', animations, hd') ∧
    LinkedList.to_list (length h') h' hd' = without_first v values ∧
    last animations = Some (delete_event v values).
Proof.
  destruct (BuildFacts.insert_all_spec values listType) as (h & Hb & Hc & Hv).
  destruct (ListFacts.deleteNode_chain_to_list h v listType Hc)
    as (h' & anims & hd' & Hrun & Hlast & Hlist & _).
  exists h, (head_of h), h', anims, hd'. rewrite Hv in *. done.
Qed.

(** X9. In a doubly linked list built from a sequence of numbers the
    [prev] link of every node is the node before it and the head has
    none, and a deletion keeps it so: the node after a deleted node is
    linked back to the node before it, and a new head loses its [prev]
    link. *)
Theorem doubly_linked_prev_links_consistent (values : list Z) (v : Z) :
  ∃ h hd h' animations hd',
    LinkedList.insert_all values LinkedList.doublyLinkedList = Some (h, hd) ∧
    LinkedListSearch.prev_linked (length h) h None hd = true ∧
    LinkedList.deleteNode h hd v [] LinkedList.doublyLinkedList
      = Some (h', animations, hd') ∧
    LinkedListSearch.prev_linked (length h') h' None hd' = true.
Proof.
  destruct (ListFacts.insert_all_doubly values) as (h & Hb & Hc & Hp & Hv).
  destruct (ListFacts.deleteNode_chain_to_list h v LinkedList.doublyLinkedList Hc)
    as (h' & anims & hd' & Hrun & _ & _ & Hlinked).
  exists h, (head_of h), h', anims, hd'. split_and!; try done; [| by apply Hlinked].
  unfold head_of. case_decide as H0; [| apply ListFacts.prev_linked_None].
  destruct (lookup_lt_is_Some_2 h 0 H0) as [n Hn].
  assert (LinkedList.prev n = None) as <-.
  { rewrite (Hp 0%nat n Hn). by rewrite decide_False by lia. }
  apply (ListFacts.prev_linked_skip h (S (length h))); [| | lia | | done].
  - intros i m Hm. pose proof (lookup_lt_Some _ _ _ Hm).
    rewrite decide_False by lia. by apply Hc.
  - intros i m Hm Hi. pose proof (lookup_lt_Some _ _ _ Hm).
    rewrite decide_False by lia. by apply Hp.
  - lia.
Qed.

(** ** The search tree: order, search and traversals *)

Module TreeFacts.
Import Tree TreeOps.

Lemma insert_bst t v : bst t → bst (insert t v).
Proof.
  induction t as [|x l IHl r IHr]; simpl; [by repeat constructor |].
  intros (Hl & Hr & Hlt & Hge).
  destruct (Z.ltb_spec v x) as [Hv | Hv]; simpl.
  - split_and!; try done; [by apply IHl |].
    rewrite BuildFacts.tree_insert_values. by constructor.
  - split_and!; try done; [by apply IHr |].
    rewrite BuildFacts.tree_insert_values. by constructor.
Qed.

Lemma build_bst vs t : bst t → bst (foldl insert t vs).
Proof.
  revert t. induction vs as [|v vs IH]; intros t Ht; simpl; [done |].
  by apply IH, insert_bst.
Qed.

Lemma bst_sorted t : bst t → StronglySorted Z.le (values t).
Proof.
  induction t as [|x l IHl r IHr]; simpl; [constructor |].
  intros (Hl & Hr & Hlt & Hge).
  apply StronglySorted_app_2.
  - intros y z Hy Hz. rewrite Forall_forall in Hlt, Hge.
    specialize (Hlt y Hy). apply elem_of_cons in Hz as [-> | Hz]; [lia |].
    specialize (Hge z Hz). lia.
  - by apply IHl.
  - constructor; [by apply IHr | done].
Qed.

Lemma build_values_sorted vs :
  values (foldl insert Null vs) = canonical_sort ascending vs.
Proof.
  apply sorted_perm_canonical.
  - unfold sorted_by. simpl. unfold id.
    apply (bst_sorted _ (build_bst vs Null I)).
  - by rewrite BuildFacts.tree_build_values.
Qed.

Lemma search_spec t v : bst t →
  ∀ animations, ∃ path,
    search t v animations
    = (animations ++ ((λ x, Anim highlight (Some x) None) <$> path) ++
         [if bool_decide (v ∈ values t)
          then Anim found (Some v) None else Anim not_found None None],
       bool_decide (v ∈ values t)).
Proof.
  induction t as [|x l IHl r IHr]; simpl; intros Hb anims.
  - exists []. done.
  - destruct Hb as (Hl & Hr & Hlt & Hge).
    rewrite Forall_forall in Hlt, Hge.
    destruct (Z.eqb_spec v x) as [-> | Hne].
    + exists [x]. rewrite bool_decide_true by set_solver.
      by rewrite <- app_assoc.
    + destruct (Z.ltb_spec v x) as [Hv | Hv].
      * destruct (IHl Hl (anims ++ [Anim highlight (Some x) None])) as [p Hp].
        exists (x :: p). rewrite Hp. rewrite <- !app_assoc. simpl.
        assert (v ∈ values l ↔ v ∈ values l ++ x :: values r) as Hiff.
        { rewrite elem_of_app, elem_of_cons. split; [by left |].
          intros [? | [? | Hin]]; [done | done |].
          specialize (Hge v Hin). lia. }
        by rewrite (bool_decide_ext _ _ Hiff).
      * destruct (IHr Hr (anims ++ [Anim highlight (Some x) None])) as [p Hp].
        exists (x :: p). rewrite Hp. rewrite <- !app_assoc. simpl.
        assert (v ∈ values r ↔ v ∈ values l ++ x :: values r) as Hiff.
        { rewrite elem_of_app, elem_of_cons. split; [by right; right |].
          intros [Hin | [? | ?]]; [| done | done].
          specialize (Hlt v Hin). lia. }
        by rewrite (bool_decide_ext _ _ Hiff).
Qed.

(** The events of a traversal that visits these values. *)
Local Abbreviation visits l := ((λ x, Anim visit (Some x) (Some x)) <$> l).

Lemma inOrderTraversal_spec t animations :
  inOrderTraversal t animations = animations ++ visits (values t).
Proof.
  revert animations. induction t as [|x l IHl r IHr]; intros anims; simpl.
  - by rewrite app_nil_r.
  - rewrite IHr, IHl. rewrite fmap_app. simpl. by rewrite <- !app_assoc.
Qed.

Lemma preOrderTraversal_spec t animations :
  ∃ l, preOrderTraversal t animations = animations ++ visits l ∧
       l ≡ₚ values t ∧
       head l = match t with Node x _ _ => Some x | Null => None end.
Proof.
  revert animations. induction t as [|x l IHl r IHr]; intros anims; simpl.
  - exists []. by rewrite app_nil_r.
  - destruct (IHl (anims ++ [Anim visit (Some x) (Some x)])) as (pl & -> & Hpl & _).
    destruct (IHr ((anims ++ [Anim visit (Some x) (Some x)]) ++ visits pl))
      as (pr & -> & Hpr & _).
    exists (x :: pl ++ pr). split_and!; [| | done].
    + rewrite fmap_cons, fmap_app. by rewrite <- !app_assoc.
    + rewrite Hpl, Hpr. by rewrite Permutation_middle.
Qed.

Lemma postOrderTraversal_spec t animations :
  ∃ l, postOrderTraversal t animations = animations ++ visits l ∧
       l ≡ₚ values t ∧
       last l = match t with Node x _ _ => Some x | Null => None end.
Proof.
  revert animations. induction t as [|x l IHl r IHr]; intros anims; simpl.
  - exists []. by rewrite app_nil_r.
  - destruct (IHl anims) as (pl & -> & Hpl & _).
    destruct (IHr (anims ++ visits pl)) as (pr & -> & Hpr & _).
    exists ((pl ++ pr) ++ [x]). split_and!.
    + rewrite !fmap_app. simpl. by rewrite <- !app_assoc.
    + rewrite Hpl, Hpr. rewrite <- app_assoc.
      rewrite <- Permutation_middle. simpl.
      by rewrite app_nil_r.
    + by rewrite last_snoc.
Qed.

(** *** Playback of a traversal *)

Lemma visited_visits l : visited (visits l) = l.
Proof. unfold visited. induction l; simpl; [done | by f_equal]. Qed.

Lemma tree_run_timers_S_r k st :
  run_timers (S k) st = timer_fires (run_timers k st).
Proof.
  revert st. induction k as [|k IH]; intros st; [done |].
  change (run_timers (S (S k)) st) with (run_timers (S k) (timer_fires st)).
  by rewrite IH.
Qed.

(** A call of [runAnimationStep] on a pending [visit] event of the
    trace. *)
Lemma runAnimationStep_visit st l (i : nat) x :
  animationsRef st = visits l →
  currentAnimationIndexRef st = Z.of_nat i →
  l !! i = Some x →
  runAnimationStep st =
    State (tree_root st) (isAnimating st)
      (TextOf (Anim visit (Some x) (Some x))) [x] (selectedTraversal st)
      (add_to_path (Some x) (traversalPath st)) (animationsRef st)
      (Z.of_nat (S i)) true.
Proof.
  intros Ht Hi Hx. unfold runAnimationStep. rewrite Ht, Hi.
  pose proof (lookup_lt_Some _ _ _ Hx) as Hlt.
  destruct (Z.leb_spec (Arr.len (visits l)) (Z.of_nat i)) as [Hge | _].
  { unfold Arr.len in Hge. rewrite length_fmap in Hge. lia. }
  rewrite get_lookup, Nat2Z.id by lia.
  rewrite list_lookup_fmap, Hx. simpl.
  do 2 f_equal. lia.
Qed.

Lemma add_to_path_filter x path :
  add_to_path (Some x) path = path ++ filter (λ y, y ≠ 0) [x].
Proof.
  unfold add_to_path. rewrite filter_cons, filter_nil.
  destruct (Z.eqb_spec x 0) as [-> | Hx].
  - rewrite decide_False by (intros H; by apply H). by rewrite app_nil_r.
  - by rewrite decide_True.
Qed.

Section Playback.
Context (l : list Z).

(** The playback has shown the first [k] events of the trace and waits
    for the timer. *)
Local Abbreviation shown k st :=
  (animationsRef st = visits l ∧
   currentAnimationIndexRef st = Z.of_nat k ∧
   traversalPath st = filter (λ y, y ≠ 0) (take k l) ∧
   isAnimating st = true ∧
   timer st = true).

Lemma runAnimationStep_shown k st :
  animationsRef st = visits l →
  currentAnimationIndexRef st = Z.of_nat k →
  traversalPath st = filter (λ y, y ≠ 0) (take k l) →
  isAnimating st = true →
  (k < length l)%nat →
  shown (S k) (runAnimationStep st).
Proof.
  intros Ht Hi Hp Ha Hk.
  destruct (lookup_lt_is_Some_2 l k Hk) as [x Hx].
  rewrite (runAnimationStep_visit st l k x Ht Hi Hx).
  cbn [animationsRef currentAnimationIndexRef traversalPath isAnimating timer].
  split_and!; try done.
  rewrite add_to_path_filter, Hp.
  rewrite (take_S_r l k x Hx). by rewrite filter_app.
Qed.

Lemma run_timers_shown j : ∀ k st,
  shown k st → (k + j ≤ length l)%nat → shown (k + j)%nat (run_timers j st).
Proof.
  induction j as [|j IH]; intros k st Hs Hk.
  - by rewrite Nat.add_0_r.
  - cbn [run_timers]. replace (k + S j)%nat with (S k + j)%nat by lia.
    apply IH; [| lia]. destruct Hs as (Ht & Hi & Hp & Ha & Htm).
    unfold timer_fires. rewrite Htm. apply runAnimationStep_shown; try done. lia.
Qed.

Lemma runAnimationStep_end st :
  shown (length l) st →
  let st' := runAnimationStep st in
  isAnimating st' = false ∧
  explanation st' = Message "Animation complete." ∧
  traversalPath st' = filter (λ y, y ≠ 0) l ∧
  highlightedNodes st' = [].
Proof.
  intros (Ht & Hi & Hp & Ha & Htm). unfold runAnimationStep.
  rewrite Ht, Hi.
  destruct (Z.leb_spec (Arr.len (visits l)) (Z.of_nat (length l))) as [_ | Hlt].
  - simpl. rewrite Hp, firstn_all. done.
  - unfold Arr.len in Hlt. rewrite length_fmap in Hlt. lia.
Qed.

End Playback.

Lemma traversal_visits st :
  ∃ l,
    match selectedTraversal st with
    | inOrder => inOrderTraversal (tree_root st) []
    | preOrder => preOrderTraversal (tree_root st) []
    | postOrder => postOrderTraversal (tree_root st) []
    end = visits l ∧
    l ≡ₚ values (tree_root st) ∧
    (selectedTraversal st = inOrder → l = values (tree_root st)).
Proof.
  destruct (selectedTraversal st).
  - exists (values (tree_root st)). by rewrite inOrderTraversal_spec.
  - destruct (preOrderTraversal_spec (tree_root st) []) as (l & Hl & Hp & _).
    exists l. done.
  - destruct (postOrderTraversal_spec (tree_root st) []) as (l & Hl & Hp & _).
    exists l. done.
Qed.

End TreeFacts.

(** X10. The in-order traversal of a tree built from a sequence of
    numbers visits the numbers in ascending order (the canonical sort of
    the sequence, duplicates included); the pre-order and post-order
    traversals visit the same numbers, the pre-order starting and the
    post-order ending with the first number of the sequence, which is
    the root. *)
Theorem traversals_of_built_tree (vs : list Z) :
  let t := foldl Tree.insert Tree.Null vs in
  TreeOps.visited (TreeOps.inOrderTraversal t []) = canonical_sort ascending vs ∧
  TreeOps.visited (TreeOps.preOrderTraversal t []) ≡ₚ vs ∧
  TreeOps.visited (TreeOps.postOrderTraversal t []) ≡ₚ vs ∧
  head (TreeOps.visited (TreeOps.preOrderTraversal t [])) = head vs ∧
  last (TreeOps.visited (TreeOps.postOrderTraversal t [])) = head vs.
Proof.
  cbn zeta.
  assert (match foldl Tree.insert Tree.Null vs with
          | Tree.Node x _ _ => Some x
          | Tree.Null => None
          end = head vs) as Hroot.
  { destruct vs as [|v vs]; [done |]. simpl.
    assert (∀ t x l r, t = Tree.Node x l r →
              ∃ l' r', foldl Tree.insert t vs = Tree.Node x l' r') as Hkeep.
    { induction vs as [|w ws IH]; intros t x l r ->; simpl; [by eauto |].
      destruct (w <? x); eapply IH; done. }
    destruct (Hkeep _ v Tree.Null Tree.Null eq_refl) as (l' & r' & ->). done. }
  destruct (TreeFacts.preOrderTraversal_spec (foldl Tree.insert Tree.Null vs) [])
    as (pre & -> & Hpre & Hhead).
  destruct (TreeFacts.postOrderTraversal_spec (foldl Tree.insert Tree.Null vs) [])
    as (post & -> & Hpost & Hlast).
  rewrite TreeFacts.inOrderTraversal_spec. simpl.
  rewrite !TreeFacts.visited_visits.
  split_and!.
  - apply TreeFacts.build_values_sorted.
  - by rewrite Hpre, BuildFacts.tree_build_values.
  - by rewrite Hpost, BuildFacts.tree_build_values.
  - by rewrite Hhead.
  - by rewrite Hlast.
Qed.

(** X11. Searching a tree built from a sequence of numbers returns
    [true] exactly when the value is one of the numbers; the trace
    highlights the nodes on the way down and ends with [found] at the
    value, or with [not_found]. *)
Theorem search_of_built_tree (vs : list Z) (v : Z) :
  ∃ path,
    TreeOps.search (foldl Tree.insert Tree.Null vs) v [] =
      (((λ x, TreeOps.Anim TreeOps.highlight (Some x) None) <$> path) ++
         [if bool_decide (v ∈ vs)
          then TreeOps.Anim TreeOps.found (Some v) None
          else TreeOps.Anim TreeOps.not_found None None],
       bool_decide (v ∈ vs)).
Proof.
  destruct (TreeFacts.search_spec (foldl Tree.insert Tree.Null vs) v
              (TreeFacts.build_bst vs Tree.Null I) []) as [path Hp].
  exists path. rewrite Hp. simpl.
  assert (v ∈ Tree.values (foldl Tree.insert Tree.Null vs) ↔ v ∈ vs) as Hiff
    by (by rewrite BuildFacts.tree_build_values).
  by rewrite (bool_decide_ext _ _ Hiff).
Qed.

(** X12. A traversal started on a tree built from a non-empty sequence
    of numbers plays to its end: when the timer has fired once for each
    event the animation flag is off, the explanation says that the
    animation is complete, and the traversal path shown holds the
    visited numbers except the zeros, a node of value [0] being left
    out of the path; for the in-order traversal the path is the
    ascending sort of the numbers without its zeros. *)
Theorem handleTraversal_path_omits_zero (st : TreeOps.state) (vs : list Z) :
  TreeOps.isAnimating st = false →
  vs ≠ [] →
  TreeOps.tree_root st = foldl Tree.insert Tree.Null vs →
  let st1 := TreeOps.handleTraversal st in
  let st2 := TreeOps.run_timers (length (TreeOps.animationsRef st1)) st1 in
  TreeOps.isAnimating st2 = false ∧
  TreeOps.explanation st2 = TreeOps.Message "Animation complete." ∧
  TreeOps.traversalPath st2 ≡ₚ filter (λ y, y ≠ 0) vs ∧
  (TreeOps.selectedTraversal st = TreeOps.inOrder →
   TreeOps.traversalPath st2 = filter (λ y, y ≠ 0) (canonical_sort ascending vs)).
Proof.
  intros Ha Hne Htree. unfold TreeOps.handleTraversal. rewrite Ha.
  assert (Tree.values (TreeOps.tree_root st) ≡ₚ vs) as Hperm
    by (by rewrite Htree, BuildFacts.tree_build_values).
  destruct (TreeFacts.traversal_visits st) as (l & Hl & Hlp & Hin).
  destruct (TreeOps.tree_root st) as [|x tl tr] eqn:Ht.
  { simpl in Hperm. apply Permutation_nil_l in Hperm. done. }
  rewrite Hl.
  set (s0 := TreeOps.State _ _ _ _ _ _ _ _ _).
  assert (0 < length l)%nat as Hlen.
  { rewrite Hlp. simpl. rewrite length_app. simpl. lia. }
  pose proof (TreeFacts.runAnimationStep_shown l 0 s0 eq_refl eq_refl eq_refl
                eq_refl Hlen) as Hs1.
  cbn zeta.
  assert (TreeOps.animationsRef (TreeOps.runAnimationStep s0)
          = (λ x, TreeOps.Anim TreeOps.visit (Some x) (Some x)) <$> l) as ->
    by (by destruct Hs1).
  rewrite length_fmap.
  replace (length l) with (S (length l - 1)) at 1 2 3 4 by lia.
  rewrite !TreeFacts.tree_run_timers_S_r.
  pose proof (TreeFacts.run_timers_shown l (length l - 1) 1 _ Hs1 ltac:(lia))
    as Hs2.
  replace (1 + (length l - 1))%nat with (length l) in Hs2 by lia.
  unfold TreeOps.timer_fires.
  assert (TreeOps.timer (TreeOps.run_timers (length l - 1)
                           (TreeOps.runAnimationStep s0)) = true) as ->
    by (by destruct Hs2 as (_ & _ & _ & _ & ?)).
  destruct (TreeFacts.runAnimationStep_end l _ Hs2) as (H1 & H2 & H3 & _).
  split_and!; try done.
  - rewrite H3. by rewrite Hlp, Hperm.
  - intros Hsel. rewrite H3, (Hin Hsel), Htree.
    by rewrite TreeFacts.build_values_sorted.
Qed.

Lemma handleTraversal_path_omits_zero_witness :
  let st1 := TreeOps.handleTraversal tree_state_example in
  let st2 := TreeOps.run_timers (length (TreeOps.animationsRef st1)) st1 in
  TreeOps.isAnimating st2 = false ∧
  TreeOps.explanation st2 = TreeOps.Message "Animation complete." ∧
  TreeOps.traversalPath st2 ≡ₚ filter (λ y, y ≠ 0) [5; 0; 8] ∧
  (TreeOps.selectedTraversal tree_state_example = TreeOps.inOrder →
   TreeOps.traversalPath st2
     = filter (λ y, y ≠ 0) (canonical_sort ascending [5; 0; 8])).
Proof.
  apply (handleTraversal_path_omits_zero tree_state_example [5; 0; 8]);
    [reflexivity | discriminate | reflexivity].
Defined.

(** ** Breadth-first and depth-first traversal *)

Module TraversalFacts.
Import Graph GraphTraversal.

Lemma bfs_loop_worklist fuel : ∀ adjList queue visited animations,
  bfs_loop fuel adjList queue visited animations
  = worklist_loop (λ v w, w ++ [v]) queue_node id fuel adjList queue visited
      animations.
Proof.
  induction fuel as [|fuel IH]; intros adj q vis anims; [done |].
  simpl. destruct q as [|u q]; [done |].
  destruct (OMap.get adj u) as [ns|]; [| apply IH].
  change (foldl bfs_neighbour) with
    (foldl (worklist_neighbour (λ v w, w ++ [v]) queue_node)).
  destruct (foldl _ _ _) as [[q' vis'] a']. apply IH.
Qed.

Lemma dfs_loop_worklist fuel : ∀ adjList stack visited animations,
  dfs_loop fuel adjList stack visited animations
  = worklist_loop cons stack_node reverse fuel adjList stack visited
      animations.
Proof.
  induction fuel as [|fuel IH]; intros adj q vis anims; [done |].
  simpl. destruct q as [|u q]; [done |].
  destruct (OMap.get adj u) as [ns|]; [| apply IH].
  change (foldl dfs_neighbour) with
    (foldl (worklist_neighbour cons stack_node)).
  destruct (foldl _ _ _) as [[q' vis'] a']. apply IH.
Qed.

Lemma visit_nodes_app a b : visit_nodes (a ++ b) = visit_nodes a ++ visit_nodes b.
Proof. unfold visit_nodes. by rewrite omap_app. Qed.

Lemma elem_of_candidates adjList u neighbours v :
  OMap.get adjList u = Some neighbours → v ∈ neighbours →
  v ∈ candidates adjList.
Proof.
  intros Hu Hv. unfold candidates. rewrite elem_of_list_to_set.
  apply list_elem_of_join. exists neighbours. split; [done |].
  apply list_elem_of_fmap. exists (u, neighbours). split; [done |].
  by apply AStarFacts.get_elem.
Qed.

Lemma size_candidates adjList :
  (size (candidates adjList) ≤ length (mjoin (snd <$> adjList)))%nat.
Proof.
  unfold candidates. generalize (mjoin (snd <$> adjList)). intros l.
  induction l as [|x l IH].
  - rewrite list_to_set_nil, size_empty. done.
  - rewrite list_to_set_cons, size_union_alt, size_singleton. cbn [length].
    pose proof (subseteq_size (list_to_set l ∖ {[x]}) (list_to_set l : gset string)
                  ltac:(set_solver)).
    lia.
Qed.

Lemma size_new (cand vis : gset string) (new : list string) :
  NoDup new → (∀ v, v ∈ new → v ∈ cand ∧ v ∉ vis) →
  (size (cand ∖ (vis ∪ list_to_set new)) + length new = size (cand ∖ vis))%nat.
Proof.
  intros Hnd Hin.
  assert (cand ∖ vis = (cand ∖ (vis ∪ list_to_set new)) ∪ list_to_set new) as ->.
  { apply set_eq. intros x. rewrite elem_of_union, !elem_of_difference.
    rewrite elem_of_union, elem_of_list_to_set.
    destruct (decide (x ∈ new)) as [Hx | Hx].
    - destruct (Hin x Hx). tauto.
    - tauto. }
  rewrite (size_union (C := gset string) (cand ∖ (vis ∪ list_to_set new))
             (list_to_set new)) by set_solver.
  by rewrite (size_list_to_set (C := gset string)).
Qed.

Section Worklist.
Context (push : string → list string → list string).
Context (ev : string → animation) (order : list string → list string).
Context (Hpush : ∀ v w, push v w ≡ₚ v :: w).
Context (Horder : ∀ l, order l ≡ₚ l).
Context (Hev : ∀ v, visit_nodes [ev v] = []).
Context (adjList : OMap.t (list string)) (startNode : string).

(** The loop over the neighbours adds the unmarked ones, each once. *)
Lemma worklist_neighbours_spec (ns : list string) :
  ∀ work visited animations,
    ∃ work' animations' new,
      foldl (worklist_neighbour push ev) (work, visited, animations) ns
        = (work', visited ∪ list_to_set ns, animations') ∧
      work' ≡ₚ new ++ work ∧
      NoDup new ∧
      (∀ v, v ∈ new ↔ v ∈ ns ∧ v ∉ visited) ∧
      visit_nodes animations' = visit_nodes animations ∧
      (∃ t, animations' = animations ++ t).
Proof.
  induction ns as [|v ns IH]; intros work visited anims; simpl.
  - exists work, anims, []. split_and!; try done.
    + f_equal. f_equal. set_solver.
    + constructor.
    + intros v. set_solver.
    + exists []. by rewrite app_nil_r.
  - case_bool_decide as Hv.
    + destruct (IH work visited anims)
        as (w' & a' & new & Hf & Hw & Hnd & Hin & Hvn & Ht).
      exists w', a', new. split_and!; try done.
      * rewrite Hf. do 2 f_equal. set_solver.
      * intros x. rewrite Hin. set_solver.
    + destruct (IH (push v work) ({[v]} ∪ visited) (anims ++ [ev v]))
        as (w' & a' & new & Hf & Hw & Hnd & Hin & Hvn & t & Ht).
      exists w', a', (v :: new). split_and!.
      * rewrite Hf. do 2 f_equal. set_solver.
      * rewrite Hw, Hpush. by rewrite <- Permutation_middle.
      * constructor; [| done]. rewrite Hin. set_solver.
      * intros x. rewrite elem_of_cons, Hin.
        destruct (decide (x = v)) as [-> | Hx]; set_solver.
      * rewrite Hvn, visit_nodes_app, Hev. by rewrite app_nil_r.
      * exists ([ev v] ++ t). rewrite Ht. by rewrite <- app_assoc.
Qed.

(** The loop ends, having visited the nodes reachable from the start,
    each once. *)
Lemma worklist_loop_spec fuel : ∀ work visited animations,
  worklist_inv adjList startNode work visited animations →
  (length work + size (candidates adjList ∖ visited) < fuel)%nat →
  ∃ visited' animations',
    worklist_loop push ev order fuel adjList work visited animations
      = Some animations' ∧
    worklist_inv adjList startNode [] visited' animations' ∧
    (∃ t, animations' = animations ++ t).
Proof.
  induction fuel as [|fuel IH]; intros work visited animations Hinv Hfuel; [lia |].
  simpl. destruct work as [|u work].
  { exists visited, animations. split_and!; [done | done |].
    exists []. by rewrite app_nil_r. }
  destruct Hinv as (Hnd & Hvis & Hclo & Hreach & Hstart).
  simpl in Hnd.
  assert (∀ x, x ∈ visited ↔
               x = u ∨ x ∈ work ∨ x ∈ visit_nodes animations) as Hmem.
  { intros x. rewrite Hvis, elem_of_list_to_set. simpl.
    by rewrite elem_of_cons, elem_of_app. }
  assert (u ∈ visited) as Hu by (apply Hmem; by left).
  destruct (OMap.get adjList u) as [ns|] eqn:Hget.
  - destruct (worklist_neighbours_spec (order ns) work visited
                (animations ++ [visit_node u]))
      as (w' & a' & new & Hf & Hw & Hndn & Hin & Hvn & t' & Ht').
    rewrite Hf.
    assert (∀ v, v ∈ new ↔ v ∈ ns ∧ v ∉ visited) as Hin'.
    { intros v. rewrite Hin. by rewrite Horder. }
    assert ((list_to_set (order ns) : gset string) = list_to_set ns) as Hset.
    { apply list_to_set_perm_L, Horder. }
    rewrite Hset in *.
    assert (visited ∪ list_to_set ns = visited ∪ (list_to_set new : gset string))
      as Hvis'.
    { apply set_eq. intros x. rewrite !elem_of_union, !elem_of_list_to_set.
      rewrite Hin'. destruct (decide (x ∈ visited)); tauto. }
    rewrite visit_nodes_app in Hvn. simpl in Hvn.
    destruct (IH w' (visited ∪ list_to_set ns) a') as (vis2 & a2 & Hrun & Hinv2 & t & Ht).
    + unfold worklist_inv. split_and!.
      * rewrite Hvn, Hw. rewrite <- app_assoc.
        apply NoDup_app. split; [done |]. split.
        -- intros x Hx Hx2. apply Hin' in Hx as [_ Hx]. apply Hx.
           apply Hmem. rewrite !elem_of_app, list_elem_of_singleton in Hx2.
           tauto.
        -- apply NoDup_cons in Hnd as [Hu' Hnd]. rewrite app_assoc.
           apply NoDup_app. split; [done |]. split; [| apply NoDup_singleton].
           intros x Hx ->%list_elem_of_singleton. done.
      * rewrite Hvis', Hvn. apply set_eq. intros x.
        rewrite elem_of_union, !elem_of_list_to_set, Hmem.
        rewrite Hw. rewrite !elem_of_app, list_elem_of_singleton.
        tauto.
      * intros u' ns' v. rewrite Hvn, elem_of_app, list_elem_of_singleton.
        intros [Hu' | ->] Hg Hv.
        -- apply elem_of_union_l. by eapply Hclo.
        -- rewrite Hget in Hg. injection Hg as <-.
           apply elem_of_union_r. by apply elem_of_list_to_set.
      * intros v [Hv | Hv%elem_of_list_to_set]%elem_of_union; [by apply Hreach |].
        eapply reachable_step; [by apply Hreach | done | done].
      * by apply elem_of_union_l.
    + rewrite Hvis'.
      pose proof (size_new (candidates adjList) visited new Hndn) as Hsz.
      rewrite Hw, length_app. simpl in Hfuel.
      assert (∀ v, v ∈ new → v ∈ candidates adjList ∧ v ∉ visited) as Hc.
      { intros v [Hv Hnv]%Hin'. split; [| done].
        by eapply elem_of_candidates. }
      specialize (Hsz Hc). lia.
    + exists vis2, a2. split_and!; [done | done |].
      exists ([visit_node u] ++ t' ++ t). rewrite Ht, Ht'. by rewrite <- !app_assoc.
  - destruct (IH work visited (animations ++ [visit_node u]))
      as (vis2 & a2 & Hrun & Hinv2 & t & Ht).
    + unfold worklist_inv. rewrite visit_nodes_app. simpl. split_and!; try done.
      * apply NoDup_cons in Hnd as [Hu' Hnd]. rewrite app_assoc.
        apply NoDup_app. split; [done |]. split; [| apply NoDup_singleton].
        intros x Hx ->%list_elem_of_singleton. done.
      * apply set_eq. intros x.
        rewrite Hmem, elem_of_list_to_set, !elem_of_app,
          list_elem_of_singleton. tauto.
      * intros u' ns' v. rewrite elem_of_app, list_elem_of_singleton.
        intros [Hu' | ->] Hg Hv; [by eapply Hclo |].
        by rewrite Hget in Hg.
    + simpl in Hfuel. lia.
    + exists vis2, a2. split_and!; [done | done |].
      exists ([visit_node u] ++ t). rewrite Ht. by rewrite <- !app_assoc.
Qed.

End Worklist.

Lemma initial_inv adjList startNode :
  worklist_inv adjList startNode [startNode] {[startNode]}
    [visit_start startNode].
Proof.
  unfold worklist_inv. simpl. split_and!.
  - apply NoDup_singleton.
  - set_solver.
  - intros u ns v Hu. by apply elem_of_nil in Hu.
  - intros v ->%elem_of_singleton. constructor.
  - by apply elem_of_singleton.
Qed.

Lemma initial_fuel adjList (startNode : string) :
  (length [startNode] + size (candidates adjList ∖ {[startNode]})
   < enough_fuel adjList)%nat.
Proof.
  unfold enough_fuel. simpl.
  pose proof (size_candidates adjList).
  pose proof (subseteq_size (candidates adjList ∖ {[startNode]})
                (candidates adjList) ltac:(set_solver)).
  lia.
Qed.

(** With the work list empty, the visited nodes are the reachable
    ones. *)
Lemma final_inv adjList startNode visited t :
  worklist_inv adjList startNode [] visited
    ([visit_start startNode] ++ t) →
  NoDup (visit_nodes t) ∧
  ∀ v, v ∈ visit_nodes t ↔ reachable adjList startNode v.
Proof.
  unfold worklist_inv. rewrite visit_nodes_app. simpl.
  intros (Hnd & Hvis & Hclo & Hreach & Hstart).
  split; [done |]. intros v. split.
  - intros Hv. apply Hreach. rewrite Hvis. by apply elem_of_list_to_set.
  - intros Hr. induction Hr as [|u w ns _ IH Hget Hw].
    + rewrite Hvis in Hstart. by apply elem_of_list_to_set in Hstart.
    + specialize (Hclo u ns w IH Hget Hw). rewrite Hvis in Hclo.
      by apply elem_of_list_to_set in Hclo.
Qed.

End TraversalFacts.

(** X13. Breadth-first traversal of any adjacency mapping from any start
    node ends within the fuel the mapping gives; its trace begins with
    [visit_start], ends with [complete], and its [visit_node] events
    name exactly the nodes reachable from the start node, each once. *)
Theorem bfs_visits_reachable_nodes_once
    (adjList : Graph.OMap.t (list string)) (startNode : string) :
  ∃ t,
    GraphTraversal.bfs adjList startNode (GraphTraversal.enough_fuel adjList)
      = Some ([GraphTraversal.visit_start startNode] ++ t ++
              [GraphTraversal.complete]) ∧
    NoDup (GraphTraversal.visit_nodes t) ∧
    ∀ v, v ∈ GraphTraversal.visit_nodes t ↔ reachable adjList startNode v.
Proof.
  unfold GraphTraversal.bfs. rewrite TraversalFacts.bfs_loop_worklist.
  destruct (TraversalFacts.worklist_loop_spec (λ v w, w ++ [v])
              GraphTraversal.queue_node id) with
    (adjList := adjList) (startNode := startNode)
    (fuel := GraphTraversal.enough_fuel adjList)
    (work := [startNode]) (visited := ({[startNode]} : gset string))
    (animations := [GraphTraversal.visit_start startNode])
    as (vis & a & Hrun & Hinv & t & ->).
  - intros v w. by rewrite <- Permutation_cons_append.
  - done.
  - done.
  - apply TraversalFacts.initial_inv.
  - apply TraversalFacts.initial_fuel.
  - rewrite Hrun. simpl. exists t. split; [done |].
    by apply TraversalFacts.final_inv in Hinv.
Qed.

(** X14. Depth-first traversal of any adjacency mapping from any start
    node ends within the fuel the mapping gives; its trace begins with
    [visit_start], ends with [complete], and its [visit_node] events
    name exactly the nodes reachable from the start node, each once. *)
Theorem dfs_visits_reachable_nodes_once
    (adjList : Graph.OMap.t (list string)) (startNode : string) :
  ∃ t,
    GraphTraversal.dfs adjList startNode (GraphTraversal.enough_fuel adjList)
      = Some ([GraphTraversal.visit_start startNode] ++ t ++
              [GraphTraversal.complete]) ∧
    NoDup (GraphTraversal.visit_nodes t) ∧
    ∀ v, v ∈ GraphTraversal.visit_nodes t ↔ reachable adjList startNode v.
Proof.
  unfold GraphTraversal.dfs. rewrite TraversalFacts.dfs_loop_worklist.
  destruct (TraversalFacts.worklist_loop_spec cons
              GraphTraversal.stack_node reverse) with
    (adjList := adjList) (startNode := startNode)
    (fuel := GraphTraversal.enough_fuel adjList)
    (work := [startNode]) (visited := ({[startNode]} : gset string))
    (animations := [GraphTraversal.visit_start startNode])
    as (vis & a & Hrun & Hinv & t & ->).
  - done.
  - intros l. apply reverse_Permutation.
  - done.
  - apply TraversalFacts.initial_inv.
  - apply TraversalFacts.initial_fuel.
  - rewrite Hrun. simpl. exists t. split; [done |].
    by apply TraversalFacts.final_inv in Hinv.
Qed.

(** ** The adjacency mapping of [buildAdjacencyList] *)

Module AdjacencyFacts.
Import Graph GraphTraversal.

Lemma omap_get_set {V} (m : OMap.t V) k (v : V) k' :
  OMap.get (OMap.set m k v) k' = if decide (k = k') then Some v else OMap.get m k'.
Proof.
  induction m as [|[k0 v0] m IH]; simpl.
  - done.
  - destruct (decide (k0 = k)) as [-> | Hk]; simpl.
    + destruct (decide (k = k')); done.
    + rewrite IH. destruct (decide (k0 = k')) as [-> | Hk'].
      * by rewrite decide_False.
      * done.
Qed.

Lemma elem_of_keys_set {V} (m : OMap.t V) k (v : V) x :
  x ∈ OMap.keys (OMap.set m k v) ↔ x = k ∨ x ∈ OMap.keys m.
Proof.
  unfold OMap.keys. induction m as [|[k0 v0] m IH]; cbn [OMap.set].
  - rewrite fmap_cons, fmap_nil, list_elem_of_singleton. cbn [fst].
    split; [by left |]. intros [? | ?%elem_of_nil]; done.
  - destruct (decide (k0 = k)) as [-> | Hk].
    + rewrite !fmap_cons, !elem_of_cons. cbn [fst]. tauto.
    + rewrite !fmap_cons, !elem_of_cons, IH. cbn [fst]. tauto.
Qed.

Lemma keys_set_NoDup {V} (m : OMap.t V) k (v : V) :
  NoDup (OMap.keys m) → NoDup (OMap.keys (OMap.set m k v)).
Proof.
  unfold OMap.keys. induction m as [|[k0 v0] m IH]; cbn [OMap.set].
  - intros _. rewrite fmap_cons, fmap_nil. apply NoDup_singleton.
  - rewrite fmap_cons. cbn [fst]. intros [Hk0 Hnd]%NoDup_cons.
    destruct (decide (k0 = k)) as [-> | Hk].
    + rewrite fmap_cons. cbn [fst]. by apply NoDup_cons.
    + rewrite fmap_cons. cbn [fst]. apply NoDup_cons. split; [| by apply IH].
      intros [? | ?]%elem_of_keys_set; done.
Qed.

Lemma elem_get {V} (m : OMap.t V) k (v : V) :
  NoDup (OMap.keys m) → (k, v) ∈ m → OMap.get m k = Some v.
Proof.
  unfold OMap.keys. induction m as [|[k0 v0] m IH]; simpl.
  - by intros _ ?%elem_of_nil.
  - intros [Hk0 Hnd]%NoDup_cons [[= -> ->] | Hin]%elem_of_cons.
    + by rewrite decide_True.
    + rewrite decide_False; [by apply IH |].
      intros ->. apply Hk0. apply list_elem_of_fmap. by exists (k, v).
Qed.

Lemma ensure_get (adj : OMap.t (list string)) u x :
  neighbours_of (if OMap.has adj u then adj else OMap.set adj u []) x
    = neighbours_of adj x ∧
  (is_Some (OMap.get (if OMap.has adj u then adj else OMap.set adj u []) x)
   ↔ is_Some (OMap.get adj x) ∨ x = u) ∧
  (NoDup (OMap.keys adj) →
   NoDup (OMap.keys (if OMap.has adj u then adj else OMap.set adj u []))).
Proof.
  unfold OMap.has, neighbours_of. case_bool_decide as Hu.
  - split; [done |]. split; [| done]. split; [by left |].
    intros [? | ->]; done.
  - split_and!.
    + rewrite omap_get_set. case_decide as Hx; [| done]. subst x.
      destruct (OMap.get adj u); [| done]. exfalso. by apply Hu.
    + rewrite omap_get_set. case_decide as Hx.
      * split; [by right | done].
      * split; [by left |]. intros [? | ?]; [done | congruence].
    + apply keys_set_NoDup.
Qed.

Lemma add_edge_spec (adj : OMap.t (list string)) u v x :
  (∀ w, w ∈ neighbours_of (add_edge adj u v) x ↔
        w ∈ neighbours_of adj x ∨ (x = u ∧ w = v) ∨ (x = v ∧ w = u)) ∧
  (is_Some (OMap.get (add_edge adj u v) x)
   ↔ is_Some (OMap.get adj x) ∨ x = u ∨ x = v) ∧
  (NoDup (OMap.keys adj) → NoDup (OMap.keys (add_edge adj u v))).
Proof.
  unfold add_edge. cbn zeta.
  set (adj1 := if OMap.has adj u then adj else OMap.set adj u []).
  set (adj2 := if OMap.has adj1 v then adj1 else OMap.set adj1 v []).
  destruct (ensure_get adj u x) as (Hn1 & Hs1 & Hd1). fold adj1 in Hn1, Hs1, Hd1.
  destruct (ensure_get adj1 v x) as (Hn2 & Hs2 & Hd2). fold adj2 in Hn2, Hs2, Hd2.
  destruct (ensure_get adj u u) as (Hn1u & _ & _). fold adj1 in Hn1u.
  destruct (ensure_get adj1 v u) as (Hn2u & _ & _). fold adj2 in Hn2u.
  split_and!.
  - intros w. unfold neighbours_of at 1. rewrite !omap_get_set.
    destruct (decide (v = x)) as [-> | Hvx].
    + simpl. destruct (decide (u = x)) as [-> | Hux]; simpl.
      * rewrite !elem_of_app, !list_elem_of_singleton.
        fold (neighbours_of adj2 x). rewrite Hn2, Hn1. naive_solver.
      * rewrite !elem_of_app, !list_elem_of_singleton.
        fold (neighbours_of adj2 x). rewrite Hn2, Hn1. naive_solver.
    + destruct (decide (u = x)) as [-> | Hux]; simpl.
      * rewrite !elem_of_app, !list_elem_of_singleton.
        fold (neighbours_of adj2 x). rewrite Hn2, Hn1. naive_solver.
      * fold (neighbours_of adj2 x). rewrite Hn2, Hn1. naive_solver.
  - rewrite !omap_get_set.
    destruct (decide (v = x)) as [-> | Hvx]; [naive_solver |].
    destruct (decide (u = x)) as [-> | Hux]; [naive_solver |].
    rewrite Hs2, Hs1. naive_solver.
  - intros Hnd. by apply keys_set_NoDup, keys_set_NoDup, Hd2, Hd1.
Qed.

Lemma buildAdjacencyList_spec edges weights :
  let adj := (buildAdjacencyList edges weights).1 in
  (∀ x w, w ∈ neighbours_of adj x ↔ (x, w) ∈ edges ∨ (w, x) ∈ edges) ∧
  (∀ x, is_Some (OMap.get adj x) ↔ ∃ w, (x, w) ∈ edges ∨ (w, x) ∈ edges) ∧
  NoDup (OMap.keys adj).
Proof.
  unfold buildAdjacencyList. cbn [fst]. clear weights.
  induction edges as [|[u v] edges IH] using rev_ind.
  - simpl. split_and!.
    + intros x w. unfold neighbours_of. simpl. split; [by intros ?%elem_of_nil |].
      by intros [?%elem_of_nil | ?%elem_of_nil].
    + intros x. simpl. split; [by intros [? ?] |].
      by intros [w [?%elem_of_nil | ?%elem_of_nil]].
    + constructor.
  - rewrite foldl_app. cbn [foldl].
    destruct IH as (Hn & Hs & Hd).
    set (adj := foldl _ [] edges) in *. clearbody adj.
    change (OMap.set _ v _) with (add_edge adj u v).
    split_and!.
    + intros x w. destruct (add_edge_spec adj u v x) as (Hn' & _ & _).
      rewrite Hn', Hn. rewrite !elem_of_app, !list_elem_of_singleton.
      naive_solver.
    + intros x. destruct (add_edge_spec adj u v x) as (_ & Hs' & _).
      rewrite Hs', Hs. split.
      * intros [[w Hw] | [-> | ->]].
        -- exists w. rewrite !elem_of_app. tauto.
        -- exists v. rewrite !elem_of_app, !list_elem_of_singleton. tauto.
        -- exists u. rewrite !elem_of_app, !list_elem_of_singleton. tauto.
      * intros [w Hw]. rewrite !elem_of_app, !list_elem_of_singleton in Hw.
        naive_solver.
    + destruct (add_edge_spec adj u v u) as (_ & _ & Hd'). by apply Hd'.
Qed.

End AdjacencyFacts.

(** X15. The adjacency mapping built from a list of edges is that of
    the undirected graph of the edges: the nodes are the end points of
    the edges, the neighbours of a node are the other ends of its
    edges, so adjacency is symmetric, and every neighbour is itself a
    node of the mapping. *)
Theorem buildAdjacencyList_undirected_and_closed
    (edges : list (string * string)) (weights : list (string * string * Z)) :
  let adjList := (Graph.buildAdjacencyList edges weights).1 in
  (∀ u, is_Some (Graph.OMap.get adjList u) ↔
        ∃ v, (u, v) ∈ edges ∨ (v, u) ∈ edges) ∧
  (∀ u v, v ∈ GraphTraversal.neighbours_of adjList u ↔
          (u, v) ∈ edges ∨ (v, u) ∈ edges) ∧
  (∀ u v, v ∈ GraphTraversal.neighbours_of adjList u ↔
          u ∈ GraphTraversal.neighbours_of adjList v) ∧
  graph_closed adjList.
Proof.
  destruct (AdjacencyFacts.buildAdjacencyList_spec edges weights)
    as (Hn & Hs & Hd).
  cbn zeta in *. split_and!; [done | done | |].
  - intros u v. rewrite !Hn. tauto.
  - unfold graph_closed. apply Forall_forall. intros [k ns] Hin.
    apply Forall_forall. intros v Hv. simpl in Hv.
    apply (AdjacencyFacts.elem_get _ _ _ Hd) in Hin.
    assert (v ∈ GraphTraversal.neighbours_of
                  (Graph.buildAdjacencyList edges weights).1 k) as Hnb
      by (unfold GraphTraversal.neighbours_of; by rewrite Hin).
    apply Hn in Hnb as [Hkv | Hvk]; apply Hs; exists k; [by right | by left].
Qed.

(** ** A start node that is not in the graph *)

(** X16. When the start node is not a node of the adjacency mapping and
    differs from the end node, Dijkstra and A* throw a [TypeError] at
    the first node they take from the queue, [adjList.get(u)] being
    [undefined]; breadth-first and depth-first traversal test
    [adjList.has(u)] and end normally, having visited the start node
    only. *)
Theorem unknown_start_node_throws_in_pathfinders
    (adjList : Graph.OMap.t (list string)) (edgeWeights : gmap string Z)
    (startNode endNode : string) (heuristic : string → string → Z)
    (fuel : nat) :
  Graph.OMap.get adjList startNode = None →
  startNode ≠ endNode →
  Graph.dijkstra adjList edgeWeights startNode endNode (S fuel)
    = Graph.Throws Graph.TypeError ∧
  Graph.aStar adjList edgeWeights startNode endNode heuristic (S fuel)
    = Graph.Throws Graph.TypeError ∧
  GraphTraversal.bfs adjList startNode (S (S fuel))
    = Some [GraphTraversal.visit_start startNode;
            GraphTraversal.visit_node startNode; GraphTraversal.complete] ∧
  GraphTraversal.dfs adjList startNode (S (S fuel))
    = Some [GraphTraversal.visit_start startNode;
            GraphTraversal.visit_node startNode; GraphTraversal.complete].
Proof.
  intros Hget Hne. split_and!.
  - unfold Graph.dijkstra. cbn [Graph.dijkstra_loop].
    unfold PriorityQueue.deq, PriorityQueue.enq, PriorityQueue.empty.
    cbn [app PriorityQueue.best mbind option_bind PriorityQueue.remove
         Graph.d_distances Graph.d_previous Graph.d_pq Graph.d_animations].
    rewrite decide_True by done.
    cbn [Graph.d_distances Graph.d_previous Graph.d_pq Graph.d_animations].
    rewrite lookup_insert_eq. unfold Graph.num_gt, Graph.num_lt.
    rewrite Z.ltb_irrefl. rewrite bool_decide_false by done.
    by rewrite Hget.
  - unfold Graph.aStar. cbn [Graph.aStar_loop].
    unfold PriorityQueue.deq, PriorityQueue.enq, PriorityQueue.empty.
    cbn [app PriorityQueue.best mbind option_bind PriorityQueue.remove
         Graph.a_gScores Graph.a_fScores Graph.a_previous Graph.a_pq
         Graph.a_animations].
    rewrite decide_True by done.
    cbn [Graph.a_gScores Graph.a_fScores Graph.a_previous Graph.a_pq
         Graph.a_animations].
    rewrite bool_decide_false by done.
    by rewrite Hget.
  - unfold GraphTraversal.bfs. cbn [GraphTraversal.bfs_loop].
    by rewrite Hget.
  - unfold GraphTraversal.dfs. cbn [GraphTraversal.dfs_loop].
    by rewrite Hget.
Qed.

Lemma unknown_start_node_throws_in_pathfinders_witness :
  Graph.dijkstra example_graph.1 example_graph.2 "Z" "A" 1
    = Graph.Throws Graph.TypeError ∧
  Graph.aStar example_graph.1 example_graph.2 "Z" "A" no_position_heuristic 1
    = Graph.Throws Graph.TypeError ∧
  GraphTraversal.bfs example_graph.1 "Z" 2
    = Some [GraphTraversal.visit_start "Z";
            GraphTraversal.visit_node "Z"; GraphTraversal.complete] ∧
  GraphTraversal.dfs example_graph.1 "Z" 2
    = Some [GraphTraversal.visit_start "Z";
            GraphTraversal.visit_node "Z"; GraphTraversal.complete].
Proof.
  apply (unknown_start_node_throws_in_pathfinders example_graph.1
           example_graph.2 "Z" "A" no_position_heuristic 0);
    [reflexivity | discriminate].
Defined.

(** ** Dijkstra's algorithm *)

Module DijkstraFacts.
Import Graph.

(** *** The priority queue *)

Lemma best_least q b :
  PriorityQueue.best q = Some b → ∀ e, e ∈ q → b.2 ≤ e.2.
Proof.
  revert b. induction q as [|x q IH]; intros b; simpl; [done |].
  destruct (PriorityQueue.best q) as [b0|] eqn:Hb0.
  - destruct (Z.ltb_spec b0.2 x.2) as [Hlt | Hge]; intros [= <-] e He.
    + apply elem_of_cons in He as [-> | He]; [lia | by apply IH].
    + apply elem_of_cons in He as [-> | He]; [lia |].
      specialize (IH b0 eq_refl e He). lia.
  - intros [= <-] e He. apply elem_of_cons in He as [-> | He]; [lia |].
    destruct q as [|y q']; [by apply elem_of_nil in He |]. simpl in Hb0.
    destruct (PriorityQueue.best q') as [b1|]; [destruct (_ <? _) |]; done.
Qed.

Lemma elem_of_remove_ne (e x : string * Z) q :
  x ∈ q → x ≠ e → x ∈ PriorityQueue.remove e q.
Proof.
  induction q as [|y q IH]; simpl; [done |].
  intros Hx Hne. case_decide as Hy.
  - subst y. apply elem_of_cons in Hx as [? | ?]; done.
  - apply elem_of_cons in Hx as [-> | Hx]; [left | right; by apply IH].
Qed.

Lemma remove_NoDup (e : string * Z) q :
  NoDup q → NoDup (PriorityQueue.remove e q) ∧ e ∉ PriorityQueue.remove e q.
Proof.
  induction q as [|y q IH]; simpl.
  - intros _. split; [constructor | by intros ?%elem_of_nil].
  - intros [Hy Hnd]%NoDup_cons. case_decide as Heq.
    + subst y. done.
    + destruct (IH Hnd) as [Hnd' Hnot]. split.
      * apply NoDup_cons. split; [| done].
        intros Hin. apply Hy. by eapply AStarFacts.remove_subseteq.
      * intros [-> | Hin]%elem_of_cons; done.
Qed.

Lemma deq_full q e q' :
  PriorityQueue.deq q = Some (e, q') →
  e ∈ q ∧ q' = PriorityQueue.remove e q ∧ ∀ x, x ∈ q → e.2 ≤ x.2.
Proof.
  unfold PriorityQueue.deq.
  destruct (PriorityQueue.best q) as [b|] eqn:Hb; [| done].
  simpl. intros [= <- <-].
  split_and!; [by apply AStarFacts.best_elem | done | by apply best_least].
Qed.

(** *** Walks *)

Lemma visited_dijkstra_app a b :
  visited_dijkstra (a ++ b) = visited_dijkstra a ++ visited_dijkstra b.
Proof. unfold visited_dijkstra. by rewrite omap_app. Qed.

Lemma visited_dijkstra_visit a u :
  visited_dijkstra (a ++ [visit_dijkstra u]) = visited_dijkstra a ++ [u].
Proof. by rewrite visited_dijkstra_app. Qed.

Lemma visited_dijkstra_update a v d :
  visited_dijkstra (a ++ [update_distance v d]) = visited_dijkstra a.
Proof. rewrite visited_dijkstra_app. simpl. by rewrite app_nil_r. Qed.

Lemma totalWeight_cons2 edgeWeights x y (p : list string) :
  totalWeight edgeWeights (x :: y :: p)
  = (w ← edgeWeights !! edge_key x y;
     t ← totalWeight edgeWeights (y :: p); Some (w + t)).
Proof. reflexivity. Qed.

Lemma totalWeight_snoc edgeWeights (p : list string) u v d c :
  last p = Some u → totalWeight edgeWeights p = Some d →
  edgeWeights !! edge_key u v = Some c →
  totalWeight edgeWeights (p ++ [v]) = Some (d + c).
Proof.
  revert d. induction p as [|x p IH]; intros d Hlast Htw Hc; [done |].
  destruct p as [|y p].
  - simpl in *. injection Hlast as ->. injection Htw as <-.
    rewrite Hc. simpl. f_equal. lia.
  - change ((x :: y :: p) ++ [v]) with (x :: y :: (p ++ [v])).
    rewrite totalWeight_cons2 in Htw |- *.
    destruct (edgeWeights !! edge_key x y) as [w|]; [| done].
    cbn [mbind option_bind] in Htw |- *.
    destruct (totalWeight edgeWeights (y :: p)) as [t|] eqn:Ht; [| done].
    cbn [mbind option_bind] in Htw. injection Htw as <-.
    change (y :: (p ++ [v])) with ((y :: p) ++ [v]).
    rewrite (IH t) by done. cbn [mbind option_bind]. f_equal. lia.
Qed.

Lemma walk_facts adjList edgeWeights s v p d :
  walk adjList edgeWeights s v p d →
  head p = Some s ∧ last p = Some v ∧ totalWeight edgeWeights p = Some d.
Proof.
  induction 1 as [|u v c p d _ (Hh & Hl & Ht) (ns & _ & _ & Hc)].
  - done.
  - split_and!.
    + destruct p; [done | done].
    + by rewrite last_snoc.
    + by eapply totalWeight_snoc.
Qed.

(** *** The invariant *)

Lemma get_keys {V} (m : OMap.t V) k : is_Some (OMap.get m k) → k ∈ OMap.keys m.
Proof.
  intros [x Hx]. apply AStarFacts.get_elem in Hx.
  unfold OMap.keys. apply list_elem_of_fmap. by exists (k, x).
Qed.

Lemma init_distances (l : list string) (g : gmap string num) v :
  foldl (λ (d : gmap string num) node, <[node := Infinity]> d) g l !! v
  = if decide (v ∈ l) then Some Infinity else g !! v.
Proof.
  revert g. induction l as [|x l IH]; intros g; cbn [foldl].
  - destruct (decide (v ∈ [])) as [Hin | _]; [by apply elem_of_nil in Hin | done].
  - rewrite IH. destruct (decide (v ∈ l)) as [Hin | Hin].
    + destruct (decide (v ∈ x :: l)) as [_ | Hn]; [done |].
      exfalso. apply Hn. by right.
    + destruct (decide (v = x)) as [-> | Hne].
      * destruct (decide (x ∈ x :: l)) as [_ | Hn];
          [by rewrite lookup_insert_eq | exfalso; apply Hn; by left].
      * destruct (decide (v ∈ x :: l)) as [[? | ?]%elem_of_cons | _]; [done.. |].
        by rewrite lookup_insert_ne.
Qed.

(** Two ways to cut the visited nodes: the cut that holds [u] is the
    longer one. *)
Lemma prefix_longer (S1 S2 S1' S2' : list string) u :
  S1 ++ S2 = S1' ++ S2' → u ∈ S1 → u ∉ S1' → (length S1' < length S1)%nat.
Proof.
  intros Heq Hu Hnu. destruct (decide (length S1' < length S1)%nat); [done |].
  exfalso. apply Hnu.
  assert (S1 = take (length S1) S1') as Hcut.
  { rewrite <- (take_app_le S1' S2') by lia.
    rewrite <- Heq. by rewrite take_app_length. }
  rewrite Hcut in Hu. apply elem_of_take in Hu as (i & Hi & _).
  by eapply list_elem_of_lookup_2.
Qed.

Section Dijkstra.
Context (adjList : OMap.t (list string)) (edgeWeights : gmap string Z).
Context (startNode endNode : string).
Context (Hclosed : graph_closed adjList).
Context (Hstart : is_Some (OMap.get adjList startNode)).
Context (Hweights : weights_nonnegative edgeWeights).

Local Abbreviation Inv := (dijkstra_inv adjList edgeWeights startNode).
Local Abbreviation visited st := (visited_dijkstra (d_animations st)).

Lemma neighbour_is_node u neighbours v :
  OMap.get adjList u = Some neighbours → v ∈ neighbours →
  is_Some (OMap.get adjList v).
Proof.
  intros Hu Hv. unfold graph_closed in Hclosed. rewrite Forall_forall in Hclosed.
  specialize (Hclosed (u, neighbours) (AStarFacts.get_elem adjList u neighbours Hu)).
  simpl in Hclosed. rewrite Forall_forall in Hclosed. by apply Hclosed.
Qed.

Lemma inv_init :
  Inv []
    (DState (<[startNode := Fin 0]>
               (foldl (λ (d : gmap string num) node, <[node := Infinity]> d)
                  ∅ (OMap.keys adjList)))
       ∅ (PriorityQueue.enq (startNode, 0) PriorityQueue.empty)
       [start_dijkstra startNode]).
Proof.
  assert (∀ v d,
            <[startNode := Fin 0]>
              (foldl (λ (d : gmap string num) node, <[node := Infinity]> d)
                 ∅ (OMap.keys adjList)) !! v = Some (Fin d) →
            v = startNode ∧ d = 0) as Hfin.
  { intros v d. rewrite lookup_insert. case_decide as Hv.
    - intros [= <-]. done.
    - rewrite init_distances. case_decide; [done |]. by rewrite lookup_empty. }
  constructor; simpl.
  - constructor.
  - split; [by rewrite lookup_insert_eq | by rewrite lookup_empty].
  - intros v Hv. rewrite lookup_insert. case_decide; [done |].
    rewrite init_distances. rewrite decide_True by (by apply get_keys). done.
  - intros v d [-> ->]%Hfin. done.
  - intros v d [-> ->]%Hfin. done.
  - intros v u. by rewrite lookup_empty.
  - intros u Hu. by apply elem_of_nil in Hu.
  - intros u v c du Hu. by apply elem_of_nil in Hu.
  - intros v d [-> ->]%Hfin _. apply list_elem_of_singleton. done.
  - intros v d [= -> ->]%list_elem_of_singleton.
    exists 0. split; [by rewrite lookup_insert_eq |]. split; [lia |].
    by intros ?%elem_of_nil.
  - intros u du v d Hu. by apply elem_of_nil in Hu.
  - apply NoDup_singleton.
  - intros x y dx dy Hx. by apply elem_of_nil in Hx.
Qed.

(** A stale entry is dropped. *)
Lemma inv_stale st u d d' :
  Inv [] st → (u, d) ∈ d_pq st →
  d_distances st !! u = Some (Fin d') → d' < d →
  Inv [] (DState (d_distances st) (d_previous st)
            (PriorityQueue.remove (u, d) (d_pq st)) (d_animations st)).
Proof.
  intros [Hnd Hst Hkeys Hfin Hprev Hpf Hopt Hrel Hq Hent Hbel Hqnd Hlast]
    Hin Hu Hlt.
  constructor; simpl; try done.
  - intros v dv Hv Hnv. apply elem_of_remove_ne; [by apply Hq |].
    intros [= -> ->]. rewrite Hu in Hv. injection Hv as ->. lia.
  - intros v dv Hv%AStarFacts.remove_subseteq. by apply Hent.
  - intros x dx v dv Hx Hdx Hv%AStarFacts.remove_subseteq. by eapply Hbel.
  - by apply remove_NoDup.
Qed.

(** The distance of the node taken from the queue is least among the
    walks to it. *)
Lemma extracted_optimal st u d :
  Inv [] st → (u, d) ∈ d_pq st → (∀ x, x ∈ d_pq st → d ≤ x.2) →
  d_distances st !! u = Some (Fin d) →
  (u ∉ visited st) ∧
  (∀ p c, walk adjList edgeWeights startNode u p c → d ≤ c).
Proof.
  intros [Hnd Hst Hkeys Hfin Hprev Hpf Hopt Hrel Hq Hent Hbel Hqnd Hlast]
    Hin Hmin Hu.
  assert (u ∉ (visited st)) as Hnu.
  { intros Hv. destruct (Hent u d Hin) as (d' & Hd' & _ & Hlt).
    rewrite Hu in Hd'. injection Hd' as <-. specialize (Hlt Hv). lia. }
  split; [done |].
  assert (∀ x p c, walk adjList edgeWeights startNode x p c →
            0 ≤ c ∧
            (x ∈ (visited st) →
               ∃ dx, d_distances st !! x = Some (Fin dx) ∧ dx ≤ c) ∧
            (x ∉ (visited st) → d ≤ c)) as Hwalk.
  { intros x p c Hw.
    induction Hw as [|y x w p c Hw (Hc0 & IHin & IHout) Hedge].
    - split; [lia |]. split.
      + intros _. exists 0. split; [apply Hst | lia].
      + intros Hns. apply (Hmin (startNode, 0)). apply Hq; [apply Hst | done].
    - assert (0 ≤ w) as Hw0.
      { destruct Hedge as (ns & _ & _ & Hew). by apply (Hweights _ _ Hew). }
      split; [lia |].
      destruct (decide (y ∈ (visited st))) as [Hy | Hy].
      + destruct (IHin Hy) as (dy & Hdy & Hle).
        destruct (Hrel y x w dy Hy ltac:(by intros [_ ?%elem_of_nil]) Hedge Hdy)
          as (dx & Hdx & Hle').
        split.
        * intros _. exists dx. split; [done | lia].
        * intros Hnx. pose proof (Hmin (x, dx) (Hq x dx Hdx Hnx)) as Hm.
          simpl in Hm. lia.
      + specialize (IHout Hy). split.
        * intros Hx. destruct (Hopt x Hx) as (dx & Hdx & _).
          exists dx. split; [done |].
          pose proof (Hbel x dx u d Hx Hdx Hin). lia.
        * intros _. lia. }
  intros p c Hw. destruct (Hwalk u p c Hw) as (_ & _ & Hout). by apply Hout.
Qed.

(** The node taken from the queue is visited; its neighbours are still
    to be relaxed. *)
Lemma inv_visit st u d todo :
  Inv [] st → (u, d) ∈ d_pq st → (∀ x, x ∈ d_pq st → d ≤ x.2) →
  d_distances st !! u = Some (Fin d) →
  (∀ ns v, OMap.get adjList u = Some ns → v ∈ ns → v ∈ todo) →
  Inv todo (DState (d_distances st) (d_previous st)
              (PriorityQueue.remove (u, d) (d_pq st))
              (d_animations st ++ [visit_dijkstra u])).
Proof.
  intros Hinv Hin Hmin Hu Htodo.
  destruct (extracted_optimal st u d Hinv Hin Hmin Hu) as [Hnu Hbest].
  destruct Hinv
    as [Hnd Hst Hkeys Hfin Hprev Hpf Hopt Hrel Hq Hent Hbel Hqnd Hlast].
  constructor; cbn [d_distances d_previous d_pq d_animations];
    rewrite ?visited_dijkstra_visit; try done.
  - apply NoDup_app. split; [done |]. split; [| apply NoDup_singleton].
    intros x Hx ->%list_elem_of_singleton. done.
  - intros v dv Hv Hne.
    destruct (Hprev v dv Hv Hne) as (w & dw & c & S1 & S2 & H1 & H2 & H3 & H4 & H5 & H6 & H7).
    exists w, dw, c, S1, (S2 ++ [u]). split_and!; try done.
    rewrite H5. by rewrite <- app_assoc.
  - intros x [Hx | ->%list_elem_of_singleton]%elem_of_app; [by apply Hopt |].
    exists d. done.
  - intros x v c dx [Hx | ->%list_elem_of_singleton]%elem_of_app Hpend Hedge Hdx.
    + apply (Hrel x v c dx Hx); [by intros [_ ?%elem_of_nil] | done | done].
    + exfalso. apply Hpend. split; [by rewrite last_snoc |].
      destruct Hedge as (ns & Hns & Hv & _). by eapply Htodo.
  - intros v dv Hv Hnv. apply elem_of_remove_ne.
    + apply Hq; [done |]. intros Hin'. apply Hnv. apply elem_of_app. by left.
    + intros [= -> ->]. apply Hnv. apply elem_of_app. right.
      by apply list_elem_of_singleton.
  - intros v dv Hv. pose proof (AStarFacts.remove_subseteq _ _ _ Hv) as Hv'.
    destruct (Hent v dv Hv') as (d' & Hd' & Hle & Hlt).
    exists d'. split_and!; try done.
    intros [Hx | ->%list_elem_of_singleton]%elem_of_app; [by apply Hlt |].
    rewrite Hu in Hd'. injection Hd' as <-.
    destruct (decide (d = dv)) as [-> | Hne]; [| lia].
    exfalso. by apply (proj2 (remove_NoDup (u, dv) (d_pq st) Hqnd)).
  - intros x dx v dv [Hx | ->%list_elem_of_singleton]%elem_of_app Hdx
      Hv%AStarFacts.remove_subseteq.
    + by eapply Hbel.
    + rewrite Hu in Hdx. injection Hdx as <-. apply (Hmin (v, dv) Hv).
  - by apply remove_NoDup.
  - intros x y dx dy Hx. rewrite last_snoc. intros [= <-] Hdx Hdy.
    rewrite Hu in Hdy. injection Hdy as <-.
    apply elem_of_app in Hx as [Hx | ->%list_elem_of_singleton].
    + by apply (Hbel x dx u d Hx Hdx Hin).
    + rewrite Hu in Hdx. injection Hdx as <-. lia.
Qed.

(** Relaxing one edge of the node visited last. *)
Lemma relax_step st u du v rest neighbours :
  Inv (v :: rest) st →
  last (visited st) = Some u →
  d_distances st !! u = Some (Fin du) →
  OMap.get adjList u = Some neighbours → v ∈ neighbours →
  let st' := dijkstra_relax edgeWeights u st v in
  Inv rest st' ∧
  visited st' = visited st ∧
  d_distances st' !! u = Some (Fin du) ∧
  ((d_distances st' = d_distances st ∧ d_pq st' = d_pq st) ∨
   lexlt (mu (d_distances st')) (mu (d_distances st))).
Proof.
  intros Hinv Hlastu Hu Hns Hv.
  pose proof Hinv
    as [Hnd Hst Hkeys Hfin Hprev Hpf Hopt Hrel Hq Hent Hbel Hqnd Hlast].
  assert (u ∈ visited st) as Huv.
  { destruct (visited st) as [|x l] using rev_ind; [done |].
    rewrite last_snoc in Hlastu. injection Hlastu as ->.
    apply elem_of_app. right. by apply list_elem_of_singleton. }
  destruct (inv_keys _ _ _ _ _ Hinv v (neighbour_is_node u neighbours v Hns Hv))
    as [xv Hxv].
  unfold dijkstra_relax. cbv zeta. rewrite Hu.
  destruct (edgeWeights !! edge_key u v) as [c|] eqn:Hc; cbn [num_add].
  2:{ (* no weight: nothing is compared *)
      cbn [num_lt]. split_and!; [| done | done | by left].
      constructor; try done.
      intros x y c dx Hx Hpend [ns [Hxn [Hy Hew]]] Hdx.
      apply (Hrel x y c dx Hx); [| by exists ns | done].
      intros [Hl [-> | Hy']%elem_of_cons]; [| by apply Hpend].
      rewrite Hlastu in Hl. injection Hl as <-. congruence. }
  assert (0 ≤ c) as Hc0 by (by apply (Hweights _ _ Hc)).
  assert (0 ≤ du) as Hdu0 by (by apply (Hfin u du Hu)).
  destruct (num_lt (Some (Fin (du + c))) (d_distances st !! v)) eqn:Hlt.
  - (* the distance of [v] improves *)
    assert (v ∉ visited st) as Hnv.
    { intros Hvv. destruct (Hopt v Hvv) as (dv & Hdv & _).
      rewrite Hdv in Hlt. simpl in Hlt. apply Z.ltb_lt in Hlt.
      pose proof (Hlast v u dv du Hvv Hlastu Hdv Hu). lia. }
    assert (v ≠ u) as Hvu by (intros ->; done).
    assert (v ≠ startNode) as Hvs.
    { intros ->. rewrite (proj1 Hst) in Hlt. simpl in Hlt.
      apply Z.ltb_lt in Hlt. lia. }
    assert (∀ dv, d_distances st !! v = Some (Fin dv) → du + c < dv) as Hold.
    { intros dv Hdv. rewrite Hdv in Hlt. simpl in Hlt. by apply Z.ltb_lt. }
    split_and!.
    + constructor; cbn [d_distances d_previous d_pq d_animations];
        rewrite ?visited_dijkstra_update.
      * done.
      * split; [by rewrite lookup_insert_ne; [apply Hst |] |
                by rewrite lookup_insert_ne; [apply Hst |]].
      * intros x Hx. rewrite lookup_insert. case_decide; [done | by apply Hkeys].
      * intros x dx. rewrite lookup_insert. case_decide as Hxv'.
        -- intros [= <-]. subst x. split; [lia |].
           by eapply neighbour_is_node.
        -- apply Hfin.
      * intros x dx. rewrite lookup_insert. case_decide as Hxv'.
        -- intros [= <-] _. subst x.
           exists u, du, c, (visited st), []. split_and!.
           ++ by rewrite lookup_insert_eq.
           ++ by rewrite lookup_insert_ne.
           ++ by exists neighbours.
           ++ done.
           ++ by rewrite app_nil_r.
           ++ done.
           ++ done.
        -- intros Hdx Hxs.
           destruct (Hprev x dx Hdx Hxs)
             as (w & dw & cw & S1 & S2 & H1 & H2 & H3 & H4 & H5 & H6 & H7).
           exists w, dw, cw, S1, S2. split_and!; try done.
           ++ by rewrite lookup_insert_ne.
           ++ rewrite lookup_insert_ne; [done |]. intros <-.
              apply Hnv. rewrite H5. apply elem_of_app. by left.
      * intros x w. rewrite lookup_insert. case_decide as Hxv'.
        -- intros _. subst x. exists (du + c). by rewrite lookup_insert_eq.
        -- intros Hx. destruct (Hpf x w Hx) as [dx Hdx]. exists dx.
           by rewrite lookup_insert_ne.
      * intros x Hx. destruct (Hopt x Hx) as (dx & Hdx & Hbest).
        exists dx. split; [| done].
        rewrite lookup_insert_ne; [done |]. by intros <-.
      * intros x y cy dx Hx Hpend Hedge.
        rewrite (lookup_insert_ne (d_distances st) v x)
          by (by intros <-).
        intros Hdx.
        destruct (decide (x = u ∧ y = v)) as [[-> ->] | Hne].
        -- exists (du + c). rewrite lookup_insert_eq. split; [done |].
           destruct Hedge as (ns & _ & _ & Hew).
           rewrite Hu in Hdx. injection Hdx as <-.
           rewrite Hc in Hew. injection Hew as <-. lia.
        -- destruct (Hrel x y cy dx Hx) as (dy & Hdy & Hle); [| done | done |].
           { intros [Hl [-> | Hy']%elem_of_cons]; [| by apply Hpend].
             rewrite Hlastu in Hl. injection Hl as <-. by apply Hne. }
           destruct (decide (y = v)) as [-> | Hyv].
           ++ exists (du + c). rewrite lookup_insert_eq. split; [done |].
              specialize (Hold dy Hdy). lia.
           ++ exists dy. by rewrite lookup_insert_ne.
      * intros x dx. rewrite lookup_insert. case_decide as Hxv'.
        -- intros [= <-] _. subst x. apply elem_of_app. right.
           by apply list_elem_of_singleton.
        -- intros Hdx Hnx. apply elem_of_app. left. by apply Hq.
      * intros x dx [Hx | [= -> ->]%list_elem_of_singleton]%elem_of_app.
        -- destruct (Hent x dx Hx) as (d' & Hd' & Hle & Hlt').
           destruct (decide (x = v)) as [-> | Hxv'].
           ++ exists (du + c). rewrite lookup_insert_eq. split; [done |].
              specialize (Hold d' Hd'). split; [lia | done].
           ++ exists d'. by rewrite lookup_insert_ne.
        -- exists (du + c). rewrite lookup_insert_eq. split; [done |].
           split; [lia | done].
      * intros x dx y dy Hx.
        rewrite (lookup_insert_ne (d_distances st) v x) by (by intros <-).
        intros Hdx [Hy | [= -> ->]%list_elem_of_singleton]%elem_of_app.
        -- by eapply Hbel.
        -- pose proof (Hlast x u dx du Hx Hlastu Hdx Hu). lia.
      * apply NoDup_app. split; [done |]. split; [| apply NoDup_singleton].
        intros x Hx ->%list_elem_of_singleton.
        destruct (Hent v (du + c) Hx) as (d' & Hd' & Hle & _).
        specialize (Hold d' Hd'). lia.
      * intros x y dx dy Hx Hly.
        rewrite (lookup_insert_ne (d_distances st) v x) by (by intros <-).
        rewrite Hlastu in Hly. injection Hly as <-.
        rewrite (lookup_insert_ne (d_distances st) v u) by done.
        by apply Hlast.
    + cbn [d_animations]. by rewrite visited_dijkstra_update.
    + cbn [d_distances]. by rewrite lookup_insert_ne.
    + right. cbn [d_distances]. apply AStarFacts.mu_improve; [lia | | done].
      intros z Hz. by apply (Hfin v z Hz).
  - (* no improvement *)
    split_and!; [| done | done | by left].
    constructor; try done.
    intros x y cy dx Hx Hpend Hedge Hdx.
    destruct (decide (x = u ∧ y = v)) as [[-> ->] | Hne].
    + destruct Hedge as (ns & _ & _ & Hew).
      rewrite Hc in Hew. injection Hew as <-.
      rewrite Hu in Hdx. injection Hdx as <-.
      rewrite Hxv in Hlt. destruct xv as [dv|]; [| done].
      simpl in Hlt. apply Z.ltb_ge in Hlt.
      exists dv. split; [done | lia].
    + apply (Hrel x y cy dx Hx); [| done | done].
      intros [Hl [-> | Hy']%elem_of_cons]; [| by apply Hpend].
      rewrite Hlastu in Hl. injection Hl as <-. by apply Hne.
Qed.

Lemma relax_fold u du neighbours : ∀ todo st,
  Inv todo st →
  last (visited st) = Some u →
  d_distances st !! u = Some (Fin du) →
  OMap.get adjList u = Some neighbours →
  (∀ v, v ∈ todo → v ∈ neighbours) →
  let st' := foldl (dijkstra_relax edgeWeights u) st todo in
  Inv [] st' ∧
  visited st' = visited st ∧
  ((d_distances st' = d_distances st ∧ d_pq st' = d_pq st) ∨
   lexlt (mu (d_distances st')) (mu (d_distances st))).
Proof.
  induction todo as [|v todo IH]; intros st Hinv Hlast Hu Hns Hsub;
    cbn [foldl].
  - split_and!; [done | done | by left].
  - destruct (relax_step st u du v todo neighbours Hinv Hlast Hu Hns)
      as (Hinv1 & Hvis1 & Hu1 & Hm1); [apply Hsub; by left |].
    destruct (IH (dijkstra_relax edgeWeights u st v)) as (Hinv2 & Hvis2 & Hm2);
      [done | by rewrite Hvis1 | done | done | intros x Hx; apply Hsub; by right |].
    cbn zeta in *. split_and!; [done | by rewrite Hvis2 |].
    destruct Hm1 as [[Hd1 Hq1] | Hm1], Hm2 as [[Hd2 Hq2] | Hm2].
    + left. split; congruence.
    + right. by rewrite <- Hd1.
    + right. by rewrite Hd2.
    + right. by eapply AStarFacts.lexlt_trans.
Qed.

(** The loop returns: with the end node visited last, or with the queue
    empty. *)
Lemma dijkstra_loop_returns :
  ∀ (a b c : nat) st,
    Inv [] st →
    (mu (d_distances st)).1 = a → (mu (d_distances st)).2 = b →
    length (d_pq st) = c →
    ∃ fuel st' todo,
      dijkstra_loop adjList edgeWeights endNode fuel st = Return st' ∧
      Inv todo st' ∧
      (last (visited st') = Some endNode ∨ (d_pq st' = [] ∧ todo = [])).
Proof.
  induction a as [a IHa] using lt_wf_ind.
  induction b as [b IHb] using lt_wf_ind.
  induction c as [c IHc] using lt_wf_ind.
  intros st Hinv Ha Hb Hc.
  destruct (PriorityQueue.deq (d_pq st)) as [[[u d] pq]|] eqn:Hdeq.
  2:{ exists 1%nat, st, []. simpl. rewrite Hdeq. split_and!; [done | done |].
      right. split; [| done]. unfold PriorityQueue.deq in Hdeq.
      destruct (d_pq st) as [|e q]; [done |]. simpl in Hdeq.
      destruct (PriorityQueue.best q) as [b0|]; [destruct (_ <? _) |]; done. }
  destruct (deq_full _ _ _ Hdeq) as (Hin & -> & Hmin).
  pose proof (AStarFacts.remove_length _ _ Hin) as Hlen.
  destruct (inv_entries _ _ _ _ _ Hinv u d Hin) as (d' & Hd' & Hle & Hvis).
  destruct (decide (d' < d)) as [Hstale | Hfresh].
  - (* a stale entry *)
    pose proof (inv_stale st u d d' Hinv Hin Hd' Hstale) as Hinv1.
    destruct (IHc (length (PriorityQueue.remove (u, d) (d_pq st))) ltac:(lia)
                _ Hinv1 Ha Hb eq_refl) as (fuel & st' & todo & Hrun & Hres).
    exists (S fuel), st', todo. split; [| done].
    simpl. rewrite Hdeq. cbn [d_distances d_previous d_pq d_animations].
    rewrite Hd'. unfold num_gt. simpl.
    destruct (Z.ltb_spec d' d); [done | lia].
  - assert (d' = d) as -> by lia.
    set (todo := default [] (OMap.get adjList u)).
    pose proof (inv_visit st u d todo Hinv Hin Hmin Hd') as Hinv0.
    set (st0 := DState (d_distances st) (d_previous st)
                  (PriorityQueue.remove (u, d) (d_pq st))
                  (d_animations st ++ [visit_dijkstra u])) in *.
    assert (Inv todo st0) as Hinv0'.
    { apply Hinv0. intros ns v Hns Hv. unfold todo. by rewrite Hns. }
    assert (last (visited st0) = Some u) as Hlast0.
    { unfold st0. cbn [d_animations]. rewrite visited_dijkstra_visit.
      by rewrite last_snoc. }
    destruct (decide (u = endNode)) as [-> | Hne].
    + exists 1%nat, st0, todo. split; [| by split; [| left]].
      simpl. rewrite Hdeq. cbn [d_distances d_previous d_pq d_animations].
      rewrite Hd'. unfold num_gt. simpl. rewrite Z.ltb_irrefl.
      by rewrite bool_decide_true.
    + destruct (proj2 (inv_finite _ _ _ _ _ Hinv u d Hd')) as [ns Hns].
      assert (todo = ns) as Htodo by (unfold todo; by rewrite Hns).
      rewrite Htodo in Hinv0'.
      destruct (relax_fold u d ns ns st0 Hinv0' Hlast0 Hd' Hns ltac:(done))
        as (Hinv1 & Hvis1 & Hm).
      set (st1 := foldl (dijkstra_relax edgeWeights u) st0 ns) in *.
      assert (∃ fuel st' todo',
                dijkstra_loop adjList edgeWeights endNode fuel st1 = Return st' ∧
                Inv todo' st' ∧
                (last (visited st') = Some endNode ∨
                 (d_pq st' = [] ∧ todo' = [])))
        as (fuel & st' & todo' & Hrun & Hres).
      { destruct Hm as [[Hd1 Hq1] | [Hlt | [Heq Hlt]]].
        - apply (IHc (length (PriorityQueue.remove (u, d) (d_pq st))));
            [lia | done | | |].
          + by rewrite Hd1.
          + by rewrite Hd1.
          + by rewrite Hq1.
        - simpl in Hlt. eapply (IHa _ ltac:(rewrite <- Ha; exact Hlt)); done.
        - simpl in Heq, Hlt.
          eapply (IHb _ ltac:(rewrite <- Hb; exact Hlt)); [done | | done | done].
          simpl. rewrite Heq. exact Ha. }
      exists (S fuel), st', todo'. split; [| done].
      simpl. rewrite Hdeq. cbn [d_distances d_previous d_pq d_animations].
      rewrite Hd'. unfold num_gt. simpl. rewrite Z.ltb_irrefl.
      rewrite bool_decide_false by done. rewrite Hns. exact Hrun.
Qed.

(** With the queue empty, every node that a walk reaches is visited. *)
Lemma walks_visited st x p c :
  Inv [] st → d_pq st = [] →
  walk adjList edgeWeights startNode x p c → x ∈ visited st.
Proof.
  intros Hinv Hq Hw. induction Hw as [|y x w p c Hw IH Hedge].
  - destruct (decide (startNode ∈ visited st)) as [| Hn]; [done |].
    pose proof (inv_queued _ _ _ _ _ Hinv startNode 0
                  (proj1 (inv_start _ _ _ _ _ Hinv)) Hn) as Hin.
    rewrite Hq in Hin. by apply elem_of_nil in Hin.
  - destruct (inv_optimal _ _ _ _ _ Hinv y IH) as (dy & Hdy & _).
    destruct (inv_relaxed _ _ _ _ _ Hinv y x w dy IH
                ltac:(by intros [_ ?%elem_of_nil]) Hedge Hdy) as (dx & Hdx & _).
    destruct (decide (x ∈ visited st)) as [| Hn]; [done |].
    pose proof (inv_queued _ _ _ _ _ Hinv x dx Hdx Hn) as Hin.
    rewrite Hq in Hin. by apply elem_of_nil in Hin.
Qed.

Context (Hname : OMap.get adjList "" = None).

(** Following the predecessors from a node with a finite distance gives
    a walk of that weight from the start node. *)
Lemma reconstruct_walk todo st (n : nat) : ∀ v d,
  Inv todo st →
  d_distances st !! v = Some (Fin d) →
  (v = startNode ∨
   ∃ S1 S2 u, visited st = S1 ++ S2 ∧ d_previous st !! v = Some u ∧
              u ∈ S1 ∧ (v ∉ S1) ∧ (length S1 ≤ n)%nat) →
  ∃ p, walk adjList edgeWeights startNode v p d ∧
       ∀ fuel acc, (n + 2 ≤ fuel)%nat →
         reconstruct fuel (d_previous st) (Some v) acc = Some (p ++ acc).
Proof.
  induction n as [|n IH]; intros v d Hinv Hv Hcase.
  - assert (v = startNode) as ->.
    { destruct Hcase as [-> | (S1 & S2 & u & _ & _ & Hu & _ & Hlen)]; [done |].
      destruct S1; [by apply elem_of_nil in Hu | simpl in Hlen; lia]. }
    rewrite (proj1 (inv_start _ _ _ _ _ Hinv)) in Hv. injection Hv as <-.
    exists [startNode]. split; [constructor |].
    intros [|[|fuel]] acc Hfuel; [lia | lia |]. simpl.
    rewrite bool_decide_false by (intros ->; rewrite Hname in Hstart;
                                  by destruct Hstart).
    by rewrite (proj2 (inv_start _ _ _ _ _ Hinv)).
  - destruct (decide (v = startNode)) as [-> | Hvs].
    { rewrite (proj1 (inv_start _ _ _ _ _ Hinv)) in Hv. injection Hv as <-.
      exists [startNode]. split; [constructor |].
      intros [|[|fuel]] acc Hfuel; [lia | lia |]. simpl.
      rewrite bool_decide_false by (intros ->; rewrite Hname in Hstart;
                                    by destruct Hstart).
      by rewrite (proj2 (inv_start _ _ _ _ _ Hinv)). }
    destruct Hcase as [-> | (S1 & S2 & u & HS & Hp & Hu & Hnv & Hlen)]; [done |].
    destruct (inv_previous _ _ _ _ _ Hinv v d Hv Hvs)
      as (u' & du & c & S1' & S2' & Hp' & Hdu & Hedge & -> & _ & _ & _).
    rewrite Hp in Hp'. injection Hp' as <-.
    destruct (IH u du Hinv Hdu) as (p & Hwalk & Hrec).
    { destruct (decide (u = startNode)) as [| Hus]; [by left | right].
      destruct (inv_previous _ _ _ _ _ Hinv u du Hdu Hus)
        as (w & dw & cw & T1 & T2 & Hpw & _ & _ & _ & HT & Hw & Hnu).
      exists T1, T2, w. split_and!; try done.
      rewrite HS in HT.
      pose proof (prefix_longer S1 S2 T1 T2 u HT Hu Hnu). lia. }
    exists (p ++ [v]). split; [by econstructor |].
    intros [|fuel] acc Hfuel; [lia |]. simpl.
    assert (v ≠ "") as Hne.
    { intros ->. destruct (proj2 (inv_finite _ _ _ _ _ Hinv "" _ Hv)) as [? H].
      by rewrite Hname in H. }
    rewrite bool_decide_false by done. rewrite Hp.
    rewrite Hrec by lia. by rewrite <- app_assoc.
Qed.

Lemma finite_walk todo st v d :
  Inv todo st → d_distances st !! v = Some (Fin d) →
  ∃ p, walk adjList edgeWeights startNode v p d ∧
       ∀ fuel, (length (visited st) + 2 ≤ fuel)%nat →
         reconstruct fuel (d_previous st) (Some v) [] = Some p.
Proof.
  intros Hinv Hv.
  destruct (reconstruct_walk todo st (length (visited st)) v d Hinv Hv)
    as (p & Hw & Hrec).
  - destruct (decide (v = startNode)) as [| Hvs]; [by left | right].
    destruct (inv_previous _ _ _ _ _ Hinv v d Hv Hvs)
      as (u & du & c & S1 & S2 & Hp & _ & _ & _ & HS & Hu & Hnv).
    exists S1, S2, u. split_and!; try done.
    rewrite HS, length_app. lia.
  - exists p. split; [done |]. intros fuel Hfuel.
    rewrite (Hrec fuel [] Hfuel). by rewrite app_nil_r.
Qed.

(** A visited node keeps the weight of a shortest walk to it. *)
Lemma visited_shortest todo st x :
  Inv todo st → x ∈ visited st →
  ∃ d, d_distances st !! x = Some (Fin d) ∧
       shortest adjList edgeWeights startNode x d.
Proof.
  intros Hinv Hx.
  destruct (inv_optimal _ _ _ _ _ Hinv x Hx) as (d & Hd & Hbest).
  destruct (finite_walk todo st x d Hinv Hd) as (p & Hwalk & _).
  exists d. split; [done |]. split; [by exists p | done].
Qed.

Lemma shortest_unique x a b :
  shortest adjList edgeWeights startNode x a →
  shortest adjList edgeWeights startNode x b → a = b.
Proof.
  intros [[pa Ha] Hamin] [[pb Hb] Hbmin].
  specialize (Hamin _ _ Hb). specialize (Hbmin _ _ Ha). lia.
Qed.

Lemma sorted_snoc_Z (l : list Z) c :
  StronglySorted Z.le l → (∀ b, b ∈ l → b ≤ c) →
  StronglySorted Z.le (l ++ [c]).
Proof.
  induction 1 as [|x l Hs IH Hx]; intros Hle; simpl.
  - repeat constructor.
  - constructor.
    + apply IH. intros b Hb. apply Hle. by right.
    + rewrite Forall_app. split; [done |].
      constructor; [| constructor]. apply Hle. by left.
Qed.

(** The node visited next is no nearer than the nodes visited before
    it. *)
Lemma by_shortest_visit todo st u :
  Inv todo st → last (visited st) = Some u →
  by_shortest adjList edgeWeights startNode (removelast (visited st)) →
  by_shortest adjList edgeWeights startNode (visited st).
Proof.
  intros Hinv Hlast (ds & Hds & Hsorted).
  assert (visited st = removelast (visited st) ++ [u]) as Heq.
  { revert Hlast. generalize (visited st). intros l.
    destruct l as [|u' l _] using rev_ind; [done |].
    rewrite last_snoc. intros [= ->]. by rewrite removelast_last. }
  destruct (visited_shortest todo st u Hinv) as (d & Hd & Hsh).
  { rewrite Heq. apply elem_of_app. right. by left. }
  rewrite Heq. exists (ds ++ [d]). split.
  - apply Forall2_app; [done |]. constructor; [done | constructor].
  - apply sorted_snoc_Z; [done |]. intros b Hb.
    apply list_elem_of_lookup in Hb as [i Hi].
    destruct (Forall2_lookup_r _ _ _ _ _ Hds Hi) as (x & Hx & Hxb).
    assert (x ∈ visited st) as Hxv.
    { rewrite Heq. apply elem_of_app. left. by eapply list_elem_of_lookup_2. }
    destruct (visited_shortest todo st x Hinv Hxv) as (dx & Hdx & Hxs).
    rewrite (shortest_unique x b dx Hxb Hxs).
    by apply (inv_last _ _ _ _ _ Hinv x u dx d Hxv).
Qed.

(** The loop visits the nodes in the order of their shortest walks. *)
Lemma dijkstra_loop_sorted fuel : ∀ st st',
  dijkstra_loop adjList edgeWeights endNode fuel st = Return st' →
  Inv [] st →
  by_shortest adjList edgeWeights startNode (visited st) →
  by_shortest adjList edgeWeights startNode (visited st').
Proof.
  induction fuel as [|fuel IH]; intros st st' Hrun Hinv Hsorted; [done |].
  simpl in Hrun.
  destruct (PriorityQueue.deq (d_pq st)) as [[[u d] pq]|] eqn:Hdeq.
  2: { by injection Hrun as <-. }
  destruct (deq_full _ _ _ Hdeq) as (Hin & -> & Hmin).
  destruct (inv_entries _ _ _ _ _ Hinv u d Hin) as (d' & Hd' & Hle & Hvis).
  cbn [d_distances d_previous d_pq d_animations] in Hrun.
  rewrite Hd' in Hrun. unfold num_gt in Hrun. simpl in Hrun.
  destruct (Z.ltb_spec d' d) as [Hstale | Hfresh].
  - apply (IH _ st' Hrun); [| done].
    by apply (inv_stale st u d d').
  - assert (d' = d) as -> by lia.
    set (todo := default [] (OMap.get adjList u)).
    set (st0 := DState (d_distances st) (d_previous st)
                  (PriorityQueue.remove (u, d) (d_pq st))
                  (d_animations st ++ [visit_dijkstra u])) in *.
    assert (Inv todo st0) as Hinv0.
    { apply (inv_visit st u d todo Hinv Hin Hmin Hd').
      intros ns v Hns Hv. unfold todo. by rewrite Hns. }
    assert (visited st0 = visited st ++ [u]) as Hvis0
      by (unfold st0; cbn [d_animations]; apply visited_dijkstra_visit).
    assert (by_shortest adjList edgeWeights startNode (visited st0))
      as Hsorted0.
    { apply (by_shortest_visit todo st0 u Hinv0).
      - by rewrite Hvis0, last_snoc.
      - by rewrite Hvis0, removelast_last. }
    case_bool_decide as Hend.
    { by injection Hrun as <-. }
    destruct (OMap.get adjList u) as [ns|] eqn:Hns; [| done].
    destruct (relax_fold u d ns ns st0 Hinv0
                ltac:(by rewrite Hvis0, last_snoc) Hd' Hns ltac:(done))
      as (Hinv1 & Hvis1 & _).
    apply (IH _ st' Hrun Hinv1). by rewrite Hvis1.
Qed.

Lemma shortest_recorded todo st ds :
  Inv todo st →
  Forall2 (shortest adjList edgeWeights startNode) (visited st) ds →
  Forall2 (λ x d, d_distances st !! x = Some (Fin d)) (visited st) ds.
Proof.
  intros Hinv Hds. apply Forall2_same_length_lookup.
  split; [by eapply Forall2_length |].
  intros i x d Hx Hd.
  destruct (visited_shortest todo st x Hinv) as (dx & Hdx & Hxs);
    [by eapply list_elem_of_lookup_2 |].
  rewrite Hdx. do 2 f_equal. apply (shortest_unique x); [done |].
  by destruct (Forall2_lookup_l _ _ _ _ _ Hds Hx) as (d' & Hd' & Hs);
    rewrite Hd in Hd'; injection Hd' as <-.
Qed.

(** The run of [dijkstra]: it returns, and what its final state
    holds. *)
Lemma dijkstra_run :
  ∃ fuel st todo path,
    (∀ fuel', (fuel ≤ fuel')%nat →
       dijkstra adjList edgeWeights startNode endNode fuel'
       = Return (Result ((d_animations st ++ [final_path path]) ++ [complete])
                   path (d_distances st))) ∧
    Inv todo st ∧
    (last (visited st) = Some endNode ∨ (d_pq st = [] ∧ todo = [])) ∧
    (∀ fuel, (length (visited st) + 2 ≤ fuel)%nat →
       reconstruct fuel (d_previous st) (Some endNode) [] = Some path) ∧
    by_shortest adjList edgeWeights startNode (visited st).
Proof.
  destruct (dijkstra_loop_returns _ _ _ _ inv_init eq_refl eq_refl eq_refl)
    as (fuel0 & st & todo & Hrun & Hinv & Hend).
  assert (by_shortest adjList edgeWeights startNode (visited st)) as Hsorted.
  { apply (dijkstra_loop_sorted fuel0 _ st Hrun inv_init).
    exists []. split; constructor. }
  assert (∃ path, ∀ fuel, (length (visited st) + 2 ≤ fuel)%nat →
            reconstruct fuel (d_previous st) (Some endNode) [] = Some path)
    as [path Hpath].
  { destruct (d_distances st !! endNode) as [[d|]|] eqn:Hd.
    - destruct (finite_walk todo st endNode d Hinv Hd) as (p & _ & Hrec).
      by exists p.
    - assert (d_previous st !! endNode = None) as Hp.
      { destruct (d_previous st !! endNode) as [u|] eqn:Hp; [| done].
        destruct (inv_previous_finite _ _ _ _ _ Hinv endNode u Hp) as [d Hd'].
        congruence. }
      exists (if bool_decide (endNode = "") then [] else [endNode]).
      intros [|[|fuel]] Hfuel; [lia | lia |]. simpl.
      case_bool_decide; [done |]. by rewrite Hp.
    - assert (d_previous st !! endNode = None) as Hp.
      { destruct (d_previous st !! endNode) as [u|] eqn:Hp; [| done].
        destruct (inv_previous_finite _ _ _ _ _ Hinv endNode u Hp) as [d Hd'].
        congruence. }
      exists (if bool_decide (endNode = "") then [] else [endNode]).
      intros [|[|fuel]] Hfuel; [lia | lia |]. simpl.
      case_bool_decide; [done |]. by rewrite Hp. }
  exists (fuel0 `max` (length (visited st) + 2))%nat, st, todo, path.
  split_and!; try done.
  intros fuel' Hle. unfold dijkstra.
  rewrite (GraphFacts.dijkstra_loop_mono adjList edgeWeights endNode
             fuel0 fuel' _ st ltac:(lia) Hrun).
  by rewrite (Hpath fuel' ltac:(lia)).
Qed.

End Dijkstra.

(** The run to an end node that a walk reaches: the trace, the path and
    the distance. *)
Lemma dijkstra_shortest adjList edgeWeights startNode endNode :
  graph_closed adjList →
  is_Some (OMap.get adjList startNode) →
  weights_nonnegative edgeWeights →
  OMap.get adjList "" = None →
  (∃ p0 d0, walk adjList edgeWeights startNode endNode p0 d0) →
  ∃ fuel t ds p d,
    (∀ fuel', (fuel ≤ fuel')%nat →
       dijkstra adjList edgeWeights startNode endNode fuel'
       = Return (Result ((t ++ [final_path p]) ++ [complete]) p ds)) ∧
    walk adjList edgeWeights startNode endNode p d ∧
    ds !! endNode = Some (Fin d) ∧
    (∀ p' d', walk adjList edgeWeights startNode endNode p' d' → d ≤ d').
Proof.
  intros Hclosed Hstart Hw Hname (p0 & d0 & Hwalk0).
  destruct (dijkstra_run adjList edgeWeights startNode endNode
              Hclosed Hstart Hw Hname)
    as (fuel & st & todo & path & Hrun & Hinv & Hend & Hpath & _).
  assert (endNode ∈ visited_dijkstra (d_animations st)) as Hvis.
  { destruct Hend as [Hlast | [Hq ->]].
    - destruct (visited_dijkstra (d_animations st)) as [|x l] using rev_ind;
        [done |].
      rewrite last_snoc in Hlast. injection Hlast as ->.
      apply elem_of_app. right. by apply list_elem_of_singleton.
    - by eapply walks_visited. }
  destruct (inv_optimal _ _ _ _ _ Hinv endNode Hvis) as (d & Hd & Hbest).
  destruct (finite_walk adjList edgeWeights startNode Hstart Hname
              todo st endNode d Hinv Hd) as (p & Hwalk & Hrec).
  assert (path = p) as ->.
  { specialize (Hpath _ (Nat.le_refl _)). specialize (Hrec _ (Nat.le_refl _)).
    congruence. }
  by exists fuel, (d_animations st), (d_distances st), p, d.
Qed.

End DijkstraFacts.


(** X18. Under the same conditions on the graph, [dijkstra] returns for
    every end node, and it visits no node twice: the stale entries of
    the queue, those above the distance already recorded for their
    node, are skipped.  When no walk reaches the end node, the path
    returned is the end node alone. *)
Theorem dijkstra_visits_each_node_once
    (adjList : Graph.OMap.t (list string)) (edgeWeights : gmap string Z)
    (startNode endNode : string) :
  graph_closed adjList →
  is_Some (Graph.OMap.get adjList startNode) →
  weights_nonnegative edgeWeights →
  Graph.OMap.get adjList "" = None →
  endNode ≠ "" →
  ∃ fuel r,
    (∀ fuel', (fuel ≤ fuel')%nat →
       Graph.dijkstra adjList edgeWeights startNode endNode fuel'
         = Graph.Return r) ∧
    NoDup (visited_dijkstra (Graph.animations r)) ∧
    ((∀ p d, ¬ walk adjList edgeWeights startNode endNode p d) →
     Graph.path r = [endNode]).
Proof.
  intros Hclosed Hstart Hw Hname Hend0.
  destruct (DijkstraFacts.dijkstra_run adjList edgeWeights startNode endNode
              Hclosed Hstart Hw Hname)
    as (fuel & st & todo & path & Hrun & Hinv & Hend & Hpath & _).
  eexists fuel, _. split; [exact Hrun |].
  cbn [Graph.path Graph.animations]. split.
  - rewrite !DijkstraFacts.visited_dijkstra_app. simpl.
    rewrite !app_nil_r. apply (inv_nodup _ _ _ _ _ Hinv).
  - intros Hno.
    assert (Graph.d_previous st !! endNode = None) as Hp.
    { destruct (Graph.d_previous st !! endNode) as [u|] eqn:Hp; [| done].
      destruct (inv_previous_finite _ _ _ _ _ Hinv endNode u Hp) as [d Hd].
      destruct (DijkstraFacts.finite_walk adjList edgeWeights startNode Hstart
                  Hname todo st endNode d Hinv Hd) as (p & Hwalk & _).
      by destruct (Hno p d). }
    specialize (Hpath (S (S (length (visited_dijkstra (Graph.d_animations st)))))
                  ltac:(lia)).
    simpl in Hpath. rewrite bool_decide_false in Hpath by done.
    rewrite Hp in Hpath. by injection Hpath as <-.
Qed.

Lemma example_graph_conditions :
  graph_closed example_graph.1 ∧
  weights_nonnegative example_graph.2 ∧
  graph_closed split_graph.1 ∧
  weights_nonnegative split_graph.2.
Proof.
  split_and!.
  - unfold graph_closed. vm_compute. repeat constructor; by eexists.
  - unfold weights_nonnegative, example_graph. simpl.
    repeat (apply map_Forall_insert_2; [lia |]). apply map_Forall_empty.
  - unfold graph_closed. vm_compute. repeat constructor; by eexists.
  - unfold weights_nonnegative, split_graph. simpl.
    repeat (apply map_Forall_insert_2; [lia |]). apply map_Forall_empty.
Qed.


Lemma dijkstra_visits_each_node_once_witness :
  ∃ fuel r,
    (∀ fuel', (fuel ≤ fuel')%nat →
       Graph.dijkstra split_graph.1 split_graph.2 "A" "D" fuel'
         = Graph.Return r) ∧
    NoDup (visited_dijkstra (Graph.animations r)) ∧
    ((∀ p d, ¬ walk split_graph.1 split_graph.2 "A" "D" p d) →
     Graph.path r = ["D"]).
Proof.
  apply (dijkstra_visits_each_node_once split_graph.1 split_graph.2 "A" "D").
  - apply example_graph_conditions.
  - by eexists.
  - apply example_graph_conditions.
  - reflexivity.
  - discriminate.
Defined.



(** ** A* towards an end node in reach *)

Module AStarReach.
Import Graph.

Lemma init_scores (l : list string) (g f : gmap string num) v :
  (foldl (λ '(g, f) node,
            (<[node := Infinity]> g, <[node := Infinity]> f)) (g, f) l).1 !! v
  = if decide (v ∈ l) then Some Infinity else g !! v.
Proof.
  revert g f. induction l as [|x l IH]; intros g f; cbn [foldl].
  - destruct (decide (v ∈ [])) as [Hin | _]; [by apply elem_of_nil in Hin | done].
  - rewrite IH. destruct (decide (v ∈ l)) as [Hin | Hin].
    + destruct (decide (v ∈ x :: l)) as [_ | Hn]; [done |].
      exfalso. apply Hn. by right.
    + destruct (decide (v = x)) as [-> | Hne].
      * destruct (decide (x ∈ x :: l)) as [_ | Hn];
          [by rewrite lookup_insert_eq | exfalso; apply Hn; by left].
      * destruct (decide (v ∈ x :: l)) as [[? | ?]%elem_of_cons | _]; [done.. |].
        by rewrite lookup_insert_ne.
Qed.

Lemma keys_get {V} (m : OMap.t V) k : k ∈ OMap.keys m → is_Some (OMap.get m k).
Proof.
  unfold OMap.keys. induction m as [|[k0 v0] m IH]; simpl.
  - by intros ?%elem_of_nil.
  - intros Hk. case_decide as Hd; [by eexists |].
    apply elem_of_cons in Hk as [-> | Hk]; [done | by apply IH].
Qed.

Lemma deq_empty q : PriorityQueue.deq q = None → q = [].
Proof.
  unfold PriorityQueue.deq. destruct q as [|e q]; [done |]. simpl.
  destruct (PriorityQueue.best q) as [b|]; [destruct (_ <? _) |]; done.
Qed.

Lemma wedge_weight adjList edgeWeights u v c c' :
  wedge adjList edgeWeights u v c → wedge adjList edgeWeights u v c' → c = c'.
Proof. intros (? & _ & _ & H1) (? & _ & _ & H2). congruence. Qed.

(** *** The links back to the start node *)

Lemma previous_walk_walk adjList edgeWeights previous s v p d :
  previous_walk adjList edgeWeights previous s v p d →
  walk adjList edgeWeights s v p d.
Proof.
  induction 1 as [| u v c p d _ Hedge _ IH]; [constructor |].
  by eapply walk_step.
Qed.

(** A link set at a node off the walk leaves the walk as it is. *)
Lemma walk_insert_notin adjList edgeWeights previous s v u x p d :
  previous_walk adjList edgeWeights previous s x p d →
  v ∉ p →
  previous_walk adjList edgeWeights (<[v := u]> previous) s x p d.
Proof.
  induction 1 as [Hs | y x c p d Hp Hedge _ IH]; intros Hnot.
  - constructor. rewrite lookup_insert_ne; [done |].
    intros ->. apply Hnot. by left.
  - eapply previous_walk_step; [| done |].
    + rewrite lookup_insert_ne; [done |].
      intros ->. apply Hnot. apply elem_of_app. right. by left.
    + apply IH. intros Hin. apply Hnot. apply elem_of_app. by left.
Qed.

(** A link set at [v] keeps every node linked to the start node, once
    [v] is. *)
Lemma walk_insert adjList edgeWeights previous s v u x p d :
  v ≠ s →
  (∃ pv dv,
     previous_walk adjList edgeWeights (<[v := u]> previous) s v pv dv) →
  previous_walk adjList edgeWeights previous s x p d →
  ∃ p' d', previous_walk adjList edgeWeights (<[v := u]> previous) s x p' d'.
Proof.
  intros Hvs Hv. induction 1 as [Hs | y x c p d Hp Hedge _ IH].
  - exists [s], 0. constructor. by rewrite lookup_insert_ne.
  - destruct (decide (x = v)) as [-> | Hx]; [done |].
    destruct IH as (p' & d' & Hw).
    exists (p' ++ [x]), (d' + c).
    eapply previous_walk_step; [| done | done].
    by rewrite lookup_insert_ne.
Qed.

(** Following the links of a walk gives its nodes. *)
Lemma reconstruct_previous_walk adjList edgeWeights previous s v p d :
  previous_walk adjList edgeWeights previous s v p d →
  (∀ y, y ∈ p → y ≠ "") →
  ∀ fuel acc, (length p < fuel)%nat →
    reconstruct fuel previous (Some v) acc = Some (p ++ acc).
Proof.
  induction 1 as [Hs | u v c p d Hp Hedge _ IH]; intros Hne fuel acc Hfuel.
  - destruct fuel as [|[|fuel]]; [simpl in Hfuel; lia .. |]. simpl.
    rewrite bool_decide_false by (apply Hne; by left).
    by rewrite Hs.
  - destruct fuel as [|fuel]; [lia |]. simpl.
    rewrite bool_decide_false
      by (apply Hne; apply elem_of_app; right; by left).
    rewrite Hp. rewrite length_app in Hfuel. simpl in Hfuel.
    rewrite IH; [by rewrite <- app_assoc | | lia].
    intros y Hy. apply Hne. apply elem_of_app. by left.
Qed.

Section Reach.
Context (adjList : OMap.t (list string)) (edgeWeights : gmap string Z).
Context (startNode endNode : string) (heuristic : string → string → Z).
Context (Hclosed : graph_closed adjList).
Context (Hstart : is_Some (OMap.get adjList startNode)).
Context (Hweights : weights_nonnegative edgeWeights).

Local Abbreviation Inv :=
  (astar_reach_inv adjList edgeWeights startNode endNode).
Local Abbreviation pwalk st :=
  (previous_walk adjList edgeWeights (a_previous st) startNode).

(** The scores do not grow towards the start node along the links, and
    the edges of the links weigh no more than the score. *)
Lemma walk_below cur todo st v p d :
  Inv cur todo st → pwalk st v p d →
  ∀ z, a_gScores st !! v = Some (Fin z) →
    d ≤ z ∧ ∀ y, y ∈ p → ∃ zy, a_gScores st !! y = Some (Fin zy) ∧ zy ≤ z.
Proof.
  intros Hinv Hw. induction Hw as [Hs | u v c p d Hp Hedge _ IH]; intros z Hz.
  - split; [by eapply (ar_nonneg _ _ _ _ _ _ _ Hinv) |].
    intros y ->%list_elem_of_singleton. exists z. split; [done | lia].
  - destruct (ar_edge _ _ _ _ _ _ _ Hinv v u Hp)
      as (zu & zv & c' & Hzu & Hzv & Hedge' & Hle).
    rewrite Hz in Hzv. injection Hzv as <-.
    pose proof (wedge_weight _ _ _ _ _ _ Hedge Hedge') as <-.
    assert (0 ≤ c) as Hc.
    { destruct Hedge as (ns & _ & _ & Hc). by apply (Hweights _ _ Hc). }
    destruct (IH zu Hzu) as [Hd Hys]. split; [lia |].
    intros y [Hy | ->%list_elem_of_singleton]%elem_of_app.
    + destruct (Hys y Hy) as (zy & Hzy & Hle'). exists zy. split; [done | lia].
    + exists z. split; [done | lia].
Qed.

(** A better score found for [v] through [u]. *)
Lemma relax_update st u zu v c f rest neighbours anims fs :
  Inv u (v :: rest) st →
  OMap.get adjList u = Some neighbours → v ∈ neighbours →
  a_gScores st !! u = Some (Fin zu) →
  edgeWeights !! edge_key u v = Some c →
  num_lt (Some (Fin (zu + c))) (a_gScores st !! v) = true →
  let st' := AState (<[v := Fin (zu + c)]> (a_gScores st)) fs
                    (<[v := u]> (a_previous st))
                    (PriorityQueue.enq (v, f) (a_pq st)) anims in
  Inv u rest st' ∧ a_gScores st' !! u = Some (Fin zu) ∧
  lexlt (mu (a_gScores st')) (mu (a_gScores st)).
Proof.
  intros Hinv Hns Hv Hzu Hc Hlt. cbv zeta.
  pose proof Hinv as [Hs Hk Hnn He Hw Hen Hq].
  assert (0 ≤ c) as Hc0 by apply (Hweights _ _ Hc).
  assert (0 ≤ zu) as Hzu0 by apply (Hnn _ _ Hzu).
  assert (wedge adjList edgeWeights u v c) as Hedge by (by exists neighbours).
  assert (∀ y zy, a_gScores st !! y = Some (Fin zy) → zy ≤ zu → y ≠ v)
    as Hbelow.
  { intros y zy Hy Hle ->. rewrite Hy in Hlt. simpl in Hlt.
    apply Z.ltb_lt in Hlt. lia. }
  assert (u ≠ v) as Huv by (apply (Hbelow u zu Hzu); lia).
  assert (startNode ≠ v) as Hsv by (apply (Hbelow startNode 0 Hs); lia).
  assert (is_Some (a_gScores st !! v)) as Hsome.
  { destruct (a_gScores st !! v); [by eexists | done]. }
  destruct (Hw u zu Hzu) as (pu & du & Hwu).
  destruct (walk_below _ _ _ _ _ _ Hinv Hwu zu Hzu) as [Hdu Hys].
  assert (v ∉ pu) as Hnot.
  { intros Hin. destruct (Hys v Hin) as (zy & Hy & Hle).
    by apply (Hbelow v zy). }
  assert (previous_walk adjList edgeWeights (<[v := u]> (a_previous st))
            startNode v (pu ++ [v]) (du + c)) as Hwv.
  { eapply previous_walk_step;
      [apply lookup_insert_eq | done | by apply walk_insert_notin]. }
  split_and!.
  - constructor; simpl.
    + by rewrite lookup_insert_ne.
    + intros x. rewrite (Hk x). destruct (decide (x = v)) as [-> | Hx].
      * rewrite lookup_insert_eq. split; intros _; [by eexists | done].
      * by rewrite lookup_insert_ne.
    + intros x z. rewrite lookup_insert. case_decide.
      * intros [= <-]. lia.
      * apply Hnn.
    + intros x y Hp. destruct (decide (x = v)) as [-> | Hx].
      * rewrite lookup_insert_eq in Hp. injection Hp as <-.
        exists zu, (zu + c), c.
        rewrite lookup_insert_ne by done. rewrite lookup_insert_eq.
        split_and!; [done | done | done | lia].
      * rewrite lookup_insert_ne in Hp by done.
        destruct (He x y Hp) as (zy & zx & c' & Hy & Hx' & Hed & Hle).
        destruct (decide (y = v)) as [-> | Hy'].
        -- exists (zu + c), zx, c'.
           rewrite lookup_insert_eq. rewrite lookup_insert_ne by done.
           split_and!; [done | done | done |].
           rewrite Hy in Hlt. simpl in Hlt. apply Z.ltb_lt in Hlt. lia.
        -- exists zy, zx, c'. rewrite !lookup_insert_ne by done. done.
    + intros x z Hx. destruct (decide (x = v)) as [-> | Hxv]; [by eauto |].
      rewrite lookup_insert_ne in Hx by done.
      destruct (Hw x z Hx) as (p & d & Hwx).
      eapply walk_insert; [done | by eauto | done].
    + intros e [Hin | ->%list_elem_of_singleton]%elem_of_app.
      * destruct (Hen e Hin) as [z Hz].
        destruct (decide (e.1 = v)) as [Heq | Hne].
        -- exists (zu + c). rewrite Heq. apply lookup_insert_eq.
        -- exists z. by rewrite lookup_insert_ne.
      * exists (zu + c). apply lookup_insert_eq.
    + intros x z Hx. destruct (decide (x = v)) as [-> | Hxv].
      * left. exists f. apply elem_of_app. right. by apply list_elem_of_singleton.
      * rewrite lookup_insert_ne in Hx by done.
        destruct (Hq x z Hx) as [[f' Hin] | [Hne Hcl]].
        -- left. exists f'. apply elem_of_app. by left.
        -- right. split; [done |]. intros v' c' Hed Hnt.
           destruct (decide (v' = v)) as [-> | Hv'].
           ++ exists (zu + c). apply lookup_insert_eq.
           ++ destruct (Hcl v' c' Hed) as [zv Hzv].
              { intros [-> [-> | Hin]%elem_of_cons]; [done |]. by apply Hnt. }
              exists zv. by rewrite lookup_insert_ne.
  - simpl. by rewrite lookup_insert_ne.
  - simpl. apply AStarFacts.mu_improve; [lia | apply Hnn | done].
Qed.

(** One round of [for (const v of adjList.get(u))]. *)
Lemma reach_relax_step st u v rest neighbours :
  Inv u (v :: rest) st →
  OMap.get adjList u = Some neighbours → v ∈ neighbours →
  (∃ zu, a_gScores st !! u = Some (Fin zu)) →
  let st' := aStar_relax edgeWeights endNode heuristic u st v in
  Inv u rest st' ∧
  (∃ zu, a_gScores st' !! u = Some (Fin zu)) ∧
  (st' = st ∨ lexlt (mu (a_gScores st')) (mu (a_gScores st))).
Proof.
  intros Hinv Hns Hv [zu Hzu]. cbv zeta.
  assert ((∀ c, edgeWeights !! edge_key u v = Some c →
             ∃ zv, a_gScores st !! v = Some (Fin zv)) →
          Inv u rest st) as Hkeep.
  { intros Hfin. destruct Hinv as [Hs Hk Hnn He Hw Hen Hq].
    constructor; try done.
    intros x z Hx. destruct (Hq x z Hx) as [? | [Hne Hcl]]; [by left | right].
    split; [done |]. intros v' c Hed Hnt.
    destruct (decide (x = u ∧ v' = v)) as [[-> ->] | Hd].
    - destruct Hed as (ns & _ & _ & Hc). by apply (Hfin c).
    - apply (Hcl v' c Hed). intros [-> [-> | Hin]%elem_of_cons].
      + by apply Hd.
      + by apply Hnt. }
  unfold aStar_relax. rewrite Hzu.
  destruct (edgeWeights !! edge_key u v) as [c|] eqn:Hc; cbn [num_add].
  2: { cbn [num_lt]. split_and!; [by apply Hkeep | by exists zu | by left]. }
  assert (is_Some (a_gScores st !! v)) as [n Hn].
  { apply (ar_keys _ _ _ _ _ _ _ Hinv).
    by eapply DijkstraFacts.neighbour_is_node. }
  destruct (num_lt (Some (Fin (zu + c))) (a_gScores st !! v)) eqn:Hlt.
  - destruct (relax_update st u zu v c (zu + c + heuristic v endNode) rest
                neighbours (a_animations st ++ [update_a_star v])
                (<[v := Fin (zu + c + heuristic v endNode)]> (a_fScores st))
                Hinv Hns Hv Hzu Hc Hlt) as (Hinv' & Hu' & Hmu).
    split_and!; [done | by exists zu | by right].
  - split_and!; [| by exists zu | by left].
    apply Hkeep. intros _ _. rewrite Hn in Hlt |- *.
    destruct n as [zv|]; [by exists zv | done].
Qed.

Lemma reach_relax_fold u neighbours : ∀ todo st,
  (∀ v, v ∈ todo → v ∈ neighbours) →
  OMap.get adjList u = Some neighbours →
  Inv u todo st →
  (∃ zu, a_gScores st !! u = Some (Fin zu)) →
  let st' := foldl (aStar_relax edgeWeights endNode heuristic u) st todo in
  Inv u [] st' ∧
  (st' = st ∨ lexlt (mu (a_gScores st')) (mu (a_gScores st))).
Proof.
  induction todo as [|v todo IH]; intros st Hsub Hns Hinv Hu; cbv zeta.
  - simpl. split; [done | by left].
  - cbn [foldl].
    destruct (reach_relax_step st u v todo neighbours Hinv Hns
                ltac:(apply Hsub; by left) Hu) as (Hinv1 & Hu1 & Hm1).
    destruct (IH (aStar_relax edgeWeights endNode heuristic u st v)
                ltac:(intros x Hx; apply Hsub; by right) Hns Hinv1 Hu1)
      as (Hinv2 & Hm2).
    split; [done |].
    set (st1 := aStar_relax edgeWeights endNode heuristic u st v) in *.
    clearbody st1.
    destruct Hm1 as [Heq1 | Hm1], Hm2 as [Heq2 | Hm2].
    + left. congruence.
    + right. by rewrite <- Heq1.
    + right. by rewrite Heq2.
    + right. by eapply AStarFacts.lexlt_trans.
Qed.

(** With the queue empty, every node that a walk reaches has a finite
    score and is not the end node. *)
Lemma walks_expanded cur st x p c :
  Inv cur [] st → a_pq st = [] →
  walk adjList edgeWeights startNode x p c →
  x ≠ endNode ∧ ∃ z, a_gScores st !! x = Some (Fin z).
Proof.
  intros Hinv Hempty Hw.
  assert (∀ y z, a_gScores st !! y = Some (Fin z) →
            y ≠ endNode ∧
            ∀ v c, wedge adjList edgeWeights y v c →
                   ∃ zv, a_gScores st !! v = Some (Fin zv)) as Hdone.
  { intros y z Hy.
    destruct (ar_queue _ _ _ _ _ _ _ Hinv y z Hy) as [[f Hin] | [Hne Hcl]].
    - rewrite Hempty in Hin. by apply elem_of_nil in Hin.
    - split; [done |]. intros v c' Hed. apply (Hcl v c' Hed).
      by intros [_ ?%elem_of_nil]. }
  induction Hw as [| u x w p c _ IH Hedge].
  - pose proof (ar_start _ _ _ _ _ _ _ Hinv) as Hs.
    split; [by apply (Hdone startNode 0) | by exists 0].
  - destruct IH as [_ [zu Hzu]].
    destruct (proj2 (Hdone u zu Hzu) x w Hedge) as [zx Hzx].
    split; [by apply (Hdone x zx) | by eauto].
Qed.

Context (Hname : OMap.get adjList "" = None).
Context (Hreach : ∃ p0 d0, walk adjList edgeWeights startNode endNode p0 d0).

(** The loop ends at the end node, with a walk to it. *)
Lemma aStar_loop_finds :
  ∀ (a b c : nat) st cur,
    Inv cur [] st →
    (mu (a_gScores st)).1 = a → (mu (a_gScores st)).2 = b →
    length (a_pq st) = c →
    ∃ fuel r d z t,
      aStar_loop adjList edgeWeights endNode heuristic fuel st
        = Return (inl r) ∧
      walk adjList edgeWeights startNode endNode (path r) d ∧
      distances r !! endNode = Some (Fin z) ∧ d ≤ z ∧
      animations r
        = ((t ++ [found_path endNode]) ++ [final_path (path r)]) ++ [complete].
Proof.
  induction a as [a IHa] using lt_wf_ind.
  induction b as [b IHb] using lt_wf_ind.
  induction c as [c IHc] using lt_wf_ind.
  intros st cur Hinv Ha Hb Hc.
  destruct (PriorityQueue.deq (a_pq st)) as [[[u pr] pq]|] eqn:Hdeq.
  - destruct (DijkstraFacts.deq_full _ _ _ Hdeq) as (Hin & Hpq & _).
    destruct (ar_entries _ _ _ _ _ _ _ Hinv _ Hin) as [zu Hzu]. simpl in Hzu.
    destruct (decide (u = endNode)) as [-> | Hne].
    + destruct (ar_walk _ _ _ _ _ _ _ Hinv endNode zu Hzu) as (p & d & Hw).
      destruct (walk_below _ _ _ _ _ _ Hinv Hw zu Hzu) as [Hd Hys].
      exists (S (S (length p))),
        (Result (((a_animations st ++ [found_path endNode])
                    ++ [final_path p]) ++ [complete]) p (a_gScores st)),
        d, zu, (a_animations st).
      split_and!; [| by eapply previous_walk_walk | done | done | done].
      cbn [aStar_loop]. rewrite Hdeq. rewrite bool_decide_true by done.
      cbn [a_previous a_animations a_gScores].
      rewrite (reconstruct_previous_walk _ _ _ _ _ _ _ Hw); [| | lia].
      * by rewrite app_nil_r.
      * intros y Hy ->. destruct (Hys "" Hy) as (zy & Hzy & _).
        assert (is_Some (OMap.get adjList "")) as [? Hget]
          by (apply (ar_keys _ _ _ _ _ _ _ Hinv); by eexists).
        by rewrite Hname in Hget.
    + assert (is_Some (OMap.get adjList u)) as [nbrs Hnb]
        by (apply (ar_keys _ _ _ _ _ _ _ Hinv); by eexists).
      set (st0 := AState (a_gScores st) (a_fScores st) (a_previous st) pq
                         (a_animations st ++ [visit_a_star u])).
      assert (Inv u nbrs st0) as Hinv0.
      { destruct Hinv as [Hs Hk Hnn He Hw Hen Hq]. constructor; simpl; try done.
        - intros e He'. apply Hen. rewrite Hpq in He'.
          by eapply AStarFacts.remove_subseteq.
        - intros x z Hx. destruct (decide (x = u)) as [-> | Hxu].
          + right. split; [done |]. intros v c' (ns & Hns & Hv & _) Hnt.
            exfalso. apply Hnt. split; [done |]. congruence.
          + destruct (Hq x z Hx) as [[f Hf] | [Hxe Hcl]].
            * left. exists f. rewrite Hpq.
              apply DijkstraFacts.elem_of_remove_ne; [done | congruence].
            * right. split; [done |]. intros v c' Hed _.
              apply (Hcl v c' Hed). by intros [_ ?%elem_of_nil]. }
      destruct (reach_relax_fold u nbrs nbrs st0 ltac:(done) Hnb Hinv0
                  ltac:(by exists zu)) as [Hinv1 Hm].
      set (st1 := foldl (aStar_relax edgeWeights endNode heuristic u) st0 nbrs)
        in *.
      assert (S (length pq) = length (a_pq st)) as Hlen.
      { rewrite Hpq. by apply AStarFacts.remove_length. }
      assert (∃ fuel r d z t,
                aStar_loop adjList edgeWeights endNode heuristic fuel st1
                  = Return (inl r) ∧
                walk adjList edgeWeights startNode endNode (path r) d ∧
                distances r !! endNode = Some (Fin z) ∧ d ≤ z ∧
                animations r
                  = ((t ++ [found_path endNode]) ++ [final_path (path r)])
                      ++ [complete])
        as (fuel & r & d & z & t & Hrun & Hgood).
      { destruct Hm as [Heq | [Hlt | [Heq Hlt]]].
        - apply (IHc (length pq)) with (cur := u); [lia | done | | |].
          + by rewrite Heq.
          + by rewrite Heq.
          + by rewrite Heq.
        - simpl in Hlt.
          eapply (IHa _ ltac:(rewrite <- Ha; exact Hlt)); done.
        - simpl in Heq, Hlt.
          eapply (IHb _ ltac:(rewrite <- Hb; exact Hlt));
            [done | | done | done].
          simpl. rewrite Heq. exact Ha. }
      exists (S fuel), r, d, z, t. split; [| done].
      cbn [aStar_loop]. rewrite Hdeq. rewrite bool_decide_false by done.
      cbn [a_gScores a_fScores a_previous a_pq a_animations].
      rewrite Hnb. exact Hrun.
  - exfalso. destruct Hreach as (p0 & d0 & Hw0).
    destruct (walks_expanded cur st endNode p0 d0 Hinv
                (deq_empty _ Hdeq) Hw0) as [Hne _].
    done.
Qed.

Lemma reach_inv_init :
  Inv startNode []
    (AState
       (<[startNode := Fin 0]>
          (foldl (λ '(g, f) node,
                    (<[node := Infinity]> g, <[node := Infinity]> f))
                 ((∅ : gmap string num), (∅ : gmap string num))
                 (OMap.keys adjList)).1)
       (<[startNode := Fin (heuristic startNode endNode)]>
          (foldl (λ '(g, f) node,
                    (<[node := Infinity]> g, <[node := Infinity]> f))
                 ((∅ : gmap string num), (∅ : gmap string num))
                 (OMap.keys adjList)).2)
       ∅
       (PriorityQueue.enq (startNode, heuristic startNode endNode)
          PriorityQueue.empty)
       [start_a_star startNode]).
Proof.
  set (init := foldl _ _ _).
  assert (∀ v z, <[startNode := Fin 0]> init.1 !! v = Some (Fin z) →
                 v = startNode ∧ z = 0) as Hfin.
  { intros v z. rewrite lookup_insert. case_decide as Hv.
    - by intros [= <-].
    - unfold init. rewrite init_scores. case_decide; [done |].
      by rewrite lookup_empty. }
  constructor; simpl.
  - by rewrite lookup_insert_eq.
  - intros v. rewrite lookup_insert. case_decide as Hv.
    + subst v. split; intros _; [by eexists | done].
    + unfold init. rewrite init_scores. split.
      * intros Hn. rewrite decide_True by (by apply DijkstraFacts.get_keys).
        by eexists.
      * case_decide as Hk; [intros _; by apply keys_get |].
        rewrite lookup_empty. by intros [? ?].
  - intros v z [-> ->]%Hfin. done.
  - intros v u. by rewrite lookup_empty.
  - intros v z [-> ->]%Hfin. exists [startNode], 0. by constructor.
  - intros e ->%list_elem_of_singleton. exists 0. simpl.
    by rewrite lookup_insert_eq.
  - intros x z [-> ->]%Hfin. left. exists (heuristic startNode endNode).
    by apply list_elem_of_singleton.
Qed.

End Reach.

(** The run to an end node that a walk reaches: the trace, the path and
    the score. *)
Lemma aStar_finds adjList edgeWeights startNode endNode heuristic :
  graph_closed adjList →
  is_Some (OMap.get adjList startNode) →
  weights_nonnegative edgeWeights →
  OMap.get adjList "" = None →
  (∃ p0 d0, walk adjList edgeWeights startNode endNode p0 d0) →
  ∃ fuel t ds p d z,
    (∀ fuel', (fuel ≤ fuel')%nat →
       aStar adjList edgeWeights startNode endNode heuristic fuel'
       = Return (Result (((t ++ [found_path endNode]) ++ [final_path p])
                           ++ [complete]) p ds)) ∧
    walk adjList edgeWeights startNode endNode p d ∧
    ds !! endNode = Some (Fin z) ∧ d ≤ z.
Proof.
  intros Hclosed Hstart Hw Hname Hreach.
  destruct (aStar_loop_finds adjList edgeWeights startNode endNode
              heuristic Hclosed Hw Hname Hreach _ _ _ _ startNode
              (reach_inv_init adjList edgeWeights startNode endNode heuristic
                 Hstart)
              eq_refl eq_refl eq_refl)
    as (fuel & r & d & z & t & Hrun & Hwalk & Hz & Hle & Hanim).
  destruct r as [anims p ds]. simpl in *. subst anims.
  exists fuel, t, ds, p, d, z. split_and!; try done.
  intros fuel' Hfuel.
  apply (GraphFacts.aStar_mono _ _ _ _ _ fuel fuel' _ Hfuel).
  unfold aStar. cbv zeta. by rewrite Hrun.
Qed.

End AStarReach.



(** ** Playback of a graph traversal *)

Module GraphPlayback.
Import Graph GraphTraversal GraphComponent.

Lemma play_snoc s l e : play s (l ++ [e]) = show_event e (play s l).
Proof. unfold play. by rewrite foldl_app. Qed.

Lemma show_event_animationsRef e s :
  animationsRef (show_event e s) = animationsRef s.
Proof. by destruct e as [[]|[]]. Qed.

Lemma play_animationsRef l : ∀ s, animationsRef (play s l) = animationsRef s.
Proof.
  induction l as [|e l IH]; intros s; [done |].
  cbn [play foldl]. change (foldl _ ?x l) with (play x l).
  by rewrite IH, show_event_animationsRef.
Qed.

(** The events of a traversal leave the final path and the total
    weight as they are. *)
Lemma play_traversal_keeps (l : list GraphTraversal.animation) s :
  finalPathNodes (play s (Traversal <$> l)) = finalPathNodes s ∧
  totalWeight (play s (Traversal <$> l)) = totalWeight s.
Proof.
  induction l as [|a l IH] using rev_ind; [done |].
  rewrite fmap_app. cbn [fmap list_fmap]. rewrite play_snoc.
  destruct IH as [IH1 IH2]. rewrite <- IH1, <- IH2. by destruct a.
Qed.

(** *** The timers *)

Lemma runAnimationStep_shows s0 n b e en :
  animationsRef s0 !! n = Some en →
  runAnimationStep
    (set_timer b (set_index (Z.of_nat n)
       (set_explanation e (play s0 (take n (animationsRef s0))))))
  = playing s0 (S n) (TextOf en).
Proof.
  intros Hn. pose proof (lookup_lt_Some _ _ _ Hn) as Hlt.
  unfold runAnimationStep, playing.
  cbn [animationsRef currentAnimationIndexRef set_timer set_index
       set_explanation].
  rewrite play_animationsRef.
  unfold Arr.len, Arr.get.
  destruct (Z.leb_spec (Z.of_nat (length (animationsRef s0))) (Z.of_nat n));
    [lia |].
  destruct (Z.ltb_spec (Z.of_nat n) 0); [lia |].
  rewrite Nat2Z.id, Hn.
  rewrite (take_S_r _ _ _ Hn), play_snoc.
  replace (Z.of_nat (S n)) with (Z.of_nat n + 1) by lia.
  set (P := play s0 (take n (animationsRef s0))).
  by destruct en as [[]|[]].
Qed.

Lemma run_timers_playing s0 k : ∀ n e,
  (n + k ≤ length (animationsRef s0))%nat →
  ∃ e', run_timers k (playing s0 n e) = playing s0 (n + k) e'.
Proof.
  induction k as [|k IH]; intros n e Hle.
  - exists e. by rewrite Nat.add_0_r.
  - destruct (lookup_lt_is_Some_2 (animationsRef s0) n ltac:(lia)) as [en Hn].
    cbn [run_timers]. unfold timer_fires.
    change (timer (playing s0 n e)) with true. cbv iota.
    unfold playing at 1. rewrite (runAnimationStep_shows s0 n true e en Hn).
    destruct (IH (S n) (TextOf en) ltac:(lia)) as [e' He'].
    exists e'. rewrite He'. f_equal. lia.
Qed.

Lemma run_timers_add a b s :
  run_timers (a + b) s = run_timers b (run_timers a s).
Proof. revert s. induction a as [|a IH]; intros s; [done |]. apply IH. Qed.

(** The playback of a trace that is not empty, started on [s0] by
    [start_playback]: when the timer has fired once for each event, every
    event is shown and the playback is over. *)
Lemma start_playback_plays (st : state) (evs : list event) :
  evs ≠ [] →
  let s0 := set_animations evs st in
  let st1 := start_playback evs st in
  let st2 := run_timers (length (animationsRef st1)) st1 in
  ∃ e,
    st2 = set_timer false
            (set_explanation TraversalComplete
               (set_isTraversing false (playing s0 (length evs) e))).
Proof.
  intros Hne. cbv zeta.
  destruct evs as [|e0 evs']; [done |]. clear Hne.
  set (evs := e0 :: evs').
  set (s0 := set_animations evs st).
  assert (animationsRef s0 = evs) as Hevs by done.
  assert (start_playback evs st = playing s0 1 (TextOf e0)) as ->.
  { unfold start_playback.
    rewrite <- (runAnimationStep_shows s0 0 (timer st) (explanation st) e0)
      by done.
    done. }
  assert (animationsRef (playing s0 1 (TextOf e0)) = evs) as ->.
  { unfold playing. cbn [animationsRef set_timer set_index set_explanation].
    by rewrite play_animationsRef. }
  replace (length evs) with (length evs' + 1)%nat by (simpl; lia).
  rewrite run_timers_add.
  destruct (run_timers_playing s0 (length evs') 1 (TextOf e0)) as [e He].
  { rewrite Hevs. simpl. lia. }
  rewrite He. exists e.
  replace (1 + length evs')%nat with (length evs' + 1)%nat by lia.
  cbn [run_timers]. unfold timer_fires.
  change (timer (playing s0 (length evs' + 1) e)) with true. cbv iota.
  unfold runAnimationStep.
  assert (animationsRef (playing s0 (length evs' + 1) e) = evs) as ->.
  { unfold playing. cbn [animationsRef set_timer set_index set_explanation].
    by rewrite play_animationsRef. }
  change (currentAnimationIndexRef (playing s0 (length evs' + 1) e))
    with (Z.of_nat (length evs' + 1)).
  unfold Arr.len.
  destruct (Z.leb_spec (Z.of_nat (length evs)) (Z.of_nat (length evs' + 1)));
    [done |].
  simpl in *. lia.
Qed.

(** *** The display along the loops of [bfs] and [dfs] *)

Lemma filter_named_snoc (l : list string) u :
  filter (λ v, v ≠ "") (l ++ [u])
  = filter (λ v, v ≠ "") l ++ (if bool_decide (u = "") then [] else [u]).
Proof.
  rewrite filter_app. f_equal. rewrite filter_cons, filter_nil.
  case_bool_decide as Hu.
  - rewrite decide_False; [done |]. by intros ?.
  - by rewrite decide_True.
Qed.

Section Shown.
Context (push : string → list string → list string).
Context (ev : string → GraphTraversal.animation).
Context (order : list string → list string).
Context (Hpush : ∀ v w, push v w ≡ₚ v :: w).
Context (Hev : ∀ v, visit_nodes [ev v] = []).
Context (Hshow : ∀ v s,
  show_event (Traversal (ev v)) s
  = set_queuedNodes ({[v]} ∪ queuedNodes s) s).
Context (adjList : OMap.t (list string)) (start : string) (s0 : state).

Local Abbreviation Shown := (traversal_shown s0 start).

Lemma shown_neighbour work visited animations v :
  Shown work visited animations → visit_nodes animations ≠ [] →
  let '(work', visited', animations') :=
    worklist_neighbour push ev (work, visited, animations) v in
  Shown work' visited' animations' ∧ visit_nodes animations' ≠ [].
Proof.
  intros (Hnd & Hsub & Hs & Hhd & Hfirst & Hvis & Hq & Hp) Hne.
  unfold worklist_neighbour. case_bool_decide as Hv.
  { by split. }
  assert (visit_nodes (animations ++ [ev v]) = visit_nodes animations) as Hvn.
  { by rewrite TraversalFacts.visit_nodes_app, Hev, app_nil_r. }
  split; [| by rewrite Hvn].
  unfold traversal_shown. cbv zeta. rewrite Hvn.
  rewrite fmap_app. cbn [fmap list_fmap]. rewrite play_snoc, Hshow.
  cbn [visitedNodes queuedNodes traversalPath set_queuedNodes].
  assert (v ∉ work ++ visit_nodes animations) as Hnew.
  { intros Hin. by apply Hv, Hsub. }
  split_and!.
  - rewrite Hpush. simpl. by constructor.
  - intros x. rewrite Hpush. simpl. rewrite elem_of_cons.
    intros [-> | Hx]; [set_solver | apply elem_of_union_r; by apply Hsub].
  - by apply elem_of_union_r.
  - destruct (visit_nodes animations); done.
  - done.
  - done.
  - rewrite Hq. rewrite (list_to_set_perm_L (push v work) (v :: work))
      by apply Hpush.
    rewrite list_to_set_cons.
    assert (v ≠ start) by (by intros ->).
    set_solver.
  - done.
Qed.

Lemma shown_neighbours ns : ∀ work visited animations,
  Shown work visited animations → visit_nodes animations ≠ [] →
  let '(work', visited', animations') :=
    foldl (worklist_neighbour push ev) (work, visited, animations) ns in
  Shown work' visited' animations'.
Proof.
  induction ns as [|v ns IH]; intros work visited animations Hs Hne; [done |].
  cbn [foldl].
  pose proof (shown_neighbour work visited animations v Hs Hne) as Hstep.
  destruct (worklist_neighbour push ev (work, visited, animations) v)
    as [[w1 v1] a1].
  destruct Hstep as [Hs1 Hne1]. by apply IH.
Qed.

(** [queue.shift()] and [stack.pop()], with the [visit_node] event. *)
Lemma shown_visit u work visited animations :
  Shown (u :: work) visited animations →
  Shown work visited (animations ++ [visit_node u]) ∧
  visit_nodes (animations ++ [visit_node u]) ≠ [].
Proof.
  intros (Hnd & Hsub & Hs & Hhd & Hfirst & Hvis & Hq & Hp).
  assert (visit_nodes (animations ++ [visit_node u])
          = visit_nodes animations ++ [u]) as Hvn
    by (by rewrite TraversalFacts.visit_nodes_app).
  split; [| rewrite Hvn; by destruct (visit_nodes animations)].
  unfold traversal_shown. cbv zeta. rewrite Hvn.
  rewrite fmap_app. cbn [fmap list_fmap]. rewrite play_snoc.
  cbn [show_event pathAdd visitedNodes queuedNodes traversalPath
       set_visitedNodes set_queuedNodes set_traversalPath].
  simpl in Hnd. apply NoDup_cons in Hnd as [Hu Hnd].
  rewrite elem_of_app in Hu.
  split_and!.
  - rewrite app_assoc. apply NoDup_app. split; [done |].
    split; [| apply NoDup_singleton].
    intros x Hx ->%list_elem_of_singleton. apply Hu.
    by apply elem_of_app in Hx.
  - intros x Hx. apply Hsub. simpl. rewrite elem_of_cons, elem_of_app.
    rewrite !elem_of_app, list_elem_of_singleton in Hx. tauto.
  - done.
  - rewrite <- app_assoc. exact Hhd.
  - by destruct (visit_nodes animations).
  - rewrite Hvis, list_to_set_app_L. set_solver.
  - rewrite Hq, list_to_set_cons.
    assert (u ∉ (list_to_set work : gset string)).
    { rewrite elem_of_list_to_set. tauto. }
    set_solver.
  - rewrite Hp. unfold add_to_path.
    destruct (visit_nodes animations) as [|x l] eqn:Hl.
    + specialize (Hfirst eq_refl). injection Hfirst as -> ->.
      simpl. rewrite filter_cons, filter_nil.
      case_bool_decide as Hn.
      * rewrite decide_False; [done |]. by intros ?.
      * rewrite decide_True by done.
        rewrite bool_decide_true; [done | by left].
    + change (match (x :: l) ++ [u] with [] => [start] | _ :: _ => (x :: l) ++ [u] end)
        with ((x :: l) ++ [u]).
      rewrite filter_named_snoc. case_bool_decide as Hn.
      * by rewrite app_nil_r.
      * rewrite bool_decide_false; [done |].
        intros [_ Hin]%list_elem_of_filter. tauto.
Qed.

Lemma worklist_loop_shown fuel : ∀ work visited animations animations',
  worklist_loop push ev order fuel adjList work visited animations
    = Some animations' →
  Shown work visited animations →
  ∃ visited', Shown [] visited' animations'.
Proof.
  induction fuel as [|fuel IH]; intros work visited animations a' Hrun Hs;
    [done |].
  simpl in Hrun. destruct work as [|u work].
  { injection Hrun as <-. by exists visited. }
  destruct (shown_visit u work visited animations Hs) as [Hs1 Hne].
  destruct (OMap.get adjList u) as [ns|].
  - pose proof (shown_neighbours (order ns) work visited
                  (animations ++ [visit_node u]) Hs1 Hne) as Hs2.
    destruct (foldl _ _ _) as [[w2 v2] a2]. by eapply IH.
  - by eapply IH.
Qed.

(** The display after the whole trace of a traversal. *)
Lemma traversal_shown_end animations' :
  visitedNodes s0 = ∅ → queuedNodes s0 = ∅ → traversalPath s0 = [] →
  (∃ fuel,
     worklist_loop push ev order fuel adjList [start] {[start]}
       [visit_start start] = Some animations') →
  let s := play s0 (Traversal <$> (animations' ++ [complete])) in
  head (visit_nodes animations') = Some start ∧
  visitedNodes s = list_to_set (visit_nodes animations') ∧
  queuedNodes s = ∅ ∧
  traversalPath s = filter (λ v, v ≠ "") (visit_nodes animations') ∧
  finalPathNodes s = finalPathNodes s0 ∧
  totalWeight s = totalWeight s0.
Proof.
  intros Hv0 Hq0 Hp0 [fuel Hrun]. cbv zeta.
  destruct (worklist_loop_shown fuel _ _ _ _ Hrun) as (vis & Hshown).
  { unfold traversal_shown. cbv zeta.
    cbn [fmap list_fmap play foldl show_event pathAdd visitedNodes
         queuedNodes traversalPath set_visitedNodes set_queuedNodes
         set_traversalPath visit_nodes omap].
    rewrite Hv0, Hq0, Hp0. split_and!.
    - apply NoDup_singleton.
    - intros x. rewrite app_nil_r. set_solver.
    - set_solver.
    - done.
    - done.
    - set_solver.
    - set_solver.
    - change (visit_nodes [visit_start start]) with (@nil string). cbv iota.
      unfold add_to_path. rewrite filter_cons, filter_nil.
      case_bool_decide as Hn.
      + rewrite decide_False; [done |]. by intros ?.
      + rewrite decide_True by done.
        rewrite bool_decide_false; [done | by intros ?%elem_of_nil]. }
  destruct Hshown as (_ & _ & _ & Hhd & _ & Hvis & Hq & Hp).
  rewrite app_nil_r in Hhd.
  rewrite fmap_app. cbn [fmap list_fmap]. rewrite play_snoc.
  cbn [show_event].
  split_and!.
  - done.
  - rewrite Hvis. destruct (visit_nodes animations') as [|x l]; [done |].
    injection Hhd as ->. set_solver.
  - rewrite Hq. set_solver.
  - rewrite Hp. by destruct (visit_nodes animations').
  - apply play_traversal_keeps.
  - apply play_traversal_keeps.
Qed.

End Shown.

(** A traversal run from a state of the component and played to its
    end. *)
Lemma worklist_playback (push : string → list string → list string)
    (ev : string → GraphTraversal.animation)
    (order : list string → list string) (st : state) :
  (∀ v w, push v w ≡ₚ v :: w) →
  (∀ l, order l ≡ₚ l) →
  (∀ v, visit_nodes [ev v] = []) →
  (∀ v s, show_event (Traversal (ev v)) s
          = set_queuedNodes ({[v]} ∪ queuedNodes s) s) →
  ∃ a nodes,
    worklist_loop push ev order (enough_fuel (adjList st)) (adjList st)
      [startNode st] {[startNode st]} [visit_start (startNode st)] = Some a ∧
    NoDup nodes ∧ head nodes = Some (startNode st) ∧
    (∀ v, v ∈ nodes ↔ reachable (adjList st) (startNode st) v) ∧
    let st1 := start_playback (Traversal <$> (a ++ [complete]))
                 (reset_display st) in
    let st2 := run_timers (length (animationsRef st1)) st1 in
    isTraversing st2 = false ∧ timer st2 = false ∧
    explanation st2 = TraversalComplete ∧
    visitedNodes st2 = list_to_set nodes ∧
    queuedNodes st2 = ∅ ∧
    traversalPath st2 = filter (λ v, v ≠ "") nodes ∧
    finalPathNodes st2 = ∅ ∧ totalWeight st2 = Some 0.
Proof.
  intros Hpush Horder Hev Hshow.
  destruct (TraversalFacts.worklist_loop_spec push ev order Hpush Horder Hev
              (adjList st) (startNode st) (enough_fuel (adjList st))
              [startNode st] {[startNode st]} [visit_start (startNode st)]
              (TraversalFacts.initial_inv _ _)
              (TraversalFacts.initial_fuel _ _))
    as (vis & a & Hrun & Hinv & t & Ha).
  assert (visit_nodes a = visit_nodes t) as Hvn by (by rewrite Ha).
  rewrite Ha in Hinv. apply TraversalFacts.final_inv in Hinv as [Hnd Hreach].
  rewrite <- Hvn in Hnd, Hreach.
  exists a, (visit_nodes a). split; [done |].
  set (evs := Traversal <$> a ++ [complete]).
  set (s0 := set_animations evs (reset_display st)).
  destruct (traversal_shown_end push ev order Hpush Hev Hshow (adjList st)
              (startNode st) s0 a eq_refl eq_refl eq_refl
              ltac:(by eexists))
    as (Hhd & Hvis & Hq & Hp & Hf & Hw).
  split_and!; [done | done | done |]. cbv zeta.
  destruct (start_playback_plays (reset_display st) evs) as [e He].
  { unfold evs. rewrite fmap_app. by destruct (Traversal <$> a). }
  cbv zeta in He. rewrite He.
  cbn [isTraversing timer explanation visitedNodes queuedNodes traversalPath
       finalPathNodes totalWeight set_timer set_explanation set_isTraversing
       set_index playing].
  change (animationsRef (set_animations evs (reset_display st))) with evs.
  rewrite firstn_all. fold s0.
  split_and!; done.
Qed.

End GraphPlayback.



(** ** Playback of a run of a pathfinder *)

Module PathPlayback.
Import Graph GraphComponent.

Lemma play_edgeWeights l : ∀ s, edgeWeights (play s l) = edgeWeights s.
Proof.
  induction l as [|e l IH] using rev_ind; intros s; [done |].
  rewrite GraphPlayback.play_snoc. rewrite <- (IH s). by destruct e as [[]|[]].
Qed.

(** The events of a pathfinder add nothing to the traversal path. *)
Lemma play_pathfinding_path (l : list Graph.animation) s :
  traversalPath (play s (Pathfinding <$> l)) = traversalPath s.
Proof.
  induction l as [|a l IH] using rev_ind; [done |].
  rewrite fmap_app. cbn [fmap list_fmap]. rewrite GraphPlayback.play_snoc.
  rewrite <- IH. by destruct a.
Qed.

Lemma walk_end_node adjList edgeWeights s v p d :
  graph_closed adjList → is_Some (OMap.get adjList s) →
  walk adjList edgeWeights s v p d → is_Some (OMap.get adjList v).
Proof.
  intros Hclosed Hs. induction 1 as [| u v c p d _ _ (ns & Hns & Hv & _)];
    [done |].
  by eapply DijkstraFacts.neighbour_is_node.
Qed.

(** A trace that ends with [final_path] and [complete], played to its
    end. *)
Lemma pathfinder_playback (t : list Graph.animation) (p : list string)
    (st : state) :
  let st1 := start_playback
               (Pathfinding <$> ((t ++ [final_path p]) ++ [complete]))
               (reset_display st) in
  let st2 := run_timers (length (animationsRef st1)) st1 in
  isTraversing st2 = false ∧ timer st2 = false ∧
  explanation st2 = TraversalComplete ∧
  finalPathNodes st2 = list_to_set p ∧
  totalWeight st2 = Graph.totalWeight (edgeWeights st) p ∧
  traversalPath st2 = [].
Proof.
  cbv zeta.
  set (evs := Pathfinding <$> (t ++ [final_path p]) ++ [complete]).
  destruct (GraphPlayback.start_playback_plays (reset_display st) evs)
    as [e He].
  { unfold evs. intros Heq. apply (f_equal length) in Heq.
    rewrite length_fmap, length_app in Heq. simpl in Heq. lia. }
  cbv zeta in He. rewrite He.
  cbn [isTraversing timer explanation traversalPath finalPathNodes
       totalWeight set_timer set_explanation set_isTraversing set_index
       playing].
  change (animationsRef (set_animations evs (reset_display st))) with evs.
  rewrite firstn_all.
  set (s0 := set_animations evs (reset_display st)).
  split_and!; [done | done | done | | |].
  - unfold evs. rewrite !fmap_app. cbn [fmap list_fmap].
    by rewrite !GraphPlayback.play_snoc.
  - unfold evs. rewrite !fmap_app. cbn [fmap list_fmap].
    rewrite !GraphPlayback.play_snoc.
    cbn [show_event totalWeight set_totalWeight edgeWeights
         set_finalPathNodes].
    by rewrite play_edgeWeights.
  - unfold evs. by rewrite play_pathfinding_path.
Qed.

End PathPlayback.



(** ** Stability of bubble sort and insertion sort *)

Module StabilityFacts.

Lemma stable_output_get (out : list (Z * nat)) :
  stable_output out ↔
  ∀ p q x y, 0 ≤ p < q → Arr.get out p = Some x → Arr.get out q = Some y →
             x.1 = y.1 → (x.2 < y.2)%nat.
Proof.
  split.
  - intros Hst p q x y Hpq Hx Hy. rewrite get_lookup in Hx, Hy by lia.
    apply (Hst (Z.to_nat p) (Z.to_nat q)); [lia | done | done].
  - intros Hst i j x y Hij Hx Hy.
    apply (Hst (Z.of_nat i) (Z.of_nat j)); [lia | |];
      rewrite get_lookup by lia; by rewrite Nat2Z.id.
Qed.

Lemma tag_positions_stable (l : list Z) : stable_output (tag_positions l).
Proof.
  intros i j x y Hij Hx Hy _. unfold tag_positions in Hx, Hy.
  apply lookup_zip_with_Some in Hx as (a & n & -> & _ & Hn).
  apply lookup_zip_with_Some in Hy as (b & m & -> & _ & Hm).
  apply lookup_seq in Hn as [-> _]. apply lookup_seq in Hm as [-> _].
  simpl. lia.
Qed.

(** A comparison that asks for a move has two numbers that differ. *)
Lemma ord_gt_differ o (x y : option Z) :
  ord_gt o x y = true → ∃ a b, x = Some a ∧ y = Some b ∧ a ≠ b.
Proof.
  destruct x as [a|], y as [b|]; try (by destruct o).
  intros Hgt. exists a, b. split_and!; [done | done |].
  intros ->. apply ord_gt_true in Hgt. apply Hgt, leo_refl.
Qed.

(** Two neighbours of different keys change places. *)
Lemma swap_adjacent_stable (out : list (Z * nat)) j a b :
  stable_output out →
  Arr.get out j = Some a → Arr.get out (j + 1) = Some b → a.1 ≠ b.1 →
  stable_output (Arr.swap out j (j + 1)).
Proof.
  rewrite !stable_output_get. intros Hst Ha Hb Hne p q x y Hpq.
  pose proof (get_Some_range _ _ _ Ha). pose proof (get_Some_range _ _ _ Hb).
  rewrite !get_swap by lia.
  repeat case_decide; subst; rewrite ?Ha, ?Hb; intros Hx Hy;
    try lia; try (injection Hx as <-); try (injection Hy as <-);
    try (intros Heq; by destruct Hne);
    first [ apply (Hst j q a y); [lia | done | done]
          | apply (Hst (j + 1) q b y); [lia | done | done]
          | apply (Hst p j x a); [lia | done | done]
          | apply (Hst p (j + 1) x b); [lia | done | done]
          | apply (Hst p q x y); [lia | done | done] ].
Qed.

Lemma shift_swap {A} (arr : list A) j a k :
  0 ≤ j → j + 1 < Arr.len arr → Arr.get arr j = Some a →
  Arr.set (Arr.set arr (j + 1) a) j k
  = Arr.swap (Arr.set arr (j + 1) k) j (j + 1).
Proof.
  intros Hj Hlen Ha. apply arr_ext.
  - by rewrite swap_len, !set_len.
  - intros i. rewrite get_swap by (rewrite set_len; lia).
    rewrite !get_set by (rewrite ?set_len; lia).
    repeat case_decide; try lia; done.
Qed.

Lemma bubbleSort_stable (array : list (Z * nat)) o :
  stable_output array →
  stable_output (finalArray (bubbleSort fst array o)).
Proof.
  intros Hst. unfold bubbleSort.
  destruct (for_range 0 (Arr.len array - 1) _ _) as [arr anims] eqn:Hloop.
  simpl. change arr with (arr, anims).1. rewrite <- Hloop. clear Hloop.
  apply (for_range_pres (λ st, stable_output st.1)); [| done].
  intros i [a t] _ Ha. simpl in Ha.
  destruct (for_range 0 _ _ _) as [a' t'] eqn:Hin. simpl.
  change a' with (a', t').1. rewrite <- Hin. clear Hin.
  apply (for_range_pres (λ st, stable_output st.1)); [| done].
  intros j [a1 t1] _ Ha1. simpl in Ha1.
  destruct (ord_gt o _ _) eqn:Hgt; simpl; [| done].
  apply ord_gt_differ in Hgt as (x & y & Hx & Hy & Hne).
  unfold key in Hx, Hy.
  destruct (Arr.get a1 j) as [ej|] eqn:Hj; [| done].
  destruct (Arr.get a1 (j + 1)) as [ej1|] eqn:Hj1; [| done].
  simpl in Hx, Hy. injection Hx as <-. injection Hy as <-.
  by eapply swap_adjacent_stable.
Qed.

Lemma insertionSort_stable (array : list (Z * nat)) o r :
  stable_output array →
  insertionSort fst array o = Some r →
  stable_output (finalArray r).
Proof.
  intros Hst. unfold insertionSort.
  destruct (for_rangeM 1 (Arr.len array) _ _) as [[arr anims]|] eqn:Hloop;
    [| done].
  simpl. intros [= <-]. simpl.
  apply (for_rangeM_pres
           (λ st, Arr.len st.1 = Arr.len array ∧ stable_output st.1))
    in Hloop; [by destruct Hloop | | done].
  intros i [a t] [a' t'] Hi Hbody [Hlen Ha]. simpl in Hlen, Ha.
  destruct (Arr.get a i) as [k|] eqn:Hk; [| done]. simpl in Hbody.
  destruct (insertionSort_shift fst o _ k i _) as [[[a1 t1] j1]|] eqn:Hsh;
    [| done].
  simpl in Hbody. injection Hbody as <- <-. simpl.
  unfold insertionSort_shift in Hsh.
  apply (while_do_pres
           (λ '(a2, t2, j2), Arr.len a2 = Arr.len array ∧ j2 + 1 ≤ i ∧
                             stable_output (Arr.set a2 (j2 + 1) k))) in Hsh.
  - simpl in Hsh. destruct Hsh as [(Hlen1 & Hj1 & Hs1) _].
    split; [by rewrite set_len | done].
  - intros [[a2 t2] j2] [[a3 t3] j3] Hcond Hstep (Hlen2 & Hj2 & Hs2).
    apply andb_true_iff in Hcond as [Hj0%Z.leb_le Hgt].
    destruct (Arr.get a2 j2) as [aj|] eqn:Haj; [| done].
    simpl in Hstep. injection Hstep as <- <- <-.
    split; [by rewrite set_len |]. split; [lia |].
    replace (j2 - 1 + 1) with j2 by lia.
    rewrite shift_swap by (done || lia).
    apply ord_gt_differ in Hgt as (x & y & Hx & Hy & Hne).
    unfold key in Hx. rewrite Haj in Hx. simpl in Hx.
    injection Hx as <-. injection Hy as <-.
    apply (swap_adjacent_stable _ j2 aj k); [done | | | done].
    + rewrite get_set by lia. case_decide; [lia | done].
    + rewrite get_set by lia. by case_decide.
  - split; [done |]. split; [lia |].
    replace (i - 1 + 1) with i by lia. by rewrite set_same.
Qed.

End StabilityFacts.

(** X22. Bubble sort and insertion sort are stable, in both orders: run
    on the numbers of any array, each tagged with its position, they
    return the tagged numbers sorted by their values, and equal numbers
    come out in the order in which they went in.  (Merge sort is not:
    on a tie its [merge] takes the element of the right run.) *)
Theorem bubble_and_insertion_sort_are_stable
    (array : list Z) (sortOrder : sort_order) :
  (let r := bubbleSort fst (tag_positions array) sortOrder in
   stable_output (finalArray r) ∧
   sorted_by fst sortOrder (finalArray r) ∧
   finalArray r ≡ₚ tag_positions array) ∧
  (∃ r, insertionSort fst (tag_positions array) sortOrder = Some r ∧
        stable_output (finalArray r) ∧
        sorted_by fst sortOrder (finalArray r) ∧
        finalArray r ≡ₚ tag_positions array).
Proof.
  split.
  - cbv zeta. split.
    + apply StabilityFacts.bubbleSort_stable,
        StabilityFacts.tag_positions_stable.
    + apply (bubbleSort_sorted_perm fst sortOrder (tag_positions array)).
  - destruct (insertionSort_sorted_perm fst sortOrder (tag_positions array))
      as (r & Hr & Hsorted & Hperm).
    exists r. split_and!; try done.
    eapply StabilityFacts.insertionSort_stable; [| done].
    apply StabilityFacts.tag_positions_stable.
Qed.

(** ** Playback of a search in the tree *)

Module TreeSearchFacts.
Import Tree TreeOps TreeSearch.

Section Playback.
Context (evs : list animation).
Context (Hpath : ∀ e, e ∈ evs → pathAdd e = None).

(** The playback has shown the first [m] events of the trace, the last
    of them being on screen, and waits for the timer. *)
Local Abbreviation shown m st :=
  (animationsRef st = evs ∧
   currentAnimationIndexRef st = Z.of_nat m ∧
   traversalPath st = [] ∧
   isAnimating st = true ∧
   timer st = true ∧
   ∃ e, evs !! pred m = Some e ∧ explanation st = TextOf e ∧
        highlightedNodes st = highlight_of e).

Lemma runAnimationStep_search m st :
  animationsRef st = evs →
  currentAnimationIndexRef st = Z.of_nat m →
  traversalPath st = [] →
  isAnimating st = true →
  (m < length evs)%nat →
  shown (S m) (runAnimationStep st).
Proof.
  intros Ht Hi Hp Ha Hm.
  destruct (lookup_lt_is_Some_2 evs m Hm) as [e He].
  unfold runAnimationStep. rewrite Ht, Hi.
  destruct (Z.leb_spec (Arr.len evs) (Z.of_nat m)) as [Hge | _].
  { unfold Arr.len in Hge. lia. }
  rewrite get_lookup, Nat2Z.id by lia. rewrite He.
  assert (pathAdd e = None) as Hnone
    by (apply Hpath; by eapply list_elem_of_lookup_2).
  unfold highlight_of. rewrite Hp.
  destruct e as [ty nd pa]. simpl in Hnone. subst pa.
  destruct ty; cbn; split_and!; try done; try lia; by eexists.
Qed.

Lemma run_timers_search j : ∀ m st,
  shown m st → (m + j ≤ length evs)%nat → shown (m + j)%nat (run_timers j st).
Proof.
  induction j as [|j IH]; intros m st Hs Hm.
  - by rewrite Nat.add_0_r.
  - cbn [run_timers]. replace (m + S j)%nat with (S m + j)%nat by lia.
    apply IH; [| lia]. destruct Hs as (Ht & Hi & Hp & Ha & Htm & _).
    unfold timer_fires. rewrite Htm.
    apply runAnimationStep_search; try done. lia.
Qed.

Lemma runAnimationStep_search_end st :
  shown (length evs) st →
  let st' := runAnimationStep st in
  isAnimating st' = false ∧
  explanation st' = Message "Animation complete." ∧
  highlightedNodes st' = [] ∧
  traversalPath st' = [].
Proof.
  intros (Ht & Hi & Hp & Ha & Htm & _). unfold runAnimationStep.
  rewrite Ht, Hi. unfold Arr.len. rewrite Z.leb_refl. by simpl.
Qed.

End Playback.
End TreeSearchFacts.

(** X23. A search started by [handleSearch] on a tree built from a
    non-empty sequence of numbers plays to its end.  When the timer has
    fired once for each event but the last, the last event is on
    screen: [found], with the value highlighted, when the value is among
    the numbers, and [not_found], with no highlight, when it is not.
    One timer later the animation flag is off, nothing is highlighted
    and the explanation says that the animation is complete, so the
    outcome of the search is on screen for one delay only.  The
    traversal path stays empty. *)
Theorem handleSearch_tree_playback
    (parseInt : string → option Z) (st : TreeOps.state) (vs : list Z)
    (searchValue : string) (v : Z) :
  TreeOps.isAnimating st = false →
  vs ≠ [] →
  TreeOps.tree_root st = foldl Tree.insert Tree.Null vs →
  parseInt searchValue = Some v →
  let st1 := TreeSearch.handleSearch parseInt searchValue st in
  let n := length (TreeOps.animationsRef st1) in
  let st2 := TreeOps.run_timers (n - 1) st1 in
  let st3 := TreeOps.run_timers n st1 in
  TreeOps.isAnimating st2 = true ∧
  TreeOps.explanation st2
  = TreeOps.TextOf
      (if bool_decide (v ∈ vs)
       then TreeOps.Anim TreeOps.found (Some v) None
       else TreeOps.Anim TreeOps.not_found None None) ∧
  TreeOps.highlightedNodes st2 = (if bool_decide (v ∈ vs) then [v] else []) ∧
  TreeOps.isAnimating st3 = false ∧
  TreeOps.explanation st3 = TreeOps.Message "Animation complete." ∧
  TreeOps.highlightedNodes st3 = [] ∧
  TreeOps.traversalPath st3 = [].
Proof.
  intros Ha Hne Htree Hparse. unfold TreeSearch.handleSearch.
  rewrite Ha, Hparse.
  assert (Tree.values (TreeOps.tree_root st) ≡ₚ vs) as Hperm
    by (by rewrite Htree, BuildFacts.tree_build_values).
  destruct (TreeFacts.search_spec (TreeOps.tree_root st) v
              ltac:(rewrite Htree; apply (TreeFacts.build_bst vs Tree.Null I))
              []) as [path Hsearch].
  assert (v ∈ Tree.values (TreeOps.tree_root st) ↔ v ∈ vs) as Hiff
    by (by rewrite Hperm).
  rewrite (bool_decide_ext _ _ Hiff) in Hsearch.
  destruct (TreeOps.tree_root st) as [|x tl tr] eqn:Ht.
  { simpl in Hperm. apply Permutation_nil_l in Hperm. done. }
  rewrite Hsearch. cbn [fst app].
  set (final := if bool_decide (v ∈ vs)
                then TreeOps.Anim TreeOps.found (Some v) None
                else TreeOps.Anim TreeOps.not_found None None).
  set (evs := ((λ y, TreeOps.Anim TreeOps.highlight (Some y) None) <$> path)
              ++ [final]).
  set (s0 := TreeOps.State _ _ _ _ _ _ _ _ _).
  assert (∀ e, e ∈ evs → TreeOps.pathAdd e = None) as Hnp.
  { intros e [Hin | ->%list_elem_of_singleton]%elem_of_app.
    - apply list_elem_of_fmap in Hin as (y & -> & _). done.
    - unfold final. by case_bool_decide. }
  assert (0 < length evs)%nat as Hlen
    by (unfold evs; rewrite length_app; simpl; lia).
  pose proof (TreeSearchFacts.runAnimationStep_search evs Hnp 0 s0
                eq_refl eq_refl eq_refl eq_refl Hlen) as Hs1.
  cbv zeta.
  assert (TreeOps.animationsRef (TreeOps.runAnimationStep s0) = evs) as ->
    by (by destruct Hs1).
  pose proof (TreeSearchFacts.run_timers_search evs Hnp (length evs - 1) 1 _
                Hs1 ltac:(lia)) as Hs2.
  replace (1 + (length evs - 1))%nat with (length evs) in Hs2 by lia.
  remember (length evs - 1)%nat as k eqn:Hk.
  assert (length evs = S k) as Hlen' by lia.
  rewrite Hlen'. rewrite !TreeFacts.tree_run_timers_S_r.
  unfold TreeOps.timer_fires.
  assert (TreeOps.timer (TreeOps.run_timers k
                           (TreeOps.runAnimationStep s0)) = true) as ->
    by (by destruct Hs2 as (_ & _ & _ & _ & ? & _)).
  destruct (TreeSearchFacts.runAnimationStep_search_end evs _ Hs2)
    as (H1 & H2 & H3 & H4).
  destruct Hs2 as (_ & _ & _ & Hanim & _ & e & He & Hex & Hhl).
  assert (e = final) as ->.
  { rewrite Hlen' in Hk. unfold evs in He, Hlen'.
    rewrite length_app in He, Hlen'. simpl in He, Hlen'.
    replace (pred (length ((λ y, TreeOps.Anim TreeOps.highlight (Some y) None)
                             <$> path) + 1))
      with (length ((λ y, TreeOps.Anim TreeOps.highlight (Some y) None)
                      <$> path) + 0)%nat in He by lia.
    rewrite lookup_app_r, Nat.add_0_r, Nat.sub_diag in He by lia.
    by injection He. }
  split_and!; try done.
  rewrite Hhl. unfold final. by case_bool_decide.
Qed.

Lemma handleSearch_tree_playback_witness :
  let st1 := TreeSearch.handleSearch parseInt_example "7"
               (TreeOps.State (foldl Tree.insert Tree.Null [5; 7; 8]) false
                  (TreeOps.Message "built") [] TreeOps.inOrder [] [] 0 false) in
  let n := length (TreeOps.animationsRef st1) in
  let st2 := TreeOps.run_timers (n - 1) st1 in
  let st3 := TreeOps.run_timers n st1 in
  TreeOps.isAnimating st2 = true ∧
  TreeOps.explanation st2
  = TreeOps.TextOf
      (if bool_decide (7 ∈ [5; 7; 8])
       then TreeOps.Anim TreeOps.found (Some 7) None
       else TreeOps.Anim TreeOps.not_found None None) ∧
  TreeOps.highlightedNodes st2
  = (if bool_decide (7 ∈ [5; 7; 8]) then [7] else []) ∧
  TreeOps.isAnimating st3 = false ∧
  TreeOps.explanation st3 = TreeOps.Message "Animation complete." ∧
  TreeOps.highlightedNodes st3 = [] ∧
  TreeOps.traversalPath st3 = [].
Proof.
  apply (handleSearch_tree_playback parseInt_example
           (TreeOps.State (foldl Tree.insert Tree.Null [5; 7; 8]) false
              (TreeOps.Message "built") [] TreeOps.inOrder [] [] 0 false)
           [5; 7; 8] "7" 7).
  - reflexivity.
  - discriminate.
  - reflexivity.
  - reflexivity.
Defined.

(** ** Playback in the linked-list component *)

Module ListPlayback.
Import ListComponent.

Lemma list_run_timers_S_r k st :
  run_timers (S k) st = timer_fires (run_timers k st).
Proof.
  revert st. induction k as [|k IH]; intros st; [done |].
  change (run_timers (S (S k)) st) with (run_timers (S k) (timer_fires st)).
  by rewrite IH.
Qed.

Section Playback.
Context (evs : list LinkedList.animation).
Context (h : LinkedList.store) (hd : option LinkedList.ref).

(** The playback has shown the first [m] events of the trace, the last
    of them being on screen, and waits for the timer. *)
Local Abbreviation shown m st :=
  (animationsRef st = evs ∧
   currentAnimationIndexRef st = Z.of_nat m ∧
   nodes st = h ∧ head st = hd ∧
   isAnimating st = true ∧
   timer st = true ∧
   ∃ e, evs !! pred m = Some e ∧ explanation st = TextOf e ∧
        highlightedNode st = highlight_of e).

Lemma runAnimationStep_list m st :
  animationsRef st = evs →
  currentAnimationIndexRef st = Z.of_nat m →
  nodes st = h → head st = hd →
  isAnimating st = true →
  (m < length evs)%nat →
  shown (S m) (runAnimationStep st).
Proof.
  intros Ht Hi Hn Hh Ha Hm.
  destruct (lookup_lt_is_Some_2 evs m Hm) as [e He].
  unfold runAnimationStep. rewrite Ht, Hi.
  destruct (Z.leb_spec (Arr.len evs) (Z.of_nat m)) as [Hge | _].
  { unfold Arr.len in Hge. lia. }
  rewrite get_lookup, Nat2Z.id by lia. rewrite He.
  cbn. split_and!; try done; try lia. by eexists.
Qed.

Lemma run_timers_list j : ∀ m st,
  shown m st → (m + j ≤ length evs)%nat → shown (m + j)%nat (run_timers j st).
Proof.
  induction j as [|j IH]; intros m st Hs Hm.
  - by rewrite Nat.add_0_r.
  - cbn [run_timers]. replace (m + S j)%nat with (S m + j)%nat by lia.
    apply IH; [| lia]. destruct Hs as (Ht & Hi & Hn & Hh & Ha & Htm & _).
    unfold timer_fires. rewrite Htm.
    apply runAnimationStep_list; try done. lia.
Qed.

(** The whole playback of a trace that is not empty, from the state in
    which a handler calls [runAnimationStep]. *)
Lemma list_playback st e :
  animationsRef st = evs →
  currentAnimationIndexRef st = 0 →
  nodes st = h → head st = hd →
  isAnimating st = true →
  last evs = Some e →
  let st1 := runAnimationStep st in
  let st2 := run_timers (length evs - 1) st1 in
  let st3 := run_timers (length evs) st1 in
  animationsRef st1 = evs ∧ nodes st1 = h ∧ head st1 = hd ∧
  isAnimating st2 = true ∧ explanation st2 = TextOf e ∧
  highlightedNode st2 = highlight_of e ∧
  isAnimating st3 = false ∧
  explanation st3 = Message "Animation complete." ∧
  highlightedNode st3 = None ∧
  nodes st3 = h ∧ head st3 = hd.
Proof.
  intros Ht Hi Hn Hh Ha Hlast. cbv zeta.
  assert (0 < length evs)%nat as Hlen.
  { destruct evs; [done | simpl; lia]. }
  pose proof (runAnimationStep_list 0 st Ht Hi Hn Hh Ha Hlen) as Hs1.
  set (st1 := runAnimationStep st) in *. clearbody st1.
  pose proof (run_timers_list (length evs - 1) 1 _ Hs1 ltac:(lia)) as Hs2.
  replace (1 + (length evs - 1))%nat with (length evs) in Hs2 by lia.
  remember (length evs - 1)%nat as k eqn:Hk.
  assert (length evs = S k) as Hlen' by lia.
  rewrite Hlen'. rewrite list_run_timers_S_r.
  destruct Hs1 as (Ht1 & _ & Hn1 & Hh1 & _).
  destruct Hs2 as (Ht2 & Hi2 & Hn2 & Hh2 & Ha2 & Htm2 & e' & He' & Hex & Hhl).
  rewrite last_lookup in Hlast. rewrite Hlast in He'. injection He' as <-.
  unfold timer_fires. rewrite Htm2. unfold runAnimationStep.
  rewrite Ht2, Hi2. unfold Arr.len. rewrite Z.leb_refl. cbn.
  by split_and!.
Qed.

End Playback.
End ListPlayback.

(** X24. A search started by [handleSearch] on a list built from a
    non-empty sequence of numbers plays to its end and leaves the list
    as it is.  When the timer has fired once for each event but the
    last, the last event is on screen: [found], with the value
    highlighted, when the value is among the numbers, and [not_found],
    with no highlight, when it is not.  One timer later the animation
    flag is off, nothing is highlighted and the explanation says that
    the animation is complete. *)
Theorem handleSearch_list_playback
    (parseInt : string → option Z) (st : ListComponent.state)
    (values : list Z) (searchValue : string) (v : Z) :
  ListComponent.isAnimating st = false →
  values ≠ [] →
  LinkedList.insert_all values (ListComponent.listType st)
    = Some (ListComponent.nodes st, ListComponent.head st) →
  parseInt searchValue = Some v →
  ∃ st1,
    ListComponent.handleSearch parseInt searchValue st = Some st1 ∧
    let n := length (ListComponent.animationsRef st1) in
    let st2 := ListComponent.run_timers (n - 1) st1 in
    let st3 := ListComponent.run_timers n st1 in
    ListComponent.isAnimating st2 = true ∧
    ListComponent.explanation st2
    = ListComponent.TextOf
        (if bool_decide (v ∈ values)
         then LinkedList.Anim LinkedList.found (Some v)
         else LinkedList.Anim LinkedList.not_found None) ∧
    ListComponent.highlightedNode st2
    = (if bool_decide (v ∈ values) then Some v else None) ∧
    ListComponent.isAnimating st3 = false ∧
    ListComponent.explanation st3
    = ListComponent.Message "Animation complete." ∧
    ListComponent.highlightedNode st3 = None ∧
    ListComponent.shown_values st3 = values.
Proof.
  intros Ha Hne Hbuild Hparse.
  destruct (BuildFacts.insert_all_spec values (ListComponent.listType st))
    as (h & Hb & Hc & Hv).
  rewrite Hb in Hbuild. injection Hbuild as Hn Hh.
  assert (0 < length h)%nat as Hlen.
  { rewrite <- (length_fmap LinkedList.value), Hv.
    destruct values; [done | simpl; lia]. }
  unfold ListComponent.handleSearch. rewrite Ha, <- Hh, <- Hn.
  unfold head_of at 1. rewrite decide_True by done.
  rewrite Hparse.
  pose proof (ListFacts.searchList_chain h v Hc (S (length h)) 0 []
                ltac:(lia)) as Hs.
  rewrite decide_True in Hs by done. rewrite drop_0, Hv in Hs.
  assert (head_of h = Some 0%nat) as Hhd
    by (unfold head_of; by rewrite decide_True).
  rewrite <- Hhd in Hs. rewrite Hs.
  set (final := if bool_decide (v ∈ values)
                then LinkedList.Anim LinkedList.found (Some v)
                else LinkedList.Anim LinkedList.not_found None).
  assert (∃ evs b,
            match list_find (λ x, x = v) values with
            | Some (d, _) =>
                ([] ++ ((λ x, LinkedList.Anim LinkedList.highlight (Some x))
                          <$> take (S d) values) ++
                 [LinkedList.Anim LinkedList.found (Some v)], true)
            | None =>
                ([] ++ ((λ x, LinkedList.Anim LinkedList.highlight (Some x))
                          <$> values) ++
                 [LinkedList.Anim LinkedList.not_found None], false)
            end = (evs, b) ∧ last evs = Some final) as (evs & b & -> & Hlast).
  { unfold final. destruct (list_find _ values) as [[d y]|] eqn:Hfind.
    - apply list_find_Some in Hfind as (Hd & -> & _).
      rewrite bool_decide_true by (by eapply list_elem_of_lookup_2).
      eexists _, _. split; [done |]. simpl. by rewrite last_snoc.
    - rewrite bool_decide_false.
      + eexists _, _. split; [done |]. simpl. by rewrite last_snoc.
      + intros Hin. apply list_find_None in Hfind.
        rewrite Forall_forall in Hfind. by apply (Hfind v). }
  simpl.
  set (s0 := ListComponent.State _ _ _ _ _ _ _ _ _).
  eexists. split; [done |].
  destruct (ListPlayback.list_playback evs h (head_of h) s0 final
              eq_refl eq_refl eq_refl eq_refl eq_refl Hlast)
    as (H1 & H2 & H3 & H4 & H5 & H6 & H7 & H8 & H9 & H10 & H11).
  cbv zeta. rewrite H1. split_and!; try done.
  - rewrite H6. unfold final. by case_bool_decide.
  - unfold ListComponent.shown_values. rewrite H10, H11.
    pose proof (BuildFacts.to_list_chain h Hc (length h) 0 ltac:(lia)) as Hl.
    rewrite decide_True in Hl by done. unfold head_of.
    rewrite decide_True by done. by rewrite Hl, drop_0.
Qed.

Lemma handleSearch_list_playback_witness :
  ∃ st1,
    ListComponent.handleSearch parseInt_list_example "20" list_state_example
      = Some st1 ∧
    let n := length (ListComponent.animationsRef st1) in
    let st2 := ListComponent.run_timers (n - 1) st1 in
    let st3 := ListComponent.run_timers n st1 in
    ListComponent.isAnimating st2 = true ∧
    ListComponent.explanation st2
    = ListComponent.TextOf
        (if bool_decide (20 ∈ [10; 20; 30])
         then LinkedList.Anim LinkedList.found (Some 20)
         else LinkedList.Anim LinkedList.not_found None) ∧
    ListComponent.highlightedNode st2
    = (if bool_decide (20 ∈ [10; 20; 30]) then Some 20 else None) ∧
    ListComponent.isAnimating st3 = false ∧
    ListComponent.explanation st3
    = ListComponent.Message "Animation complete." ∧
    ListComponent.highlightedNode st3 = None ∧
    ListComponent.shown_values st3 = [10; 20; 30].
Proof.
  apply (handleSearch_list_playback parseInt_list_example list_state_example
           [10; 20; 30] "20" 20).
  - reflexivity.
  - discriminate.
  - reflexivity.
  - reflexivity.
Defined.

(** X25. A deletion started by [handleDelete] on a list built from a
    non-empty sequence of numbers changes the list at once: from the
    first event of the playback on, the list shown is the sequence
    without the first occurrence of the value (the same sequence when
    the value does not occur).  When the timer has fired once for each
    event but the last, the last event is on screen, [delete_head],
    [delete] or [not_found], with no highlight; one timer later the
    animation flag is off and the explanation says that the animation is
    complete. *)
Theorem handleDelete_list_playback
    (parseInt : string → option Z) (st : ListComponent.state)
    (values : list Z) (deleteValue : string) (v : Z) :
  ListComponent.isAnimating st = false →
  values ≠ [] →
  LinkedList.insert_all values (ListComponent.listType st)
    = Some (ListComponent.nodes st, ListComponent.head st) →
  parseInt deleteValue = Some v →
  ∃ st1,
    ListComponent.handleDelete parseInt deleteValue st = Some st1 ∧
    let n := length (ListComponent.animationsRef st1) in
    let st2 := ListComponent.run_timers (n - 1) st1 in
    let st3 := ListComponent.run_timers n st1 in
    ListComponent.shown_values st1 = without_first v values ∧
    ListComponent.isAnimating st2 = true ∧
    ListComponent.explanation st2
    = ListComponent.TextOf (delete_event v values) ∧
    ListComponent.highlightedNode st2 = None ∧
    ListComponent.isAnimating st3 = false ∧
    ListComponent.explanation st3
    = ListComponent.Message "Animation complete." ∧
    ListComponent.highlightedNode st3 = None ∧
    ListComponent.shown_values st3 = without_first v values.
Proof.
  intros Ha Hne Hbuild Hparse.
  destruct (BuildFacts.insert_all_spec values (ListComponent.listType st))
    as (h & Hb & Hc & Hv).
  rewrite Hb in Hbuild. injection Hbuild as Hn Hh.
  assert (0 < length h)%nat as Hlen.
  { rewrite <- (length_fmap LinkedList.value), Hv.
    destruct values; [done | simpl; lia]. }
  unfold ListComponent.handleDelete. rewrite Ha, <- Hh, <- Hn.
  unfold head_of at 1. rewrite decide_True by done.
  rewrite Hparse.
  destruct (ListFacts.deleteNode_chain_to_list h v
              (ListComponent.listType st) Hc)
    as (h' & evs & hd' & Hrun & Hlast & Hlist & _).
  rewrite Hv in Hlast, Hlist. rewrite Hrun. simpl.
  set (s0 := ListComponent.State _ _ _ _ _ _ _ _ _).
  eexists. split; [done |].
  destruct (ListPlayback.list_playback evs h' hd' s0 (delete_event v values)
              eq_refl eq_refl eq_refl eq_refl eq_refl Hlast)
    as (H1 & H2 & H3 & H4 & H5 & H6 & H7 & H8 & H9 & H10 & H11).
  cbv zeta. rewrite H1. unfold ListComponent.shown_values.
  rewrite H2, H3, H10, H11. split_and!; try done.
  rewrite H6. unfold delete_event.
  by destruct (list_find _ values) as [[[|k] y]|].
Qed.

Lemma handleDelete_list_playback_witness :
  ∃ st1,
    ListComponent.handleDelete parseInt_list_example "20" list_state_example
      = Some st1 ∧
    let n := length (ListComponent.animationsRef st1) in
    let st2 := ListComponent.run_timers (n - 1) st1 in
    let st3 := ListComponent.run_timers n st1 in
    ListComponent.shown_values st1 = without_first 20 [10; 20; 30] ∧
    ListComponent.isAnimating st2 = true ∧
    ListComponent.explanation st2
    = ListComponent.TextOf (delete_event 20 [10; 20; 30]) ∧
    ListComponent.highlightedNode st2 = None ∧
    ListComponent.isAnimating st3 = false ∧
    ListComponent.explanation st3
    = ListComponent.Message "Animation complete." ∧
    ListComponent.highlightedNode st3 = None ∧
    ListComponent.shown_values st3 = without_first 20 [10; 20; 30].
Proof.
  apply (handleDelete_list_playback parseInt_list_example list_state_example
           [10; 20; 30] "20" 20).
  - reflexivity.
  - discriminate.
  - reflexivity.
  - reflexivity.
Defined.

(** ** Breadth-first traversal visits by distance *)

Module BfsLevels.
Import Graph GraphTraversal.

Lemma sorted_snoc (l : list nat) c :
  StronglySorted le l → (∀ b, b ∈ l → (b ≤ c)%nat) →
  StronglySorted le (l ++ [c]).
Proof.
  induction 1 as [|x l Hs IH Hx]; intros Hle; simpl.
  - repeat constructor.
  - constructor.
    + apply IH. intros b Hb. apply Hle. by right.
    + rewrite Forall_app. split; [done |].
      constructor; [| constructor]. apply Hle. by left.
Qed.

Lemma hops_zero adjList s v : hops adjList s v 0 → v = s.
Proof. by inversion 1. Qed.

Section Levels.
Context (adjList : OMap.t (list string)) (s : string).

Local Abbreviation Levels := (bfs_levels adjList s).

Lemma levels_init : Levels 0 [] [] [s] {[s]}.
Proof.
  exists [], [0%nat]. split_and!.
  - constructor.
  - constructor; [| constructor]. split; [constructor | lia].
  - constructor.
  - repeat constructor.
  - intros a Ha. by apply elem_of_nil in Ha.
  - intros b ->%list_elem_of_singleton. lia.
  - intros x. rewrite elem_of_singleton, list_elem_of_singleton.
    split; [by right | by intros [?%elem_of_nil | ?]].
  - intros v m Hv Hm. assert (m = 0%nat) as -> by lia.
    apply hops_zero in Hv as ->. by apply elem_of_singleton.
  - intros w ns v Hw. by apply elem_of_nil in Hw.
Qed.

(** [queue.shift()]: the node taken is at the least distance of the
    queue. *)
Lemma levels_pop lu popped u queue visited :
  Levels lu popped popped (u :: queue) visited →
  ∃ b, hops adjList s u b ∧
       Levels b popped (popped ++ [u]) queue visited.
Proof.
  intros (lp & lq & Hp & Hq & Hsp & Hsq & Hlp & Hlq & Hvis & Hnear & Hdone).
  apply Forall2_cons_inv_l in Hq as (b & lq' & [Hub Hmin] & Hq & ->).
  apply StronglySorted_inv in Hsq as [Hsq Hb].
  rewrite Forall_forall in Hb.
  pose proof (Hlq b ltac:(by left)) as Hbb.
  exists b. split; [done |].
  exists (lp ++ [b]), lq'. split_and!.
  - apply Forall2_app; [done |]. by repeat constructor.
  - done.
  - apply sorted_snoc; [done |]. intros a Ha. specialize (Hlp a Ha). lia.
  - done.
  - intros a [Ha | ->%list_elem_of_singleton]%elem_of_app; [| lia].
    specialize (Hlp a Ha). lia.
  - intros c Hc. specialize (Hb c Hc). specialize (Hlq c ltac:(by right)). lia.
  - intros x. rewrite Hvis, elem_of_app, elem_of_cons, list_elem_of_singleton.
    tauto.
  - intros v m Hv Hm. destruct (decide (m ≤ lu)%nat) as [Hle | Hgt];
      [by eapply Hnear |].
    assert (m = S lu) as -> by lia. assert (b = S lu) as -> by lia.
    inversion Hv as [| w v' n ns Hw Hget Hin]; subst.
    pose proof (Hnear w lu Hw ltac:(lia)) as Hwv.
    apply Hvis in Hwv as [Hwp | Hwq].
    + by eapply Hdone.
    + exfalso. apply elem_of_cons in Hwq as [-> | Hwq].
      * specialize (Hmin lu Hw). lia.
      * apply list_elem_of_lookup in Hwq as [i Hi].
        destruct (Forall2_lookup_l _ _ _ _ _ Hq Hi) as (c & Hc & [_ Hcmin]).
        specialize (Hcmin lu Hw).
        specialize (Hb c ltac:(by eapply list_elem_of_lookup_2)). lia.
  - done.
Qed.

(** The body of [for (const v of adjList.get(u))]. *)
Lemma levels_neighbour b done popped u neighbours queue visited animations v :
  hops adjList s u b →
  OMap.get adjList u = Some neighbours → v ∈ neighbours →
  Levels b done popped queue visited →
  let '(queue', visited', animations') :=
    bfs_neighbour (queue, visited, animations) v in
  Levels b done popped queue' visited' ∧
  visit_nodes animations' = visit_nodes animations ∧
  v ∈ visited' ∧ visited ⊆ visited'.
Proof.
  intros Hu Hget Hv Hl. unfold bfs_neighbour. case_bool_decide as Hvis.
  { by split_and!. }
  split_and!; [| | set_solver | set_solver].
  2: { rewrite TraversalFacts.visit_nodes_app. simpl. by rewrite app_nil_r. }
  destruct Hl
    as (lp & lq & Hp & Hq & Hsp & Hsq & Hlp & Hlq & Hv' & Hnear & Hdone).
  exists lp, (lq ++ [S b]). split_and!.
  - done.
  - apply Forall2_app; [done |]. constructor; [| constructor]. split.
    + by eapply hops_step.
    + intros m Hm. destruct (decide (m ≤ b)%nat) as [Hle | ?]; [| lia].
      exfalso. apply Hvis. by eapply Hnear.
  - done.
  - apply sorted_snoc; [done |]. intros c Hc. specialize (Hlq c Hc). lia.
  - done.
  - intros c [Hc | ->%list_elem_of_singleton]%elem_of_app; [by apply Hlq | lia].
  - intros x. rewrite elem_of_union, elem_of_singleton, Hv', elem_of_app,
      list_elem_of_singleton. tauto.
  - intros x m Hx Hm. apply elem_of_union_r. by eapply Hnear.
  - intros w ns x Hw Hg Hx. apply elem_of_union_r. by eapply Hdone.
Qed.

Lemma levels_neighbours b done popped u neighbours :
  hops adjList s u b → OMap.get adjList u = Some neighbours →
  ∀ todo queue visited animations,
    (∀ v, v ∈ todo → v ∈ neighbours) →
    Levels b done popped queue visited →
    let '(queue', visited', animations') :=
      foldl bfs_neighbour (queue, visited, animations) todo in
    Levels b done popped queue' visited' ∧
    visit_nodes animations' = visit_nodes animations ∧
    (∀ v, v ∈ todo → v ∈ visited') ∧ visited ⊆ visited'.
Proof.
  intros Hu Hget. induction todo as [|v todo IH];
    intros queue visited animations Hsub Hl; cbn [foldl].
  - split_and!; [done | done | | done]. intros v Hv. by apply elem_of_nil in Hv.
  - pose proof (levels_neighbour b done popped u neighbours queue visited
                  animations v Hu Hget ltac:(apply Hsub; by left) Hl) as Hstep.
    destruct (bfs_neighbour (queue, visited, animations) v) as [[q1 v1] a1].
    destruct Hstep as (Hl1 & Hvn1 & Hv1 & Hsub1).
    specialize (IH q1 v1 a1 ltac:(intros x Hx; apply Hsub; by right) Hl1).
    destruct (foldl bfs_neighbour (q1, v1, a1) todo) as [[q2 v2] a2].
    destruct IH as (Hl2 & Hvn2 & Hall & Hsub2).
    split_and!; [done | congruence | | set_solver].
    intros x [-> | Hx]%elem_of_cons; [set_solver | by apply Hall].
Qed.

(** The neighbours of the node taken last have all been read. *)
Lemma levels_done b done u queue visited :
  Levels b done (done ++ [u]) queue visited →
  (∀ neighbours v, OMap.get adjList u = Some neighbours → v ∈ neighbours →
                   v ∈ visited) →
  Levels b (done ++ [u]) (done ++ [u]) queue visited.
Proof.
  intros (lp & lq & Hp & Hq & Hsp & Hsq & Hlp & Hlq & Hv & Hnear & Hdone) Hu.
  exists lp, lq. split_and!; try done.
  intros w ns v [Hw | ->%list_elem_of_singleton]%elem_of_app Hg Hin.
  - by eapply Hdone.
  - by eapply Hu.
Qed.

Lemma bfs_loop_levels fuel : ∀ lu queue visited animations animations',
  bfs_loop fuel adjList queue visited animations = Some animations' →
  Levels lu (visit_nodes animations) (visit_nodes animations) queue visited →
  ∃ lu' visited',
    Levels lu' (visit_nodes animations') (visit_nodes animations') []
      visited'.
Proof.
  induction fuel as [|fuel IH]; intros lu queue visited animations a' Hrun Hl;
    [done |].
  simpl in Hrun. destruct queue as [|u queue].
  { injection Hrun as <-. by exists lu, visited. }
  destruct (levels_pop lu _ u queue visited Hl) as (b & Hu & Hl1).
  assert (visit_nodes (animations ++ [visit_node u])
          = visit_nodes animations ++ [u]) as Hvn
    by (by rewrite TraversalFacts.visit_nodes_app).
  destruct (OMap.get adjList u) as [ns|] eqn:Hget.
  - pose proof (levels_neighbours b (visit_nodes animations)
                  (visit_nodes animations ++ [u]) u ns Hu Hget ns queue
                  visited (animations ++ [visit_node u]) ltac:(done) Hl1)
      as Hfold.
    destruct (foldl bfs_neighbour _ ns) as [[q2 v2] a2].
    destruct Hfold as (Hl2 & Hvn2 & Hall & _).
    rewrite Hvn in Hvn2.
    apply (IH b q2 v2 a2 a' Hrun). rewrite Hvn2.
    apply levels_done; [done |].
    intros ns' v Hg. rewrite Hget in Hg. injection Hg as <-. apply Hall.
  - apply (IH b queue visited _ a' Hrun). rewrite Hvn.
    apply levels_done; [done |]. intros ns' v Hg. by rewrite Hget in Hg.
Qed.

End Levels.
End BfsLevels.

(** X26. Breadth-first traversal visits the nodes in the order of their
    distances from the start node: in the trace of [bfs], the least
    numbers of neighbour links that lead from the start node to the nodes
    of the [visit_node] events never decrease from one event to the
    next. *)
Theorem bfs_visits_by_distance
    (adjList : Graph.OMap.t (list string)) (startNode : string) :
  ∃ t ls,
    GraphTraversal.bfs adjList startNode (GraphTraversal.enough_fuel adjList)
      = Some ([GraphTraversal.visit_start startNode] ++ t ++
              [GraphTraversal.complete]) ∧
    Forall2 (distance adjList startNode) (GraphTraversal.visit_nodes t) ls ∧
    StronglySorted le ls.
Proof.
  unfold GraphTraversal.bfs.
  destruct (TraversalFacts.worklist_loop_spec (λ v w, w ++ [v])
              GraphTraversal.queue_node id) with
    (adjList := adjList) (startNode := startNode)
    (fuel := GraphTraversal.enough_fuel adjList)
    (work := [startNode]) (visited := ({[startNode]} : gset string))
    (animations := [GraphTraversal.visit_start startNode])
    as (vis & a & Hrun & _ & t & ->).
  - intros v w. by rewrite <- Permutation_cons_append.
  - done.
  - done.
  - apply TraversalFacts.initial_inv.
  - apply TraversalFacts.initial_fuel.
  - rewrite <- TraversalFacts.bfs_loop_worklist in Hrun.
    destruct (BfsLevels.bfs_loop_levels adjList startNode _ 0%nat _ _ _ _ Hrun
                (BfsLevels.levels_init adjList startNode))
      as (lu & vis' & lp & lq & Hp & _ & Hsp & _).
    rewrite Hrun. simpl. exists t, lp. split; [done |].
    rewrite TraversalFacts.visit_nodes_app in Hp. by simpl in Hp.
Qed.

(** ** The comparisons of bubble sort and selection sort *)

Module CountFacts.

Lemma count_events_app t l1 l2 :
  count_events t (l1 ++ l2) = (count_events t l1 + count_events t l2)%nat.
Proof. unfold count_events. by rewrite filter_app, length_app. Qed.

Lemma count_events_snoc t l a :
  count_events t (l ++ [a])
  = (count_events t l + if decide (type a = t) then 1 else 0)%nat.
Proof.
  rewrite count_events_app. f_equal. unfold count_events.
  rewrite filter_cons, filter_nil. by case_decide.
Qed.

Local Abbreviation compares l := (Z.of_nat (count_events compare l)).

Section Count.
Context {elem : Type} (val : elem → Z) (array : list elem) (o : sort_order).

Lemma bubbleSort_compares :
  2 * compares (animations (bubbleSort val array o))
  = Arr.len array * (Arr.len array - 1).
Proof.
  unfold bubbleSort. set (n := Arr.len array).
  destruct (for_range 0 (n - 1) _ _) as [arr anims] eqn:Hloop.
  cbn [animations]. rewrite count_events_snoc. simpl.
  rewrite Nat.add_0_r.
  destruct (Z.le_gt_cases 1 n) as [Hn | Hn].
  2: { rewrite for_range_done in Hloop by lia. injection Hloop as <- <-.
       assert (n = 0) as -> by (unfold n, Arr.len in *; lia). done. }
  change anims with (arr, anims).2. rewrite <- Hloop. clear Hloop.
  replace (n * (n - 1)) with ((n - 1) * (2 * n - (n - 1) - 1)) by lia.
  apply (for_range_ind
           (λ i (st : list elem * list animation),
              2 * compares st.2 = i * (2 * n - i - 1))); [lia | done |].
  intros i [a t] Hi Hst. simpl in Hst.
  destruct (for_range 0 (n - i - 1) _ _) as [a' t'] eqn:Hin.
  cbn [snd]. rewrite count_events_snoc. simpl. rewrite Nat.add_0_r.
  assert (compares t' = compares t + (n - i - 1)) as ->; [| lia].
  change t' with (a', t').2. rewrite <- Hin. clear Hin.
  replace (n - i - 1) with (n - i - 1 - 0) at 2 by lia.
  apply (for_range_ind
           (λ j (st : list elem * list animation),
              compares st.2 = compares t + (j - 0))); [lia | simpl; lia |].
  intros j [a1 t1] Hj Hst1. simpl in Hst1.
  destruct (ord_gt o _ _); cbn [snd];
    rewrite !count_events_snoc; simpl; lia.
Qed.

Lemma selectionSort_compares :
  2 * compares (animations (selectionSort val array o))
  = Arr.len array * (Arr.len array - 1).
Proof.
  unfold selectionSort. set (n := Arr.len array).
  destruct (for_range 0 n _ _) as [arr anims] eqn:Hloop.
  cbn [animations]. rewrite count_events_snoc. simpl.
  rewrite Nat.add_0_r.
  change anims with (arr, anims).2. rewrite <- Hloop. clear Hloop.
  replace (n * (n - 1)) with (n * (2 * n - n - 1)) by lia.
  apply (for_range_ind
           (λ i (st : list elem * list animation),
              2 * compares st.2 = i * (2 * n - i - 1)));
    [unfold n, Arr.len; lia | done |].
  intros i [a t] Hi Hst. simpl in Hst.
  destruct (for_range (i + 1) n _ _) as [m t'] eqn:Hin.
  assert (compares t' = compares t + (n - (i + 1))) as Ht'.
  { change t' with (m, t').2. rewrite <- Hin. clear Hin.
    apply (for_range_ind
             (λ j (st : Z * list animation),
                compares st.2 = compares t + (j - (i + 1)))); [lia | |].
    - cbn [snd]. rewrite count_events_snoc. simpl. lia.
    - intros j [m1 t1] Hj Hst1. simpl in Hst1.
      destruct (ord_gt o _ _); cbn [snd];
        rewrite !count_events_snoc; simpl; lia. }
  destruct (negb (m =? i)); cbn [snd];
    rewrite !count_events_snoc; simpl; lia.
Qed.

End Count.
End CountFacts.

(** X28. Bubble sort and selection sort compare [n (n - 1) / 2] times on
    an array of [n] elements, whatever the elements and the order are:
    the traces hold that many [compare] events, also for an array that
    is sorted already, bubble sort having no early exit. *)
Theorem bubble_and_selection_sort_compare_count
    (array : list Z) (sortOrder : sort_order) :
  2 * Z.of_nat (count_events compare (animations (bubbleSort id array sortOrder)))
  = Arr.len array * (Arr.len array - 1) ∧
  2 * Z.of_nat
        (count_events compare (animations (selectionSort id array sortOrder)))
  = Arr.len array * (Arr.len array - 1).
Proof.
  split.
  - apply CountFacts.bubbleSort_compares.
  - apply CountFacts.selectionSort_compares.
Qed.
